(** * A hex-radix Merkle Patricia Trie: shallow embedding and checked properties

    The development follows the two Go packages of the repository:
    - package [trie] (src/trie.go): the node model, its serialization and
      the cached hashes;
    - package [merkle_patricia_trie]: Insert, Delete and FindMerklePath.

    Go pointers to nodes are embedded as a strict tree: every node is owned
    by its parent, so a call that mutates a child through its pointer is a
    function from the child to the child after the call, and the caller
    stores the result back in the field the pointer came from.  A Go
    function that can return an error or panic has a three-way result. *)

From Stdlib Require Import Strings.String Strings.Byte NArith List Lia.
From stdpp Require Import base list option.

Local Open Scope string_scope.
Local Open Scope list_scope.

(** ** Go values *)

(** A Go [string] and a Go [[]byte] are both byte sequences; a nil slice is
    the empty sequence. *)
Abbreviation gostring := (list byte).
Abbreviation HashBlob := (list byte).

#[global] Instance byte_eq_decision : EqDecision byte.
Proof.
  intros x y. destruct (Byte.eqb x y) eqn:E.
  - left. by apply byte_dec_bl.
  - right. by apply eqb_false.
Defined.

Definition str (s : string) : gostring := list_byte_of_string s.

(** Errors, one constructor per [fmt.Errorf] / [errors.Wrap] of the source. *)
Inductive error : Type :=
  | ErrKeyLength                       (* length of key must be positive *)
  | ErrStringLength                    (* length of the string must be positive *)
  | ErrNoCommonPrefix                  (* no common prefix *)
  | ErrKeyExists (key : gostring)      (* Key '%s' already exists *)
  | ErrDeleteKeyNotFound               (* deleteKey is not found *)
  | ErrValueObjectNotFound             (* ValueObject not found *)
  | ErrNotFoundUnderBranch (c : byte)  (* ValueObject not found under branch = <%c> *)
  | ErrKeyEmpty                        (* key is empty *)
  | ErrDuplicateIndex                  (* two children have duplicate index *)
  | ErrChildExists (c : byte)          (* Append: child node already exists at '%c' *)
  | ErrChildMissing (c : byte)         (* Delete: child node does not exist at '%c' *)
  | ErrDigest (msg : string)           (* whatever the injected digest reports *)
  | ErrWrap (msg : string) (cause : error).

(** Result of a call that leaves no receiver behind. *)
Inductive res (A : Type) : Type :=
  | Val (a : A)
  | Fail (e : error)
  | Abort (msg : string).
Arguments Val {A} a.
Arguments Fail {A} e.
Arguments Abort {A} msg.

(** Result of a method on a receiver of type [S]: the receiver after the
    call comes with the value or with the error; a panic halts. *)
Inductive run (S A : Type) : Type :=
  | Ok (a : A) (s : S)
  | Err (e : error) (s : S)
  | Panic (msg : string).
Arguments Ok {S A} a s.
Arguments Err {S A} e s.
Arguments Panic {S A} msg.

#[global] Instance res_ret : MRet res := fun _ a => Val a.
#[global] Instance res_bind : MBind res := fun _ _ f m =>
  match m with
  | Val a => f a
  | Fail e => Fail e
  | Abort msg => Abort msg
  end.

(** [s[i]] on a Go string or slice: a run-time panic when out of range. *)
Definition index {A} (s : list A) (i : nat) : res A :=
  match s !! i with
  | Some c => Val c
  | None => Abort "index out of range"
  end.

(** The injected digest, [crypto.Hash]. *)
Definition crypto_Hash : Type := list byte -> res HashBlob.

(** ** encoding/gob

    The framing the Go standard library's gob encoder gives a top-level
    [string] or [[]byte]: a message is its byte count, the type id (6 for
    string, 5 for []byte) as a signed integer, a zero field delta, and the
    value as its length followed by its bytes.  Unsigned integers below 128
    take one byte, larger ones the negated byte count followed by the
    big-endian bytes. *)
Module gob.

Inductive value : Type :=
  | String (s : gostring)
  | Bytes (b : list byte).

Definition byte_of (n : N) : byte :=
  match Byte.of_N (n mod 256) with
  | Some b => b
  | None => Byte.x00
  end.

Fixpoint big_endian (fuel : nat) (n : N) (acc : list byte) : list byte :=
  match fuel with
  | O => acc
  | S fuel' =>
      if (n =? 0)%N then acc
      else big_endian fuel' (n / 256)%N (byte_of n :: acc)
  end.

Definition encodeUint (n : N) : list byte :=
  if (n <? 128)%N then [byte_of n]
  else
    let bs := big_endian 8 n [] in
    byte_of (256 - N.of_nat (length bs)) :: bs.

Definition encodeInt (i : N) : list byte := encodeUint (2 * i).

Definition typeId (v : value) : N :=
  match v with
  | String _ => 6
  | Bytes _ => 5
  end%N.

Definition payload (v : value) : list byte :=
  match v with
  | String s => s
  | Bytes b => b
  end.

Definition message (v : value) : list byte :=
  let body := encodeInt (typeId v) ++ [Byte.x00]
              ++ encodeUint (N.of_nat (length (payload v))) ++ payload v in
  encodeUint (N.of_nat (length body)) ++ body.

(** [encoder.Encode(v)] appends one message to the buffer [w]. *)
Definition Encode (v : value) (w : list byte) : list byte := w ++ message v.

(** What a sequence of [Encode] calls leaves in a fresh buffer. *)
Definition stream (vs : list value) : list byte := foldl (fun w v => Encode v w) [] vs.

End gob.

(** ** The digest of the tests

    The tests inject SHA-256 (FIPS 180-4) behind [crypto.Hash].  Its round
    constants are the fractional parts of the cube roots of the first 64
    primes, its initial state those of the square roots of the first 8. *)
Module sha256.
Local Open Scope N_scope.

Definition w32 (x : N) : N := x mod 4294967296.
Definition add32 (x y : N) : N := w32 (x + y).
Definition rotr (n x : N) : N := w32 (N.lor (N.shiftr x n) (N.shiftl x (32 - n))).
Definition not32 (x : N) : N := N.lxor x 4294967295.

Definition Ch (x y z : N) : N := N.lxor (N.land x y) (N.land (not32 x) z).
Definition Maj (x y z : N) : N :=
  N.lxor (N.lxor (N.land x y) (N.land x z)) (N.land y z).
Definition Sigma0 (x : N) : N := N.lxor (N.lxor (rotr 2 x) (rotr 13 x)) (rotr 22 x).
Definition Sigma1 (x : N) : N := N.lxor (N.lxor (rotr 6 x) (rotr 11 x)) (rotr 25 x).
Definition sigma0 (x : N) : N := N.lxor (N.lxor (rotr 7 x) (rotr 18 x)) (N.shiftr x 3).
Definition sigma1 (x : N) : N := N.lxor (N.lxor (rotr 17 x) (rotr 19 x)) (N.shiftr x 10).

Definition primes : list N :=
  [2; 3; 5; 7; 11; 13; 17; 19; 23; 29; 31; 37; 41; 43; 47; 53;
   59; 61; 67; 71; 73; 79; 83; 89; 97; 101; 103; 107; 109; 113; 127; 131;
   137; 139; 149; 151; 157; 163; 167; 173; 179; 181; 191; 193; 197; 199; 211; 223;
   227; 229; 233; 239; 241; 251; 257; 263; 269; 271; 277; 281; 283; 293; 307; 311].

(** Largest [r] below [2^bits] with [r^3 <= n], found bit by bit. *)
Fixpoint cbrt_bits (bits : nat) (n r : N) : N :=
  match bits with
  | O => r
  | S b =>
      let r' := N.lor r (N.shiftl 1 (N.of_nat b)) in
      cbrt_bits b n (if r' * r' * r' <=? n then r' else r)
  end.

Definition K : list N :=
  Eval vm_compute in map (fun p => w32 (cbrt_bits 36 (p * 2 ^ 96) 0)) primes.

Definition H0 : list N :=
  Eval vm_compute in map (fun p => w32 (N.sqrt (p * 2 ^ 64))) (take 8 primes).


Definition byte_of (n : N) : byte :=
  match Byte.of_N (n mod 256) with
  | Some b => b
  | None => Byte.x00
  end.

Definition word_bytes (x : N) : list byte :=
  [byte_of (N.shiftr x 24); byte_of (N.shiftr x 16); byte_of (N.shiftr x 8); byte_of x].

Definition bytes_word (bs : list byte) : N :=
  fold_left (fun acc b => acc * 256 + Byte.to_N b) bs 0.

(** Padding: the bit 1, zero bytes up to 56 modulo 64, the bit length on
    eight bytes. *)
Definition pad (msg : list byte) : list byte :=
  let len := length msg in
  let zeros := ((119 - len mod 64) mod 64)%nat in
  let bits := 8 * N.of_nat len in
  msg ++ [Byte.x80] ++ replicate zeros Byte.x00
      ++ word_bytes (N.shiftr bits 32) ++ word_bytes (w32 bits).

Fixpoint chunks (fuel size : nat) (l : list byte) : list (list byte) :=
  match fuel with
  | O => []
  | S fuel' =>
      match l with
      | [] => []
      | _ => take size l :: chunks fuel' size (drop size l)
      end
  end.

(** The message schedule, latest word first. *)
Fixpoint schedule (n : nat) (w : list N) : list N :=
  match n with
  | O => w
  | S n' =>
      let at_ i := nth i w 0 in
      schedule n'
        (add32 (add32 (sigma1 (at_ 1%nat)) (at_ 6%nat))
               (add32 (sigma0 (at_ 14%nat)) (at_ 15%nat)) :: w)
  end.

Definition state : Type := N * N * N * N * N * N * N * N.

Definition round (s : state) (kw : N * N) : state :=
  let '(a, b, c, d, e, f, g, h) := s in
  let t1 := add32 (add32 (add32 h (Sigma1 e)) (add32 (Ch e f g) (fst kw))) (snd kw) in
  let t2 := add32 (Sigma0 a) (Maj a b c) in
  (add32 t1 t2, a, b, c, add32 d t1, e, f, g).

Definition compress (s : state) (block : list byte) : state :=
  let w16 := map bytes_word (chunks 16 4 block) in
  let w := rev (schedule 48 (rev w16)) in
  let '(a, b, c, d, e, f, g, h) := s in
  let '(a', b', c', d', e', f', g', h') := fold_left round (zip K w) s in
  (add32 a a', add32 b b', add32 c c', add32 d d',
   add32 e e', add32 f f', add32 g g', add32 h h').

Definition initial : state :=
  (nth 0 H0 0, nth 1 H0 0, nth 2 H0 0, nth 3 H0 0,
   nth 4 H0 0, nth 5 H0 0, nth 6 H0 0, nth 7 H0 0).

Definition Sum256 (msg : list byte) : list byte :=
  let padded := pad msg in
  let '(a, b, c, d, e, f, g, h) :=
    fold_left compress (chunks (length padded) 64 padded) initial in
  flat_map word_bytes [a; b; c; d; e; f; g; h].

End sha256.

Definition sha256Hash : crypto_Hash := fun s => Val (sha256.Sum256 s).

(** ** Package trie (src/trie.go) *)

Definition ChildIndexCount : nat := 16.

(** [ValueObject]: the wrapper around the caller's bytes. *)
Record valueObject : Type := NewValueObject { Value : list byte }.

(** [nodeExtension], the [Node] interface (nil, an Extension or a Branch)
    and [nodeBranch].  The first field of both structs is [nodeBase.hash]. *)
Inductive nodeExtension : Type :=
  | mkExtension (hash : HashBlob) (key : gostring) (next : Node)
                (value : option valueObject)
with Node : Type :=
  | NilNode
  | ExtensionNode (e : nodeExtension)
  | BranchNode (b : nodeBranch)
with nodeBranch : Type :=
  | mkBranch (hash : HashBlob) (children : list (option nodeExtension)).


(** [nodeBase.Hash]: the cached hash, or a panic while it is still empty. *)
Definition nodeBase_Hash (hash : HashBlob) : res HashBlob :=
  if decide (length hash = 0) then Abort "Hash is empty" else Val hash.

(** [n.Hash()] through the [Node] interface. *)
Definition Node_Hash (n : Node) : res HashBlob :=
  match n with
  | NilNode => Abort "nil pointer dereference"
  | ExtensionNode (mkExtension h _ _ _) => nodeBase_Hash h
  | BranchNode (mkBranch h _) => nodeBase_Hash h
  end.

Definition toChildIndex (ch : byte) : res nat :=
  let c := Byte.to_N ch in
  if ((Byte.to_N "0" <=? c) && (c <=? Byte.to_N "9"))%N then
    Val (N.to_nat (c - Byte.to_N "0"))
  else if ((Byte.to_N "a" <=? c) && (c <=? Byte.to_N "f"))%N then
    Val (N.to_nat (c - Byte.to_N "a"))
  else Abort "Invalid child index".

Module Extension.

Definition hash (node : nodeExtension) : HashBlob :=
  match node with mkExtension h _ _ _ => h end.
Definition Key (node : nodeExtension) : gostring :=
  match node with mkExtension _ k _ _ => k end.
Definition Next (node : nodeExtension) : Node :=
  match node with mkExtension _ _ n _ => n end.
Definition ValueObject (node : nodeExtension) : option valueObject :=
  match node with mkExtension _ _ _ v => v end.

Definition Hash (node : nodeExtension) : res HashBlob := nodeBase_Hash (hash node).

Definition HasNext (node : nodeExtension) : bool :=
  match Next node with NilNode => false | _ => true end.
Definition HasValueObject (node : nodeExtension) : bool :=
  match ValueObject node with None => false | Some _ => true end.

Definition setHash (h : HashBlob) (node : nodeExtension) : nodeExtension :=
  mkExtension h (Key node) (Next node) (ValueObject node).
Definition SetKey (key : gostring) (node : nodeExtension) : res nodeExtension :=
  if decide (length key = 0) then Abort "Cannot set empty key"
  else Val (mkExtension (hash node) key (Next node) (ValueObject node)).
Definition SetNext (n : Node) (node : nodeExtension) : nodeExtension :=
  mkExtension (hash node) (Key node) n (ValueObject node).
Definition SetValueObject (v : option valueObject) (node : nodeExtension) : nodeExtension :=
  mkExtension (hash node) (Key node) (Next node) v.

Definition Serialize (node : nodeExtension) : res (list byte) :=
  let w := gob.Encode (gob.String (str "E")) [] in
  let w := gob.Encode (gob.String (Key node)) w in
  w ← (if HasNext node then
         let w := gob.Encode (gob.String (str "C")) w in
         h ← Node_Hash (Next node);
         mret (gob.Encode (gob.Bytes h) w)
       else mret (gob.Encode (gob.Bytes (str "NC")) w));
  match ValueObject node with
  | Some v =>
      let w := gob.Encode (gob.String (str "V")) w in
      mret (gob.Encode (gob.Bytes (Value v)) w)
  | None => mret (gob.Encode (gob.String (str "NV")) w)
  end.

Definition UpdateHash (hs : crypto_Hash) (node : nodeExtension) : run nodeExtension unit :=
  match Serialize node with
  | Abort msg => Panic msg
  | Fail e => Err (ErrWrap "updateHash failed" e) node
  | Val s =>
      match hs s with
      | Abort msg => Panic msg
      | Fail e => Err (ErrWrap "updateHash failed" e) node
      | Val r => Ok tt (setHash r node)
      end
  end.

End Extension.

Module Branch.

Definition hash (node : nodeBranch) : HashBlob :=
  match node with mkBranch h _ => h end.
Definition ListChildren (node : nodeBranch) : list (option nodeExtension) :=
  match node with mkBranch _ c => c end.

Definition Hash (node : nodeBranch) : res HashBlob := nodeBase_Hash (hash node).

Definition setHash (h : HashBlob) (node : nodeBranch) : nodeBranch :=
  mkBranch h (ListChildren node).
Definition setChildren (c : list (option nodeExtension)) (node : nodeBranch) : nodeBranch :=
  mkBranch (hash node) c.

(** [node.children[i] = c]. *)
Definition store (i : nat) (c : option nodeExtension) (node : nodeBranch) : res nodeBranch :=
  if decide (i < length (ListChildren node)) then
    Val (setChildren (<[i := c]> (ListChildren node)) node)
  else Abort "index out of range".

(** The loop of [Serialize] over [node.ListChildren()]. *)
Fixpoint encodeChildren (children : list (option nodeExtension)) (w : list byte)
  : res (list byte) :=
  match children with
  | [] => Val w
  | Some child :: rest =>
      let w := gob.Encode (gob.String (str "C")) w in
      h ← Extension.Hash child;
      encodeChildren rest (gob.Encode (gob.Bytes h) w)
  | None :: rest => encodeChildren rest (gob.Encode (gob.String (str "NC")) w)
  end.

Definition Serialize (node : nodeBranch) : res (list byte) :=
  encodeChildren (ListChildren node) (gob.Encode (gob.String (str "B")) []).

Definition UpdateHash (hs : crypto_Hash) (node : nodeBranch) : run nodeBranch unit :=
  match Serialize node with
  | Abort msg => Panic msg
  | Fail e => Err (ErrWrap "UpdateHash() failed" e) node
  | Val s =>
      match hs s with
      | Abort msg => Panic msg
      | Fail e => Err (ErrWrap "UpdateHash() failed" e) node
      | Val r => Ok tt (setHash r node)
      end
  end.

Definition HasChildAt (c : byte) (node : nodeBranch) : res bool :=
  i ← toChildIndex c;
  child ← index (ListChildren node) i;
  mret (match child with Some _ => true | None => false end).

Definition ChildAt (c : byte) (node : nodeBranch) : res (option nodeExtension) :=
  i ← toChildIndex c;
  index (ListChildren node) i.

Definition Append (n : nodeExtension) (node : nodeBranch) : res nodeBranch :=
  c ← index (Extension.Key n) 0;
  i ← toChildIndex c;
  child ← index (ListChildren node) i;
  match child with
  | Some _ => Fail (ErrChildExists c)
  | None => store i (Some n) node
  end.

Definition Delete (c : byte) (node : nodeBranch) : res nodeBranch :=
  i ← toChildIndex c;
  child ← index (ListChildren node) i;
  match child with
  | None => Fail (ErrChildMissing c)
  | Some _ => store i None node
  end.

(** The loops of [Count] and [First] over [node.children]. *)
Fixpoint countFrom (children : list (option nodeExtension)) (c : nat) : nat :=
  match children with
  | [] => c
  | Some _ :: rest => countFrom rest (S c)
  | None :: rest => countFrom rest c
  end.

Fixpoint firstFrom (children : list (option nodeExtension)) : option nodeExtension :=
  match children with
  | [] => None
  | Some child :: _ => Some child
  | None :: rest => firstFrom rest
  end.

Definition Count (node : nodeBranch) : nat := countFrom (ListChildren node) 0.

Definition First (node : nodeBranch) : option nodeExtension :=
  firstFrom (ListChildren node).

End Branch.

(** [if err != nil { return err }] around a call that leaves the receiver
    [s] as it is; a panic of the call goes on. *)
Definition try {S A B} (r : res A) (s : S) (k : A -> run S B) : run S B :=
  match r with
  | Val a => k a
  | Fail e => Err e s
  | Abort msg => Panic msg
  end.

Definition NewNodeExtension (key : gostring) (next : Node) (vo : option valueObject)
    (hs : crypto_Hash) : res nodeExtension :=
  let n := mkExtension [] key next vo in
  match Extension.UpdateHash hs n with
  | Ok _ n => Val n
  | Err e _ => Fail e
  | Panic msg => Abort msg
  end.

Definition NewNodeBranch : nodeBranch := mkBranch [] (replicate ChildIndexCount None).

Definition NewNodeBranchWithChildren (a b : nodeExtension) (hs : crypto_Hash)
    : res nodeBranch :=
  let n := mkBranch [] (replicate ChildIndexCount None) in
  if bool_decide (length (Extension.Key a) = 0) || bool_decide (length (Extension.Key b) = 0)
  then Fail ErrKeyEmpty
  else
    ca ← index (Extension.Key a) 0;
    cb ← index (Extension.Key b) 0;
    if decide (ca = cb) then Fail ErrDuplicateIndex
    else
      ia ← toChildIndex ca;
      n ← Branch.store ia (Some a) n;
      ib ← toChildIndex cb;
      n ← Branch.store ib (Some b) n;
      match Branch.UpdateHash hs n with
      | Ok _ n => Val n
      | Err e _ => Fail e
      | Panic msg => Abort msg
      end.

(** ** Package merkle_patricia_trie *)

Module hex.

Definition hextable : list byte := str "0123456789abcdef".

Definition digit (n : N) : byte := nth (N.to_nat n) hextable Byte.x00.

(** [hex.EncodeToString]: two lowercase digits for each byte. *)
Fixpoint EncodeToString (src : list byte) : gostring :=
  match src with
  | [] => []
  | v :: rest =>
      digit (Byte.to_N v / 16) :: digit (Byte.to_N v mod 16) :: EncodeToString rest
  end.

End hex.

Record MerkleSet : Type := mkMerkleSet { hashes : list HashBlob }.

(** Direct path from leaf to root. *)
Definition MerklePath : Type := list MerkleSet.

Definition min (a b : nat) : nat := if decide (a < b) then a else b.

(** The loop [for i := 1; i < minLen; i++] of [commonPrefix], with [steps]
    rounds to go. *)
Definition commonPrefix_loop (a b : gostring) (minLen : nat) : nat -> nat -> gostring :=
  fix loop (steps i : nat) : gostring :=
    match steps with
    | O => take minLen a
    | S steps' =>
        if decide (a !! i = b !! i) then loop steps' (S i) else take i a
    end.

Definition commonPrefix (a b : gostring) : res gostring :=
  if bool_decide (length a = 0) || bool_decide (length b = 0) then Fail ErrStringLength
  else
    let minLen := min (length a) (length b) in
    if decide (a !! 0 = b !! 0) then Val (commonPrefix_loop a b minLen (minLen - 1) 1)
    else Fail ErrNoCommonPrefix.

(** What a [Branch] slot answers to a call [f] on the child it holds. *)
Inductive slot (R : Type) : Type :=
  | OutOfRange
  | Vacant
  | Held (r : R).
Arguments OutOfRange {R}.
Arguments Vacant {R}.
Arguments Held {R} r.

(** [f(node.ChildAt(c))] where [i] is the index of [c]: the child found
    there, if any, is the argument of [f]. *)
Definition atChild {R} (f : nodeExtension -> R)
    : list (option nodeExtension) -> nat -> slot R :=
  fix go (children : list (option nodeExtension)) (i : nat) : slot R :=
    match children with
    | [] => OutOfRange
    | child :: rest =>
        match i with
        | O => match child with
               | Some e => Held (f e)
               | None => Vacant
               end
        | S j => go rest j
        end
    end.

(** The child at slot [i] after a call went through its pointer. *)
Definition setChild (i : nat) (child : nodeExtension) (node : nodeBranch) : nodeBranch :=
  Branch.setChildren (<[i := Some child]> (Branch.ListChildren node)) node.

(** The loop of [merklePathInBranch] over [node.ListChildren()]: the hash of
    every child in slot order, nil for an empty slot. *)
Fixpoint childHashes (children : list (option nodeExtension)) (hs : list HashBlob)
    : res (list HashBlob) :=
  match children with
  | [] => Val hs
  | Some c :: rest => h ← Extension.Hash c; childHashes rest (hs ++ [h])
  | None :: rest => childHashes rest (hs ++ [[]])
  end.

Section Operations.

(** [mt.hs], the digest every method of the trie hashes with. *)
Variable hs : crypto_Hash.

Fixpoint insertToExtension (key : gostring) (valueObject : valueObject)
    (node : nodeExtension) {struct node} : run nodeExtension unit :=
  (* Current node key is the end of the inserting key *)
  if decide (key = Extension.Key node) then
    if Extension.HasValueObject node then Err (ErrKeyExists key) node
    else Extension.UpdateHash hs (Extension.SetValueObject (Some valueObject) node)
  else
    match commonPrefix (Extension.Key node) key with
    | Abort msg => Panic msg
    | Fail _ =>
        Panic "Key must have the common prefix which has at least one character."
    | Val prefix =>
        if decide (prefix = Extension.Key node) then
          (* 1. Extend *)
          let keyTail := drop (length prefix) key in
          match Extension.Next node with
          | NilNode =>
              try (NewNodeExtension keyTail NilNode (Some valueObject) hs) node
                (fun newTailNode =>
              Extension.UpdateHash hs
                (Extension.SetNext (ExtensionNode newTailNode) node))
          | ExtensionNode next =>
              try (index keyTail 0) node (fun c =>
              try (index (Extension.Key next) 0) node (fun cn =>
              if decide (c = cn) then
                match insertToExtension keyTail valueObject next with
                | Panic msg => Panic msg
                | Err e next => Err e (Extension.SetNext (ExtensionNode next) node)
                | Ok _ next =>
                    Extension.UpdateHash hs (Extension.SetNext (ExtensionNode next) node)
                end
              else
                try (NewNodeExtension keyTail NilNode (Some valueObject) hs) node
                  (fun newKeyNode =>
                try (NewNodeBranchWithChildren next newKeyNode hs) node
                  (fun newBranch =>
                Extension.UpdateHash hs
                  (Extension.SetNext (BranchNode newBranch) node)))))
          | BranchNode next =>
              match insertToBranch keyTail valueObject next with
              | Panic msg => Panic msg
              | Err e next => Err e (Extension.SetNext (BranchNode next) node)
              | Ok _ next =>
                  Extension.UpdateHash hs (Extension.SetNext (BranchNode next) node)
              end
          end
        else if decide (prefix = key) then
          let keyTail := drop (length prefix) (Extension.Key node) in
          try (NewNodeExtension keyTail (Extension.Next node)
                 (Extension.ValueObject node) hs) node (fun tailNode =>
          try (Extension.SetKey prefix node) node (fun node =>
          let node := Extension.SetNext (ExtensionNode tailNode) node in
          let node := Extension.SetValueObject (Some valueObject) node in
          Extension.UpdateHash hs node))
        else
          (* 2. Divide (Ext + Branch + Ext * 2) *)
          let nodeKeyTail := drop (length prefix) (Extension.Key node) in
          try (NewNodeExtension nodeKeyTail (Extension.Next node)
                 (Extension.ValueObject node) hs) node (fun nodeTailNode =>
          let newKeyTail := drop (length prefix) key in
          try (NewNodeExtension newKeyTail NilNode (Some valueObject) hs) node
            (fun newTailNode =>
          try (NewNodeBranchWithChildren nodeTailNode newTailNode hs) node
            (fun newBranch =>
          try (Extension.SetKey prefix node) node (fun node =>
          let node := Extension.SetNext (BranchNode newBranch) node in
          let node := Extension.SetValueObject None node in
          Extension.UpdateHash hs node))))
    end

with insertToBranch (key : gostring) (valueObject : valueObject)
    (node : nodeBranch) {struct node} : run nodeBranch unit :=
  try (index key 0) node (fun c =>
  try (toChildIndex c) node (fun i =>
  match atChild (insertToExtension key valueObject) (Branch.ListChildren node) i with
  | OutOfRange => Panic "index out of range"
  | Held r =>
      match r with
      | Panic msg => Panic msg
      | Err e child => Err e (setChild i child node)
      | Ok _ child => Branch.UpdateHash hs (setChild i child node)
      end
  | Vacant =>
      try (NewNodeExtension key NilNode (Some valueObject) hs) node (fun n =>
      try (Branch.Append n node) node (fun node =>
      Branch.UpdateHash hs node))
  end)).

(** [return b, call]: the value returned next to the error of [call]. *)
Definition returning {S A B} (b : B) (r : run S A) : run S B :=
  match r with
  | Ok _ s => Ok b s
  | Err e s => Err e s
  | Panic msg => Panic msg
  end.

(** A nil-able [NodeExtension] stored in a field of type [Node]. *)
Definition asNode (n : option nodeExtension) : Node :=
  match n with
  | Some e => ExtensionNode e
  | None => NilNode
  end.

Fixpoint deleteKeyInExtension (key : gostring) (node : nodeExtension) {struct node}
    : run nodeExtension bool :=
  (* Current node key is the end of the deleting key *)
  if decide (key = Extension.Key node) then
    if negb (Extension.HasValueObject node) then Err ErrDeleteKeyNotFound node
    else
      match Extension.Next node with
      | NilNode => Ok true node
      (* HasValueObject() && HasNext() *)
      | ExtensionNode next =>
          try (Extension.SetKey (Extension.Key node ++ Extension.Key next) node) node
            (fun node =>
          let node := Extension.SetValueObject (Extension.ValueObject next) node in
          let node := Extension.SetNext (Extension.Next next) node in
          returning false (Extension.UpdateHash hs node))
      | BranchNode _ => returning false (Extension.UpdateHash hs node)
      end
  else
    match commonPrefix (Extension.Key node) key with
    | Abort msg => Panic msg
    | Fail _ => Panic "no common prefix"
    | Val prefix =>
        if decide (prefix = key) then Err ErrValueObjectNotFound node
        else if negb (bool_decide (prefix = Extension.Key node)) then
          Err ErrValueObjectNotFound node
        else
          let keyTail := drop (length prefix) key in
          match Extension.Next node with
          | NilNode => Err ErrValueObjectNotFound node
          | ExtensionNode next =>
              try (index keyTail 0) node (fun c =>
              try (index (Extension.Key next) 0) node (fun cn =>
              if negb (bool_decide (c = cn)) then Err ErrValueObjectNotFound node
              else
                match deleteKeyInExtension keyTail next with
                | Panic msg => Panic msg
                | Err e next => Err e (Extension.SetNext (ExtensionNode next) node)
                | Ok false next =>
                    returning false
                      (Extension.UpdateHash hs
                         (Extension.SetNext (ExtensionNode next) node))
                | Ok true _ =>
                    let node := Extension.SetNext NilNode node in
                    if Extension.HasValueObject node then
                      returning false (Extension.UpdateHash hs node)
                    else Ok true node
                end))
          | BranchNode next =>
              match deleteKeyInBranch keyTail next with
              | Panic msg => Panic msg
              | Err e next => Err e (Extension.SetNext (BranchNode next) node)
              | Ok false next =>
                  returning false
                    (Extension.UpdateHash hs (Extension.SetNext (BranchNode next) node))
              | Ok true next =>
                  let newNext := Branch.First next in
                  if Extension.HasValueObject node then
                    returning false
                      (Extension.UpdateHash hs (Extension.SetNext (asNode newNext) node))
                  else
                    match newNext with
                    | None =>
                        Panic "newNext must not be nil because the deleting branch must have one child."
                    | Some newNext =>
                        try (Extension.SetKey
                               (Extension.Key node ++ Extension.Key newNext) node)
                          (Extension.SetNext (BranchNode next) node) (fun node =>
                        let node :=
                          Extension.SetValueObject (Extension.ValueObject newNext) node in
                        let node := Extension.SetNext (Extension.Next newNext) node in
                        returning false (Extension.UpdateHash hs node))
                    end
              end
          end
    end

with deleteKeyInBranch (key : gostring) (node : nodeBranch) {struct node}
    : run nodeBranch bool :=
  try (index key 0) node (fun c =>
  try (toChildIndex c) node (fun i =>
  match atChild (deleteKeyInExtension key) (Branch.ListChildren node) i with
  | OutOfRange => Panic "index out of range"
  | Vacant => Err (ErrNotFoundUnderBranch c) node
  | Held r =>
      match r with
      | Panic msg => Panic msg
      | Err e child => Err e (setChild i child node)
      | Ok false child =>
          returning false (Branch.UpdateHash hs (setChild i child node))
      | Ok true child =>
          let node := setChild i child node in
          try (Branch.Delete c node) node (fun node =>
          if decide (Branch.Count node = 1) then Ok true node
          else returning false (Branch.UpdateHash hs node))
      end
  end)).

(** [append(path, MerkleSet{[]trie.HashBlob{h}})]. *)
Definition appendHash (path : MerklePath) (h : HashBlob) : MerklePath :=
  path ++ [mkMerkleSet [h]].

Fixpoint merklePathInExtension (key : gostring) (node : nodeExtension) {struct node}
    : run nodeExtension MerklePath :=
  if decide (key = Extension.Key node) then
    if negb (Extension.HasValueObject node) then Err ErrValueObjectNotFound node
    else try (Extension.Hash node) node (fun h => Ok [mkMerkleSet [h]] node)
  else
    match commonPrefix (Extension.Key node) key with
    | Abort msg => Panic msg
    | Fail _ => Panic "no common prefix"
    | Val prefix =>
        if decide (prefix = key) then Err ErrValueObjectNotFound node
        else if negb (bool_decide (prefix = Extension.Key node)) then
          Err ErrValueObjectNotFound node
        else
          let keyTail := drop (length prefix) key in
          match Extension.Next node with
          | NilNode => Err ErrValueObjectNotFound node
          | ExtensionNode next =>
              try (index keyTail 0) node (fun c =>
              try (index (Extension.Key next) 0) node (fun cn =>
              if negb (bool_decide (c = cn)) then Err ErrValueObjectNotFound node
              else
                match merklePathInExtension keyTail next with
                | Panic msg => Panic msg
                | Err e next => Err e (Extension.SetNext (ExtensionNode next) node)
                | Ok path next =>
                    let node := Extension.SetNext (ExtensionNode next) node in
                    try (Extension.Hash node) node (fun h => Ok (appendHash path h) node)
                end))
          | BranchNode next =>
              match merklePathInBranch keyTail next with
              | Panic msg => Panic msg
              | Err e next => Err e (Extension.SetNext (BranchNode next) node)
              | Ok path next =>
                  let node := Extension.SetNext (BranchNode next) node in
                  try (Extension.Hash node) node (fun h => Ok (appendHash path h) node)
              end
          end
    end

with merklePathInBranch (key : gostring) (node : nodeBranch) {struct node}
    : run nodeBranch MerklePath :=
  try (index key 0) node (fun c =>
  try (toChildIndex c) node (fun i =>
  match atChild (merklePathInExtension key) (Branch.ListChildren node) i with
  | OutOfRange => Panic "index out of range"
  | Vacant => Err (ErrNotFoundUnderBranch c) node
  | Held r =>
      match r with
      | Panic msg => Panic msg
      | Err e child => Err e (setChild i child node)
      | Ok path child =>
          let node := setChild i child node in
          try (childHashes (Branch.ListChildren node) []) node (fun hs' =>
          Ok (path ++ [mkMerkleSet hs']) node)
      end
  end)).

End Operations.

Record MerklePatriciaTrie : Type := mkTrie { hs : crypto_Hash; root : nodeBranch }.

(** A call on [mt.root]: the root after the call is the root of [mt]. *)
Definition onRoot {A} (mt : MerklePatriciaTrie) (r : run nodeBranch A)
    : run MerklePatriciaTrie A :=
  match r with
  | Ok a b => Ok a (mkTrie (hs mt) b)
  | Err e b => Err e (mkTrie (hs mt) b)
  | Panic msg => Panic msg
  end.

Definition Insert (key value : list byte) (mt : MerklePatriciaTrie)
    : run MerklePatriciaTrie unit :=
  if decide (length key = 0) then Err ErrKeyLength mt
  else
    let ek := hex.EncodeToString key in
    let vo := NewValueObject value in
    match insertToBranch (hs mt) ek vo (root mt) with
    | Panic msg => Panic msg
    | Err e b => Err e (mkTrie (hs mt) b)
    | Ok _ b => onRoot mt (Branch.UpdateHash (hs mt) b)
    end.

Definition Delete (key : list byte) (mt : MerklePatriciaTrie)
    : run MerklePatriciaTrie unit :=
  if decide (length key = 0) then Err ErrKeyLength mt
  else
    let ek := hex.EncodeToString key in
    (* shouldDelete is ignored if branch node is root *)
    match deleteKeyInBranch (hs mt) ek (root mt) with
    | Panic msg => Panic msg
    | Err e b => Err (ErrWrap "failed to delete key" e) (mkTrie (hs mt) b)
    | Ok _ b => onRoot mt (Branch.UpdateHash (hs mt) b)
    end.

Definition FindMerklePath (key : list byte) (mt : MerklePatriciaTrie)
    : run MerklePatriciaTrie MerklePath :=
  if decide (length key = 0) then Err ErrKeyLength mt
  else
    let ek := hex.EncodeToString key in
    match merklePathInBranch ek (root mt) with
    | Panic msg => Panic msg
    | Err e b => Err e (mkTrie (hs mt) b)
    | Ok path b =>
        let mt := mkTrie (hs mt) b in
        try (Branch.Hash (root mt)) mt (fun h => Ok (appendHash path h) mt)
    end.

Definition NewMerklePatriciaTrie (hs : crypto_Hash) : res MerklePatriciaTrie :=
  let root := NewNodeBranch in
  match Branch.UpdateHash hs root with
  | Ok _ root => Val (mkTrie hs root)
  | Err _ _ => Abort "Cannot initialize the root hash."
  | Panic msg => Abort msg
  end.

(** [mt.root.Hash()], the root hash the tests compare. *)
Definition rootHash (mt : MerklePatriciaTrie) : res HashBlob := Branch.Hash (root mt).

(** ** Running the trie as the tests do *)

(** The root a call leaves, without the digest the trie carries. *)
Definition rootOf {A} (r : run MerklePatriciaTrie A) : run nodeBranch A :=
  match r with
  | Ok a mt => Ok a (root mt)
  | Err e mt => Err e (root mt)
  | Panic msg => Panic msg
  end.

(** Insert every pair, stopping at the first error as [t.Fatal] does. *)
Fixpoint insertAll (pairs : list (list byte * list byte)) (mt : MerklePatriciaTrie)
    : run MerklePatriciaTrie unit :=
  match pairs with
  | [] => Ok tt mt
  | (key, value) :: rest =>
      match Insert key value mt with
      | Ok _ mt => insertAll rest mt
      | failed => failed
      end
  end.

Fixpoint deleteAll (keys : list (list byte)) (mt : MerklePatriciaTrie)
    : run MerklePatriciaTrie unit :=
  match keys with
  | [] => Ok tt mt
  | key :: rest =>
      match Delete key mt with
      | Ok _ mt => deleteAll rest mt
      | failed => failed
      end
  end.

(** A fresh trie with the pairs inserted in the order of the list. *)
Definition build (hs : crypto_Hash) (pairs : list (list byte * list byte))
    : run MerklePatriciaTrie unit :=
  match NewMerklePatriciaTrie hs with
  | Val mt => insertAll pairs mt
  | Fail e => Panic "NewMerklePatriciaTrie"
  | Abort msg => Panic msg
  end.

(** [build], then the keys deleted in the order of the list. *)
Definition buildThenDelete (hs : crypto_Hash) (pairs : list (list byte * list byte))
    (keys : list (list byte)) : run MerklePatriciaTrie unit :=
  match build hs pairs with
  | Ok _ mt => deleteAll keys mt
  | failed => failed
  end.

(** The root hash a run ends with, when it ends well. *)
Definition finalRootHash (r : run MerklePatriciaTrie unit) : option HashBlob :=
  match r with
  | Ok _ mt =>
      match rootHash mt with
      | Val h => Some h
      | _ => None
      end
  | _ => None
  end.

(** ** The lookup path of a key

    The nodes a lookup of [key] goes through, leaf first: at a Branch the
    child in the slot of the first character, at an Extension the rest of
    the key once the Extension's own key is consumed, down to the Extension
    whose key is the whole rest and which holds a value. *)
Inductive visited : Type :=
  | VisitExtension (e : nodeExtension)
  | VisitBranch (b : nodeBranch).

Inductive extensionPath : nodeExtension -> gostring -> list visited -> Prop :=
  | path_here e key v :
      key = Extension.Key e ->
      Extension.ValueObject e = Some v ->
      extensionPath e key [VisitExtension e]
  | path_next_extension e n tail trail :
      Extension.Key e <> [] ->
      tail <> [] ->
      Extension.Next e = ExtensionNode n ->
      extensionPath n tail trail ->
      extensionPath e (Extension.Key e ++ tail) (trail ++ [VisitExtension e])
  | path_next_branch e b tail trail :
      Extension.Key e <> [] ->
      Extension.Next e = BranchNode b ->
      branchPath b tail trail ->
      extensionPath e (Extension.Key e ++ tail) (trail ++ [VisitExtension e])
with branchPath : nodeBranch -> gostring -> list visited -> Prop :=
  | path_child b c i e key trail :
      key !! 0 = Some c ->
      toChildIndex c = Val i ->
      Branch.ListChildren b !! i = Some (Some e) ->
      extensionPath e key trail ->
      branchPath b key (trail ++ [VisitBranch b]).

Scheme extensionPath_mut := Minimality for extensionPath Sort Prop
  with branchPath_mut := Minimality for branchPath Sort Prop.
Combined Scheme extensionPath_branchPath_mutind from extensionPath_mut, branchPath_mut.

(** A key is stored when a lookup path leads to it from the root. *)
Definition stored (mt : MerklePatriciaTrie) (key : list byte) : Prop :=
  exists trail, branchPath (root mt) (hex.EncodeToString key) trail.

Definition storedAt (b : nodeBranch) (key : list byte) : Prop :=
  exists trail, branchPath b (hex.EncodeToString key) trail.

(** What [FindMerklePath] is to return for the nodes of a lookup path: the
    hash of an Extension alone, the hashes of the children of a Branch in
    slot order, nil for an empty slot. *)
Definition slotHash (c : option nodeExtension) : HashBlob :=
  match c with
  | Some e => Extension.hash e
  | None => []
  end.

Definition merkleSetOf (v : visited) : MerkleSet :=
  match v with
  | VisitExtension e => mkMerkleSet [Extension.hash e]
  | VisitBranch b => mkMerkleSet (map slotHash (Branch.ListChildren b))
  end.

(** The hashes [FindMerklePath] reads at a node of the path are there. *)
Definition hashedVisit (v : visited) : Prop :=
  match v with
  | VisitExtension e => Extension.hash e <> []
  | VisitBranch b =>
      forall i e, Branch.ListChildren b !! i = Some (Some e) -> Extension.hash e <> []
  end.

(** ** What a call leaves behind *)

(** The receiver satisfies [P] after the call, whether a value or an error
    came back. *)
Definition ensures {S A} (P : S -> Prop) (r : run S A) : Prop :=
  match r with
  | Ok _ s => P s
  | Err _ s => P s
  | Panic _ => True
  end.

Definition unchanged {S A} (s : S) (r : run S A) : Prop := ensures (fun s' => s' = s) r.

(** The call returned, with a value or with an error, and left [s]. *)
Definition endsIn {S A} (r : run S A) (s : S) : Prop :=
  match r with
  | Ok _ s' => s' = s
  | Err _ s' => s' = s
  | Panic _ => False
  end.

(** A digest whose blobs have a width: it never answers the empty blob. *)
Definition properDigest (hs : crypto_Hash) : Prop :=
  forall s h, hs s = Val h -> h <> [].

(** The tries the programmatic surface can produce with the digest [hs]. *)
Inductive reachable (hs : crypto_Hash) : MerklePatriciaTrie -> Prop :=
  | reach_new mt :
      NewMerklePatriciaTrie hs = Val mt -> reachable hs mt
  | reach_insert mt key value mt' :
      reachable hs mt -> endsIn (Insert key value mt) mt' -> reachable hs mt'
  | reach_delete mt key mt' :
      reachable hs mt -> endsIn (Delete key mt) mt' -> reachable hs mt'.

(** ** Every node carries a hash, every Branch its 16 slots *)

Definition hasHash (h : HashBlob) : bool :=
  match h with
  | [] => false
  | _ => true
  end.

Definition soundSlots (sound : nodeExtension -> bool) (cs : list (option nodeExtension))
    : bool :=
  bool_decide (length cs = ChildIndexCount) &&
  forallb (fun c => match c with Some e => sound e | None => true end) cs.

Fixpoint soundExtension (e : nodeExtension) : bool :=
  match e with
  | mkExtension h _ n _ =>
      hasHash h &&
      match n with
      | NilNode => true
      | ExtensionNode e' => soundExtension e'
      | BranchNode (mkBranch h' cs) => hasHash h' && soundSlots soundExtension cs
      end
  end.

Definition soundBranch (b : nodeBranch) : bool :=
  match b with
  | mkBranch h cs => hasHash h && soundSlots soundExtension cs
  end.

Definition soundNode (n : Node) : bool :=
  match n with
  | NilNode => true
  | ExtensionNode e => soundExtension e
  | BranchNode b => soundBranch b
  end.

Definition soundVisit (v : visited) : Prop :=
  match v with
  | VisitExtension e => soundExtension e = true
  | VisitBranch b => soundBranch b = true
  end.

(** A Branch whose own hash is still to be computed. *)
Definition soundChildren (b : nodeBranch) : Prop :=
  length (Branch.ListChildren b) = ChildIndexCount /\
  forall i e, Branch.ListChildren b !! i = Some (Some e) -> soundExtension e = true.

Abbreviation soundE := (fun e' : nodeExtension => soundExtension e' = true).
Abbreviation soundB := (fun b' : nodeBranch => soundBranch b' = true).

(** ** The published pre-image format (specification, section 4.2) *)

(** Extension: tag "E", the key, then "C" and the hash of next as a byte
    blob or the marker "NC" as a byte blob, then "V" and the value bytes or
    the tag "NV". *)
Definition extensionPreimage (key : gostring) (next : option HashBlob)
    (value : option (list byte)) : list gob.value :=
  [gob.String (str "E"); gob.String key]
  ++ match next with
     | Some h => [gob.String (str "C"); gob.Bytes h]
     | None => [gob.Bytes (str "NC")]
     end
  ++ match value with
     | Some v => [gob.String (str "V"); gob.Bytes v]
     | None => [gob.String (str "NV")]
     end.

(** Branch: tag "B", then for each slot in index order "C" and the hash of
    the child as a byte blob, or the tag "NC". *)
Definition slotPreimage (s : option HashBlob) : list gob.value :=
  match s with
  | Some h => [gob.String (str "C"); gob.Bytes h]
  | None => [gob.String (str "NC")]
  end.

Definition branchPreimage (slots : list (option HashBlob)) : list gob.value :=
  gob.String (str "B") :: flat_map slotPreimage slots.

(** The cached hash of what a field of type [Node] holds, if anything. *)
Definition nextHash (n : Node) : option HashBlob :=
  match n with
  | NilNode => None
  | ExtensionNode e => Some (Extension.hash e)
  | BranchNode b => Some (Branch.hash b)
  end.

(** ** The structural invariants the specification states (section 3.2) *)

(** The digit-to-slot map of the specification: '0'-'9' to 0-9 and
    'a'-'f' to 10-15. *)
Definition hexDigitSlot (c : byte) : option nat :=
  let n := Byte.to_N c in
  if ((Byte.to_N "0" <=? n) && (n <=? Byte.to_N "9"))%N then
    Some (N.to_nat (n - Byte.to_N "0"))
  else if ((Byte.to_N "a" <=? n) && (n <=? Byte.to_N "f"))%N then
    Some (N.to_nat (n - Byte.to_N "a") + 10)
  else None.

(** Invariant 3 at one Branch: the Extension in slot [i] starts with the
    digit of [i]. *)
Definition dispatchedFrom : nat -> list (option nodeExtension) -> bool :=
  fix go (i : nat) (children : list (option nodeExtension)) : bool :=
    match children with
    | [] => true
    | None :: rest => go (S i) rest
    | Some e :: rest =>
        match Extension.Key e with
        | [] => false
        | c :: _ => bool_decide (hexDigitSlot c = Some i)
        end && go (S i) rest
    end.

Definition dispatchedByDigit (b : nodeBranch) : bool :=
  dispatchedFrom 0 (Branch.ListChildren b).

(** Invariants 4 and 5 below an Extension: an Extension followed by an
    Extension holds a value, and a Branch below the root has at least two
    children. *)
Definition shapedSlots (shaped : nodeExtension -> bool) (cs : list (option nodeExtension))
    : bool :=
  forallb (fun c => match c with Some e => shaped e | None => true end) cs.

Fixpoint shapedExtension (e : nodeExtension) : bool :=
  match e with
  | mkExtension _ _ n v =>
      match n with
      | NilNode => true
      | ExtensionNode e' => Extension.HasValueObject e && shapedExtension e'
      | BranchNode (mkBranch h cs) =>
          bool_decide (2 <= Branch.Count (mkBranch h cs)) && shapedSlots shapedExtension cs
      end
  end.

Definition shapedTrie (root : nodeBranch) : bool :=
  shapedSlots shapedExtension (Branch.ListChildren root).

(** ** The inputs of the worked cases *)

Definition value5 : list byte := str "value".

(** Keys whose hex digits meet in one Branch: "a" is 61, "k" is 6b, "b" is
    62, and the single byte a0. *)
Definition key_a : list byte := str "a".
Definition key_b : list byte := str "b".
Definition key_k : list byte := str "k".
Definition key_a0 : list byte := [Byte.xa0].

(** "k" is stored at an Extension whose next is the Branch of "k1" and "kA". *)
Definition key_k1 : list byte := str "k1".
Definition key_kA : list byte := str "kA".

Definition tests_key : list byte := str "key".

(** The root a run ends with. *)
Definition finalRoot {A} (r : run MerklePatriciaTrie A) : nodeBranch :=
  match r with
  | Ok _ mt => root mt
  | Err _ mt => root mt
  | Panic _ => NewNodeBranch
  end.

(** The trie of the tests' Merkle-path scenario: "key" alone, under SHA-256. *)
Definition keyRoot : nodeBranch :=
  Eval vm_compute in finalRoot (build sha256Hash [(tests_key, value5)]).

Definition keyTrie : MerklePatriciaTrie := mkTrie sha256Hash keyRoot.

(** [MerklePath.MarshalJSON]: the loop over the hashes of one set and the
    loop over the sets of the path, each with the index [range] counts.
    The bytes written are '[' (5b), ']' (5d), ',' (2c) and the double
    quote (22). *)
Fixpoint marshalHashes (setIndex : nat) (hashes : list HashBlob) : list byte :=
  match hashes with
  | [] => []
  | h :: rest =>
      (if decide (0 < setIndex) then [Byte.x2c] else [])
      ++ [Byte.x22] ++ hex.EncodeToString h ++ [Byte.x22]
      ++ marshalHashes (S setIndex) rest
  end.

Fixpoint marshalSets (mpIndex : nat) (mp : list MerkleSet) : list byte :=
  match mp with
  | [] => []
  | s :: rest =>
      (if decide (0 < mpIndex) then [Byte.x2c] else [])
      ++ [Byte.x5b] ++ marshalHashes 0 (hashes s) ++ [Byte.x5d]
      ++ marshalSets (S mpIndex) rest
  end.

Definition MerklePath_MarshalJSON (mp : MerklePath) : res (list byte) :=
  Val ([Byte.x5b] ++ marshalSets 0 mp ++ [Byte.x5d]).

Definition isHexDigit (c : byte) : bool := bool_decide (c ∈ hex.hextable).

Definition unhexDigit (c : byte) : N :=
  let n := Byte.to_N c in
  if (n <? Byte.to_N "a")%N then (n - Byte.to_N "0")%N else (n - Byte.to_N "a" + 10)%N.

Fixpoint unhex (s : gostring) : list byte :=
  match s with
  | hi :: lo :: rest => gob.byte_of (16 * unhexDigit hi + unhexDigit lo) :: unhex rest
  | _ => []
  end.

(** A digest that never returns an error. *)
Definition unfailingDigest (hs : crypto_Hash) : Prop := forall s e, hs s <> Fail e.

(** The value held by the leaf of a lookup path. *)
Definition leafValue (trail : list visited) : option valueObject :=
  match trail with
  | VisitExtension e :: _ => Extension.ValueObject e
  | _ => None
  end.

Definition holdsE (e : nodeExtension) (key : gostring) (vo : valueObject) : Prop :=
  exists trail, extensionPath e key trail /\ leafValue trail = Some vo.

Definition holdsB (b : nodeBranch) (key : gostring) (vo : valueObject) : Prop :=
  exists trail, branchPath b key trail /\ leafValue trail = Some vo.

(** The key is stored with this value. *)
Definition storedWith (mt : MerklePatriciaTrie) (key value : list byte) : Prop :=
  holdsB (root mt) (hex.EncodeToString key) (NewValueObject value).

(** What a rejected Insert leaves: the receiver as it was, the error of a
    key that exists, and the key on a lookup path. *)
Definition insertRejected {S} (s : S) (stored : Prop) (err : error) (s' : S) : Prop :=
  s' = s /\ (exists tail, err = ErrKeyExists tail) /\ stored.

(** The errors of a lookup that does not find the key, and of a Delete. *)
Definition lookupMiss (err : error) : Prop :=
  err = ErrValueObjectNotFound \/ exists c, err = ErrNotFoundUnderBranch c.

Definition deleteMiss (err : error) : Prop :=
  err = ErrDeleteKeyNotFound \/ lookupMiss err.

(** ** Cached hashes that are the digest of the node *)

(** [h] is what the digest returns for the bytes [pre] evaluates to. *)
Definition digestOf (hs : crypto_Hash) (pre : res (list byte)) (h : HashBlob) : Prop :=
  exists s, pre = Val s /\ hs s = Val h.

Definition consistentSlots (consistent : nodeExtension -> Prop)
    (cs : list (option nodeExtension)) : Prop :=
  fold_right
    (fun c rest => match c with Some e => consistent e | None => True end /\ rest) True cs.

(** Every node below and including [e] caches the digest of its own
    serialization. *)
Fixpoint consistentExtension (hs : crypto_Hash) (e : nodeExtension) : Prop :=
  match e with
  | mkExtension h k n v =>
      digestOf hs (Extension.Serialize (mkExtension h k n v)) h /\
      match n with
      | NilNode => True
      | ExtensionNode e' => consistentExtension hs e'
      | BranchNode (mkBranch h' cs) =>
          digestOf hs (Branch.Serialize (mkBranch h' cs)) h' /\
          consistentSlots (consistentExtension hs) cs
      end
  end.

Definition consistentBranch (hs : crypto_Hash) (b : nodeBranch) : Prop :=
  match b with
  | mkBranch h cs =>
      digestOf hs (Branch.Serialize (mkBranch h cs)) h /\
      consistentSlots (consistentExtension hs) cs
  end.

Definition consistentNode (hs : crypto_Hash) (n : Node) : Prop :=
  match n with
  | NilNode => True
  | ExtensionNode e => consistentExtension hs e
  | BranchNode b => consistentBranch hs b
  end.

(** A Branch whose own hash is still to be refreshed. *)
Definition consistentChildren (hs : crypto_Hash) (b : nodeBranch) : Prop :=
  forall i e, Branch.ListChildren b !! i = Some (Some e) -> consistentExtension hs e.

(** The tries a run of calls that all returned nil produces. *)
Inductive built (hs : crypto_Hash) : MerklePatriciaTrie -> Prop :=
  | built_new mt :
      NewMerklePatriciaTrie hs = Val mt -> built hs mt
  | built_insert mt key value u mt' :
      built hs mt -> Insert key value mt = Ok u mt' -> built hs mt'
  | built_delete mt key u mt' :
      built hs mt -> Delete key mt = Ok u mt' -> built hs mt'.

(** ** The content of a trie, without the cached hashes *)

Fixpoint contentOfExtension (e : nodeExtension) : nodeExtension :=
  match e with
  | mkExtension _ k n v =>
      mkExtension [] k
        match n with
        | NilNode => NilNode
        | ExtensionNode e' => ExtensionNode (contentOfExtension e')
        | BranchNode (mkBranch _ cs) =>
            BranchNode
              (mkBranch []
                 (map (fun c => match c with
                                | Some e' => Some (contentOfExtension e')
                                | None => None
                                end) cs))
        end
        v
  end.

Definition contentOfSlot (c : option nodeExtension) : option nodeExtension :=
  match c with
  | Some e => Some (contentOfExtension e)
  | None => None
  end.

Definition contentOfBranch (b : nodeBranch) : nodeBranch :=
  match b with
  | mkBranch _ cs => mkBranch [] (map contentOfSlot cs)
  end.

Definition contentOfNode (n : Node) : Node :=
  match n with
  | NilNode => NilNode
  | ExtensionNode e => ExtensionNode (contentOfExtension e)
  | BranchNode b => BranchNode (contentOfBranch b)
  end.

(** An entry of a Branch set of a Merkle path, read back as a slot: nil is
    the empty slot. *)
Definition slotOfHash (h : HashBlob) : option HashBlob :=
  match h with
  | [] => None
  | _ => Some h
  end.

(** A digest that answers every input with a non-empty blob. *)
Definition totalDigest (hs : crypto_Hash) : Prop :=
  forall s, exists h, hs s = Val h /\ h <> [].

(** ** Keys and slots as the code places them *)

(** The Extension in slot [i] has a key whose first character
    [toChildIndex] sends to [i]. *)
Definition placedAt (i : nat) (e : nodeExtension) : bool :=
  match Extension.Key e with
  | c :: _ =>
      match toChildIndex c with
      | Val j => bool_decide (j = i)
      | _ => false
      end
  | [] => false
  end.

Definition placedFrom (keyed : nodeExtension -> bool)
    : nat -> list (option nodeExtension) -> bool :=
  fix go (i : nat) (children : list (option nodeExtension)) : bool :=
    match children with
    | [] => true
    | None :: rest => go (S i) rest
    | Some e :: rest => placedAt i e && keyed e && go (S i) rest
    end.

(** Every key below and including [e] is non-empty and every child sits in
    the slot of its first character. *)
Fixpoint keyedExtension (e : nodeExtension) : bool :=
  match e with
  | mkExtension _ k n _ =>
      negb (bool_decide (k = [])) &&
      match n with
      | NilNode => true
      | ExtensionNode e' => keyedExtension e'
      | BranchNode (mkBranch _ cs) => placedFrom keyedExtension 0 cs
      end
  end.

Definition keyedBranch (b : nodeBranch) : bool :=
  placedFrom keyedExtension 0 (Branch.ListChildren b).

Definition keyedNode (n : Node) : bool :=
  match n with
  | NilNode => true
  | ExtensionNode e => keyedExtension e
  | BranchNode b => keyedBranch b
  end.

(** The node after a call is keyed and its key starts as the key of the
    node before. *)
Definition keptHead (e e' : nodeExtension) : Prop :=
  keyedExtension e' = true /\ Extension.Key e' !! 0 = Extension.Key e !! 0.

Definition keyedVisit (v : visited) : Prop :=
  match v with
  | VisitExtension e => keyedExtension e = true
  | VisitBranch b => keyedBranch b = true
  end.

(** The Extension a lookup path ends at, and whether a Branch follows it. *)
Definition leafOf (trail : list visited) : option nodeExtension :=
  match trail with
  | VisitExtension e :: _ => Some e
  | _ => None
  end.

Definition beforeBranch (e : nodeExtension) : bool :=
  match Extension.Next e with
  | BranchNode _ => true
  | _ => false
  end.

(** Two keys never carry, at the same position, different characters that
    [toChildIndex] sends to the same slot. *)
Definition slotCompatible (key other : gostring) : Prop :=
  forall j c1 c2 i,
    key !! j = Some c1 -> other !! j = Some c2 ->
    toChildIndex c1 = Val i -> toChildIndex c2 = Val i -> c1 = c2.

(** ** Binding: what the pre-images determine *)

(** The number the big-endian bytes [ds] write. *)
Definition bigEndianValue (ds : list byte) : N :=
  fold_left (fun a b => (a * 256 + Byte.to_N b)%N) ds 0%N.

(** A blob short enough for its gob message to carry its length in 8
    bytes, as every Go slice is. *)
Definition smallBlob (l : list byte) : bool :=
  (N.of_nat (length l) + 11 <? 2 ^ 64)%N.

Definition smallValue (v : gob.value) : Prop := smallBlob (gob.payload v) = true.

Definition boundedSlots (bounded : nodeExtension -> bool)
    (cs : list (option nodeExtension)) : bool :=
  forallb (fun c => match c with Some e => bounded e | None => true end) cs.

(** Every key, value and cached hash below and including [e] is small. *)
Fixpoint boundedExtension (e : nodeExtension) : bool :=
  match e with
  | mkExtension h k n v =>
      smallBlob h && smallBlob k &&
      match v with Some vo => smallBlob (Value vo) | None => true end &&
      match n with
      | NilNode => true
      | ExtensionNode e' => boundedExtension e'
      | BranchNode (mkBranch h' cs) => smallBlob h' && boundedSlots boundedExtension cs
      end
  end.

Definition boundedBranch (b : nodeBranch) : bool :=
  match b with
  | mkBranch h cs => smallBlob h && boundedSlots boundedExtension cs
  end.

Definition boundedNode (n : Node) : bool :=
  match n with
  | NilNode => true
  | ExtensionNode e => boundedExtension e
  | BranchNode b => boundedBranch b
  end.

(** A digest without collisions: equal blobs come from equal inputs. *)
Definition collisionFree (hs : crypto_Hash) : Prop :=
  forall s1 s2 h, hs s1 = Val h -> hs s2 = Val h -> s1 = s2.

(** A digest that is collision-free by construction: the input behind a
    zero byte. *)
Definition prefixDigest : crypto_Hash := fun s => Val (Byte.x00 :: s).

(** ** The inputs of the further worked cases *)

(** The new trie under SHA-256, and the trie of "key" with "k" inserted. *)
Definition emptyRoot : nodeBranch :=
  Eval vm_compute in
    match NewMerklePatriciaTrie sha256Hash with
    | Val mt => root mt
    | _ => NewNodeBranch
    end.

Definition emptyTrie : MerklePatriciaTrie := mkTrie sha256Hash emptyRoot.

Definition keyAndKRoot : nodeBranch :=
  Eval vm_compute in finalRoot (Insert key_k value5 keyTrie).

Definition keyAndKTrie : MerklePatriciaTrie := mkTrie sha256Hash keyAndKRoot.

(** The Merkle path of "key" in the trie that holds it alone. *)
Definition keyPath : MerklePath :=
  Eval vm_compute in
    match FindMerklePath tests_key keyTrie with
    | Ok path _ => path
    | _ => []
    end.

(** Two leaves whose first characters '1' and 'b' share slot 1. *)
Definition leaf_1 : nodeExtension :=
  mkExtension [Byte.x01] (str "1") NilNode (Some (NewValueObject value5)).

Definition leaf_b : nodeExtension :=
  mkExtension [Byte.x02] (str "b") NilNode (Some (NewValueObject value5)).

Definition branch_1b : nodeBranch :=
  Eval vm_compute in
    match NewNodeBranchWithChildren leaf_1 leaf_b sha256Hash with
    | Val n => n
    | _ => NewNodeBranch
    end.

(** The trie of "key" and "k" with "key" deleted. *)
Definition kLeftRoot : nodeBranch :=
  Eval vm_compute in finalRoot (Delete tests_key keyAndKTrie).

Definition kLeftTrie : MerklePatriciaTrie := mkTrie sha256Hash kLeftRoot.

(** The tries of "k", of "k" and "k1", and of "k", "k1" and "kA": in the
    last one the Extension of "k" is followed by the Branch of '1' and 'A'. *)
Definition kRoot : nodeBranch :=
  Eval vm_compute in finalRoot (Insert key_k value5 emptyTrie).

Definition kTrie : MerklePatriciaTrie := mkTrie sha256Hash kRoot.

Definition kK1Root : nodeBranch :=
  Eval vm_compute in finalRoot (Insert key_k1 value5 kTrie).

Definition kK1Trie : MerklePatriciaTrie := mkTrie sha256Hash kK1Root.

Definition kBranchRoot : nodeBranch :=
  Eval vm_compute in finalRoot (Insert key_kA value5 kK1Trie).

Definition kBranchTrie : MerklePatriciaTrie := mkTrie sha256Hash kBranchRoot.

(** The tries of "key" and of "key" and "k" under the digest that puts a
    zero byte before its input. *)
Definition prefixEmptyRoot : nodeBranch :=
  Eval vm_compute in
    match NewMerklePatriciaTrie prefixDigest with
    | Val mt => root mt
    | _ => NewNodeBranch
    end.

Definition prefixEmptyTrie : MerklePatriciaTrie := mkTrie prefixDigest prefixEmptyRoot.

Definition prefixKeyRoot : nodeBranch :=
  Eval vm_compute in finalRoot (Insert tests_key value5 prefixEmptyTrie).

Definition prefixKeyTrie : MerklePatriciaTrie := mkTrie prefixDigest prefixKeyRoot.

Definition prefixKeyAndKRoot : nodeBranch :=
  Eval vm_compute in finalRoot (Insert key_k value5 prefixKeyTrie).

Definition prefixKeyAndKTrie : MerklePatriciaTrie := mkTrie prefixDigest prefixKeyAndKRoot.

(** ** The rendering of the nodes as text *)

(** The lines given to [log.Warn], oldest first. *)
Definition warnings : Type := list gostring.

Definition tooLargeValue : gostring := str "Too large value in MarshalJSON() (omitted)".

(** [s] between two double quotes (byte 22). *)
Definition quoted (s : list byte) : list byte := [Byte.x22] ++ s ++ [Byte.x22].

(** The [hex_hash] member written at the end of both renderings. *)
Definition marshalHash (hash : HashBlob) : list byte :=
  if decide (0 < length hash) then
    quoted (str "hex_hash") ++ str ":" ++ quoted (hex.EncodeToString hash)
  else quoted (str "hex_hash") ++ str ":" ++ quoted [].

(** The loop of [nodeBranch.MarshalJSON] over [node.children], with the
    index [range] counts, the buffer written so far and the log. *)
Definition marshalChildren
    (marshal : nodeExtension -> warnings -> res (list byte) * warnings)
    : list (option nodeExtension) -> nat -> list byte -> warnings
      -> res (list byte) * warnings :=
  fix go (children : list (option nodeExtension)) (index : nat) (bf : list byte)
         (log : warnings) : res (list byte) * warnings :=
    match children with
    | [] => (Val bf, log)
    | child :: rest =>
        let bf := if decide (0 < index) then bf ++ str "," else bf in
        match child with
        | Some e =>
            match marshal e log with
            | (Val data, log) => go rest (S index) (bf ++ data) log
            | (Fail err, log) => (Fail err, log)
            | (Abort msg, log) => (Abort msg, log)
            end
        | None => go rest (S index) (bf ++ str "null") log
        end
    end.

(** [nodeBranch.MarshalJSON], given the rendering of an Extension. *)
Definition marshalBranch
    (marshal : nodeExtension -> warnings -> res (list byte) * warnings)
    (node : nodeBranch) (log : warnings) : res (list byte) * warnings :=
  match node with
  | mkBranch hash children =>
      let bf := str "{" in
      let bf := bf ++ quoted (str "type") ++ str ":" ++ quoted (str "Branch") ++ str "," in
      let bf := bf ++ quoted (str "children") ++ str ":[" in
      match marshalChildren marshal children 0 bf log with
      | (Val bf, log) =>
          let bf := bf ++ str "]," in
          let bf := bf ++ marshalHash hash in
          (Val (bf ++ str "}"), log)
      | (Fail err, log) => (Fail err, log)
      | (Abort msg, log) => (Abort msg, log)
      end
  end.

(** The value member of [nodeExtension.MarshalJSON]: nothing without a
    value object, else the first 100 bytes at most, in hex, and a warning
    when bytes were left out. *)
Definition marshalValue (value : option valueObject) (bf : list byte) (log : warnings)
    : list byte * warnings :=
  match value with
  | Some v =>
      let marshalValue := Value v in
      let '(marshalValue, log) :=
        if decide (100 < length marshalValue)
        then (take 100 marshalValue, log ++ [tooLargeValue])
        else (marshalValue, log) in
      (bf ++ quoted (hex.EncodeToString marshalValue) ++ str ",", log)
  | None => (bf, log)
  end.

(** [nodeExtension.MarshalJSON]; [node.next.MarshalJSON()] goes through the
    [Node] interface to one of the two renderings. *)
Fixpoint Extension_MarshalJSON (node : nodeExtension) (log : warnings) {struct node}
    : res (list byte) * warnings :=
  match node with
  | mkExtension hash key next value =>
      let bf := str "{" in
      let bf := bf ++ quoted (str "type") ++ str ":" ++ quoted (str "Extension") ++ str "," in
      let bf := bf ++ quoted (str "key") ++ str ":" ++ quoted key ++ str "," in
      let finish (bf : list byte) (log : warnings) : res (list byte) * warnings :=
        let bf := bf ++ quoted (str "value") ++ str ":" in
        let '(bf, log) := marshalValue value bf log in
        let bf := bf ++ marshalHash hash in
        (Val (bf ++ str "}"), log) in
      match next with
      | NilNode => finish (bf ++ quoted (str "next") ++ str ":null,") log
      | ExtensionNode e =>
          match Extension_MarshalJSON e log with
          | (Val j, log) => finish (bf ++ quoted (str "next") ++ str ":" ++ j ++ str ",") log
          | (Fail err, log) => (Fail err, log)
          | (Abort msg, log) => (Abort msg, log)
          end
      | BranchNode b =>
          match marshalBranch Extension_MarshalJSON b log with
          | (Val j, log) => finish (bf ++ quoted (str "next") ++ str ":" ++ j ++ str ",") log
          | (Fail err, log) => (Fail err, log)
          | (Abort msg, log) => (Abort msg, log)
          end
      end
  end.

Definition Branch_MarshalJSON (node : nodeBranch) (log : warnings)
    : res (list byte) * warnings :=
  marshalBranch Extension_MarshalJSON node log.

(** The number of values of more than 100 bytes under a node. *)
Definition oversizedValue (value : option valueObject) : nat :=
  match value with
  | Some v => if decide (100 < length (Value v)) then 1 else 0
  | None => 0
  end.

Definition oversizedSlots (oversized : nodeExtension -> nat)
    (cs : list (option nodeExtension)) : nat :=
  foldr (fun c n => match c with Some e => oversized e + n | None => n end) 0 cs.

Fixpoint oversizedExtension (e : nodeExtension) : nat :=
  match e with
  | mkExtension _ _ n v =>
      match n with
      | NilNode => 0
      | ExtensionNode e' => oversizedExtension e'
      | BranchNode (mkBranch _ cs) => oversizedSlots oversizedExtension cs
      end + oversizedValue v
  end.

Definition oversizedBranch (b : nodeBranch) : nat :=
  oversizedSlots oversizedExtension (Branch.ListChildren b).

(** A node with every value cut to its first 100 bytes. *)
Definition shortValue (value : option valueObject) : option valueObject :=
  match value with
  | Some v => Some (NewValueObject (take 100 (Value v)))
  | None => None
  end.

Fixpoint shortExtension (e : nodeExtension) : nodeExtension :=
  match e with
  | mkExtension h k n v =>
      mkExtension h k
        match n with
        | NilNode => NilNode
        | ExtensionNode e' => ExtensionNode (shortExtension e')
        | BranchNode (mkBranch h' cs) =>
            BranchNode (mkBranch h' (map (option_map shortExtension) cs))
        end
        (shortValue v)
  end.

Definition shortBranch (b : nodeBranch) : nodeBranch :=
  mkBranch (Branch.hash b) (map (option_map shortExtension) (Branch.ListChildren b)).

(** ** Lemmas on the helpers *)

Arguments commonPrefix : simpl never.

Lemma atChild_lookup {R} (f : nodeExtension -> R) children i :
  atChild f children i =
    match children !! i with
    | None => OutOfRange
    | Some None => Vacant
    | Some (Some e) => Held (f e)
    end.
Proof.
  revert i. induction children as [|c rest IH]; intros [|i]; simpl; auto.
Qed.

(** [atChild] is [HasChildAt] followed by the call on [ChildAt]. *)
Lemma atChild_ChildAt {R} (f : nodeExtension -> R) c i node :
  toChildIndex c = Val i ->
  atChild f (Branch.ListChildren node) i =
    match Branch.HasChildAt c node, Branch.ChildAt c node with
    | Val true, Val (Some e) => Held (f e)
    | Val false, Val None => Vacant
    | _, _ => OutOfRange
    end.
Proof.
  intros Hi. rewrite atChild_lookup. unfold Branch.HasChildAt, Branch.ChildAt, index.
  rewrite Hi. simpl. by destruct (Branch.ListChildren node !! i) as [[e|]|].
Qed.

(** The slots [toChildIndex] gives the letter digits are those of '0'-'5'. *)
Lemma toChildIndex_letters :
  toChildIndex "a" = toChildIndex "0" /\ toChildIndex "b" = toChildIndex "1" /\
  toChildIndex "c" = toChildIndex "2" /\ toChildIndex "d" = toChildIndex "3" /\
  toChildIndex "e" = toChildIndex "4" /\ toChildIndex "f" = toChildIndex "5" /\
  toChildIndex "f" = Val 5.
Proof. repeat split. Qed.

(** Delete of the key of an Extension that holds a value and is followed
    by a Branch: the hash is computed again and nothing else is done. *)
Lemma deleteKeyInExtension_before_branch hs e b v :
  Extension.Next e = BranchNode b -> Extension.ValueObject e = Some v ->
  deleteKeyInExtension hs (Extension.Key e) e = returning false (Extension.UpdateHash hs e).
Proof.
  destruct e as [h k n v']. simpl. intros -> ->. by rewrite decide_True.
Qed.

Lemma min_spec a b : min a b = Nat.min a b.
Proof. unfold min. case_decide; lia. Qed.

Lemma commonPrefix_loop_agree a b minLen steps i :
  (forall j, i <= j < i + steps -> a !! j = b !! j) ->
  commonPrefix_loop a b minLen steps i = take minLen a.
Proof.
  revert i. induction steps as [|n IH]; intros i Hagree; simpl; [done|].
  rewrite decide_True by (apply Hagree; lia).
  apply IH. intros j Hj. apply Hagree. lia.
Qed.

Lemma commonPrefix_extends a tail :
  a <> [] -> commonPrefix a (a ++ tail) = Val a.
Proof.
  intros Ha. unfold commonPrefix.
  destruct a as [|c a']; [done|]. simpl.
  rewrite decide_True by done. f_equal.
  rewrite commonPrefix_loop_agree.
  - rewrite min_spec. simpl. rewrite length_app. rewrite Nat.min_l by lia.
    by rewrite firstn_all.
  - intros j Hj. rewrite min_spec in Hj. simpl in Hj. rewrite Nat.sub_0_r in Hj.
    rewrite length_app, Nat.min_l in Hj by lia.
    destruct j as [|j]; [lia|]. simpl. rewrite lookup_app_l by lia. done.
Qed.

(** What [commonPrefix] returns is a prefix of both strings, one character
    at least. *)
Lemma commonPrefix_loop_common a b minLen steps i :
  i + steps = minLen -> minLen <= length a -> minLen <= length b ->
  take i a = take i b ->
  exists n, i <= n <= minLen /\
            commonPrefix_loop a b minLen steps i = take n a /\ take n a = take n b.
Proof.
  revert i. induction steps as [|m IH]; intros i Hsum Ha Hb Hagree; simpl.
  - exists minLen. replace minLen with i in * by lia. by repeat split.
  - case_decide as Hi.
    + destruct (lookup_lt_is_Some_2 a i) as [x Hx]; [lia|].
      destruct (IH (S i)) as (n & Hn & Hloop & Hcommon); try lia.
      * rewrite (take_S_r a i x) by done.
        rewrite (take_S_r b i x) by (by rewrite <- Hi).
        by rewrite Hagree.
      * exists n. repeat split; try done; lia.
    + exists i. repeat split; try done; lia.
Qed.

Lemma commonPrefix_common a b p :
  commonPrefix a b = Val p ->
  exists n, 1 <= n /\ n <= length a /\ n <= length b /\ p = take n a /\ take n a = take n b.
Proof.
  unfold commonPrefix. destruct a as [|ca a']; [done|]. destruct b as [|cb b']; [done|].
  simpl. case_decide as Hhead; [|done]. injection Hhead as <-. intros [= <-].
  rewrite min_spec.
  destruct (commonPrefix_loop_common (ca :: a') (ca :: b')
              (Nat.min (length (ca :: a')) (length (ca :: b')))
              (Nat.min (length (ca :: a')) (length (ca :: b')) - 1) 1)
    as (n & Hn & Hloop & Hcommon); simpl; try lia; [done|].
  exists n. simpl in *. repeat split; try done; lia.
Qed.

(** When the common prefix is the whole of [a], [b] is [a] and a rest. *)
Lemma commonPrefix_whole a b :
  commonPrefix a b = Val a -> a <> [] /\ b = a ++ drop (length a) b.
Proof.
  intros Hp. destruct (commonPrefix_common a b a Hp) as (n & Hn1 & Hna & Hnb & Hta & Hcommon).
  assert (n = length a) as ->.
  { apply (f_equal length) in Hta. rewrite length_take in Hta. lia. }
  split; [destruct a; simpl in *; [lia|done]|].
  rewrite firstn_all in Hcommon. rewrite Hcommon at 1. by rewrite take_drop.
Qed.

Lemma extensionPath_head e key trail :
  extensionPath e key trail -> key <> [] -> key !! 0 = Extension.Key e !! 0.
Proof.
  destruct 1 as [e key v -> _ | e n tail trail Hne _ _ _ | e b tail trail Hne _ _];
    intros _; [done| |]; destruct (Extension.Key e); done.
Qed.

Lemma branchPath_nonempty b key trail : branchPath b key trail -> key <> [].
Proof. destruct 1. by destruct key. Qed.

Lemma index_head {A} (s : list A) (c : A) : s !! 0 = Some c -> index s 0 = Val c.
Proof. unfold index. by intros ->. Qed.

Lemma setChild_same i e b :
  Branch.ListChildren b !! i = Some (Some e) -> setChild i e b = b.
Proof.
  intros Hi. destruct b as [h cs]. unfold setChild, Branch.setChildren. simpl in *.
  by rewrite list_insert_id.
Qed.

Lemma app_tail_neq {A} (k tail : list A) : tail <> [] -> k ++ tail <> k.
Proof.
  intros Ht Heq. apply Ht. apply (app_inv_head k). by rewrite app_nil_r.
Qed.

(** ** Insert on a stored key *)

Section Duplicate.

Variable hs : crypto_Hash.

Lemma insert_on_path :
  (forall e key trail, extensionPath e key trail ->
     forall vo, exists tail, insertToExtension hs key vo e = Err (ErrKeyExists tail) e) /\
  (forall b key trail, branchPath b key trail ->
     forall vo, exists tail, insertToBranch hs key vo b = Err (ErrKeyExists tail) b).
Proof.
  apply extensionPath_branchPath_mutind.
  - intros e key v -> Hv vo. exists (Extension.Key e).
    destruct e as [h k n v']. simpl in *. subst v'.
    by rewrite decide_True.
  - intros e n tail trail Hk Ht Hn Hpath IH vo.
    destruct (IH vo) as [t Hrec]. exists t.
    pose proof (extensionPath_head _ _ _ Hpath Ht) as Hhead.
    destruct e as [h k nx v]. simpl in *. subst nx.
    rewrite decide_False by (by apply app_tail_neq).
    rewrite commonPrefix_extends by done.
    rewrite decide_True by done.
    rewrite drop_app_length.
    destruct tail as [|c tail']; [done|].
    rewrite (index_head _ c) by done. simpl.
    rewrite (index_head _ c) by done. simpl.
    rewrite decide_True by done.
    by rewrite Hrec.
  - intros e b tail trail Hk Hn Hpath IH vo.
    destruct (IH vo) as [t Hrec]. exists t.
    pose proof (branchPath_nonempty _ _ _ Hpath) as Ht.
    destruct e as [h k nx v]. simpl in *. subst nx.
    rewrite decide_False by (by apply app_tail_neq).
    rewrite commonPrefix_extends by done.
    rewrite decide_True by done.
    rewrite drop_app_length.
    by rewrite Hrec.
  - intros b c i e key trail Hc Hi He Hpath IH vo.
    destruct (IH vo) as [t Hrec]. exists t.
    destruct b as [h cs]. simpl in *.
    rewrite (index_head _ c) by done. simpl. rewrite Hi. simpl.
    rewrite atChild_lookup, He, Hrec.
    by rewrite setChild_same.
Qed.

End Duplicate.

(** ** Induction on the nodes of a trie *)

Section NodeInduction.

Variables (P : nodeExtension -> Prop) (Q : nodeBranch -> Prop).
Hypothesis P_nil : forall h k v, P (mkExtension h k NilNode v).
Hypothesis P_extension : forall h k e v, P e -> P (mkExtension h k (ExtensionNode e) v).
Hypothesis P_branch : forall h k b v, Q b -> P (mkExtension h k (BranchNode b) v).
Hypothesis Q_children :
  forall h cs, (forall i e, cs !! i = Some (Some e) -> P e) -> Q (mkBranch h cs).

Lemma nodeExtension_induction : forall e, P e.
Proof.
  fix IH 1. intros [h k n v]. destruct n as [|e'|[h' cs]].
  - apply P_nil.
  - apply P_extension, IH.
  - apply P_branch, Q_children.
    induction cs as [|c rest IHcs]; intros i e He.
    + destruct i; discriminate He.
    + destruct i as [|j]; simpl in He.
      * destruct c as [e'|]; [|discriminate]. injection He as <-. apply IH.
      * exact (IHcs j e He).
Qed.

Lemma nodeBranch_induction : forall b, Q b.
Proof.
  intros [h cs]. apply Q_children. intros i e _. apply nodeExtension_induction.
Qed.

End NodeInduction.

(** ** The Merkle path of a stored key *)

Lemma nodeBase_Hash_nonempty h : h <> [] -> nodeBase_Hash h = Val h.
Proof. unfold nodeBase_Hash. intros Hh. rewrite decide_False; [done|]. by destruct h. Qed.

Lemma childHashes_hashed children acc :
  (forall i e, children !! i = Some (Some e) -> Extension.hash e <> []) ->
  childHashes children acc = Val (acc ++ map slotHash children).
Proof.
  revert acc. induction children as [|[c|] rest IH]; intros acc Hall; simpl.
  - by rewrite app_nil_r.
  - unfold Extension.Hash. rewrite nodeBase_Hash_nonempty by (by apply (Hall 0)).
    simpl. rewrite IH by (intros i e; apply (Hall (S i))).
    by rewrite <- app_assoc.
  - rewrite IH by (intros i e; apply (Hall (S i))). by rewrite <- app_assoc.
Qed.

Lemma merklePath_on_path :
  (forall e key trail, extensionPath e key trail -> Forall hashedVisit trail ->
     merklePathInExtension key e = Ok (map merkleSetOf trail) e) /\
  (forall b key trail, branchPath b key trail -> Forall hashedVisit trail ->
     merklePathInBranch key b = Ok (map merkleSetOf trail) b).
Proof.
  apply extensionPath_branchPath_mutind.
  - intros e key v -> Hv Hh. rewrite Forall_singleton in Hh.
    destruct e as [h k n v']. simpl in *. subst v'.
    rewrite decide_True by done. simpl.
    unfold Extension.Hash. simpl. by rewrite nodeBase_Hash_nonempty.
  - intros e n tail trail Hk Ht Hn Hpath IH Hh.
    rewrite Forall_app in Hh. destruct Hh as [Htrail Hh]. rewrite Forall_singleton in Hh.
    pose proof (extensionPath_head _ _ _ Hpath Ht) as Hhead.
    destruct e as [h k nx v]. simpl in *. subst nx.
    rewrite decide_False by (by apply app_tail_neq).
    rewrite commonPrefix_extends by done.
    rewrite decide_False by (intros Heq; symmetry in Heq; by apply app_tail_neq in Heq).
    rewrite bool_decide_eq_true_2 by done. simpl.
    rewrite drop_app_length.
    destruct tail as [|c tail']; [done|].
    rewrite (index_head _ c) by done. simpl.
    rewrite (index_head _ c) by done. simpl.
    rewrite bool_decide_eq_true_2 by done. simpl.
    rewrite IH by done. simpl.
    unfold Extension.Hash. simpl. rewrite nodeBase_Hash_nonempty by done. simpl.
    unfold appendHash. by rewrite map_app.
  - intros e b tail trail Hk Hn Hpath IH Hh.
    rewrite Forall_app in Hh. destruct Hh as [Htrail Hh]. rewrite Forall_singleton in Hh.
    pose proof (branchPath_nonempty _ _ _ Hpath) as Ht.
    destruct e as [h k nx v]. simpl in *. subst nx.
    rewrite decide_False by (by apply app_tail_neq).
    rewrite commonPrefix_extends by done.
    rewrite decide_False by (intros Heq; symmetry in Heq; by apply app_tail_neq in Heq).
    rewrite bool_decide_eq_true_2 by done. simpl.
    rewrite drop_app_length.
    rewrite IH by done. simpl.
    unfold Extension.Hash. simpl. rewrite nodeBase_Hash_nonempty by done. simpl.
    unfold appendHash. by rewrite map_app.
  - intros b c i e key trail Hc Hi He Hpath IH Hh.
    rewrite Forall_app in Hh. destruct Hh as [Htrail Hh]. rewrite Forall_singleton in Hh.
    destruct b as [h cs]. simpl in *.
    rewrite (index_head _ c) by done. simpl. rewrite Hi. simpl.
    rewrite atChild_lookup, He, IH by done.
    rewrite (setChild_same i e (mkBranch h cs)) by done. simpl.
    rewrite ?list_insert_id by done.
    rewrite childHashes_hashed by exact Hh. simpl.
    by rewrite map_app.
Qed.

(** ** Hashes and slots are kept by every operation *)

Lemma hasHash_true h : hasHash h = true <-> h <> [].
Proof. by destruct h. Qed.

Lemma soundExtension_eq e :
  soundExtension e = hasHash (Extension.hash e) && soundNode (Extension.Next e).
Proof. destruct e as [h k [|e'|[h' cs]] v]; reflexivity. Qed.

Lemma soundSlots_true cs :
  soundSlots soundExtension cs = true <->
  length cs = ChildIndexCount /\
  forall i e, cs !! i = Some (Some e) -> soundExtension e = true.
Proof.
  unfold soundSlots. rewrite andb_true_iff, bool_decide_eq_true, forallb_forall.
  split; intros [Hlen Hall]; split; try done.
  - intros i e Hi. apply (Hall (Some e)). apply list_elem_of_In.
    by eapply list_elem_of_lookup_2.
  - intros [e|] Hin; [|done]. apply list_elem_of_In, list_elem_of_lookup_1 in Hin as [i Hi].
    by eapply Hall.
Qed.

Lemma soundBranch_true b :
  soundBranch b = true <->
  Branch.hash b <> [] /\ length (Branch.ListChildren b) = ChildIndexCount /\
  forall i e, Branch.ListChildren b !! i = Some (Some e) -> soundExtension e = true.
Proof.
  destruct b as [h cs]. simpl.
  rewrite andb_true_iff, hasHash_true, soundSlots_true. tauto.
Qed.

Lemma soundExtension_true e :
  soundExtension e = true <->
  Extension.hash e <> [] /\ soundNode (Extension.Next e) = true.
Proof. rewrite soundExtension_eq, andb_true_iff, hasHash_true. tauto. Qed.

Lemma ensures_try {S A B} (P : S -> Prop) (r : res A) (s : S) (k : A -> run S B) :
  P s -> (forall a, r = Val a -> ensures P (k a)) -> ensures P (try r s k).
Proof. intros Hs Hk. destruct r; simpl; auto. Qed.

Lemma ensures_returning {S A B} (P : S -> Prop) (b : B) (r : run S A) :
  ensures P r -> ensures P (returning b r).
Proof. by destruct r. Qed.

Section Sound.

Variable hs : crypto_Hash.
Hypothesis hs_proper : properDigest hs.

Lemma Extension_UpdateHash_sound e :
  soundExtension e = true -> ensures (fun e' => soundExtension e' = true) (Extension.UpdateHash hs e).
Proof.
  intros He. unfold Extension.UpdateHash.
  destruct (Extension.Serialize e); [|done|done].
  destruct (hs a) as [h| |] eqn:Hh; [|done|done]. unfold ensures.
  apply soundExtension_true in He as [_ Hn].
  apply soundExtension_true. destruct e. simpl in *. split; [|done].
  by eapply hs_proper.
Qed.

Lemma Branch_UpdateHash_sound b :
  soundBranch b = true -> ensures (fun b' => soundBranch b' = true) (Branch.UpdateHash hs b).
Proof.
  intros Hb. unfold Branch.UpdateHash.
  destruct (Branch.Serialize b); [|done|done].
  destruct (hs a) as [h| |] eqn:Hh; [|done|done]. unfold ensures.
  apply soundBranch_true in Hb as (_ & Hlen & Hall).
  apply soundBranch_true. destruct b. simpl in *. split; [|done].
  by eapply hs_proper.
Qed.

Lemma NewNodeExtension_sound key n v e :
  NewNodeExtension key n v hs = Val e -> soundNode n = true -> soundExtension e = true.
Proof.
  intros Hnew Hn. revert Hnew. unfold NewNodeExtension, Extension.UpdateHash.
  destruct (Extension.Serialize _); [|done|done].
  destruct (hs a) as [h| |] eqn:Hh; [|done|done].
  intros [= <-]. apply soundExtension_true. simpl. split; [|done].
  by eapply hs_proper.
Qed.

Lemma store_slots i c b b' :
  Branch.store i c b = Val b' ->
  Branch.hash b' = Branch.hash b /\
  Branch.ListChildren b' = <[i := c]> (Branch.ListChildren b).
Proof.
  unfold Branch.store. case_decide; [|done]. intros [= <-]. by destruct b.
Qed.

Lemma slots_insert_sound i c (cs : list (option nodeExtension)) :
  (forall j e, cs !! j = Some (Some e) -> soundExtension e = true) ->
  (forall e, c = Some e -> soundExtension e = true) ->
  forall j e, <[i := c]> cs !! j = Some (Some e) -> soundExtension e = true.
Proof.
  intros Hall Hc j e Hj.
  destruct (decide (i = j)) as [->|Hne].
  - destruct (decide (j < length cs)).
    + rewrite list_lookup_insert_eq in Hj by done. injection Hj as ->. by apply Hc.
    + rewrite list_insert_ge in Hj by lia. by eapply Hall.
  - rewrite list_lookup_insert_ne in Hj by done. by eapply Hall.
Qed.

Lemma setChild_sound i e b :
  soundBranch b = true -> soundExtension e = true -> soundBranch (setChild i e b) = true.
Proof.
  rewrite !soundBranch_true. intros (Hh & Hlen & Hall) He.
  destruct b as [h cs]. simpl in *. rewrite length_insert.
  repeat split; try done.
  apply slots_insert_sound; [done|]. by intros ? [= <-].
Qed.

Lemma store_soundChildren i c b b' :
  Branch.store i c b = Val b' -> soundChildren b ->
  (forall e, c = Some e -> soundExtension e = true) -> soundChildren b'.
Proof.
  intros Hs [Hlen Hall] Hc. unfold soundChildren.
  apply store_slots in Hs as [_ ->].
  split; [by rewrite length_insert|]. by apply slots_insert_sound.
Qed.

Lemma store_soundBranch i c b b' :
  Branch.store i c b = Val b' -> soundBranch b = true ->
  (forall e, c = Some e -> soundExtension e = true) -> soundBranch b' = true.
Proof.
  rewrite !soundBranch_true. intros Hs (Hh & Hlen & Hall) Hc.
  destruct (store_soundChildren i c b b' Hs) as [? ?]; [done..|].
  apply store_slots in Hs as [-> _]. done.
Qed.

Lemma NewNodeBranchWithChildren_sound a b n :
  soundExtension a = true -> soundExtension b = true ->
  NewNodeBranchWithChildren a b hs = Val n -> soundBranch n = true.
Proof.
  intros Ha Hb. unfold NewNodeBranchWithChildren.
  destruct (_ || _); [done|].
  destruct (index (Extension.Key a) 0) as [ca| |]; [simpl|done|done].
  destruct (index (Extension.Key b) 0) as [cb| |]; [simpl|done|done].
  case_decide; [done|].
  destruct (toChildIndex ca) as [ia| |]; [simpl|done|done].
  destruct (Branch.store ia _ _) as [n1| |] eqn:H1; [simpl|done|done].
  destruct (toChildIndex cb) as [ib| |]; [simpl|done|done].
  destruct (Branch.store ib _ _) as [n2| |] eqn:H2; [simpl|done|done].
  assert (soundChildren n2) as [Hlen Hall].
  { eapply store_soundChildren; [exact H2| |by intros ? [= <-]].
    eapply store_soundChildren; [exact H1| |by intros ? [= <-]].
    split; [reflexivity|]. intros i e Hi. exfalso.
    change (replicate ChildIndexCount None !! i = Some (Some e)) in Hi.
    apply lookup_replicate in Hi as [? _]. done. }
  unfold Branch.UpdateHash.
  destruct (Branch.Serialize n2); [|done|done].
  destruct (hs a0) as [h| |] eqn:Hh; [|done|done].
  intros [= <-]. apply soundBranch_true. destruct n2. simpl in *.
  split; [by eapply hs_proper|done].
Qed.

Lemma Append_sound n b b' :
  soundExtension n = true -> soundBranch b = true ->
  Branch.Append n b = Val b' -> soundBranch b' = true.
Proof.
  intros Hn Hb. unfold Branch.Append.
  destruct (index (Extension.Key n) 0) as [c| |]; [simpl|done|done].
  destruct (toChildIndex c) as [i| |]; [simpl|done|done].
  destruct (index (Branch.ListChildren b) i) as [[child|]| |]; try done. simpl.
  intros Hs. eapply store_soundBranch; [exact Hs|done|by intros ? [= <-]].
Qed.

Lemma Delete_sound c b b' :
  soundBranch b = true -> Branch.Delete c b = Val b' -> soundBranch b' = true.
Proof.
  intros Hb. unfold Branch.Delete.
  destruct (toChildIndex c) as [i| |]; [simpl|done|done].
  destruct (index (Branch.ListChildren b) i) as [[child|]| |]; try done. simpl.
  intros Hs. eapply store_soundBranch; [exact Hs|done|done].
Qed.

Lemma firstFrom_lookup (cs : list (option nodeExtension)) e :
  Branch.firstFrom cs = Some e -> exists i, cs !! i = Some (Some e).
Proof.
  induction cs as [|[c|] rest IH]; simpl; [done| |].
  - intros [= ->]. by exists 0.
  - intros He. destruct (IH He) as [i Hi]. by exists (S i).
Qed.

Lemma First_sound b e :
  soundBranch b = true -> Branch.First b = Some e -> soundExtension e = true.
Proof.
  rewrite soundBranch_true. intros (_ & _ & Hall) He.
  apply firstFrom_lookup in He as [i Hi]. by eapply Hall.
Qed.

Lemma SetKey_sound key e e' :
  Extension.SetKey key e = Val e' -> soundExtension e = true -> soundExtension e' = true.
Proof.
  unfold Extension.SetKey. case_decide; [done|]. intros [= <-] He.
  by rewrite soundExtension_eq in *.
Qed.

Lemma SetNext_sound n e :
  soundExtension e = true -> soundNode n = true ->
  soundExtension (Extension.SetNext n e) = true.
Proof.
  rewrite !soundExtension_true. intros [Hh _] Hn. by destruct e.
Qed.

Lemma SetValueObject_sound v e :
  soundExtension e = true -> soundExtension (Extension.SetValueObject v e) = true.
Proof. rewrite !soundExtension_eq. by destruct e. Qed.

Lemma insertToExtension_sound_from key vo e :
  match Extension.Next e with
  | NilNode => True
  | ExtensionNode e' =>
      forall key, soundExtension e' = true -> ensures soundE (insertToExtension hs key vo e')
  | BranchNode b =>
      forall key, soundBranch b = true -> ensures soundB (insertToBranch hs key vo b)
  end ->
  soundExtension e = true -> ensures soundE (insertToExtension hs key vo e).
Proof.
  intros IH He.
  pose proof He as Hn. apply soundExtension_true in Hn as [_ Hn].
  destruct e as [h k n v]. simpl in IH, Hn. simpl insertToExtension.
  destruct (decide (key = k)).
  { destruct (Extension.HasValueObject _); [done|].
    by apply Extension_UpdateHash_sound, SetValueObject_sound. }
  destruct (commonPrefix k key) as [prefix| |]; [|done|done].
  destruct (decide (prefix = k)).
  { destruct n as [|e'|b].
    - apply ensures_try; [done|]. intros newTailNode Hnew.
      apply Extension_UpdateHash_sound, SetNext_sound; [done|].
      by apply (NewNodeExtension_sound _ _ _ _ Hnew).
    - apply ensures_try; [done|]. intros c _.
      apply ensures_try; [done|]. intros cn _.
      destruct (decide (c = cn)).
      + specialize (IH (drop (length prefix) key) Hn).
        destruct (insertToExtension hs _ vo e'); simpl in IH; [|by apply SetNext_sound|done].
        by apply Extension_UpdateHash_sound, SetNext_sound.
      + apply ensures_try; [done|]. intros newKeyNode Hnew.
        apply ensures_try; [done|]. intros newBranch Hbr.
        apply Extension_UpdateHash_sound, SetNext_sound; [done|].
        apply (NewNodeBranchWithChildren_sound e' newKeyNode newBranch); [exact Hn| |exact Hbr].
        by apply (NewNodeExtension_sound _ _ _ _ Hnew).
    - specialize (IH (drop (length prefix) key) Hn).
      destruct (insertToBranch hs _ vo b); simpl in IH; [|by apply SetNext_sound|done].
      by apply Extension_UpdateHash_sound, SetNext_sound. }
  destruct (decide (prefix = key)).
  { apply ensures_try; [done|]. intros tailNode Htail.
    apply ensures_try; [done|]. intros node Hnode.
    apply Extension_UpdateHash_sound, SetValueObject_sound, SetNext_sound.
    - by apply (SetKey_sound _ _ _ Hnode).
    - by apply (NewNodeExtension_sound _ _ _ _ Htail). }
  apply ensures_try; [done|]. intros nodeTailNode Htail.
  apply ensures_try; [done|]. intros newTailNode Hnew.
  apply ensures_try; [done|]. intros newBranch Hbr.
  apply ensures_try; [done|]. intros node Hnode.
  apply Extension_UpdateHash_sound, SetValueObject_sound, SetNext_sound.
  - by apply (SetKey_sound _ _ _ Hnode).
  - apply (NewNodeBranchWithChildren_sound nodeTailNode newTailNode newBranch);
      [| |exact Hbr].
    + by apply (NewNodeExtension_sound _ _ _ _ Htail).
    + by apply (NewNodeExtension_sound _ _ _ _ Hnew).
Qed.

Lemma insertToBranch_sound_from key vo b :
  (forall i e, Branch.ListChildren b !! i = Some (Some e) ->
     forall key, soundExtension e = true -> ensures soundE (insertToExtension hs key vo e)) ->
  soundBranch b = true -> ensures soundB (insertToBranch hs key vo b).
Proof.
  intros IH Hb.
  pose proof Hb as Hall. apply soundBranch_true in Hall as (_ & _ & Hall).
  destruct b as [h cs]. simpl in IH, Hall. simpl insertToBranch.
  apply ensures_try; [done|]. intros c _.
  apply ensures_try; [done|]. intros i _.
  rewrite atChild_lookup.
  destruct (cs !! i) as [[e|]|] eqn:Hi; [| |done].
  - specialize (IH i e Hi key (Hall i e Hi)).
    destruct (insertToExtension hs key vo e); simpl in IH; [|by apply setChild_sound|done].
    by apply Branch_UpdateHash_sound, setChild_sound.
  - apply ensures_try; [done|]. intros n Hn.
    apply ensures_try; [done|]. intros node Hnode.
    apply Branch_UpdateHash_sound.
    apply (Append_sound n (mkBranch h cs) node); [|done|exact Hnode].
    by apply (NewNodeExtension_sound _ _ _ _ Hn).
Qed.

Lemma insertToExtension_sound e :
  forall key vo, soundExtension e = true -> ensures soundE (insertToExtension hs key vo e).
Proof.
  revert e. apply (nodeExtension_induction
           (fun e => forall key vo, soundExtension e = true ->
                       ensures soundE (insertToExtension hs key vo e))
           (fun b => forall key vo, soundBranch b = true ->
                       ensures soundB (insertToBranch hs key vo b))).
  - intros h k v key vo. by apply insertToExtension_sound_from.
  - intros h k e' v IH key vo. apply insertToExtension_sound_from. intros key'. apply IH.
  - intros h k b v IH key vo. apply insertToExtension_sound_from. intros key'. apply IH.
  - intros h cs IH key vo. apply insertToBranch_sound_from.
    intros i e Hi key'. by eapply IH.
Qed.

Lemma insertToBranch_sound b key vo :
  soundBranch b = true -> ensures soundB (insertToBranch hs key vo b).
Proof.
  apply insertToBranch_sound_from. intros i e _ key'. apply insertToExtension_sound.
Qed.

Lemma asNode_sound b :
  soundBranch b = true -> soundNode (asNode (Branch.First b)) = true.
Proof.
  intros Hb. destruct (Branch.First b) as [e|] eqn:He; [|done].
  by eapply First_sound.
Qed.

Lemma deleteKeyInExtension_sound_from key e :
  match Extension.Next e with
  | NilNode => True
  | ExtensionNode e' =>
      forall key, soundExtension e' = true -> ensures soundE (deleteKeyInExtension hs key e')
  | BranchNode b =>
      forall key, soundBranch b = true -> ensures soundB (deleteKeyInBranch hs key b)
  end ->
  soundExtension e = true -> ensures soundE (deleteKeyInExtension hs key e).
Proof.
  intros IH He.
  pose proof He as Hn. apply soundExtension_true in Hn as [_ Hn].
  destruct e as [h k n v]. simpl in IH, Hn. simpl deleteKeyInExtension.
  destruct (decide (key = k)).
  { destruct (negb _); [done|].
    destruct n as [|next|next]; [done| |].
    - apply ensures_try; [done|]. intros node Hnode.
      apply ensures_returning, Extension_UpdateHash_sound.
      apply SetNext_sound; [by apply SetValueObject_sound, (SetKey_sound _ _ _ Hnode)|].
      simpl in Hn. by apply soundExtension_true in Hn as [_ Hn].
    - by apply ensures_returning, Extension_UpdateHash_sound. }
  destruct (commonPrefix k key) as [prefix| |]; [|done|done].
  destruct (decide (prefix = key)); [done|].
  destruct (negb (bool_decide (prefix = k))); [done|].
  destruct n as [|next|next]; [done| |].
  - apply ensures_try; [done|]. intros c _.
    apply ensures_try; [done|]. intros cn _.
    destruct (negb (bool_decide (c = cn))); [done|].
    specialize (IH (drop (length prefix) key) Hn).
    destruct (deleteKeyInExtension hs _ next) as [[] next'|err next'|];
      simpl in IH; [| |by apply SetNext_sound|done].
    + destruct (Extension.HasValueObject _).
      * by apply ensures_returning, Extension_UpdateHash_sound, SetNext_sound.
      * by apply SetNext_sound.
    + by apply ensures_returning, Extension_UpdateHash_sound, SetNext_sound.
  - specialize (IH (drop (length prefix) key) Hn).
    destruct (deleteKeyInBranch hs _ next) as [[] next'|err next'|];
      simpl in IH; [| |by apply SetNext_sound|done].
    + destruct (Extension.HasValueObject _).
      * apply ensures_returning, Extension_UpdateHash_sound, SetNext_sound; [done|].
        by apply asNode_sound.
      * destruct (Branch.First next') as [newNext|] eqn:Hfirst; [|done].
        pose proof (First_sound _ _ IH Hfirst) as Hnew.
        apply ensures_try; [by apply SetNext_sound|]. intros node Hnode.
        apply ensures_returning, Extension_UpdateHash_sound.
        apply SetNext_sound; [by apply SetValueObject_sound, (SetKey_sound _ _ _ Hnode)|].
        by apply soundExtension_true in Hnew as [_ Hnew].
    + by apply ensures_returning, Extension_UpdateHash_sound, SetNext_sound.
Qed.

Lemma deleteKeyInBranch_sound_from key b :
  (forall i e, Branch.ListChildren b !! i = Some (Some e) ->
     forall key, soundExtension e = true -> ensures soundE (deleteKeyInExtension hs key e)) ->
  soundBranch b = true -> ensures soundB (deleteKeyInBranch hs key b).
Proof.
  intros IH Hb.
  pose proof Hb as Hall. apply soundBranch_true in Hall as (_ & _ & Hall).
  destruct b as [h cs]. simpl in IH, Hall. simpl deleteKeyInBranch.
  apply ensures_try; [done|]. intros c _.
  apply ensures_try; [done|]. intros i _.
  rewrite atChild_lookup.
  destruct (cs !! i) as [[e|]|] eqn:Hi; [|done|done].
  specialize (IH i e Hi key (Hall i e Hi)).
  destruct (deleteKeyInExtension hs key e) as [[] child|err child|];
    simpl in IH; [| |by apply setChild_sound|done].
  - apply ensures_try; [by apply setChild_sound|]. intros node Hnode.
    assert (soundBranch node = true) as Hsound.
    { eapply Delete_sound; [|exact Hnode]. by apply setChild_sound. }
    case_decide; [done|].
    by apply ensures_returning, Branch_UpdateHash_sound.
  - by apply ensures_returning, Branch_UpdateHash_sound, setChild_sound.
Qed.

Lemma deleteKeyInExtension_sound e :
  forall key, soundExtension e = true -> ensures soundE (deleteKeyInExtension hs key e).
Proof.
  revert e.
  apply (nodeExtension_induction
           (fun e => forall key, soundExtension e = true ->
                       ensures soundE (deleteKeyInExtension hs key e))
           (fun b => forall key, soundBranch b = true ->
                       ensures soundB (deleteKeyInBranch hs key b))).
  - intros h k v key. by apply deleteKeyInExtension_sound_from.
  - intros h k e' v IH key. apply deleteKeyInExtension_sound_from. exact IH.
  - intros h k b v IH key. apply deleteKeyInExtension_sound_from. exact IH.
  - intros h cs IH key. apply deleteKeyInBranch_sound_from.
    intros i e Hi key'. by eapply IH.
Qed.

Lemma deleteKeyInBranch_sound b key :
  soundBranch b = true -> ensures soundB (deleteKeyInBranch hs key b).
Proof.
  apply deleteKeyInBranch_sound_from. intros i e _ key'. apply deleteKeyInExtension_sound.
Qed.

End Sound.

(** ** The lookup writes nothing *)

Lemma try_unchanged {S A B} (r : res A) (s : S) (k : A -> run S B) :
  (forall a, unchanged s (k a)) -> unchanged s (try r s k).
Proof. intros Hk. destruct r; simpl; auto. Qed.

Lemma merklePathInExtension_reads_from e key :
  match Extension.Next e with
  | NilNode => True
  | ExtensionNode e' => forall key, unchanged e' (merklePathInExtension key e')
  | BranchNode b => forall key, unchanged b (merklePathInBranch key b)
  end ->
  unchanged e (merklePathInExtension key e).
Proof.
  destruct e as [h k n v]. simpl. intros IH.
  destruct (decide (key = k)).
  { destruct (negb _); [done|]. by apply try_unchanged. }
  destruct (commonPrefix k key) as [prefix| |]; [|done|done].
  destruct (decide (prefix = key)); [done|].
  destruct (negb (bool_decide (prefix = k))); [done|].
  destruct n as [|e'|b]; [done| |].
  - apply try_unchanged; intros c. apply try_unchanged; intros cn.
    destruct (negb (bool_decide (c = cn))); [done|].
    specialize (IH (drop (length prefix) key)).
    destruct (merklePathInExtension _ e'); simpl in IH; subst; [|done|done].
    by apply try_unchanged.
  - specialize (IH (drop (length prefix) key)).
    destruct (merklePathInBranch _ b); simpl in IH; subst; [|done|done].
    by apply try_unchanged.
Qed.

Lemma merklePathInBranch_reads_from b key :
  (forall i e, Branch.ListChildren b !! i = Some (Some e) ->
     forall key, unchanged e (merklePathInExtension key e)) ->
  unchanged b (merklePathInBranch key b).
Proof.
  destruct b as [h cs]. simpl. intros IH.
  apply try_unchanged; intros c. apply try_unchanged; intros i.
  rewrite atChild_lookup.
  destruct (cs !! i) as [[e|]|] eqn:Hi. 2,3: (simpl; done).
  pose proof (IH i e Hi key) as He.
  destruct (merklePathInExtension key e); simpl in He; subst;
    rewrite ?(setChild_same i e (mkBranch h cs)) by done; [|done|done].
  by apply try_unchanged.
Qed.

Lemma merklePathInExtension_reads e key : unchanged e (merklePathInExtension key e).
Proof.
  revert key.
  apply (nodeExtension_induction
           (fun e => forall key, unchanged e (merklePathInExtension key e))
           (fun b => forall key, unchanged b (merklePathInBranch key b))).
  - intros h k v key. by apply merklePathInExtension_reads_from.
  - intros h k e' v IH key. by apply merklePathInExtension_reads_from.
  - intros h k b v IH key. by apply merklePathInExtension_reads_from.
  - intros h cs IH key. by apply merklePathInBranch_reads_from.
Qed.

Lemma merklePathInBranch_reads b key : unchanged b (merklePathInBranch key b).
Proof.
  apply merklePathInBranch_reads_from. intros i e _ key'.
  apply merklePathInExtension_reads.
Qed.

Lemma FindMerklePath_reads mt key : unchanged mt (FindMerklePath key mt).
Proof.
  unfold FindMerklePath. destruct (decide (length key = 0)); [done|].
  pose proof (merklePathInBranch_reads (root mt) (hex.EncodeToString key)) as Hroot.
  destruct mt as [hs r]. simpl in *.
  destruct (merklePathInBranch _ r); simpl in Hroot; subst; [|done|done].
  by apply try_unchanged.
Qed.

(** ** Reachable tries *)

Lemma ensures_onRoot {A} (P : nodeBranch -> Prop) mt (r : run nodeBranch A) :
  ensures P r -> ensures (fun mt' => P (root mt') /\ hs mt' = hs mt) (onRoot mt r).
Proof. by destruct r. Qed.

Lemma NewMerklePatriciaTrie_sound digest mt :
  properDigest digest -> NewMerklePatriciaTrie digest = Val mt ->
  soundBranch (root mt) = true /\ hs mt = digest.
Proof.
  intros Hp. unfold NewMerklePatriciaTrie, Branch.UpdateHash.
  destruct (Branch.Serialize NewNodeBranch); [|done|done].
  destruct (digest a) as [h| |] eqn:Hh; [|done|done].
  intros [= <-]. split; [|done]. apply soundBranch_true. simpl.
  split; [by eapply Hp|]. split; [done|].
  intros i e Hi. exfalso.
  change (replicate ChildIndexCount None !! i = Some (Some e)) in Hi.
  apply lookup_replicate in Hi as [? _]. done.
Qed.

Lemma Insert_sound key value mt :
  properDigest (hs mt) -> soundBranch (root mt) = true ->
  ensures (fun mt' => soundBranch (root mt') = true /\ hs mt' = hs mt) (Insert key value mt).
Proof.
  intros Hp Hs. unfold Insert. case_decide; [done|].
  pose proof (insertToBranch_sound (hs mt) Hp (root mt) (hex.EncodeToString key)
                (NewValueObject value) Hs) as Hb.
  destruct (insertToBranch _ _ _ _) as [u b|e b|]; simpl in Hb; [|done|done].
  by apply (ensures_onRoot soundB), Branch_UpdateHash_sound.
Qed.

Lemma Delete_trie_sound key mt :
  properDigest (hs mt) -> soundBranch (root mt) = true ->
  ensures (fun mt' => soundBranch (root mt') = true /\ hs mt' = hs mt) (Delete key mt).
Proof.
  intros Hp Hs. unfold Delete. case_decide; [done|].
  pose proof (deleteKeyInBranch_sound (hs mt) Hp (root mt) (hex.EncodeToString key) Hs) as Hb.
  destruct (deleteKeyInBranch _ _ _) as [u b|e b|]; simpl in Hb; [|done|done].
  by apply (ensures_onRoot soundB), Branch_UpdateHash_sound.
Qed.

Lemma ensures_endsIn {S A} (P : S -> Prop) (r : run S A) s :
  ensures P r -> endsIn r s -> P s.
Proof. destruct r; simpl; intros; subst; done. Qed.

Lemma reachable_sound digest mt :
  properDigest digest -> reachable digest mt ->
  soundBranch (root mt) = true /\ hs mt = digest.
Proof.
  intros Hp. induction 1 as [mt Hnew|mt key value mt' _ [IHs IHh] Hins|mt key mt' _ [IHs IHh] Hdel].
  - by apply NewMerklePatriciaTrie_sound.
  - rewrite <- IHh in Hp.
    destruct (ensures_endsIn _ _ _ (Insert_sound key value mt Hp IHs) Hins) as [? ?].
    split; [done|congruence].
  - rewrite <- IHh in Hp.
    destruct (ensures_endsIn _ _ _ (Delete_trie_sound key mt Hp IHs) Hdel) as [? ?].
    split; [done|congruence].
Qed.

(** ** A lookup path in a sound trie *)

Lemma path_sound :
  (forall e key trail, extensionPath e key trail -> soundExtension e = true ->
     Forall soundVisit trail) /\
  (forall b key trail, branchPath b key trail -> soundBranch b = true ->
     Forall soundVisit trail).
Proof.
  apply extensionPath_branchPath_mutind.
  - intros e key v _ _ He. by apply Forall_singleton.
  - intros e n tail trail _ _ Hn _ IH He. apply Forall_app. split; [|by apply Forall_singleton].
    apply IH. apply soundExtension_true in He as [_ He]. by rewrite Hn in He.
  - intros e b tail trail _ Hn _ IH He. apply Forall_app. split; [|by apply Forall_singleton].
    apply IH. apply soundExtension_true in He as [_ He]. by rewrite Hn in He.
  - intros b c i e key trail _ _ Hi _ IH Hb. apply Forall_app. split; [|by apply Forall_singleton].
    apply IH. apply soundBranch_true in Hb as (_ & _ & Hall). by eapply Hall.
Qed.

Lemma soundVisit_hashed v : soundVisit v -> hashedVisit v.
Proof.
  destruct v as [e|b]; simpl.
  - intros He. by apply soundExtension_true in He as [? _].
  - intros Hb i e Hi. apply soundBranch_true in Hb as (_ & _ & Hall).
    specialize (Hall i e Hi). by apply soundExtension_true in Hall as [? _].
Qed.

Lemma soundVisit_slots b :
  soundVisit (VisitBranch b) -> length (hashes (merkleSetOf (VisitBranch b))) = ChildIndexCount.
Proof.
  simpl. intros Hb. apply soundBranch_true in Hb as (_ & Hlen & _).
  by rewrite length_map.
Qed.

Lemma branchPath_last b key trail :
  branchPath b key trail -> exists below, trail = below ++ [VisitBranch b].
Proof. destruct 1. by eexists. Qed.

Lemma FindMerklePath_on_path mt key trail :
  soundBranch (root mt) = true ->
  branchPath (root mt) (hex.EncodeToString key) trail ->
  FindMerklePath key mt =
    Ok (map merkleSetOf trail ++ [mkMerkleSet [Branch.hash (root mt)]]) mt.
Proof.
  intros Hs Hpath. unfold FindMerklePath.
  pose proof (branchPath_nonempty _ _ _ Hpath) as Hne.
  rewrite decide_False by (intros Hlen; destruct key; done).
  destruct merklePath_on_path as [_ Hb].
  rewrite (Hb _ _ _ Hpath).
  - destruct mt as [hs r]. simpl in *. unfold Branch.Hash.
    apply soundBranch_true in Hs as (Hh & _). by rewrite nodeBase_Hash_nonempty.
  - destruct path_sound as [_ Hsound].
    eapply List.Forall_impl; [apply soundVisit_hashed|exact (Hsound _ _ _ Hpath Hs)].
Qed.

(** ** Results through the root *)

Lemma trie_eta mt : mkTrie (hs mt) (root mt) = mt.
Proof. by destruct mt. Qed.

Lemma onRoot_by_root {A} mt (r : run nodeBranch A) a b :
  rootOf (onRoot mt r) = Ok a b -> onRoot mt r = Ok a (mkTrie (hs mt) b).
Proof. destruct r; simpl; congruence. Qed.

Lemma Insert_by_root key value mt a b :
  rootOf (Insert key value mt) = Ok a b -> Insert key value mt = Ok a (mkTrie (hs mt) b).
Proof.
  unfold Insert. case_decide; [done|].
  destruct (insertToBranch _ _ _ _); [|done|done]. apply onRoot_by_root.
Qed.

Lemma Delete_by_root key mt a b :
  rootOf (Delete key mt) = Ok a b -> Delete key mt = Ok a (mkTrie (hs mt) b).
Proof.
  unfold Delete. case_decide; [done|].
  destruct (deleteKeyInBranch _ _ _); [|done|done]. apply onRoot_by_root.
Qed.

Lemma NewMerklePatriciaTrie_by_root hs b :
  match NewMerklePatriciaTrie hs with Val mt => root mt = b | _ => False end ->
  NewMerklePatriciaTrie hs = Val (mkTrie hs b).
Proof.
  unfold NewMerklePatriciaTrie. destruct (Branch.UpdateHash hs NewNodeBranch); [|done|done].
  simpl. by intros ->.
Qed.

Lemma sha256Hash_proper : properDigest sha256Hash.
Proof.
  intros s h [= <-]. unfold sha256.Sum256.
  destruct (fold_left sha256.compress _ _) as [[[[[[[a b] c] d] e] f] g] h'].
  done.
Qed.

(** ** The trie that holds one key *)

Lemma Branch_UpdateHash_children hs b u b' :
  Branch.UpdateHash hs b = Ok u b' -> Branch.ListChildren b' = Branch.ListChildren b.
Proof.
  unfold Branch.UpdateHash. destruct (Branch.Serialize b); [|done|done].
  destruct (hs a); [|done|done]. intros [= _ <-]. by destruct b.
Qed.

Lemma NewNodeExtension_fields key n v hs e :
  NewNodeExtension key n v hs = Val e ->
  Extension.Key e = key /\ Extension.Next e = n /\ Extension.ValueObject e = v.
Proof.
  unfold NewNodeExtension, Extension.UpdateHash.
  destruct (Extension.Serialize _); [|done|done].
  destruct (hs a); [|done|done]. by intros [= <-].
Qed.

Lemma build_one_reachable hs key value mt :
  build hs [(key, value)] = Ok tt mt -> reachable hs mt.
Proof.
  unfold build. destruct (NewMerklePatriciaTrie hs) as [mt0| |] eqn:Hnew; [|done|done].
  simpl. destruct (Insert key value mt0) as [u mt1|e mt1|] eqn:Hins; [|done|done].
  intros [= <-]. eapply reach_insert; [by apply reach_new|]. by rewrite Hins.
Qed.

Lemma build_tests_key_path hs value mt :
  build hs [(tests_key, value)] = Ok tt mt ->
  exists e, branchPath (root mt) (hex.EncodeToString tests_key)
              ([VisitExtension e] ++ [VisitBranch (root mt)]).
Proof.
  unfold build, NewMerklePatriciaTrie.
  destruct (Branch.UpdateHash hs NewNodeBranch) as [u0 root0|e0 root0|] eqn:Hnew; [|done|done].
  apply Branch_UpdateHash_children in Hnew.
  destruct root0 as [h0 cs0]. simpl in Hnew. subst cs0.
  unfold insertAll, Insert. rewrite decide_False by done.
  change (hex.EncodeToString tests_key) with (str "6b6579").
  set (vo := NewValueObject value).
  simpl.
  destruct (NewNodeExtension (str "6b6579") NilNode (Some vo) hs) as [n| |] eqn:Hn; [|done|done].
  destruct (NewNodeExtension_fields _ _ _ _ _ Hn) as (Hkey & _ & Hvalue).
  simpl. unfold Branch.Append. rewrite Hkey. simpl.
  destruct (Branch.UpdateHash hs _) as [u1 root1|e1 root1|] eqn:H1; [|done|done].
  apply Branch_UpdateHash_children in H1. simpl in H1.
  destruct (Branch.UpdateHash hs root1) as [u2 root2|e2 root2|] eqn:H2; [|done|done].
  apply Branch_UpdateHash_children in H2. simpl.
  intros [= <-]. simpl. exists n.
  apply (path_child root2 "6"%byte 6 n (str "6b6579") [VisitExtension n]);
    [reflexivity|reflexivity| |].
  - by rewrite H2, H1.
  - eapply path_here; [by rewrite Hkey|exact Hvalue].
Qed.

(** ** Serialization *)

Lemma encodeChildren_stream children w :
  (forall i c, children !! i = Some (Some c) -> Extension.hash c <> []) ->
  Branch.encodeChildren children w =
    Val (foldl (fun w v => gob.Encode v w) w
           (flat_map slotPreimage (map (fmap Extension.hash) children))).
Proof.
  revert w. induction children as [|[c|] rest IH]; intros w Hall; simpl; [done| |].
  - unfold Extension.Hash. rewrite nodeBase_Hash_nonempty by (by apply (Hall 0)).
    simpl. apply IH. intros i e. apply (Hall (S i)).
  - apply IH. intros i e. apply (Hall (S i)).
Qed.

Lemma Node_Hash_nextHash n h :
  nextHash n = Some h -> h <> [] -> Node_Hash n = Val h.
Proof.
  destruct n as [|[h' k n' v]|[h' cs]]; simpl; [done| |];
    intros [= ->] Hh; by apply nodeBase_Hash_nonempty.
Qed.

Lemma Extension_Serialize_stream e :
  (forall h, nextHash (Extension.Next e) = Some h -> h <> []) ->
  Extension.Serialize e =
    Val (gob.stream (extensionPreimage (Extension.Key e) (nextHash (Extension.Next e))
                       (Value <$> Extension.ValueObject e))).
Proof.
  intros Hh. destruct e as [h k n v]. unfold Extension.Serialize, Extension.HasNext.
  simpl Extension.Next in *. simpl Extension.Key. simpl Extension.ValueObject.
  destruct (nextHash n) as [hn|] eqn:Hn.
  - rewrite (Node_Hash_nextHash n hn) by auto.
    destruct n; [done| |]; by destruct v.
  - destruct n; [|done|done]. by destruct v.
Qed.

Lemma Branch_Serialize_stream b :
  (forall i c, Branch.ListChildren b !! i = Some (Some c) -> Extension.hash c <> []) ->
  Branch.Serialize b =
    Val (gob.stream (branchPreimage (map (fmap Extension.hash) (Branch.ListChildren b)))).
Proof.
  intros Hall. unfold Branch.Serialize. by rewrite encodeChildren_stream.
Qed.


(** ** The trie of the Merkle-path scenario *)

Lemma keyTrie_path :
  exists e, branchPath keyRoot (hex.EncodeToString tests_key)
              ([VisitExtension e] ++ [VisitBranch keyRoot]).
Proof.
  eexists. eapply path_child; [reflexivity|reflexivity|reflexivity|].
  eapply path_here; reflexivity.
Qed.

Lemma keyTrie_reachable : reachable sha256Hash keyTrie.
Proof.
  apply build_one_reachable with (key := tests_key) (value := value5).
  unfold build.
  assert (NewMerklePatriciaTrie sha256Hash
          = Val (mkTrie sha256Hash
                   (match NewMerklePatriciaTrie sha256Hash with
                    | Val mt => root mt
                    | _ => NewNodeBranch
                    end))) as Hnew.
  { apply NewMerklePatriciaTrie_by_root.
    destruct (NewMerklePatriciaTrie sha256Hash) eqn:Hn; [done| |];
      apply (f_equal (fun r => match r with Val _ => true | _ => false end)) in Hn;
      vm_compute in Hn; discriminate Hn. }
  rewrite Hnew. unfold insertAll.
  rewrite (Insert_by_root tests_key value5 _ tt keyRoot) by (vm_compute; reflexivity).
  reflexivity.
Qed.


(** ** Delete succeeds on stored keys only *)

Lemma returning_Ok {S A B} (b : B) (r : run S A) b' s :
  returning b r = Ok b' s -> exists a, r = Ok a s.
Proof. destruct r; simpl; [|done|done]. intros [= _ <-]. by eexists. Qed.

Lemma try_Ok {S A B} (r : res A) (s : S) (k : A -> run S B) b s' :
  try r s k = Ok b s' -> exists a, r = Val a /\ k a = Ok b s'.
Proof. destruct r; simpl; [|done|done]. by eexists. Qed.

Section DeleteStored.

Variable hs : crypto_Hash.

Lemma deleteKeyInExtension_stored_from key e sd e' :
  match Extension.Next e with
  | NilNode => True
  | ExtensionNode n =>
      forall key sd n', deleteKeyInExtension hs key n = Ok sd n' ->
                        exists trail, extensionPath n key trail
  | BranchNode b =>
      forall key sd b', deleteKeyInBranch hs key b = Ok sd b' ->
                        exists trail, branchPath b key trail
  end ->
  deleteKeyInExtension hs key e = Ok sd e' -> exists trail, extensionPath e key trail.
Proof.
  intros IH. destruct e as [h k n v]. simpl in IH. simpl deleteKeyInExtension.
  destruct (decide (key = k)) as [->|Hne].
  { destruct v as [v|]; [|done]. intros _. eexists. by eapply path_here. }
  destruct (commonPrefix k key) as [prefix| |] eqn:Hprefix; [|done|done].
  destruct (decide (prefix = key)); [done|].
  destruct (bool_decide (prefix = k)) eqn:Hk; [|done]. simpl.
  apply bool_decide_eq_true in Hk. subst prefix.
  destruct (commonPrefix_whole _ _ Hprefix) as [Hknil Hkey].
  set (keyTail := drop (length k) key) in *.
  assert (keyTail <> []) as Htail.
  { intros Hnil. rewrite Hnil, app_nil_r in Hkey. done. }
  destruct n as [|next|next]; [done| |].
  - intros Hdel.
    apply try_Ok in Hdel as (c & _ & Hdel). apply try_Ok in Hdel as (cn & _ & Hdel).
    destruct (negb (bool_decide (c = cn))); [done|].
    destruct (deleteKeyInExtension hs keyTail next) as [sd' next'|err next'|] eqn:Hrec;
      [|by destruct sd|done].
    destruct (IH _ _ _ Hrec) as [trail Hpath].
    exists (trail ++ [VisitExtension (mkExtension h k (ExtensionNode next) v)]).
    rewrite Hkey.
    by apply (path_next_extension (mkExtension h k (ExtensionNode next) v) next).
  - intros Hdel.
    destruct (deleteKeyInBranch hs keyTail next) as [sd' next'|err next'|] eqn:Hrec;
      [|by destruct sd|done].
    destruct (IH _ _ _ Hrec) as [trail Hpath].
    exists (trail ++ [VisitExtension (mkExtension h k (BranchNode next) v)]).
    rewrite Hkey.
    by apply (path_next_branch (mkExtension h k (BranchNode next) v) next).
Qed.

Lemma deleteKeyInBranch_stored_from key b sd b' :
  (forall i e, Branch.ListChildren b !! i = Some (Some e) ->
     forall key sd e', deleteKeyInExtension hs key e = Ok sd e' ->
                       exists trail, extensionPath e key trail) ->
  deleteKeyInBranch hs key b = Ok sd b' -> exists trail, branchPath b key trail.
Proof.
  intros IH. destruct b as [h cs]. simpl in IH. simpl deleteKeyInBranch.
  intros Hdel.
  apply try_Ok in Hdel as (c & Hc & Hdel). apply try_Ok in Hdel as (i & Hi & Hdel).
  rewrite atChild_lookup in Hdel.
  destruct (cs !! i) as [[e|]|] eqn:He; [|done|done].
  destruct (deleteKeyInExtension hs key e) as [sd' e'|err e'|] eqn:Hrec; [|done|done].
  destruct (IH i e He _ _ _ Hrec) as [trail Hpath].
  exists (trail ++ [VisitBranch (mkBranch h cs)]).
  apply (path_child (mkBranch h cs) c i e); try done.
  unfold index in Hc. by destruct (key !! 0) as [c'|]; [injection Hc as ->|].
Qed.

Lemma deleteKeyInExtension_stored e :
  forall key sd e', deleteKeyInExtension hs key e = Ok sd e' ->
                    exists trail, extensionPath e key trail.
Proof.
  revert e.
  apply (nodeExtension_induction
           (fun e => forall key sd e', deleteKeyInExtension hs key e = Ok sd e' ->
                                       exists trail, extensionPath e key trail)
           (fun b => forall key sd b', deleteKeyInBranch hs key b = Ok sd b' ->
                                       exists trail, branchPath b key trail)).
  - intros h k v key sd e'. by apply deleteKeyInExtension_stored_from.
  - intros h k n v IH key sd e'. apply deleteKeyInExtension_stored_from. exact IH.
  - intros h k b v IH key sd e'. apply deleteKeyInExtension_stored_from. exact IH.
  - intros h cs IH key sd b'. apply deleteKeyInBranch_stored_from. exact IH.
Qed.

Lemma deleteKeyInBranch_stored b key sd b' :
  deleteKeyInBranch hs key b = Ok sd b' -> exists trail, branchPath b key trail.
Proof.
  apply deleteKeyInBranch_stored_from. intros i e _. apply deleteKeyInExtension_stored.
Qed.

End DeleteStored.

(** A Delete that returns without error was given a stored key. *)
Lemma Delete_success_stored key mt u mt' :
  Delete key mt = Ok u mt' -> stored mt key.
Proof.
  unfold Delete. case_decide; [done|].
  destruct (deleteKeyInBranch _ _ _) as [sd b|err b|] eqn:Hdel; [|done|done].
  intros _. by eapply deleteKeyInBranch_stored.
Qed.

(** ** Empty slots and nil entries *)

Lemma lookup_map {A B} (f : A -> B) (l : list A) i : map f l !! i = f <$> l !! i.
Proof. revert i. induction l as [|x l IH]; intros [|i]; simpl; auto. Qed.

Lemma soundVisit_nil_entries b i :
  soundVisit (VisitBranch b) ->
  (hashes (merkleSetOf (VisitBranch b)) !! i = Some [] <->
   Branch.ListChildren b !! i = Some None).
Proof.
  simpl. intros Hb. apply soundBranch_true in Hb as (_ & _ & Hall).
  rewrite lookup_map.
  destruct (Branch.ListChildren b !! i) as [[e|]|] eqn:Hi; simpl; [|done|done].
  specialize (Hall i e Hi). apply soundExtension_true in Hall as [Hh _].
  split; [|done]. intros [= Hnil]. done.
Qed.

(** * Properties of the specification *)

(** ** Properties that hold on every trie *)

(** C6: the bytes a node hashes follow the published pre-image format.  For
    an Extension whose next, if present, carries a hash, [Serialize] is the
    gob stream of: the string "E", the key as a string, then the string "C"
    and the hash of next as a byte blob, or the marker "NC" as a byte blob
    when there is no next, then the string "V" and the raw value bytes, or
    the string "NV".  For a Branch whose children carry a hash it is the
    stream of the string "B" and, slot after slot in index order, the
    string "C" and the child's hash as a byte blob, or the string "NC".
    [UpdateHash] stores the digest of exactly these bytes, the marker "NC"
    as a byte blob is not the bytes of the string "NC", and a new Branch
    has 16 empty slots. *)
Theorem serialization_follows_preimage_format
    (hs : crypto_Hash) (e : nodeExtension) (b : nodeBranch)
    (He : forall h, nextHash (Extension.Next e) = Some h -> h <> [])
    (Hb : forall i c, Branch.ListChildren b !! i = Some (Some c) -> Extension.hash c <> []) :
  let preE := extensionPreimage (Extension.Key e) (nextHash (Extension.Next e))
                (Value <$> Extension.ValueObject e) in
  let preB := branchPreimage (map (fmap Extension.hash) (Branch.ListChildren b)) in
  Extension.Serialize e = Val (gob.stream preE) /\
  (forall u e', Extension.UpdateHash hs e = Ok u e' ->
     hs (gob.stream preE) = Val (Extension.hash e')) /\
  Branch.Serialize b = Val (gob.stream preB) /\
  (forall u b', Branch.UpdateHash hs b = Ok u b' ->
     hs (gob.stream preB) = Val (Branch.hash b')) /\
  gob.message (gob.Bytes (str "NC")) <> gob.message (gob.String (str "NC")) /\
  Branch.ListChildren NewNodeBranch = replicate 16 None.
Proof.
  intros preE preB.
  pose proof (Extension_Serialize_stream e He) as HE.
  pose proof (Branch_Serialize_stream b Hb) as HB.
  repeat split; try done.
  - intros u e'. unfold Extension.UpdateHash. rewrite HE.
    destruct (hs _); [|done|done]. by intros [= _ <-].
  - intros u b'. unfold Branch.UpdateHash. rewrite HB.
    destruct (hs _); [|done|done]. by intros [= _ <-].
Qed.

Lemma serialization_follows_preimage_format_witness :
  let e := mkExtension [Byte.x01] (str "6b") NilNode (Some (NewValueObject value5)) in
  (forall h, nextHash (Extension.Next e) = Some h -> h <> []) /\
  (forall i c, Branch.ListChildren keyRoot !! i = Some (Some c) -> Extension.hash c <> []) /\
  Extension.Serialize e =
    Val (gob.stream [gob.String (str "E"); gob.String (str "6b"); gob.Bytes (str "NC");
                     gob.String (str "V"); gob.Bytes value5]) /\
  Branch.Serialize keyRoot =
    Val (gob.stream (branchPreimage (map (fmap Extension.hash) (Branch.ListChildren keyRoot)))).
Proof.
  intros e.
  assert (forall h, nextHash (Extension.Next e) = Some h -> h <> []) as He by done.
  assert (forall i c, Branch.ListChildren keyRoot !! i = Some (Some c) ->
                      Extension.hash c <> []) as Hb.
  { assert (soundBranch keyRoot = true) as Hsound by (vm_compute; reflexivity).
    apply soundBranch_true in Hsound as (_ & _ & Hall).
    intros i c Hi. specialize (Hall i c Hi). by apply soundExtension_true in Hall as [? _]. }
  split; [exact He|]. split; [exact Hb|].
  destruct (serialization_follows_preimage_format sha256Hash e keyRoot He Hb)
    as (HE & _ & HB & _).
  split; [exact HE|exact HB].
Defined.

(** C7: when the key is stored, that is when a lookup path leads from the
    root to an Extension that holds a value for it, [Insert] of that key
    with any value returns the "already exists" error and the trie it
    leaves is the trie it was given: same nodes, same values, same hashes.
    The error names the part of the hex key the last Extension was asked
    for. *)
Theorem insert_of_stored_key_is_rejected (mt : MerklePatriciaTrie) (key value : list byte)
    (Hstored : stored mt key) :
  exists tail, Insert key value mt = Err (ErrKeyExists tail) mt.
Proof.
  destruct Hstored as [trail Hpath].
  destruct (insert_on_path (hs mt)) as [_ Hb].
  destruct (Hb _ _ _ Hpath (NewValueObject value)) as [tail Hdup].
  exists tail. unfold Insert.
  pose proof (branchPath_nonempty _ _ _ Hpath) as Hne.
  rewrite decide_False by (intros Hlen; destruct key; done).
  rewrite Hdup. by rewrite trie_eta.
Qed.

Lemma insert_of_stored_key_is_rejected_witness :
  stored keyTrie tests_key /\
  exists tail, Insert tests_key (str "other") keyTrie = Err (ErrKeyExists tail) keyTrie.
Proof.
  assert (stored keyTrie tests_key) as Hstored.
  { destruct keyTrie_path as [e He]. eexists. exact He. }
  split; [exact Hstored|].
  exact (insert_of_stored_key_is_rejected keyTrie tests_key (str "other") Hstored).
Defined.

(** C9: in a trie reached from a new one by Insert and Delete, with a
    digest that never answers the empty blob, [FindMerklePath] of a stored
    key succeeds, leaves the trie as it is, and returns, leaf first, one
    set for each node of the lookup path, a single hash for an Extension
    and the hashes of the 16 slots for a Branch, nil for the empty slots
    and for them only, and last the set of the root hash alone.  The lookup path ends at the root
    Branch.  For the trie that holds the key "key" alone the path has 3
    sets. *)
Theorem merkle_path_of_stored_key (hs : crypto_Hash) (mt : MerklePatriciaTrie)
    (key : list byte) (trail : list visited)
    (Hdigest : properDigest hs)
    (Hreach : reachable hs mt)
    (Hpath : branchPath (root mt) (hex.EncodeToString key) trail) :
  FindMerklePath key mt =
    Ok (map merkleSetOf trail ++ [mkMerkleSet [Branch.hash (root mt)]]) mt /\
  (exists below, trail = below ++ [VisitBranch (root mt)]) /\
  (forall b, In (VisitBranch b) trail ->
     length (hashes (merkleSetOf (VisitBranch b))) = 16) /\
  (forall b i, In (VisitBranch b) trail ->
     (hashes (merkleSetOf (VisitBranch b)) !! i = Some [] <->
      Branch.ListChildren b !! i = Some None)) /\
  rootHash mt = Val (Branch.hash (root mt)) /\
  (forall value mt1, build hs [(tests_key, value)] = Ok tt mt1 ->
     exists path, FindMerklePath tests_key mt1 = Ok path mt1 /\ length path = 3).
Proof.
  destruct (reachable_sound hs mt Hdigest Hreach) as [Hsound _].
  split; [by apply FindMerklePath_on_path|].
  split; [by eapply branchPath_last|].
  assert (forall b, In (VisitBranch b) trail -> soundVisit (VisitBranch b)) as Hvisit.
  { intros b Hin. destruct path_sound as [_ Hall].
    pose proof (Hall _ _ _ Hpath Hsound) as Hvisits.
    rewrite List.Forall_forall in Hvisits. by apply Hvisits. }
  split; [intros b Hin; by apply soundVisit_slots, Hvisit|].
  split; [intros b i Hin; by apply soundVisit_nil_entries, Hvisit|].
  split.
  { unfold rootHash, Branch.Hash. apply nodeBase_Hash_nonempty.
    by apply soundBranch_true in Hsound as [? _]. }
  intros value mt1 Hbuild.
  destruct (build_tests_key_path hs value mt1 Hbuild) as [e He].
  pose proof (build_one_reachable _ _ _ _ Hbuild) as Hreach1.
  destruct (reachable_sound hs mt1 Hdigest Hreach1) as [Hsound1 _].
  eexists. split; [by apply FindMerklePath_on_path|]. done.
Qed.

Lemma merkle_path_of_stored_key_witness :
  properDigest sha256Hash /\
  reachable sha256Hash keyTrie /\
  exists e,
    branchPath (root keyTrie) (hex.EncodeToString tests_key)
      ([VisitExtension e] ++ [VisitBranch keyRoot]) /\
    FindMerklePath tests_key keyTrie =
      Ok [mkMerkleSet [Extension.hash e];
          mkMerkleSet (map slotHash (Branch.ListChildren keyRoot));
          mkMerkleSet [Branch.hash keyRoot]] keyTrie.
Proof.
  split; [exact sha256Hash_proper|]. split; [exact keyTrie_reachable|].
  destruct keyTrie_path as [e He]. exists e. split; [exact He|].
  exact (proj1 (merkle_path_of_stored_key sha256Hash keyTrie tests_key _
                  sha256Hash_proper keyTrie_reachable He)).
Defined.

(** C10: [FindMerklePath] writes nothing.  Whether it returns a path or an
    error, the trie after the call is the trie before it, node for node:
    keys, values, next and children links and cached hashes, and so the
    root hash. *)
Theorem lookup_of_merkle_path_modifies_nothing (mt : MerklePatriciaTrie) (key : list byte) :
  match FindMerklePath key mt with
  | Ok _ mt' => mt' = mt /\ rootHash mt' = rootHash mt
  | Err _ mt' => mt' = mt /\ rootHash mt' = rootHash mt
  | Panic _ => True
  end.
Proof.
  pose proof (FindMerklePath_reads mt key) as Hreads.
  destruct (FindMerklePath key mt); simpl in Hreads; subst; done.
Qed.

(** ** Properties the code breaks: the run at the failing input

    [toChildIndex] sends 'a'-'f' to 0-5, the slots of '0'-'5'
    ([toChildIndex_letters]), and [deleteKeyInExtension] keeps the value of
    an Extension whose next is a Branch
    ([deleteKeyInExtension_before_branch]).  Each theorem below runs the
    code, under SHA-256 as in the tests, at an input where the property
    fails. *)

(** C1: order-independence fails.  The keys "a" (hex 61) and "k" (hex 6b)
    part at their second digit, '1' and 'b', which [toChildIndex] both
    sends to slot 1: the second child of the new Branch overwrites the
    first.  Both orders of insertion succeed and their root hashes
    differ. *)
Theorem insertion_order_changes_root_hash :
  exists h1 h2,
    finalRootHash (build sha256Hash [(key_a, value5); (key_k, value5)]) = Some h1 /\
    finalRootHash (build sha256Hash [(key_k, value5); (key_a, value5)]) = Some h2 /\
    h1 <> h2.
Proof.
  eexists. eexists. split; [vm_compute; reflexivity|]. split; [vm_compute; reflexivity|].
  discriminate.
Qed.

(** C2: Delete of a key stored at an Extension whose next is a Branch does
    not clear the value.  With "k", "k1" and "kA" inserted, Delete of "k"
    returns without error and leaves the root as it was, hash included, so
    "k" is still stored; a second Delete of "k" returns without error as
    well, where a not-found error is due. *)
Theorem delete_before_branch_keeps_value :
  let pairs := [(key_k, value5); (key_k1, value5); (key_kA, value5)] in
  exists b,
    rootOf (build sha256Hash pairs) = Ok tt b /\
    storedAt b key_k /\
    rootOf (buildThenDelete sha256Hash pairs [key_k]) = Ok tt b /\
    rootOf (buildThenDelete sha256Hash pairs [key_k; key_k]) = Ok tt b.
Proof.
  intros pairs. eexists. split; [vm_compute; reflexivity|].
  split; [|split; vm_compute; reflexivity].
  eexists. eapply path_child; [reflexivity|reflexivity|reflexivity|].
  eapply path_here; reflexivity.
Qed.

(** C3: dispatch by hex digit fails.  After Insert of the one-byte key a0
    the root holds the Extension with key "a0" in slot 0, while the digit
    'a' maps to 10 and slot 10 is empty. *)
Theorem letter_digit_lands_in_low_slot :
  exists b e,
    rootOf (build sha256Hash [(key_a0, value5)]) = Ok tt b /\
    Branch.ListChildren b !! 0 = Some (Some e) /\
    Extension.Key e = str "a0" /\
    hexDigitSlot "a" = Some 10 /\
    Branch.ListChildren b !! 10 = Some None /\
    dispatchedByDigit b = false.
Proof.
  eexists. eexists. split; [vm_compute; reflexivity|].
  repeat split; vm_compute; reflexivity.
Qed.

(** C4: delete-insert duality fails.  With "k", "k1" and "kA" inserted and
    "k" deleted, the root hash is not the root hash of a new trie with "k1"
    and "kA" inserted: the Delete of "k" left its value in place. *)
Theorem delete_does_not_undo_insert :
  exists h1 h2,
    finalRootHash (buildThenDelete sha256Hash
                     [(key_k, value5); (key_k1, value5); (key_kA, value5)] [key_k])
      = Some h1 /\
    finalRootHash (build sha256Hash [(key_k1, value5); (key_kA, value5)]) = Some h2 /\
    h1 <> h2.
Proof.
  eexists. eexists. split; [vm_compute; reflexivity|]. split; [vm_compute; reflexivity|].
  discriminate.
Qed.

(** C5: the shape invariants fail.  After the successful Inserts of "a" and
    "k" the Extension in slot 6 of the root is followed by a Branch with a
    single child. *)
Theorem colliding_digits_leave_one_child_branch :
  exists b e below,
    rootOf (build sha256Hash [(key_a, value5); (key_k, value5)]) = Ok tt b /\
    Branch.ListChildren b !! 6 = Some (Some e) /\
    Extension.Next e = BranchNode below /\
    Branch.Count below = 1 /\
    shapedTrie b = false.
Proof.
  eexists. eexists. eexists. split; [vm_compute; reflexivity|].
  repeat split; vm_compute; reflexivity.
Qed.

(** C8: Delete of a key that is not stored does not always return a
    not-found error.  With "a" and "b" inserted, "k" is not stored, and
    Delete of "k" panics: its second digit 'b' is sent to slot 1, which
    holds the Extension of the digit '1', and [commonPrefix] of "1" and "b"
    fails.  (A Delete that returns without error was given a stored key,
    [Delete_success_stored]: what fails is the not-found error.) *)
Theorem delete_of_missing_key_panics :
  let pairs := [(key_a, value5); (key_b, value5)] in
  exists b,
    rootOf (build sha256Hash pairs) = Ok tt b /\
    ~ storedAt b key_k /\
    buildThenDelete sha256Hash pairs [key_k] = Panic "no common prefix".
Proof.
  intros pairs. eexists. split; [vm_compute; reflexivity|].
  split; [|vm_compute; reflexivity].
  intros [trail Hpath].
  destruct (insert_on_path sha256Hash) as [_ Hinsert].
  destruct (Hinsert _ _ _ Hpath (NewValueObject [])) as [tail Hdup].
  vm_compute in Hdup. discriminate Hdup.
Qed.

Lemma commonPrefix_loop_longest a b minLen steps i :
  i + steps = minLen -> minLen <= length a -> minLen <= length b ->
  take i a = take i b ->
  exists n, i <= n <= minLen /\
            commonPrefix_loop a b minLen steps i = take n a /\ take n a = take n b /\
            (n = minLen \/ a !! n <> b !! n).
Proof.
  revert i. induction steps as [|steps IH]; intros i Hi Ha Hb Hpre; simpl.
  - exists minLen. replace minLen with i by lia. repeat split; try lia; auto.
  - destruct (decide (a !! i = b !! i)) as [Heq|Hne].
    + destruct (IH (S i)) as (n & Hn & E1 & E2 & Hmax); try lia.
      { destruct (a !! i) as [x|] eqn:Ea.
        - rewrite (take_S_r a i x), (take_S_r b i x); auto. by rewrite Hpre.
        - apply lookup_ge_None in Ea. lia. }
      exists n. repeat split; try lia; auto.
    + exists i. repeat split; try lia; auto.
Qed.

Lemma commonPrefix_Val a b p :
  commonPrefix a b = Val p ->
  exists n, 1 <= n /\ n <= length a /\ n <= length b /\ p = take n a /\ p = take n b /\
            (n = length a \/ n = length b \/ a !! n <> b !! n).
Proof.
  unfold commonPrefix. intros H.
  destruct (bool_decide (length a = 0) || bool_decide (length b = 0)) eqn:E; [done|].
  apply orb_false_iff in E as [Ea Eb].
  apply bool_decide_eq_false in Ea, Eb.
  destruct (decide (a !! 0 = b !! 0)) as [H0|]; [|done].
  injection H as <-. rewrite min_spec.
  destruct (commonPrefix_loop_longest a b (Nat.min (length a) (length b))
              (Nat.min (length a) (length b) - 1) 1) as (n & Hn & E1 & E2 & Hmax); try lia.
  { destruct a as [|x a]; [done|]. destruct b as [|y b]; [done|].
    simpl in H0. injection H0 as ->. done. }
  exists n. rewrite E1. repeat split; try lia; auto.
  destruct Hmax as [->|Hne]; [|auto]. lia.
Qed.

Lemma take_prefix_of {A} (q l : list A) : q `prefix_of` l -> q = take (length q) l.
Proof. intros [k ->]. by rewrite take_app_length. Qed.

Lemma hex_digit_high v : isHexDigit (hex.digit (Byte.to_N v / 16)) = true.
Proof. destruct v; vm_compute; reflexivity. Qed.
Lemma hex_digit_low v : isHexDigit (hex.digit (Byte.to_N v mod 16)) = true.
Proof. destruct v; vm_compute; reflexivity. Qed.

Lemma unhex_digits v :
  gob.byte_of (16 * unhexDigit (hex.digit (Byte.to_N v / 16))
               + unhexDigit (hex.digit (Byte.to_N v mod 16))) = v.
Proof. destruct v; vm_compute; reflexivity. Qed.

Lemma unhex_EncodeToString s : unhex (hex.EncodeToString s) = s.
Proof. induction s as [|v s IH]; [done|]. simpl. by rewrite unhex_digits, IH. Qed.

Lemma isHexDigit_toChildIndex c :
  isHexDigit c = true -> exists i, toChildIndex c = Val i /\ i < 10.
Proof.
  intros H. apply bool_decide_eq_true in H.
  unfold hex.hextable in H. vm_compute in H.
  repeat (apply elem_of_cons in H as [->|H]; [eexists; split; [vm_compute; reflexivity|lia]|]).
  by apply elem_of_nil in H.
Qed.

Lemma toChildIndex_Val c i : toChildIndex c = Val i -> isHexDigit c = true /\ i < 10.
Proof. destruct c; vm_compute; intros H; try discriminate; injection H as <-; split; try reflexivity; lia. Qed.

Lemma EncodeToString_digits s : Forall (fun c => isHexDigit c = true) (hex.EncodeToString s).
Proof.
  induction s as [|v s IH]; simpl; [constructor|].
  constructor; [apply hex_digit_high|]. constructor; [apply hex_digit_low|done].
Qed.

Lemma node_mutual_induction (P : nodeExtension -> Prop) (Q : nodeBranch -> Prop) :
  (forall e,
     match Extension.Next e with
     | NilNode => True
     | ExtensionNode n => P n
     | BranchNode b => Q b
     end -> P e) ->
  (forall b, (forall i e, Branch.ListChildren b !! i = Some (Some e) -> P e) -> Q b) ->
  (forall e, P e) /\ (forall b, Q b).
Proof.
  intros HP HQ.
  assert (forall e, P e) as HPe.
  { apply (nodeExtension_induction P Q).
    - intros h k v. by apply HP.
    - intros h k e v IH. by apply HP.
    - intros h k b v IH. by apply HP.
    - intros h cs IH. by apply HQ. }
  split; [done|]. intros b. apply HQ. intros i e _. apply HPe.
Qed.

Lemma try_Err {S A B} (r : res A) (s : S) (k : A -> run S B) e s' :
  try r s k = Err e s' -> (r = Fail e /\ s' = s) \/ exists a, r = Val a /\ k a = Err e s'.
Proof.
  destruct r; simpl; [|intros [= <- <-]; by left|done]. right. by eexists.
Qed.

Lemma returning_Err {S A B} (b : B) (r : run S A) e s :
  returning b r = Err e s -> r = Err e s.
Proof. destruct r; simpl; intros H; [discriminate|by injection H as -> ->|discriminate]. Qed.

Lemma index_Val {A} (s : list A) i c : index s i = Val c -> s !! i = Some c.
Proof. unfold index. destruct (s !! i); [by intros [= ->]|done]. Qed.

Lemma index_not_Fail {A} (s : list A) i e : index s i <> Fail e.
Proof. unfold index. by destruct (s !! i). Qed.

Lemma toChildIndex_not_Fail c e : toChildIndex c <> Fail e.
Proof. unfold toChildIndex. repeat case_match; done. Qed.

Lemma SetKey_not_Fail key e err : Extension.SetKey key e <> Fail err.
Proof. unfold Extension.SetKey. by case_decide. Qed.

Lemma SetKey_Val key e e' :
  Extension.SetKey key e = Val e' ->
  key <> [] /\ e' = mkExtension (Extension.hash e) key (Extension.Next e) (Extension.ValueObject e).
Proof.
  unfold Extension.SetKey. case_decide as Hk; [done|]. intros [= <-]. split; [|done].
  intros ->. by apply Hk.
Qed.

Lemma nodeBase_Hash_not_Fail h e : nodeBase_Hash h <> Fail e.
Proof. unfold nodeBase_Hash. by case_decide. Qed.

Lemma nodeBase_Hash_Val h h' : nodeBase_Hash h = Val h' -> h' = h /\ h <> [].
Proof.
  unfold nodeBase_Hash. case_decide as Hh; [done|]. intros [= <-]. split; [done|].
  intros ->. by apply Hh.
Qed.

Lemma Node_Hash_not_Fail n e : Node_Hash n <> Fail e.
Proof. destruct n as [|[]|[]]; simpl; [done| |]; apply nodeBase_Hash_not_Fail. Qed.

Lemma Extension_Serialize_not_Fail e err : Extension.Serialize e <> Fail err.
Proof.
  destruct e as [h k n v]. unfold Extension.Serialize. simpl.
  destruct (Extension.HasNext _); simpl.
  - destruct (Node_Hash n) eqn:Hn; simpl; [by destruct v|by apply Node_Hash_not_Fail in Hn|done].
  - by destruct v.
Qed.

Lemma encodeChildren_not_Fail cs w err : Branch.encodeChildren cs w <> Fail err.
Proof.
  revert w. induction cs as [|[c|] cs IH]; intros w; simpl; [done| |apply IH].
  destruct (Extension.Hash c) eqn:Hc; simpl; [apply IH| |done].
  by apply nodeBase_Hash_not_Fail in Hc.
Qed.

Lemma Branch_Serialize_not_Fail b err : Branch.Serialize b <> Fail err.
Proof. apply encodeChildren_not_Fail. Qed.

Lemma Extension_Serialize_setHash r e :
  Extension.Serialize (Extension.setHash r e) = Extension.Serialize e.
Proof. by destruct e. Qed.

Lemma Branch_Serialize_setHash r b :
  Branch.Serialize (Branch.setHash r b) = Branch.Serialize b.
Proof. by destruct b. Qed.

Lemma ListChildren_setHash r b :
  Branch.ListChildren (Branch.setHash r b) = Branch.ListChildren b.
Proof. by destruct b. Qed.

Lemma Extension_UpdateHash_Ok hs e u e' :
  Extension.UpdateHash hs e = Ok u e' ->
  exists s r, Extension.Serialize e = Val s /\ hs s = Val r /\ e' = Extension.setHash r e.
Proof.
  unfold Extension.UpdateHash.
  destruct (Extension.Serialize e) as [s| |]; [|done|done].
  destruct (hs s) as [r| |] eqn:Hr; [|done|done]. intros [= <-]. by exists s, r.
Qed.

Lemma Branch_UpdateHash_Ok hs b u b' :
  Branch.UpdateHash hs b = Ok u b' ->
  exists s r, Branch.Serialize b = Val s /\ hs s = Val r /\ b' = Branch.setHash r b.
Proof.
  unfold Branch.UpdateHash.
  destruct (Branch.Serialize b) as [s| |]; [|done|done].
  destruct (hs s) as [r| |] eqn:Hr; [|done|done]. intros [= <-]. by exists s, r.
Qed.

Lemma Extension_UpdateHash_Err hs e err e' :
  Extension.UpdateHash hs e = Err err e' -> exists s cause, hs s = Fail cause.
Proof.
  unfold Extension.UpdateHash.
  destruct (Extension.Serialize e) as [s| |] eqn:Hs; [| |done].
  - destruct (hs s) as [r| |] eqn:Hr; [done| |done]. by eexists _, _.
  - by apply Extension_Serialize_not_Fail in Hs.
Qed.

Lemma Branch_UpdateHash_Err hs b err b' :
  Branch.UpdateHash hs b = Err err b' -> exists s cause, hs s = Fail cause.
Proof.
  unfold Branch.UpdateHash.
  destruct (Branch.Serialize b) as [s| |] eqn:Hs; [| |done].
  - destruct (hs s) as [r| |] eqn:Hr; [done| |done]. by eexists _, _.
  - by apply Branch_Serialize_not_Fail in Hs.
Qed.

Lemma NewNodeExtension_Val key n v hs e :
  NewNodeExtension key n v hs = Val e ->
  exists u, Extension.UpdateHash hs (mkExtension [] key n v) = Ok u e.
Proof.
  unfold NewNodeExtension.
  destruct (Extension.UpdateHash _ _) as [u e0| |]; [|done|done].
  intros [= <-]. by exists u.
Qed.

Lemma NewNodeExtension_Fail key n v hs err :
  NewNodeExtension key n v hs = Fail err -> exists s cause, hs s = Fail cause.
Proof.
  unfold NewNodeExtension.
  destruct (Extension.UpdateHash _ _) as [u e0|err' e0|] eqn:Hu; [done| |done].
  intros _. by eapply Extension_UpdateHash_Err.
Qed.

Lemma store_Val i c b :
  i < length (Branch.ListChildren b) ->
  Branch.store i c b = Val (Branch.setChildren (<[i := c]> (Branch.ListChildren b)) b).
Proof. intros Hi. unfold Branch.store. by rewrite decide_True. Qed.

Lemma store_mk i c h cs :
  i < length cs -> Branch.store i c (mkBranch h cs) = Val (mkBranch h (<[i := c]> cs)).
Proof. intros Hi. unfold Branch.store. simpl. by rewrite decide_True. Qed.

Lemma store_not_Fail i c b err : Branch.store i c b <> Fail err.
Proof. unfold Branch.store. by case_decide. Qed.

(** What a successful [NewNodeBranchWithChildren] built. *)
Lemma NewNodeBranchWithChildren_Val a b hs n :
  NewNodeBranchWithChildren a b hs = Val n ->
  exists ca cb ia ib u,
    Extension.Key a !! 0 = Some ca /\ Extension.Key b !! 0 = Some cb /\ ca <> cb /\
    toChildIndex ca = Val ia /\ toChildIndex cb = Val ib /\
    Branch.UpdateHash hs
      (mkBranch [] (<[ib := Some b]> (<[ia := Some a]> (replicate ChildIndexCount None))))
      = Ok u n.
Proof.
  unfold NewNodeBranchWithChildren.
  destruct (_ || _); [done|].
  destruct (index (Extension.Key a) 0) as [ca| |] eqn:Hca; [|done|done]. cbn [mbind res_bind].
  destruct (index (Extension.Key b) 0) as [cb| |] eqn:Hcb; [|done|done]. cbn [mbind res_bind].
  case_decide as Hne; [done|].
  destruct (toChildIndex ca) as [ia| |] eqn:Hia; [|done|done]. cbn [mbind res_bind].
  destruct (toChildIndex_Val _ _ Hia) as [_ Hia10].
  rewrite store_mk by (rewrite length_replicate; unfold ChildIndexCount; lia).
  cbn [mbind res_bind].
  destruct (toChildIndex cb) as [ib| |] eqn:Hib; [|done|done]. cbn [mbind res_bind].
  destruct (toChildIndex_Val _ _ Hib) as [_ Hib10].
  rewrite store_mk
    by (rewrite length_insert, length_replicate; unfold ChildIndexCount; lia).
  cbn [mbind res_bind].
  destruct (Branch.UpdateHash _ _) as [u n0| |] eqn:Hu; [|done|done].
  intros [= <-]. exists ca, cb, ia, ib, u.
  apply index_Val in Hca, Hcb. done.
Qed.

Lemma NewNodeBranchWithChildren_Fail a b hs err :
  NewNodeBranchWithChildren a b hs = Fail err ->
  Extension.Key a = [] \/ Extension.Key b = [] \/
  Extension.Key a !! 0 = Extension.Key b !! 0 \/
  exists s cause, hs s = Fail cause.
Proof.
  unfold NewNodeBranchWithChildren.
  destruct (bool_decide (length (Extension.Key a) = 0)) eqn:Ha.
  { apply bool_decide_eq_true in Ha. left. by apply nil_length_inv. }
  destruct (bool_decide (length (Extension.Key b) = 0)) eqn:Hb.
  { apply bool_decide_eq_true in Hb. right. left. by apply nil_length_inv. }
  simpl.
  destruct (index (Extension.Key a) 0) as [ca| |] eqn:Hca;
    [|by apply index_not_Fail in Hca|done]. simpl.
  destruct (index (Extension.Key b) 0) as [cb| |] eqn:Hcb;
    [|by apply index_not_Fail in Hcb|done]. simpl.
  apply index_Val in Hca, Hcb.
  destruct (decide (ca = cb)) as [->|Hne].
  { intros _. right. right. left. by rewrite Hca, Hcb. }
  destruct (toChildIndex ca) as [ia| |] eqn:Hia;
    [|by apply toChildIndex_not_Fail in Hia|done]. simpl.
  destruct (Branch.store ia _ _) as [n1| |] eqn:H1; [|by apply store_not_Fail in H1|done].
  simpl.
  destruct (toChildIndex cb) as [ib| |] eqn:Hib;
    [|by apply toChildIndex_not_Fail in Hib|done]. simpl.
  destruct (Branch.store ib _ _) as [n2| |] eqn:H2; [|by apply store_not_Fail in H2|done].
  simpl.
  destruct (Branch.UpdateHash _ _) as [u n0|err' n0|] eqn:Hu; [done| |done].
  intros _. right. right. right. by eapply Branch_UpdateHash_Err.
Qed.

(** ** Lookup paths, built the way Insert builds them *)

Lemma leafValue_app trail v vo :
  leafValue trail = Some vo -> leafValue (trail ++ [v]) = Some vo.
Proof. by destruct trail. Qed.

Lemma holdsE_here e vo : Extension.ValueObject e = Some vo -> holdsE e (Extension.Key e) vo.
Proof. intros Hv. exists [VisitExtension e]. split; [by eapply path_here|done]. Qed.

Lemma holdsE_next e n tail vo :
  Extension.Key e <> [] -> tail <> [] -> Extension.Next e = ExtensionNode n ->
  holdsE n tail vo -> holdsE e (Extension.Key e ++ tail) vo.
Proof.
  intros Hk Ht Hn (trail & Hpath & Hleaf). exists (trail ++ [VisitExtension e]).
  split; [by eapply path_next_extension|by apply leafValue_app].
Qed.

Lemma holdsE_branch e b tail vo :
  Extension.Key e <> [] -> Extension.Next e = BranchNode b ->
  holdsB b tail vo -> holdsE e (Extension.Key e ++ tail) vo.
Proof.
  intros Hk Hn (trail & Hpath & Hleaf). exists (trail ++ [VisitExtension e]).
  split; [by eapply path_next_branch|by apply leafValue_app].
Qed.

Lemma holdsB_child b c i e key vo :
  key !! 0 = Some c -> toChildIndex c = Val i ->
  Branch.ListChildren b !! i = Some (Some e) ->
  holdsE e key vo -> holdsB b key vo.
Proof.
  intros Hc Hi He (trail & Hpath & Hleaf). exists (trail ++ [VisitBranch b]).
  split; [by eapply path_child|by apply leafValue_app].
Qed.

Lemma NewNodeBranchWithChildren_holds a b hs n vo :
  NewNodeBranchWithChildren a b hs = Val n ->
  Extension.ValueObject b = Some vo ->
  holdsB n (Extension.Key b) vo.
Proof.
  intros Hn Hv.
  destruct (NewNodeBranchWithChildren_Val _ _ _ _ Hn)
    as (ca & cb & ia & ib & u & Hca & Hcb & Hne & Hia & Hib & Hu).
  apply Branch_UpdateHash_Ok in Hu as (s & r & _ & _ & ->).
  apply (holdsB_child _ cb ib b); try done; [|by apply holdsE_here].
  rewrite ListChildren_setHash. cbn [Branch.ListChildren]. apply list_lookup_insert_eq.
  rewrite length_insert, length_replicate.
  destruct (toChildIndex_Val _ _ Hib). unfold ChildIndexCount. lia.
Qed.

Section InsertStores.

Variable hs : crypto_Hash.

Lemma insertToExtension_holds_from key vo e u e' :
  match Extension.Next e with
  | NilNode => True
  | ExtensionNode n =>
      forall key u n', insertToExtension hs key vo n = Ok u n' -> holdsE n' key vo
  | BranchNode b =>
      forall key u b', insertToBranch hs key vo b = Ok u b' -> holdsB b' key vo
  end ->
  insertToExtension hs key vo e = Ok u e' -> holdsE e' key vo.
Proof.
  intros IH. destruct e as [h k n v]. simpl in IH. simpl insertToExtension.
  destruct (decide (key = k)) as [->|Hne].
  { destruct v as [v|]; [done|]. simpl. intros Hu.
    apply Extension_UpdateHash_Ok in Hu as (s & r & _ & _ & ->). simpl.
    by apply (holdsE_here (mkExtension r k n (Some vo))). }
  destruct (commonPrefix k key) as [prefix| |] eqn:Hprefix; [|done|done].
  destruct (decide (prefix = k)) as [->|Hpk].
  - destruct (commonPrefix_whole _ _ Hprefix) as [Hknil Hkey].
    set (keyTail := drop (length k) key) in *.
    assert (keyTail <> []) as Htail.
    { intros Hnil. rewrite Hnil, app_nil_r in Hkey. done. }
    destruct n as [|next|next].
    + intros Hins. apply try_Ok in Hins as (t & Ht & Hu).
      apply Extension_UpdateHash_Ok in Hu as (s & r & _ & _ & ->). simpl.
      destruct (NewNodeExtension_fields _ _ _ _ _ Ht) as (Hkt & _ & Hvt).
      rewrite Hkey.
      apply (holdsE_next (mkExtension r k (ExtensionNode t) v) t); try done.
      rewrite <- Hkt. by apply holdsE_here.
    + intros Hins.
      apply try_Ok in Hins as (c & Hc & Hins). apply try_Ok in Hins as (cn & Hcn & Hins).
      destruct (decide (c = cn)) as [->|Hccn].
      * destruct (insertToExtension hs keyTail vo next) as [u' next'|err next'|] eqn:Hrec;
          [|done|done].
        apply Extension_UpdateHash_Ok in Hins as (s & r & _ & _ & ->). simpl.
        rewrite Hkey.
        apply (holdsE_next (mkExtension r k (ExtensionNode next') v) next'); try done.
        by eapply IH.
      * apply try_Ok in Hins as (t & Ht & Hins). apply try_Ok in Hins as (nb & Hnb & Hu).
        apply Extension_UpdateHash_Ok in Hu as (s & r & _ & _ & ->). simpl.
        destruct (NewNodeExtension_fields _ _ _ _ _ Ht) as (Hkt & _ & Hvt).
        rewrite Hkey.
        apply (holdsE_branch (mkExtension r k (BranchNode nb) v) nb); try done.
        rewrite <- Hkt. by eapply NewNodeBranchWithChildren_holds.
    + intros Hins.
      destruct (insertToBranch hs keyTail vo next) as [u' next'|err next'|] eqn:Hrec;
        [|done|done].
      apply Extension_UpdateHash_Ok in Hins as (s & r & _ & _ & ->). simpl.
      rewrite Hkey.
      apply (holdsE_branch (mkExtension r k (BranchNode next') v) next'); try done.
      by eapply IH.
  - destruct (commonPrefix_Val _ _ _ Hprefix)
      as (m & Hm1 & Hmk & Hmkey & Hpk' & Hpkey & Hmax).
    destruct (decide (prefix = key)) as [->|Hpkey'].
    + intros Hins. apply try_Ok in Hins as (t & Ht & Hins).
      apply try_Ok in Hins as (node' & Hnode' & Hu).
      apply SetKey_Val in Hnode' as [_ ->].
      apply Extension_UpdateHash_Ok in Hu as (s & r & _ & _ & ->). simpl.
      by apply (holdsE_here (mkExtension r key (ExtensionNode t) (Some vo))).
    + intros Hins. apply try_Ok in Hins as (t1 & Ht1 & Hins).
      apply try_Ok in Hins as (t2 & Ht2 & Hins).
      apply try_Ok in Hins as (nb & Hnb & Hins).
      apply try_Ok in Hins as (node' & Hnode' & Hu).
      apply SetKey_Val in Hnode' as [Hpnil ->].
      apply Extension_UpdateHash_Ok in Hu as (s & r & _ & _ & ->). simpl.
      destruct (NewNodeExtension_fields _ _ _ _ _ Ht2) as (Hkt & _ & Hvt).
      assert (key = prefix ++ drop (length prefix) key) as Hkey.
      { rewrite Hpkey at 1. rewrite Hpkey, length_take_le by lia. by rewrite take_drop. }
      rewrite Hkey at 1.
      apply (holdsE_branch (mkExtension r prefix (BranchNode nb) None) nb); try done.
      rewrite <- Hkt. by eapply NewNodeBranchWithChildren_holds.
Qed.

Lemma insertToBranch_holds_from key vo b u b' :
  (forall i e, Branch.ListChildren b !! i = Some (Some e) ->
     forall key u e', insertToExtension hs key vo e = Ok u e' -> holdsE e' key vo) ->
  insertToBranch hs key vo b = Ok u b' -> holdsB b' key vo.
Proof.
  intros IH. destruct b as [h cs]. simpl in IH. simpl insertToBranch.
  intros Hins.
  apply try_Ok in Hins as (c & Hc & Hins). apply try_Ok in Hins as (i & Hi & Hins).
  apply index_Val in Hc.
  rewrite atChild_lookup in Hins.
  destruct (cs !! i) as [[e|]|] eqn:He; [| |done].
  - destruct (insertToExtension hs key vo e) as [u' e'|err e'|] eqn:Hrec; [|done|done].
    apply Branch_UpdateHash_Ok in Hins as (s & r & _ & _ & ->).
    apply (holdsB_child _ c i e'); try done; [|by eapply IH].
    simpl. apply list_lookup_insert_eq. by eapply lookup_lt_Some.
  - apply try_Ok in Hins as (n & Hn & Hins). apply try_Ok in Hins as (b2 & Hb2 & Hu).
    apply Branch_UpdateHash_Ok in Hu as (s & r & _ & _ & ->).
    destruct (NewNodeExtension_fields _ _ _ _ _ Hn) as (Hkn & _ & Hvn).
    unfold Branch.Append in Hb2. rewrite Hkn, (index_head _ c) in Hb2 by done.
    simpl in Hb2. rewrite Hi in Hb2. simpl in Hb2.
    unfold index in Hb2. rewrite He in Hb2. simpl in Hb2.
    rewrite store_Val in Hb2 by (simpl; by eapply lookup_lt_Some).
    injection Hb2 as <-.
    apply (holdsB_child _ c i n); try done.
    + simpl. apply list_lookup_insert_eq. by eapply lookup_lt_Some.
    + rewrite <- Hkn. by apply holdsE_here.
Qed.

Lemma insert_holds :
  (forall e key vo u e', insertToExtension hs key vo e = Ok u e' -> holdsE e' key vo) /\
  (forall b key vo u b', insertToBranch hs key vo b = Ok u b' -> holdsB b' key vo).
Proof.
  apply (node_mutual_induction
           (fun e => forall key vo u e', insertToExtension hs key vo e = Ok u e' ->
                                         holdsE e' key vo)
           (fun b => forall key vo u b', insertToBranch hs key vo b = Ok u b' ->
                                         holdsB b' key vo)).
  - intros e IH key vo u e'. apply insertToExtension_holds_from.
    destruct (Extension.Next e); [done| |]; intros; by eapply IH.
  - intros b IH key vo u b'. apply insertToBranch_holds_from.
    intros i e He key' u' e'. by eapply IH.
Qed.

End InsertStores.

Lemma holdsB_setHash r b key vo : holdsB b key vo -> holdsB (Branch.setHash r b) key vo.
Proof.
  intros (trail & Hpath & Hleaf). inversion Hpath as [b0 c i e key0 trail0 Hc Hi He Hp]; subst.
  apply (holdsB_child _ c i e); [done|done|by rewrite ListChildren_setHash|].
  exists trail0. split; [done|]. by destruct trail0.
Qed.

Lemma Insert_Ok_storedWith key value mt u mt' :
  Insert key value mt = Ok u mt' -> storedWith mt' key value /\ hs mt' = hs mt.
Proof.
  unfold Insert. case_decide; [done|].
  destruct (insertToBranch _ _ _ _) as [u' b|err b|] eqn:Hins; [|done|done].
  destruct (Branch.UpdateHash (hs mt) b) as [u'' b'| |] eqn:Hu; [|done|done].
  simpl. intros [= _ <-]. split; [|done].
  apply Branch_UpdateHash_Ok in Hu as (s & r & _ & _ & ->).
  unfold storedWith. simpl. apply holdsB_setHash.
  by eapply (proj2 (insert_holds (hs mt))).
Qed.

Lemma lookup_drop_0 {A} (l : list A) n : drop n l !! 0 = l !! n.
Proof. rewrite lookup_drop. f_equal. lia. Qed.

Lemma take_whole_length {A} (l : list A) n : n <= length l -> take n l = l -> n = length l.
Proof. intros Hn H. apply (f_equal length) in H. rewrite length_take in H. lia. Qed.

Section InsertFails.

Variable hs : crypto_Hash.
Hypothesis hs_unfailing : unfailingDigest hs.

Lemma Extension_UpdateHash_unfailing e err e' : Extension.UpdateHash hs e <> Err err e'.
Proof. intros H. apply Extension_UpdateHash_Err in H as (s & c & H). by apply hs_unfailing in H. Qed.

Lemma Branch_UpdateHash_unfailing b err b' : Branch.UpdateHash hs b <> Err err b'.
Proof. intros H. apply Branch_UpdateHash_Err in H as (s & c & H). by apply hs_unfailing in H. Qed.

Lemma NewNodeExtension_unfailing key n v err : NewNodeExtension key n v hs <> Fail err.
Proof. intros H. apply NewNodeExtension_Fail in H as (s & c & H). by apply hs_unfailing in H. Qed.

Lemma NewNodeBranchWithChildren_unfailing a b err :
  Extension.Key a <> [] -> Extension.Key b <> [] ->
  Extension.Key a !! 0 <> Extension.Key b !! 0 ->
  NewNodeBranchWithChildren a b hs <> Fail err.
Proof.
  intros Ha Hb Hab H. apply NewNodeBranchWithChildren_Fail in H as [H|[H|[H|(s & c & H)]]]; try done.
  by apply hs_unfailing in H.
Qed.

Lemma insertToExtension_Err_from key vo e err e' :
  match Extension.Next e with
  | NilNode => True
  | ExtensionNode n =>
      forall key err n', insertToExtension hs key vo n = Err err n' ->
        insertRejected n (exists trail, extensionPath n key trail) err n'
  | BranchNode b =>
      forall key err b', insertToBranch hs key vo b = Err err b' ->
        insertRejected b (exists trail, branchPath b key trail) err b'
  end ->
  insertToExtension hs key vo e = Err err e' ->
  insertRejected e (exists trail, extensionPath e key trail) err e'.
Proof.
  intros IH. destruct e as [h k n v]. simpl in IH. simpl insertToExtension.
  destruct (decide (key = k)) as [->|Hne].
  { destruct v as [v|]; simpl.
    - intros [= <- <-]. repeat split; [by eexists|]. eexists. by eapply path_here.
    - intros Hu. by apply Extension_UpdateHash_unfailing in Hu. }
  destruct (commonPrefix k key) as [prefix| |] eqn:Hprefix; [|done|done].
  destruct (decide (prefix = k)) as [->|Hpk].
  - destruct (commonPrefix_whole _ _ Hprefix) as [Hknil Hkey].
    set (keyTail := drop (length k) key) in *.
    assert (keyTail <> []) as Htail.
    { intros Hnil. rewrite Hnil, app_nil_r in Hkey. done. }
    destruct n as [|next|next].
    + intros Hins. apply try_Err in Hins as [[Hf _]|(t & Ht & Hu)].
      * by apply NewNodeExtension_unfailing in Hf.
      * by apply Extension_UpdateHash_unfailing in Hu.
    + intros Hins.
      apply try_Err in Hins as [[Hf _]|(c & Hc & Hins)]; [by apply index_not_Fail in Hf|].
      apply try_Err in Hins as [[Hf _]|(cn & Hcn & Hins)]; [by apply index_not_Fail in Hf|].
      apply index_Val in Hc, Hcn.
      destruct (decide (c = cn)) as [->|Hccn].
      * destruct (insertToExtension hs keyTail vo next) as [u' next'|err' next'|] eqn:Hrec;
          [by apply Extension_UpdateHash_unfailing in Hins| |done].
        injection Hins as -> <-.
        destruct (IH _ _ _ Hrec) as (-> & Herr & trail & Hpath).
        repeat split; [done|].
        exists (trail ++ [VisitExtension (mkExtension h k (ExtensionNode next) v)]).
        rewrite Hkey.
        by apply (path_next_extension (mkExtension h k (ExtensionNode next) v) next).
      * apply try_Err in Hins as [[Hf _]|(t & Ht & Hins)];
          [by apply NewNodeExtension_unfailing in Hf|].
        destruct (NewNodeExtension_fields _ _ _ _ _ Ht) as (Hkt & _ & Hvt).
        apply try_Err in Hins as [[Hf _]|(nb & Hnb & Hu)].
        -- apply NewNodeBranchWithChildren_unfailing in Hf; [done| | |].
           ++ intros Hnil. by rewrite Hnil in Hcn.
           ++ by rewrite Hkt.
           ++ rewrite Hkt, Hc, Hcn. congruence.
        -- by apply Extension_UpdateHash_unfailing in Hu.
    + intros Hins.
      destruct (insertToBranch hs keyTail vo next) as [u' next'|err' next'|] eqn:Hrec;
        [by apply Extension_UpdateHash_unfailing in Hins| |done].
      injection Hins as -> <-.
      destruct (IH _ _ _ Hrec) as (-> & Herr & trail & Hpath).
      repeat split; [done|].
      exists (trail ++ [VisitExtension (mkExtension h k (BranchNode next) v)]).
      rewrite Hkey.
      by apply (path_next_branch (mkExtension h k (BranchNode next) v) next).
  - destruct (commonPrefix_Val _ _ _ Hprefix)
      as (m & Hm1 & Hmk & Hmkey & Hpk' & Hpkey & Hmax).
    destruct (decide (prefix = key)) as [->|Hpkey'].
    + intros Hins.
      apply try_Err in Hins as [[Hf _]|(t & Ht & Hins)];
        [by apply NewNodeExtension_unfailing in Hf|].
      apply try_Err in Hins as [[Hf _]|(node' & Hnode' & Hu)];
        [by apply SetKey_not_Fail in Hf|].
      by apply Extension_UpdateHash_unfailing in Hu.
    + intros Hins.
      apply try_Err in Hins as [[Hf _]|(t1 & Ht1 & Hins)];
        [by apply NewNodeExtension_unfailing in Hf|].
      apply try_Err in Hins as [[Hf _]|(t2 & Ht2 & Hins)];
        [by apply NewNodeExtension_unfailing in Hf|].
      destruct (NewNodeExtension_fields _ _ _ _ _ Ht1) as (Hk1 & _ & _).
      destruct (NewNodeExtension_fields _ _ _ _ _ Ht2) as (Hk2 & _ & _).
      assert (length prefix = m) as Hlen by (rewrite Hpk', length_take; lia).
      assert (m <> length k) as Hmk'.
      { intros ->. apply Hpk. by rewrite Hpk', take_ge. }
      assert (m <> length key) as Hmkey'.
      { intros ->. apply Hpkey'. by rewrite Hpkey, take_ge. }
      apply try_Err in Hins as [[Hf _]|(nb & Hnb & Hins)].
      * apply NewNodeBranchWithChildren_unfailing in Hf; [done| | |].
        -- rewrite Hk1, Hlen. intros Hnil. apply (f_equal length) in Hnil.
           rewrite length_drop in Hnil. simpl in Hnil. lia.
        -- rewrite Hk2, Hlen. intros Hnil. apply (f_equal length) in Hnil.
           rewrite length_drop in Hnil. simpl in Hnil. lia.
        -- rewrite Hk1, Hk2, Hlen, !lookup_drop_0. by destruct Hmax as [|[|]].
      * apply try_Err in Hins as [[Hf _]|(node' & Hnode' & Hu)];
          [by apply SetKey_not_Fail in Hf|].
        by apply Extension_UpdateHash_unfailing in Hu.
Qed.

Lemma insertToBranch_Err_from key vo b err b' :
  (forall i e, Branch.ListChildren b !! i = Some (Some e) ->
     forall key err e', insertToExtension hs key vo e = Err err e' ->
       insertRejected e (exists trail, extensionPath e key trail) err e') ->
  insertToBranch hs key vo b = Err err b' ->
  insertRejected b (exists trail, branchPath b key trail) err b'.
Proof.
  intros IH. destruct b as [h cs]. simpl in IH. simpl insertToBranch.
  intros Hins.
  apply try_Err in Hins as [[Hf _]|(c & Hc & Hins)]; [by apply index_not_Fail in Hf|].
  apply try_Err in Hins as [[Hf _]|(i & Hi & Hins)]; [by apply toChildIndex_not_Fail in Hf|].
  apply index_Val in Hc.
  rewrite atChild_lookup in Hins.
  destruct (cs !! i) as [[e|]|] eqn:He; [| |done].
  - destruct (insertToExtension hs key vo e) as [u' e1|err' e1|] eqn:Hrec;
      [by apply Branch_UpdateHash_unfailing in Hins| |done].
    injection Hins as -> <-.
    destruct (IH i e He _ _ _ Hrec) as (-> & Herr & trail & Hpath).
    repeat split; [by rewrite setChild_same|done|].
    exists (trail ++ [VisitBranch (mkBranch h cs)]).
    by apply (path_child (mkBranch h cs) c i e).
  - apply try_Err in Hins as [[Hf _]|(n & Hn & Hins)];
      [by apply NewNodeExtension_unfailing in Hf|].
    destruct (NewNodeExtension_fields _ _ _ _ _ Hn) as (Hkn & _ & Hvn).
    apply try_Err in Hins as [[Hf _]|(b2 & Hb2 & Hu)];
      [|by apply Branch_UpdateHash_unfailing in Hu].
    unfold Branch.Append in Hf. rewrite Hkn, (index_head _ c) in Hf by done.
    simpl in Hf. rewrite Hi in Hf. simpl in Hf.
    unfold index in Hf. rewrite He in Hf. simpl in Hf.
    by apply store_not_Fail in Hf.
Qed.

Lemma insert_Err :
  (forall e key vo err e', insertToExtension hs key vo e = Err err e' ->
     insertRejected e (exists trail, extensionPath e key trail) err e') /\
  (forall b key vo err b', insertToBranch hs key vo b = Err err b' ->
     insertRejected b (exists trail, branchPath b key trail) err b').
Proof.
  apply (node_mutual_induction
           (fun e => forall key vo err e', insertToExtension hs key vo e = Err err e' ->
              insertRejected e (exists trail, extensionPath e key trail) err e')
           (fun b => forall key vo err b', insertToBranch hs key vo b = Err err b' ->
              insertRejected b (exists trail, branchPath b key trail) err b')).
  - intros e IH key vo err e'. apply insertToExtension_Err_from.
    destruct (Extension.Next e); [done| |]; intros; by eapply IH.
  - intros b IH key vo err b'. apply insertToBranch_Err_from.
    intros i e He key' err' e'. by eapply IH.
Qed.

End InsertFails.

Lemma Insert_Err_unchanged key value mt err mt' :
  unfailingDigest (hs mt) ->
  Insert key value mt = Err err mt' ->
  mt' = mt /\
  ((key = [] /\ err = ErrKeyLength) \/
   (stored mt key /\ exists tail, err = ErrKeyExists tail)).
Proof.
  intros Hhs. unfold Insert. case_decide as Hk.
  { intros [= <- <-]. split; [done|]. left. split; [|done]. by apply nil_length_inv. }
  destruct (insertToBranch _ _ _ _) as [u' b|err' b|] eqn:Hins; [|  |done].
  - destruct (Branch.UpdateHash (hs mt) b) as [u'' b'|err' b'|] eqn:Hu; [done| |done].
    by apply Branch_UpdateHash_unfailing in Hu.
  - intros [= <- <-].
    destruct (proj2 (insert_Err (hs mt) Hhs) _ _ _ _ _ Hins) as (-> & Herr & Hstored).
    split; [apply trie_eta|]. right. done.
Qed.

Lemma Branch_Delete_held c i e b :
  toChildIndex c = Val i -> Branch.ListChildren b !! i = Some (Some e) ->
  Branch.Delete c b = Val (Branch.setChildren (<[i := None]> (Branch.ListChildren b)) b).
Proof.
  intros Hi He. unfold Branch.Delete. rewrite Hi. simpl.
  unfold index. rewrite He. simpl. apply store_Val. by eapply lookup_lt_Some.
Qed.

Lemma setChild_lookup i e child b :
  Branch.ListChildren b !! i = Some e ->
  Branch.ListChildren (setChild i child b) !! i = Some (Some child).
Proof.
  intros He. destruct b as [h cs]. simpl in *. apply list_lookup_insert_eq.
  by eapply lookup_lt_Some.
Qed.

Section DeleteFails.

Variable hs : crypto_Hash.
Hypothesis hs_unfailing : unfailingDigest hs.

Lemma returning_Extension_UpdateHash_unfailing {B} (b : B) e err e' :
  returning b (Extension.UpdateHash hs e) <> Err err e'.
Proof. intros H. apply returning_Err in H. by apply Extension_UpdateHash_unfailing in H. Qed.

Lemma returning_Branch_UpdateHash_unfailing {B} (b : B) n err n' :
  returning b (Branch.UpdateHash hs n) <> Err err n'.
Proof. intros H. apply returning_Err in H. by apply Branch_UpdateHash_unfailing in H. Qed.

Lemma deleteKeyInExtension_Err_from key e err e' :
  match Extension.Next e with
  | NilNode => True
  | ExtensionNode n =>
      forall key err n', deleteKeyInExtension hs key n = Err err n' -> n' = n /\ deleteMiss err
  | BranchNode b =>
      forall key err b', deleteKeyInBranch hs key b = Err err b' -> b' = b /\ deleteMiss err
  end ->
  deleteKeyInExtension hs key e = Err err e' -> e' = e /\ deleteMiss err.
Proof.
  intros IH. destruct e as [h k n v]. simpl in IH. simpl deleteKeyInExtension.
  destruct (decide (key = k)) as [->|Hne].
  { destruct v as [v|]; simpl; [|intros [= <- <-]; split; [done|by left]].
    destruct n as [|next|next]; [done| |].
    - intros Hdel. apply try_Err in Hdel as [[Hf _]|(node' & _ & Hu)];
        [by apply SetKey_not_Fail in Hf|].
      by apply returning_Extension_UpdateHash_unfailing in Hu.
    - intros Hu. by apply returning_Extension_UpdateHash_unfailing in Hu. }
  destruct (commonPrefix k key) as [prefix| |] eqn:Hprefix; [|done|done].
  destruct (decide (prefix = key)).
  { intros [= <- <-]. split; [done|]. right. by left. }
  destruct (bool_decide (prefix = k)) eqn:Hk; simpl;
    [|intros [= <- <-]; split; [done|right; by left]].
  set (keyTail := drop (length prefix) key) in *.
  destruct n as [|next|next].
  - intros [= <- <-]. split; [done|]. right. by left.
  - intros Hdel.
    apply try_Err in Hdel as [[Hf _]|(c & Hc & Hdel)]; [by apply index_not_Fail in Hf|].
    apply try_Err in Hdel as [[Hf _]|(cn & Hcn & Hdel)]; [by apply index_not_Fail in Hf|].
    destruct (negb (bool_decide (c = cn))).
    { injection Hdel as <- <-. split; [done|]. right. by left. }
    destruct (deleteKeyInExtension hs keyTail next) as [[|] next'|err' next'|] eqn:Hrec;
      [| | |done].
    + simpl in Hdel. destruct v; simpl in Hdel; [|done].
      by apply returning_Extension_UpdateHash_unfailing in Hdel.
    + by apply returning_Extension_UpdateHash_unfailing in Hdel.
    + injection Hdel as -> <-. by destruct (IH _ _ _ Hrec) as [-> Herr].
  - intros Hdel.
    destruct (deleteKeyInBranch hs keyTail next) as [[|] next'|err' next'|] eqn:Hrec;
      [| | |done].
    + simpl in Hdel. destruct v; simpl in Hdel.
      * by apply returning_Extension_UpdateHash_unfailing in Hdel.
      * destruct (Branch.First next') as [nn|]; [|done].
        apply try_Err in Hdel as [[Hf _]|(node' & _ & Hu)];
          [by apply SetKey_not_Fail in Hf|].
        by apply returning_Extension_UpdateHash_unfailing in Hu.
    + by apply returning_Extension_UpdateHash_unfailing in Hdel.
    + injection Hdel as -> <-. by destruct (IH _ _ _ Hrec) as [-> Herr].
Qed.

Lemma deleteKeyInBranch_Err_from key b err b' :
  (forall i e, Branch.ListChildren b !! i = Some (Some e) ->
     forall key err e', deleteKeyInExtension hs key e = Err err e' ->
                        e' = e /\ deleteMiss err) ->
  deleteKeyInBranch hs key b = Err err b' -> b' = b /\ deleteMiss err.
Proof.
  intros IH. destruct b as [h cs]. simpl in IH. simpl deleteKeyInBranch.
  intros Hdel.
  apply try_Err in Hdel as [[Hf _]|(c & Hc & Hdel)]; [by apply index_not_Fail in Hf|].
  apply try_Err in Hdel as [[Hf _]|(i & Hi & Hdel)]; [by apply toChildIndex_not_Fail in Hf|].
  rewrite atChild_lookup in Hdel.
  destruct (cs !! i) as [[e|]|] eqn:He; [| |done].
  - destruct (deleteKeyInExtension hs key e) as [[|] e1|err' e1|] eqn:Hrec; [| | |done].
    + apply try_Err in Hdel as [[Hf _]|(b2 & Hb2 & Hdel)].
      * rewrite (Branch_Delete_held c i e1) in Hf; [done|done|].
        by apply (setChild_lookup i (Some e)).
      * case_decide; [done|]. by apply returning_Branch_UpdateHash_unfailing in Hdel.
    + by apply returning_Branch_UpdateHash_unfailing in Hdel.
    + injection Hdel as -> <-. destruct (IH i e He _ _ _ Hrec) as [-> Herr].
      by rewrite setChild_same.
  - injection Hdel as <- <-. split; [done|]. right. right. by eexists.
Qed.

Lemma delete_Err :
  (forall e key err e', deleteKeyInExtension hs key e = Err err e' ->
                        e' = e /\ deleteMiss err) /\
  (forall b key err b', deleteKeyInBranch hs key b = Err err b' ->
                        b' = b /\ deleteMiss err).
Proof.
  apply (node_mutual_induction
           (fun e => forall key err e', deleteKeyInExtension hs key e = Err err e' ->
                                        e' = e /\ deleteMiss err)
           (fun b => forall key err b', deleteKeyInBranch hs key b = Err err b' ->
                                        b' = b /\ deleteMiss err)).
  - intros e IH key err e'. apply deleteKeyInExtension_Err_from.
    destruct (Extension.Next e); [done| |]; intros; by eapply IH.
  - intros b IH key err b'. apply deleteKeyInBranch_Err_from.
    intros i e He key' err' e'. by eapply IH.
Qed.

(** On the lookup path of a stored key no error comes back. *)
Lemma delete_on_path :
  (forall e key trail, extensionPath e key trail ->
     forall err e', deleteKeyInExtension hs key e <> Err err e') /\
  (forall b key trail, branchPath b key trail ->
     forall err b', deleteKeyInBranch hs key b <> Err err b').
Proof.
  apply extensionPath_branchPath_mutind.
  - intros e key v -> Hv err e'.
    destruct e as [h k n v']. simpl in *. subst v'.
    rewrite decide_True by done. simpl.
    destruct n as [|next|next]; [done| |].
    + intros Hdel. apply try_Err in Hdel as [[Hf _]|(node' & _ & Hu)];
        [by apply SetKey_not_Fail in Hf|].
      by apply returning_Extension_UpdateHash_unfailing in Hu.
    + apply returning_Extension_UpdateHash_unfailing.
  - intros e n tail trail Hk Ht Hn Hpath IH err e'.
    pose proof (extensionPath_head _ _ _ Hpath Ht) as Hhead.
    destruct e as [h k nx v]. simpl in *. subst nx.
    rewrite decide_False by (by apply app_tail_neq).
    rewrite commonPrefix_extends by done.
    rewrite decide_False by (intros Heq; by apply (app_tail_neq k tail)).
    rewrite bool_decide_eq_true_2 by done. simpl.
    rewrite drop_app_length.
    destruct tail as [|c tail']; [done|].
    rewrite (index_head _ c) by done. simpl.
    rewrite (index_head _ c) by done. simpl.
    rewrite bool_decide_eq_true_2 by done. simpl.
    destruct (deleteKeyInExtension hs (c :: tail') n) as [[|] next'|err' next'|] eqn:Hrec;
      [| | |done].
    + destruct v; simpl; [|done]. apply returning_Extension_UpdateHash_unfailing.
    + apply returning_Extension_UpdateHash_unfailing.
    + by destruct (IH err' next').
  - intros e b tail trail Hk Hn Hpath IH err e'.
    pose proof (branchPath_nonempty _ _ _ Hpath) as Ht.
    destruct e as [h k nx v]. simpl in *. subst nx.
    rewrite decide_False by (by apply app_tail_neq).
    rewrite commonPrefix_extends by done.
    rewrite decide_False by (intros Heq; by apply (app_tail_neq k tail)).
    rewrite bool_decide_eq_true_2 by done. simpl.
    rewrite drop_app_length.
    destruct (deleteKeyInBranch hs tail b) as [[|] next'|err' next'|] eqn:Hrec;
      [| | |done].
    + destruct v; simpl; [apply returning_Extension_UpdateHash_unfailing|].
      destruct (Branch.First next') as [nn|]; [|done].
      intros Hdel. apply try_Err in Hdel as [[Hf _]|(node' & _ & Hu)];
        [by apply SetKey_not_Fail in Hf|].
      by apply returning_Extension_UpdateHash_unfailing in Hu.
    + apply returning_Extension_UpdateHash_unfailing.
    + by destruct (IH err' next').
  - intros b c i e key trail Hc Hi He Hpath IH err b'.
    destruct b as [h cs]. simpl in *.
    rewrite (index_head _ c) by done. simpl. rewrite Hi. simpl.
    rewrite atChild_lookup, He.
    destruct (deleteKeyInExtension hs key e) as [[|] e1|err' e1|] eqn:Hrec; [| | |done].
    + rewrite (Branch_Delete_held c i e1); [|done|by apply (setChild_lookup i (Some e))].
      simpl. case_decide; [done|]. apply returning_Branch_UpdateHash_unfailing.
    + apply returning_Branch_UpdateHash_unfailing.
    + by destruct (IH err' e1).
Qed.

End DeleteFails.

Lemma Delete_Err_unchanged key mt err mt' :
  unfailingDigest (hs mt) ->
  Delete key mt = Err err mt' ->
  mt' = mt /\
  ((key = [] /\ err = ErrKeyLength) \/
   (~ stored mt key /\
    exists cause, err = ErrWrap "failed to delete key" cause /\ deleteMiss cause)).
Proof.
  intros Hhs. unfold Delete. case_decide as Hk.
  { intros [= <- <-]. split; [done|]. left. split; [|done]. by apply nil_length_inv. }
  destruct (deleteKeyInBranch _ _ _) as [sd b|err' b|] eqn:Hdel; [| |done].
  - destruct (Branch.UpdateHash (hs mt) b) as [u'' b'|err' b'|] eqn:Hu; [done| |done].
    by apply Branch_UpdateHash_unfailing in Hu.
  - intros [= <- <-].
    destruct (proj2 (delete_Err (hs mt) Hhs) _ _ _ _ Hdel) as (-> & Herr).
    split; [apply trie_eta|]. right. split; [|by eexists].
    intros [trail Hpath].
    by apply (proj2 (delete_on_path (hs mt) Hhs) _ _ _ Hpath) in Hdel.
Qed.

Lemma childHashes_not_Fail cs acc err : childHashes cs acc <> Fail err.
Proof.
  revert acc. induction cs as [|[c|] cs IH]; intros acc; simpl; [done| |apply IH].
  destruct (Extension.Hash c) eqn:Hc; simpl; [apply IH| |done].
  by apply nodeBase_Hash_not_Fail in Hc.
Qed.

Lemma childHashes_Val cs acc r :
  childHashes cs acc = Val r ->
  forall i e, cs !! i = Some (Some e) -> Extension.hash e <> [].
Proof.
  revert acc. induction cs as [|[c|] cs IH]; intros acc Hr i e He; simpl in Hr.
  - by destruct i.
  - destruct (Extension.Hash c) as [hc| |] eqn:Hc; [|done|done]. simpl in Hr.
    destruct i as [|i]; simpl in He.
    + injection He as <-. by apply nodeBase_Hash_Val in Hc as [_ Hc].
    + by eapply IH.
  - destruct i as [|i]; simpl in He; [done|]. by eapply IH.
Qed.

Lemma extensionPath_trail e key trail : extensionPath e key trail -> trail <> [].
Proof.
  intros H. destruct H as [e key v|e n tail trail ? ? ? Hp|e b tail trail ? ? Hp];
    [done|by destruct trail|by destruct trail].
Qed.

Lemma branchPath_trail b key trail : branchPath b key trail -> 2 <= length trail.
Proof.
  destruct 1 as [b c i e key trail Hc Hi He Hpath]. apply extensionPath_trail in Hpath.
  rewrite length_app. destruct trail; [done|]. simpl. lia.
Qed.

(** A lookup that succeeds went along a lookup path whose hashes are there. *)
Lemma merklePathInExtension_Ok_from key e path e' :
  match Extension.Next e with
  | NilNode => True
  | ExtensionNode n =>
      forall key path n', merklePathInExtension key n = Ok path n' ->
        exists trail, extensionPath n key trail /\ Forall hashedVisit trail
  | BranchNode b =>
      forall key path b', merklePathInBranch key b = Ok path b' ->
        exists trail, branchPath b key trail /\ Forall hashedVisit trail
  end ->
  merklePathInExtension key e = Ok path e' ->
  exists trail, extensionPath e key trail /\ Forall hashedVisit trail.
Proof.
  intros IH. destruct e as [h k n v]. simpl in IH. simpl merklePathInExtension.
  destruct (decide (key = k)) as [->|Hne].
  { destruct v as [v|]; [|done]. simpl. intros Hfind.
    apply try_Ok in Hfind as (hh & Hh & _). apply nodeBase_Hash_Val in Hh as [_ Hh].
    eexists. split; [by eapply path_here|]. by apply Forall_singleton. }
  destruct (commonPrefix k key) as [prefix| |] eqn:Hprefix; [|done|done].
  destruct (decide (prefix = key)); [done|].
  destruct (bool_decide (prefix = k)) eqn:Hk; [|done]. simpl.
  apply bool_decide_eq_true in Hk. subst prefix.
  destruct (commonPrefix_whole _ _ Hprefix) as [Hknil Hkey].
  set (keyTail := drop (length k) key) in *.
  assert (keyTail <> []) as Htail.
  { intros Hnil. rewrite Hnil, app_nil_r in Hkey. done. }
  destruct n as [|next|next]; [done| |].
  - intros Hfind.
    apply try_Ok in Hfind as (c & _ & Hfind). apply try_Ok in Hfind as (cn & _ & Hfind).
    destruct (negb (bool_decide (c = cn))); [done|].
    destruct (merklePathInExtension keyTail next) as [path' next'|err next'|] eqn:Hrec;
      [|done|done].
    apply try_Ok in Hfind as (hh & Hh & _). apply nodeBase_Hash_Val in Hh as [_ Hh].
    destruct (IH _ _ _ Hrec) as (trail & Hpath & Hhashed).
    exists (trail ++ [VisitExtension (mkExtension h k (ExtensionNode next) v)]).
    rewrite Hkey. split.
    + by apply (path_next_extension (mkExtension h k (ExtensionNode next) v) next).
    + apply Forall_app. split; [done|]. by apply Forall_singleton.
  - intros Hfind.
    destruct (merklePathInBranch keyTail next) as [path' next'|err next'|] eqn:Hrec;
      [|done|done].
    apply try_Ok in Hfind as (hh & Hh & _). apply nodeBase_Hash_Val in Hh as [_ Hh].
    destruct (IH _ _ _ Hrec) as (trail & Hpath & Hhashed).
    exists (trail ++ [VisitExtension (mkExtension h k (BranchNode next) v)]).
    rewrite Hkey. split.
    + by apply (path_next_branch (mkExtension h k (BranchNode next) v) next).
    + apply Forall_app. split; [done|]. by apply Forall_singleton.
Qed.

Lemma merklePathInBranch_Ok_from key b path b' :
  (forall i e, Branch.ListChildren b !! i = Some (Some e) ->
     forall key path e', merklePathInExtension key e = Ok path e' ->
       exists trail, extensionPath e key trail /\ Forall hashedVisit trail) ->
  merklePathInBranch key b = Ok path b' ->
  exists trail, branchPath b key trail /\ Forall hashedVisit trail.
Proof.
  intros IH. destruct b as [h cs]. simpl in IH. simpl merklePathInBranch.
  intros Hfind.
  apply try_Ok in Hfind as (c & Hc & Hfind). apply try_Ok in Hfind as (i & Hi & Hfind).
  apply index_Val in Hc.
  rewrite atChild_lookup in Hfind.
  destruct (cs !! i) as [[e|]|] eqn:He; [|done|done].
  destruct (merklePathInExtension key e) as [path' e1|err e1|] eqn:Hrec; [|done|done].
  apply try_Ok in Hfind as (hs' & Hhs' & _).
  destruct (IH i e He _ _ _ Hrec) as (trail & Hpath & Hhashed).
  pose proof (merklePathInExtension_reads e key) as Hsame.
  rewrite Hrec in Hsame. simpl in Hsame. subst e1.
  simpl in Hhs'. rewrite list_insert_id in Hhs' by done.
  exists (trail ++ [VisitBranch (mkBranch h cs)]). split.
  - by apply (path_child (mkBranch h cs) c i e).
  - apply Forall_app. split; [done|]. apply Forall_singleton.
    simpl. by eapply childHashes_Val.
Qed.

Lemma merklePath_Ok :
  (forall e key path e', merklePathInExtension key e = Ok path e' ->
     exists trail, extensionPath e key trail /\ Forall hashedVisit trail) /\
  (forall b key path b', merklePathInBranch key b = Ok path b' ->
     exists trail, branchPath b key trail /\ Forall hashedVisit trail).
Proof.
  apply (node_mutual_induction
           (fun e => forall key path e', merklePathInExtension key e = Ok path e' ->
              exists trail, extensionPath e key trail /\ Forall hashedVisit trail)
           (fun b => forall key path b', merklePathInBranch key b = Ok path b' ->
              exists trail, branchPath b key trail /\ Forall hashedVisit trail)).
  - intros e IH key path e'. apply merklePathInExtension_Ok_from.
    destruct (Extension.Next e); [done| |]; intros; by eapply IH.
  - intros b IH key path b'. apply merklePathInBranch_Ok_from.
    intros i e He key' path' e'. by eapply IH.
Qed.

Lemma merklePathInExtension_Err_from key e err e' :
  match Extension.Next e with
  | NilNode => True
  | ExtensionNode n =>
      forall key err n', merklePathInExtension key n = Err err n' -> lookupMiss err
  | BranchNode b =>
      forall key err b', merklePathInBranch key b = Err err b' -> lookupMiss err
  end ->
  merklePathInExtension key e = Err err e' -> lookupMiss err.
Proof.
  intros IH. destruct e as [h k n v]. simpl in IH. simpl merklePathInExtension.
  destruct (decide (key = k)) as [->|Hne].
  { destruct v as [v|]; simpl; [|intros [= <- <-]; by left].
    intros Hfind. apply try_Err in Hfind as [[Hf _]|(hh & _ & Hfind)]; [|done].
    by apply nodeBase_Hash_not_Fail in Hf. }
  destruct (commonPrefix k key) as [prefix| |] eqn:Hprefix; [|done|done].
  destruct (decide (prefix = key)); [intros [= <- <-]; by left|].
  destruct (bool_decide (prefix = k)) eqn:Hk; simpl; [|intros [= <- <-]; by left].
  set (keyTail := drop (length prefix) key) in *.
  destruct n as [|next|next]; [intros [= <- <-]; by left| |].
  - intros Hfind.
    apply try_Err in Hfind as [[Hf _]|(c & Hc & Hfind)]; [by apply index_not_Fail in Hf|].
    apply try_Err in Hfind as [[Hf _]|(cn & Hcn & Hfind)]; [by apply index_not_Fail in Hf|].
    destruct (negb (bool_decide (c = cn))); [injection Hfind as <- <-; by left|].
    destruct (merklePathInExtension keyTail next) as [path' next'|err' next'|] eqn:Hrec;
      [| |done].
    + apply try_Err in Hfind as [[Hf _]|(hh & _ & Hfind)]; [|done].
      by apply nodeBase_Hash_not_Fail in Hf.
    + injection Hfind as -> <-. by eapply IH.
  - intros Hfind.
    destruct (merklePathInBranch keyTail next) as [path' next'|err' next'|] eqn:Hrec;
      [| |done].
    + apply try_Err in Hfind as [[Hf _]|(hh & _ & Hfind)]; [|done].
      by apply nodeBase_Hash_not_Fail in Hf.
    + injection Hfind as -> <-. by eapply IH.
Qed.

Lemma merklePathInBranch_Err_from key b err b' :
  (forall i e, Branch.ListChildren b !! i = Some (Some e) ->
     forall key err e', merklePathInExtension key e = Err err e' -> lookupMiss err) ->
  merklePathInBranch key b = Err err b' -> lookupMiss err.
Proof.
  intros IH. destruct b as [h cs]. simpl in IH. simpl merklePathInBranch.
  intros Hfind.
  apply try_Err in Hfind as [[Hf _]|(c & Hc & Hfind)]; [by apply index_not_Fail in Hf|].
  apply try_Err in Hfind as [[Hf _]|(i & Hi & Hfind)];
    [by apply toChildIndex_not_Fail in Hf|].
  rewrite atChild_lookup in Hfind.
  destruct (cs !! i) as [[e|]|] eqn:He; [| |done].
  - destruct (merklePathInExtension key e) as [path' e1|err' e1|] eqn:Hrec; [| |done].
    + apply try_Err in Hfind as [[Hf _]|(hh & _ & Hfind)]; [|done].
      by apply childHashes_not_Fail in Hf.
    + injection Hfind as -> <-. by eapply IH.
  - injection Hfind as <- <-. right. by eexists.
Qed.

Lemma merklePath_Err :
  (forall e key err e', merklePathInExtension key e = Err err e' -> lookupMiss err) /\
  (forall b key err b', merklePathInBranch key b = Err err b' -> lookupMiss err).
Proof.
  apply (node_mutual_induction
           (fun e => forall key err e', merklePathInExtension key e = Err err e' ->
                                        lookupMiss err)
           (fun b => forall key err b', merklePathInBranch key b = Err err b' ->
                                        lookupMiss err)).
  - intros e IH key err e'. apply merklePathInExtension_Err_from.
    destruct (Extension.Next e); [done| |]; intros; by eapply IH.
  - intros b IH key err b'. apply merklePathInBranch_Err_from.
    intros i e He key' err' e'. by eapply IH.
Qed.

(** On the lookup path of a stored key the lookup returns no error. *)
Lemma merklePath_on_path_no_error :
  (forall e key trail, extensionPath e key trail ->
     forall err e', merklePathInExtension key e <> Err err e') /\
  (forall b key trail, branchPath b key trail ->
     forall err b', merklePathInBranch key b <> Err err b').
Proof.
  apply extensionPath_branchPath_mutind.
  - intros e key v -> Hv err e'.
    destruct e as [h k n v']. simpl in *. subst v'.
    rewrite decide_True by done. simpl.
    intros Hfind. apply try_Err in Hfind as [[Hf _]|(hh & _ & Hfind)]; [|done].
    by apply nodeBase_Hash_not_Fail in Hf.
  - intros e n tail trail Hk Ht Hn Hpath IH err e'.
    pose proof (extensionPath_head _ _ _ Hpath Ht) as Hhead.
    destruct e as [h k nx v]. simpl in *. subst nx.
    rewrite decide_False by (by apply app_tail_neq).
    rewrite commonPrefix_extends by done.
    rewrite decide_False by (intros Heq; by apply (app_tail_neq k tail)).
    rewrite bool_decide_eq_true_2 by done. simpl.
    rewrite drop_app_length.
    destruct tail as [|c tail']; [done|].
    rewrite (index_head _ c) by done. simpl.
    rewrite (index_head _ c) by done. simpl.
    rewrite bool_decide_eq_true_2 by done. simpl.
    destruct (merklePathInExtension (c :: tail') n) as [path' next'|err' next'|] eqn:Hrec;
      [| |done].
    + intros Hfind. apply try_Err in Hfind as [[Hf _]|(hh & _ & Hfind)]; [|done].
      by apply nodeBase_Hash_not_Fail in Hf.
    + by destruct (IH err' next').
  - intros e b tail trail Hk Hn Hpath IH err e'.
    pose proof (branchPath_nonempty _ _ _ Hpath) as Ht.
    destruct e as [h k nx v]. simpl in *. subst nx.
    rewrite decide_False by (by apply app_tail_neq).
    rewrite commonPrefix_extends by done.
    rewrite decide_False by (intros Heq; by apply (app_tail_neq k tail)).
    rewrite bool_decide_eq_true_2 by done. simpl.
    rewrite drop_app_length.
    destruct (merklePathInBranch tail b) as [path' next'|err' next'|] eqn:Hrec;
      [| |done].
    + intros Hfind. apply try_Err in Hfind as [[Hf _]|(hh & _ & Hfind)]; [|done].
      by apply nodeBase_Hash_not_Fail in Hf.
    + by destruct (IH err' next').
  - intros b c i e key trail Hc Hi He Hpath IH err b'.
    destruct b as [h cs]. simpl in *.
    rewrite (index_head _ c) by done. simpl. rewrite Hi. simpl.
    rewrite atChild_lookup, He.
    destruct (merklePathInExtension key e) as [path' e1|err' e1|] eqn:Hrec; [| |done].
    + intros Hfind. apply try_Err in Hfind as [[Hf _]|(hh & _ & Hfind)]; [|done].
      by apply childHashes_not_Fail in Hf.
    + by destruct (IH err' e1).
Qed.

Lemma FindMerklePath_Ok_path key mt path mt' :
  FindMerklePath key mt = Ok path mt' ->
  exists trail,
    branchPath (root mt) (hex.EncodeToString key) trail /\
    path = map merkleSetOf trail ++ [mkMerkleSet [Branch.hash (root mt)]] /\
    3 <= length path.
Proof.
  unfold FindMerklePath. case_decide; [done|].
  destruct (merklePathInBranch _ _) as [path' b|err b|] eqn:Hfind; [|done|done].
  intros Hroot. apply try_Ok in Hroot as (hh & Hh & Hroot). simpl in Hh.
  apply nodeBase_Hash_Val in Hh as [-> Hh]. injection Hroot as <- <-.
  destruct (proj2 merklePath_Ok _ _ _ _ Hfind) as (trail & Hpath & Hhashed).
  rewrite (proj2 merklePath_on_path _ _ _ Hpath Hhashed) in Hfind.
  injection Hfind as <- <-.
  exists trail. split; [done|]. split; [done|].
  apply branchPath_trail in Hpath.
  unfold appendHash. rewrite length_app, length_map. simpl. lia.
Qed.

Lemma FindMerklePath_Err_miss key mt err mt' :
  FindMerklePath key mt = Err err mt' ->
  (key = [] /\ err = ErrKeyLength) \/ (~ stored mt key /\ lookupMiss err).
Proof.
  unfold FindMerklePath. case_decide as Hk.
  { intros [= <- <-]. left. split; [|done]. by apply nil_length_inv. }
  destruct (merklePathInBranch _ _) as [path' b|err' b|] eqn:Hfind; [| |done].
  - intros Hroot. apply try_Err in Hroot as [[Hf _]|(hh & _ & Hroot)]; [|done].
    by apply nodeBase_Hash_not_Fail in Hf.
  - intros [= <- <-]. right. split; [|by eapply (proj2 merklePath_Err)].
    intros [trail Hpath].
    by apply (proj2 merklePath_on_path_no_error _ _ _ Hpath) in Hfind.
Qed.

(** ** Every cached hash is the digest of its node *)

Lemma consistentSlots_lookup (P : nodeExtension -> Prop) (cs : list (option nodeExtension)) :
  consistentSlots P cs <-> forall i e, cs !! i = Some (Some e) -> P e.
Proof.
  induction cs as [|c cs IH]; simpl.
  - split; [|done]. intros _ i e He. by destruct i.
  - rewrite IH. split.
    + intros [Hc Hcs] [|i] e He; simpl in He; [by injection He as ->|by eapply Hcs].
    + intros H. split.
      * destruct c as [e|]; [|done]. by apply (H 0).
      * intros i e He. by apply (H (S i)).
Qed.

Lemma consistentBranch_eq hs b :
  consistentBranch hs b <->
  digestOf hs (Branch.Serialize b) (Branch.hash b) /\ consistentChildren hs b.
Proof. destruct b as [h cs]. unfold consistentChildren. simpl. by rewrite consistentSlots_lookup. Qed.

Lemma consistentExtension_eq hs e :
  consistentExtension hs e <->
  digestOf hs (Extension.Serialize e) (Extension.hash e) /\
  consistentNode hs (Extension.Next e).
Proof. destruct e as [h k [|n|[h' cs]] v]; simpl; done. Qed.

Lemma consistentChildren_insert hs i c b :
  consistentChildren hs b ->
  (forall e, c = Some e -> consistentExtension hs e) ->
  consistentChildren hs (Branch.setChildren (<[i := c]> (Branch.ListChildren b)) b).
Proof.
  intros Hb Hc j e. destruct b as [h cs]. simpl.
  destruct (decide (i = j)) as [->|Hij].
  - intros He. apply Hc.
    destruct (decide (j < length cs)) as [Hlt|Hge].
    + rewrite list_lookup_insert_eq in He by done. by injection He.
    + rewrite lookup_ge_None_2 in He; [done|]. rewrite length_insert. lia.
  - rewrite list_lookup_insert_ne by done. apply Hb.
Qed.

Lemma consistentChildren_setChild hs i e b :
  consistentChildren hs b -> consistentExtension hs e ->
  consistentChildren hs (setChild i e b).
Proof. intros Hb He. apply consistentChildren_insert; [done|]. by intros e' [= <-]. Qed.

Lemma consistentChildren_setHash hs r b :
  consistentChildren hs (Branch.setHash r b) <-> consistentChildren hs b.
Proof. by destruct b. Qed.

Lemma consistentChildren_empty hs h :
  consistentChildren hs (mkBranch h (replicate ChildIndexCount None)).
Proof.
  intros i e He. cbn [Branch.ListChildren] in He.
  apply lookup_replicate in He as [He _]. done.
Qed.

Section Consistent.

Variable hs : crypto_Hash.

Lemma Extension_UpdateHash_consistent e u e' :
  consistentNode hs (Extension.Next e) ->
  Extension.UpdateHash hs e = Ok u e' -> consistentExtension hs e'.
Proof.
  intros Hn Hu. apply Extension_UpdateHash_Ok in Hu as (s & r & Hs & Hr & ->).
  apply consistentExtension_eq. split.
  - exists s. rewrite Extension_Serialize_setHash. by destruct e.
  - by destruct e.
Qed.

Lemma Branch_UpdateHash_consistent b u b' :
  consistentChildren hs b ->
  Branch.UpdateHash hs b = Ok u b' -> consistentBranch hs b'.
Proof.
  intros Hn Hu. apply Branch_UpdateHash_Ok in Hu as (s & r & Hs & Hr & ->).
  apply consistentBranch_eq. split.
  - exists s. rewrite Branch_Serialize_setHash. by destruct b.
  - by apply consistentChildren_setHash.
Qed.

Lemma NewNodeExtension_consistent key n v e :
  NewNodeExtension key n v hs = Val e -> consistentNode hs n -> consistentExtension hs e.
Proof.
  intros He Hn. apply NewNodeExtension_Val in He as [u Hu].
  eapply Extension_UpdateHash_consistent; [|exact Hu]. exact Hn.
Qed.

Lemma NewNodeBranchWithChildren_consistent a b n :
  NewNodeBranchWithChildren a b hs = Val n ->
  consistentExtension hs a -> consistentExtension hs b -> consistentBranch hs n.
Proof.
  intros Hn Ha Hb.
  destruct (NewNodeBranchWithChildren_Val _ _ _ _ Hn)
    as (ca & cb & ia & ib & u & _ & _ & _ & _ & _ & Hu).
  eapply Branch_UpdateHash_consistent; [|exact Hu].
  apply (consistentChildren_insert hs ib (Some b)
           (mkBranch [] (<[ia := Some a]> (replicate ChildIndexCount None))));
    [|by intros e [= <-]].
  apply (consistentChildren_insert hs ia (Some a)
           (mkBranch [] (replicate ChildIndexCount None)));
    [apply consistentChildren_empty|by intros e [= <-]].
Qed.

Lemma consistentExtension_next e :
  consistentExtension hs e -> consistentNode hs (Extension.Next e).
Proof. intros H. by apply consistentExtension_eq in H as [_ H]. Qed.

Lemma consistentBranch_children b :
  consistentBranch hs b -> consistentChildren hs b.
Proof. intros H. by apply consistentBranch_eq in H as [_ H]. Qed.

Lemma insertToExtension_consistent_from key vo e u e' :
  match Extension.Next e with
  | NilNode => True
  | ExtensionNode n =>
      forall key u n', consistentExtension hs n ->
        insertToExtension hs key vo n = Ok u n' -> consistentExtension hs n'
  | BranchNode b =>
      forall key u b', consistentBranch hs b ->
        insertToBranch hs key vo b = Ok u b' -> consistentBranch hs b'
  end ->
  consistentExtension hs e ->
  insertToExtension hs key vo e = Ok u e' -> consistentExtension hs e'.
Proof.
  intros IH He. pose proof (consistentExtension_next _ He) as Hnext.
  destruct e as [h k n v]. simpl in IH, Hnext. simpl insertToExtension.
  destruct (decide (key = k)) as [->|Hne].
  { destruct v as [v|]; [done|]. simpl. intros Hu.
    by eapply Extension_UpdateHash_consistent; [|exact Hu]. }
  destruct (commonPrefix k key) as [prefix| |] eqn:Hprefix; [|done|done].
  destruct (decide (prefix = k)) as [->|Hpk].
  - set (keyTail := drop (length k) key) in *.
    destruct n as [|next|next].
    + intros Hins. apply try_Ok in Hins as (t & Ht & Hu).
      eapply Extension_UpdateHash_consistent; [|exact Hu]. simpl.
      by eapply NewNodeExtension_consistent.
    + intros Hins.
      apply try_Ok in Hins as (c & Hc & Hins). apply try_Ok in Hins as (cn & Hcn & Hins).
      destruct (decide (c = cn)) as [->|Hccn].
      * destruct (insertToExtension hs keyTail vo next) as [u' next'|err next'|] eqn:Hrec;
          [|done|done].
        eapply Extension_UpdateHash_consistent; [|exact Hins]. simpl. by eapply IH.
      * apply try_Ok in Hins as (t & Ht & Hins). apply try_Ok in Hins as (nb & Hnb & Hu).
        eapply Extension_UpdateHash_consistent; [|exact Hu]. simpl.
        eapply NewNodeBranchWithChildren_consistent; [exact Hnb|done|].
        by eapply NewNodeExtension_consistent.
    + intros Hins.
      destruct (insertToBranch hs keyTail vo next) as [u' next'|err next'|] eqn:Hrec;
        [|done|done].
      eapply Extension_UpdateHash_consistent; [|exact Hins]. simpl. by eapply IH.
  - destruct (decide (prefix = key)) as [->|Hpkey'].
    + intros Hins. apply try_Ok in Hins as (t & Ht & Hins).
      apply try_Ok in Hins as (node' & Hnode' & Hu).
      apply SetKey_Val in Hnode' as [_ ->].
      eapply Extension_UpdateHash_consistent; [|exact Hu]. simpl.
      by eapply NewNodeExtension_consistent.
    + intros Hins. apply try_Ok in Hins as (t1 & Ht1 & Hins).
      apply try_Ok in Hins as (t2 & Ht2 & Hins).
      apply try_Ok in Hins as (nb & Hnb & Hins).
      apply try_Ok in Hins as (node' & Hnode' & Hu).
      apply SetKey_Val in Hnode' as [_ ->].
      eapply Extension_UpdateHash_consistent; [|exact Hu]. simpl.
      eapply NewNodeBranchWithChildren_consistent; [exact Hnb| |];
        by eapply NewNodeExtension_consistent.
Qed.

Lemma insertToBranch_consistent_from key vo b u b' :
  (forall i e, Branch.ListChildren b !! i = Some (Some e) ->
     forall key u e', consistentExtension hs e ->
       insertToExtension hs key vo e = Ok u e' -> consistentExtension hs e') ->
  consistentBranch hs b ->
  insertToBranch hs key vo b = Ok u b' -> consistentBranch hs b'.
Proof.
  intros IH Hb. pose proof (consistentBranch_children _ Hb) as Hcs.
  destruct b as [h cs]. simpl in IH. simpl insertToBranch.
  intros Hins.
  apply try_Ok in Hins as (c & Hc & Hins). apply try_Ok in Hins as (i & Hi & Hins).
  rewrite atChild_lookup in Hins.
  destruct (cs !! i) as [[e|]|] eqn:He; [| |done].
  - destruct (insertToExtension hs key vo e) as [u' e'|err e'|] eqn:Hrec; [|done|done].
    eapply Branch_UpdateHash_consistent; [|exact Hins].
    apply consistentChildren_setChild; [done|].
    eapply IH; [exact He| |exact Hrec]. by apply (Hcs i).
  - apply try_Ok in Hins as (n & Hn & Hins). apply try_Ok in Hins as (b2 & Hb2 & Hu).
    eapply Branch_UpdateHash_consistent; [|exact Hu].
    unfold Branch.Append in Hb2.
    destruct (index (Extension.Key n) 0) as [c'| |]; [|done|done]. simpl in Hb2.
    destruct (toChildIndex c') as [i'| |]; [|done|done]. simpl in Hb2.
    destruct (index cs i') as [[x|]| |]; [done| |done|done]. simpl in Hb2.
    unfold Branch.store in Hb2. case_decide; [|done]. injection Hb2 as <-.
    apply consistentChildren_insert; [done|]. intros e' [= <-].
    by eapply NewNodeExtension_consistent.
Qed.

Lemma insert_consistent :
  (forall e key vo u e', consistentExtension hs e ->
     insertToExtension hs key vo e = Ok u e' -> consistentExtension hs e') /\
  (forall b key vo u b', consistentBranch hs b ->
     insertToBranch hs key vo b = Ok u b' -> consistentBranch hs b').
Proof.
  apply (node_mutual_induction
           (fun e => forall key vo u e', consistentExtension hs e ->
              insertToExtension hs key vo e = Ok u e' -> consistentExtension hs e')
           (fun b => forall key vo u b', consistentBranch hs b ->
              insertToBranch hs key vo b = Ok u b' -> consistentBranch hs b')).
  - intros e IH key vo u e'. apply insertToExtension_consistent_from.
    destruct (Extension.Next e); [done| |]; intros; by eapply IH.
  - intros b IH key vo u b'. apply insertToBranch_consistent_from.
    intros i e He key' u' e'. by eapply IH.
Qed.

Lemma firstFrom_consistent b e :
  consistentChildren hs b -> Branch.First b = Some e -> consistentExtension hs e.
Proof. intros Hb He. apply firstFrom_lookup in He as [i He]. by eapply Hb. Qed.

(** After a delete the children are consistent; the node itself is, unless
    it is about to be dropped by its parent. *)
Lemma deleteKeyInExtension_consistent_from key e sd e' :
  match Extension.Next e with
  | NilNode => True
  | ExtensionNode n =>
      forall key sd n', consistentExtension hs n ->
        deleteKeyInExtension hs key n = Ok sd n' ->
        consistentNode hs (Extension.Next n') /\ (sd = false -> consistentExtension hs n')
  | BranchNode b =>
      forall key sd b', consistentBranch hs b ->
        deleteKeyInBranch hs key b = Ok sd b' ->
        consistentChildren hs b' /\ (sd = false -> consistentBranch hs b')
  end ->
  consistentExtension hs e ->
  deleteKeyInExtension hs key e = Ok sd e' ->
  consistentNode hs (Extension.Next e') /\ (sd = false -> consistentExtension hs e').
Proof.
  intros IH He. pose proof (consistentExtension_next _ He) as Hnext.
  assert (forall X sd' e'',
            consistentNode hs (Extension.Next X) ->
            returning sd' (Extension.UpdateHash hs X) = Ok sd e'' ->
            consistentNode hs (Extension.Next e'') /\
            (sd = false -> consistentExtension hs e'')) as Hfresh.
  { intros X sd' e'' HX Hr. apply returning_Ok in Hr as [u Hu].
    pose proof (Extension_UpdateHash_consistent _ _ _ HX Hu) as Hc.
    split; [by apply consistentExtension_next|done]. }
  destruct e as [h k n v]. simpl in IH, Hnext. simpl deleteKeyInExtension.
  destruct (decide (key = k)) as [->|Hne].
  { destruct v as [v|]; [|done]. simpl.
    destruct n as [|next|next].
    - intros [= <- <-]. done.
    - intros Hdel. apply try_Ok in Hdel as (node' & Hnode' & Hr).
      apply SetKey_Val in Hnode' as [_ ->].
      apply Hfresh in Hr; [done|]. simpl. by apply consistentExtension_next.
    - intros Hr. by apply Hfresh in Hr. }
  destruct (commonPrefix k key) as [prefix| |] eqn:Hprefix; [|done|done].
  destruct (decide (prefix = key)); [done|].
  destruct (bool_decide (prefix = k)) eqn:Hk; [|done]. simpl.
  set (keyTail := drop (length prefix) key) in *.
  destruct n as [|next|next]; [done| |].
  - intros Hdel.
    apply try_Ok in Hdel as (c & _ & Hdel). apply try_Ok in Hdel as (cn & _ & Hdel).
    destruct (negb (bool_decide (c = cn))); [done|].
    destruct (deleteKeyInExtension hs keyTail next) as [[|] next'|err next'|] eqn:Hrec;
      [| |done|done].
    + simpl in Hdel. destruct v; simpl in Hdel.
      * by apply Hfresh in Hdel.
      * injection Hdel as <- <-. done.
    + apply Hfresh in Hdel; [done|]. simpl.
      destruct (IH _ _ _ Hnext Hrec) as [_ Hn']. by apply Hn'.
  - intros Hdel.
    destruct (deleteKeyInBranch hs keyTail next) as [[|] next'|err next'|] eqn:Hrec;
      [| |done|done].
    + destruct (IH _ _ _ Hnext Hrec) as [Hcs' _].
      simpl in Hdel. destruct v; simpl in Hdel.
      * apply Hfresh in Hdel; [done|]. simpl.
        destruct (Branch.First next') as [nn|] eqn:Hfirst; [|done]. simpl.
        by eapply firstFrom_consistent.
      * destruct (Branch.First next') as [nn|] eqn:Hfirst; [|done].
        apply try_Ok in Hdel as (node' & Hnode' & Hr).
        apply SetKey_Val in Hnode' as [_ ->].
        apply Hfresh in Hr; [done|]. simpl.
        apply consistentExtension_next. by eapply firstFrom_consistent.
    + apply Hfresh in Hdel; [done|]. simpl.
      destruct (IH _ _ _ Hnext Hrec) as [_ Hn']. by apply Hn'.
Qed.

Lemma deleteKeyInBranch_consistent_from key b sd b' :
  (forall i e, Branch.ListChildren b !! i = Some (Some e) ->
     forall key sd e', consistentExtension hs e ->
       deleteKeyInExtension hs key e = Ok sd e' ->
       consistentNode hs (Extension.Next e') /\ (sd = false -> consistentExtension hs e')) ->
  consistentBranch hs b ->
  deleteKeyInBranch hs key b = Ok sd b' ->
  consistentChildren hs b' /\ (sd = false -> consistentBranch hs b').
Proof.
  intros IH Hb. pose proof (consistentBranch_children _ Hb) as Hcs.
  assert (forall X sd' b'',
            consistentChildren hs X ->
            returning sd' (Branch.UpdateHash hs X) = Ok sd b'' ->
            consistentChildren hs b'' /\ (sd = false -> consistentBranch hs b'')) as Hfresh.
  { intros X sd' b'' HX Hr. apply returning_Ok in Hr as [u Hu].
    pose proof (Branch_UpdateHash_consistent _ _ _ HX Hu) as Hc.
    split; [by apply consistentBranch_children|done]. }
  destruct b as [h cs]. simpl in IH. simpl deleteKeyInBranch.
  intros Hdel.
  apply try_Ok in Hdel as (c & Hc & Hdel). apply try_Ok in Hdel as (i & Hi & Hdel).
  rewrite atChild_lookup in Hdel.
  destruct (cs !! i) as [[e|]|] eqn:He; [|done|done].
  destruct (deleteKeyInExtension hs key e) as [[|] e1|err e1|] eqn:Hrec; [| |done|done].
  - apply try_Ok in Hdel as (b2 & Hb2 & Hdel).
    assert (consistentChildren hs b2) as Hb2c.
    { rewrite (Branch_Delete_held c i e1) in Hb2;
        [|done|by apply (setChild_lookup i (Some e))].
      injection Hb2 as <-. cbn [setChild Branch.setChildren Branch.ListChildren Branch.hash].
      rewrite list_insert_insert_eq.
      by apply (consistentChildren_insert hs i None (mkBranch h cs)). }
    case_decide.
    + injection Hdel as <- <-. done.
    + by apply Hfresh in Hdel.
  - apply Hfresh in Hdel; [done|].
    apply (consistentChildren_setChild hs i e1 (mkBranch h cs)); [done|].
    destruct (IH i e He _ _ _ (Hcs i e He) Hrec) as [_ He1]. by apply He1.
Qed.

Lemma delete_consistent :
  (forall e key sd e', consistentExtension hs e ->
     deleteKeyInExtension hs key e = Ok sd e' ->
     consistentNode hs (Extension.Next e') /\ (sd = false -> consistentExtension hs e')) /\
  (forall b key sd b', consistentBranch hs b ->
     deleteKeyInBranch hs key b = Ok sd b' ->
     consistentChildren hs b' /\ (sd = false -> consistentBranch hs b')).
Proof.
  apply (node_mutual_induction
           (fun e => forall key sd e', consistentExtension hs e ->
              deleteKeyInExtension hs key e = Ok sd e' ->
              consistentNode hs (Extension.Next e') /\
              (sd = false -> consistentExtension hs e'))
           (fun b => forall key sd b', consistentBranch hs b ->
              deleteKeyInBranch hs key b = Ok sd b' ->
              consistentChildren hs b' /\ (sd = false -> consistentBranch hs b'))).
  - intros e IH key sd e'. apply deleteKeyInExtension_consistent_from.
    destruct (Extension.Next e); [done| |]; intros; by eapply IH.
  - intros b IH key sd b'. apply deleteKeyInBranch_consistent_from.
    intros i e He key' sd' e'. by eapply IH.
Qed.

End Consistent.

Lemma NewMerklePatriciaTrie_consistent digest mt :
  NewMerklePatriciaTrie digest = Val mt ->
  consistentBranch digest (root mt) /\ hs mt = digest.
Proof.
  unfold NewMerklePatriciaTrie.
  destruct (Branch.UpdateHash digest NewNodeBranch) as [u b| |] eqn:Hu; [|done|done].
  intros [= <-]. split; [|done]. simpl.
  eapply Branch_UpdateHash_consistent; [|exact Hu]. apply consistentChildren_empty.
Qed.

Lemma Insert_consistent key value mt u mt' :
  consistentBranch (hs mt) (root mt) -> Insert key value mt = Ok u mt' ->
  consistentBranch (hs mt') (root mt') /\ hs mt' = hs mt.
Proof.
  intros Hc. unfold Insert. case_decide; [done|].
  destruct (insertToBranch _ _ _ _) as [u' b|err b|] eqn:Hins; [|done|done].
  destruct (Branch.UpdateHash (hs mt) b) as [u'' b'| |] eqn:Hu; [|done|done].
  simpl. intros [= _ <-]. split; [|done]. simpl.
  eapply Branch_UpdateHash_consistent; [|exact Hu].
  apply consistentBranch_children. by eapply (proj2 (insert_consistent (hs mt))).
Qed.

Lemma Delete_consistent key mt u mt' :
  consistentBranch (hs mt) (root mt) -> Delete key mt = Ok u mt' ->
  consistentBranch (hs mt') (root mt') /\ hs mt' = hs mt.
Proof.
  intros Hc. unfold Delete. case_decide; [done|].
  destruct (deleteKeyInBranch _ _ _) as [sd b|err b|] eqn:Hdel; [|done|done].
  destruct (Branch.UpdateHash (hs mt) b) as [u'' b'| |] eqn:Hu; [|done|done].
  simpl. intros [= _ <-]. split; [|done]. simpl.
  eapply Branch_UpdateHash_consistent; [|exact Hu].
  by destruct (proj2 (delete_consistent (hs mt)) _ _ _ _ Hc Hdel) as [Hcs _].
Qed.

Lemma built_consistent digest mt :
  built digest mt -> consistentBranch digest (root mt) /\ hs mt = digest.
Proof.
  induction 1 as [mt Hnew|mt key value u mt' _ [IH Hhs] Hins|mt key u mt' _ [IH Hhs] Hdel].
  - by apply NewMerklePatriciaTrie_consistent.
  - rewrite <- Hhs in IH. destruct (Insert_consistent _ _ _ _ _ IH Hins) as [Hc Hhs'].
    rewrite Hhs', Hhs in Hc. split; [done|congruence].
  - rewrite <- Hhs in IH. destruct (Delete_consistent _ _ _ _ IH Hdel) as [Hc Hhs'].
    rewrite Hhs', Hhs in Hc. split; [done|congruence].
Qed.

(** With a digest that never fails, a call that returns an error leaves the
    trie as it was: every reachable trie is one a run of successful calls
    produces. *)
Lemma reachable_built digest mt :
  unfailingDigest digest -> reachable digest mt -> built digest mt.
Proof.
  intros Hd. induction 1 as [mt Hnew|mt key value mt' _ IH Hins|mt key mt' _ IH Hdel].
  - by apply built_new.
  - destruct (built_consistent _ _ IH) as [_ Hhs].
    destruct (Insert key value mt) as [u mt1|err mt1|] eqn:Hrun; simpl in Hins; [| |done].
    + subst mt1. by eapply built_insert.
    + subst mt1. apply Insert_Err_unchanged in Hrun as [-> _]; [done|by rewrite Hhs].
  - destruct (built_consistent _ _ IH) as [_ Hhs].
    destruct (Delete key mt) as [u mt1|err mt1|] eqn:Hrun; simpl in Hdel; [| |done].
    + subst mt1. by eapply built_delete.
    + subst mt1. apply Delete_Err_unchanged in Hrun as [-> _]; [done|by rewrite Hhs].
Qed.

(** ** The hashes are a function of the content *)

Lemma contentOfExtension_eq e :
  contentOfExtension e =
    mkExtension [] (Extension.Key e) (contentOfNode (Extension.Next e))
      (Extension.ValueObject e).
Proof. by destruct e as [h k [|n|[h' cs]] v]. Qed.

Lemma digestOf_functional hs pre h1 h2 : digestOf hs pre h1 -> digestOf hs pre h2 -> h1 = h2.
Proof. intros (s1 & -> & H1) (s2 & [= <-] & H2). congruence. Qed.

Lemma Extension_Serialize_fields e1 e2 :
  Extension.Key e1 = Extension.Key e2 -> Extension.Next e1 = Extension.Next e2 ->
  Extension.ValueObject e1 = Extension.ValueObject e2 ->
  Extension.Serialize e1 = Extension.Serialize e2.
Proof. destruct e1, e2. simpl. by intros -> -> ->. Qed.

Lemma extension_eq e1 e2 :
  Extension.hash e1 = Extension.hash e2 -> Extension.Key e1 = Extension.Key e2 ->
  Extension.Next e1 = Extension.Next e2 ->
  Extension.ValueObject e1 = Extension.ValueObject e2 -> e1 = e2.
Proof. destruct e1, e2. simpl. by intros -> -> -> ->. Qed.

Lemma content_slots hs (cs1 : list (option nodeExtension)) :
  (forall i e1, cs1 !! i = Some (Some e1) ->
     forall e2, consistentExtension hs e1 -> consistentExtension hs e2 ->
                contentOfExtension e1 = contentOfExtension e2 -> e1 = e2) ->
  forall cs2,
    (forall i e, cs1 !! i = Some (Some e) -> consistentExtension hs e) ->
    (forall i e, cs2 !! i = Some (Some e) -> consistentExtension hs e) ->
    map contentOfSlot cs1 = map contentOfSlot cs2 -> cs1 = cs2.
Proof.
  induction cs1 as [|c1 cs1 IHcs]; intros IH cs2 H1 H2 Hmap.
  - by destruct cs2.
  - destruct cs2 as [|c2 cs2]; [done|]. simpl in Hmap. injection Hmap as Hc Hmap.
    f_equal.
    + destruct c1 as [e1|], c2 as [e2|]; try done. simpl in Hc. injection Hc as Hc.
      f_equal. apply (IH 0 e1); [done|by apply (H1 0)|by apply (H2 0)|done].
    + apply IHcs; [|intros i e He; by apply (H1 (S i))|
                   intros i e He; by apply (H2 (S i))|done].
      intros i e1 He. by apply (IH (S i)).
Qed.

Lemma content_determines_hashes hs :
  (forall e1 e2, consistentExtension hs e1 -> consistentExtension hs e2 ->
     contentOfExtension e1 = contentOfExtension e2 -> e1 = e2) /\
  (forall b1 b2, consistentBranch hs b1 -> consistentBranch hs b2 ->
     contentOfBranch b1 = contentOfBranch b2 -> b1 = b2).
Proof.
  apply (node_mutual_induction
           (fun e1 => forall e2, consistentExtension hs e1 -> consistentExtension hs e2 ->
              contentOfExtension e1 = contentOfExtension e2 -> e1 = e2)
           (fun b1 => forall b2, consistentBranch hs b1 -> consistentBranch hs b2 ->
              contentOfBranch b1 = contentOfBranch b2 -> b1 = b2)).
  - intros e1 IH e2 H1 H2 Hc.
    apply consistentExtension_eq in H1 as [Hd1 Hn1].
    apply consistentExtension_eq in H2 as [Hd2 Hn2].
    rewrite !contentOfExtension_eq in Hc. injection Hc as Hk Hn Hv.
    assert (Extension.Next e1 = Extension.Next e2) as Hnext.
    { destruct (Extension.Next e1) as [|n1|b1], (Extension.Next e2) as [|n2|b2];
        try done; simpl in Hn; injection Hn as Hn; f_equal; by apply IH. }
    apply extension_eq; try done.
    rewrite (Extension_Serialize_fields e1 e2) in Hd1 by done.
    by eapply digestOf_functional.
  - intros [h1 cs1] IH [h2 cs2] H1 H2 Hc.
    apply consistentBranch_eq in H1 as [Hd1 Hn1].
    apply consistentBranch_eq in H2 as [Hd2 Hn2].
    simpl in Hc. injection Hc as Hc.
    assert (cs1 = cs2) as ->.
    { by apply (content_slots hs cs1 IH cs2 Hn1 Hn2). }
    f_equal. by eapply digestOf_functional.
Qed.

(** ** The root hash is the digest of the last Branch set of a path *)

Lemma slotOfHash_slotHash (cs : list (option nodeExtension)) :
  (forall i e, cs !! i = Some (Some e) -> Extension.hash e <> []) ->
  map slotOfHash (map slotHash cs) = map (fmap Extension.hash) cs.
Proof.
  induction cs as [|c cs IH]; intros H; [done|]. simpl. f_equal.
  - destruct c as [e|]; [|done]. simpl. specialize (H 0 e eq_refl).
    by destruct (Extension.hash e).
  - apply IH. intros i e He. by apply (H (S i)).
Qed.

Lemma FindMerklePath_Ok_hashed key mt path mt' :
  FindMerklePath key mt = Ok path mt' ->
  exists trail,
    branchPath (root mt) (hex.EncodeToString key) trail /\ Forall hashedVisit trail /\
    Branch.hash (root mt) <> [].
Proof.
  unfold FindMerklePath. case_decide; [done|].
  destruct (merklePathInBranch _ _) as [path' b|err b|] eqn:Hfind; [|done|done].
  intros Hroot. apply try_Ok in Hroot as (hh & Hh & Hroot). simpl in Hh.
  apply nodeBase_Hash_Val in Hh as [-> Hh].
  destruct (proj2 merklePath_Ok _ _ _ _ Hfind) as (trail & Hpath & Hhashed).
  rewrite (proj2 merklePath_on_path _ _ _ Hpath Hhashed) in Hfind.
  injection Hfind as _ <-. by exists trail.
Qed.

Lemma merkle_path_root_set digest key mt path mt' :
  consistentBranch digest (root mt) ->
  FindMerklePath key mt = Ok path mt' ->
  exists below slots h,
    path = below ++ [mkMerkleSet slots; mkMerkleSet [h]] /\
    digest (gob.stream (branchPreimage (map slotOfHash slots))) = Val h /\
    rootHash mt = Val h.
Proof.
  intros Hc Hfind.
  destruct (FindMerklePath_Ok_hashed _ _ _ _ Hfind) as (trail & Hpath & Hhashed & Hroot).
  destruct (FindMerklePath_Ok_path _ _ _ _ Hfind) as (trail' & Hpath' & -> & _).
  destruct (branchPath_last _ _ _ Hpath') as [below ->].
  exists (map merkleSetOf below), (map slotHash (Branch.ListChildren (root mt))),
    (Branch.hash (root mt)).
  split; [by rewrite map_app, <- app_assoc|].
  split; [|by apply nodeBase_Hash_nonempty].
  destruct (branchPath_last _ _ _ Hpath) as [below' ->].
  apply Forall_app in Hhashed as [_ Hb]. rewrite Forall_singleton in Hb. simpl in Hb.
  rewrite slotOfHash_slotHash by done.
  apply consistentBranch_eq in Hc as [(s & Hs & Hd) _].
  rewrite Branch_Serialize_stream in Hs by done. by injection Hs as <-.
Qed.

(** ** The methods of a Branch *)

Lemma countFrom_acc cs c : Branch.countFrom cs c = c + Branch.countFrom cs 0.
Proof.
  revert c. induction cs as [|[e|] cs IH]; intros c; simpl; [lia| |apply IH].
  rewrite (IH (S c)), (IH 1). lia.
Qed.

Lemma countFrom_insert_vacant (cs : list (option nodeExtension)) i x c :
  cs !! i = Some None ->
  Branch.countFrom (<[i := Some x]> cs) c = S (Branch.countFrom cs c).
Proof.
  revert i c. induction cs as [|[e|] cs IH]; intros [|i] c He; simpl in *; try done.
  - by apply IH.
  - rewrite (countFrom_acc cs (S c)), (countFrom_acc cs c). lia.
  - by apply IH.
Qed.

Lemma countFrom_insert_held (cs : list (option nodeExtension)) i x y c :
  cs !! i = Some (Some y) ->
  Branch.countFrom (<[i := Some x]> cs) c = Branch.countFrom cs c.
Proof.
  revert i c. induction cs as [|[e|] cs IH]; intros [|i] c He; simpl in *; try done.
  - by eapply IH.
  - by eapply IH.
Qed.

Lemma countFrom_delete_held (cs : list (option nodeExtension)) i y c :
  cs !! i = Some (Some y) ->
  S (Branch.countFrom (<[i := None]> cs) c) = Branch.countFrom cs c.
Proof.
  revert i c. induction cs as [|[e|] cs IH]; intros [|i] c He; simpl in *; try done.
  - rewrite (countFrom_acc cs (S c)), (countFrom_acc cs c). lia.
  - by eapply IH.
  - by eapply IH.
Qed.

Lemma countFrom_replicate n c :
  Branch.countFrom (replicate n (None : option nodeExtension)) c = c.
Proof. induction n as [|n IH]; simpl; [done|apply IH]. Qed.

Lemma countFrom_bound cs c : Branch.countFrom cs c <= c + length cs.
Proof.
  revert c. induction cs as [|[e|] cs IH]; intros c; simpl; [lia| |].
  - specialize (IH (S c)). lia.
  - specialize (IH c). lia.
Qed.

Lemma firstFrom_lowest (cs : list (option nodeExtension)) e :
  Branch.firstFrom cs = Some e <->
  exists i, cs !! i = Some (Some e) /\ forall j, j < i -> cs !! j = Some None.
Proof.
  induction cs as [|[x|] cs IH]; simpl.
  - split; [done|]. by intros (i & He & _).
  - split.
    + intros [= <-]. exists 0. split; [done|]. intros j Hj. lia.
    + intros ([|i] & He & Hlow); [by injection He as ->|].
      by specialize (Hlow 0 ltac:(lia)).
  - rewrite IH. split.
    + intros (i & He & Hlow). exists (S i). split; [done|].
      intros [|j] Hj; [done|]. apply Hlow. lia.
    + intros ([|i] & He & Hlow); [done|]. exists i. split; [done|].
      intros j Hj. apply (Hlow (S j)). lia.
Qed.

Lemma firstFrom_None (cs : list (option nodeExtension)) :
  Branch.firstFrom cs = None <-> Branch.countFrom cs 0 = 0.
Proof.
  induction cs as [|[x|] cs IH]; simpl; [done| |done].
  split; [done|]. rewrite countFrom_acc. lia.
Qed.

Lemma Branch_Append_vacant n c i b :
  Extension.Key n !! 0 = Some c -> toChildIndex c = Val i ->
  Branch.ListChildren b !! i = Some None ->
  Branch.Append n b = Val (Branch.setChildren (<[i := Some n]> (Branch.ListChildren b)) b).
Proof.
  intros Hc Hi He. unfold Branch.Append. rewrite (index_head _ c) by done. simpl.
  rewrite Hi. simpl. unfold index. rewrite He. simpl.
  apply store_Val. by eapply lookup_lt_Some.
Qed.

Lemma Branch_Append_Val n b b' :
  Branch.Append n b = Val b' ->
  exists c i, Extension.Key n !! 0 = Some c /\ toChildIndex c = Val i /\
              Branch.ListChildren b !! i = Some None /\
              b' = Branch.setChildren (<[i := Some n]> (Branch.ListChildren b)) b.
Proof.
  unfold Branch.Append. intros H.
  destruct (index (Extension.Key n) 0) as [c| |] eqn:Hc; [|done|done]. simpl in H.
  destruct (toChildIndex c) as [i| |] eqn:Hi; [|done|done]. simpl in H.
  destruct (index (Branch.ListChildren b) i) as [[x|]| |] eqn:He; [done| |done|done].
  simpl in H. apply index_Val in Hc, He.
  rewrite store_Val in H by (by eapply lookup_lt_Some). injection H as <-.
  by exists c, i.
Qed.

Lemma ChildAt_lookup c i b :
  toChildIndex c = Val i ->
  Branch.ChildAt c b = index (Branch.ListChildren b) i.
Proof. intros Hi. unfold Branch.ChildAt. by rewrite Hi. Qed.

Lemma HasChildAt_lookup c i b x :
  toChildIndex c = Val i -> Branch.ListChildren b !! i = Some x ->
  Branch.HasChildAt c b = Val (bool_decide (is_Some x)).
Proof.
  intros Hi Hx. unfold Branch.HasChildAt. rewrite Hi. simpl.
  unfold index. rewrite Hx. simpl. by destruct x.
Qed.

Lemma NewNodeBranchWithChildren_children a b hs n :
  NewNodeBranchWithChildren a b hs = Val n ->
  exists ca cb ia ib,
    Extension.Key a !! 0 = Some ca /\ Extension.Key b !! 0 = Some cb /\ ca <> cb /\
    toChildIndex ca = Val ia /\ toChildIndex cb = Val ib /\
    Branch.ListChildren n =
      <[ib := Some b]> (<[ia := Some a]> (replicate ChildIndexCount None)).
Proof.
  intros Hn.
  destruct (NewNodeBranchWithChildren_Val _ _ _ _ Hn)
    as (ca & cb & ia & ib & u & Hca & Hcb & Hne & Hia & Hib & Hu).
  exists ca, cb, ia, ib. repeat split; try done.
  apply Branch_UpdateHash_Ok in Hu as (s & r & _ & _ & ->).
  by rewrite ListChildren_setHash.
Qed.

Lemma index_head_at {A} (s : list A) i (c : A) : s !! i = Some c -> index s i = Val c.
Proof. intros H. unfold index. by rewrite H. Qed.

Lemma countFrom_filter (cs : list (option nodeExtension)) c :
  Branch.countFrom cs c = c + length (filter (fun x => is_Some x) cs).
Proof.
  revert c. induction cs as [|x cs IH]; intros c; [simpl; lia|].
  rewrite filter_cons. destruct x as [e|].
  - rewrite decide_True by done. simpl. rewrite IH. lia.
  - rewrite decide_False by (by intros []). simpl. apply IH.
Qed.

(** ** The text form of a Merkle path *)

Lemma EncodeToString_inj s1 s2 :
  hex.EncodeToString s1 = hex.EncodeToString s2 -> s1 = s2.
Proof. intros H. apply (f_equal unhex) in H. by rewrite !unhex_EncodeToString in H. Qed.

Lemma EncodeToString_no_quote s : Byte.x22 ∉ hex.EncodeToString s.
Proof.
  intros Hin. pose proof (EncodeToString_digits s) as Hd.
  rewrite List.Forall_forall in Hd. apply list_elem_of_In in Hin. by apply Hd in Hin.
Qed.

Lemma split_at_first {A} (d : A) (u u' x x' : list A) :
  d ∉ u -> d ∉ u' -> u ++ d :: x = u' ++ d :: x' -> u = u' /\ x = x'.
Proof.
  revert u'. induction u as [|a u IH]; intros [|a' u'] Hu Hu' Heq; simpl in Heq.
  - by injection Heq.
  - injection Heq as <- _. exfalso. apply Hu'. by left.
  - injection Heq as -> _. exfalso. apply Hu. by left.
  - injection Heq as -> Heq.
    destruct (IH u') as [-> ->]; try done.
    + intros Hin. apply Hu. by right.
    + intros Hin. apply Hu'. by right.
Qed.

Lemma marshalHashes_inj hs1 :
  forall hs2 i r1 r2,
    marshalHashes i hs1 ++ Byte.x5d :: r1 = marshalHashes i hs2 ++ Byte.x5d :: r2 ->
    hs1 = hs2 /\ r1 = r2.
Proof.
  induction hs1 as [|h1 hs1 IH]; intros [|h2 hs2] i r1 r2 Heq; simpl in Heq.
  - by injection Heq.
  - by case_decide.
  - by case_decide.
  - assert (hex.EncodeToString h1 ++ Byte.x22
              :: marshalHashes (S i) hs1 ++ Byte.x5d :: r1 =
            hex.EncodeToString h2 ++ Byte.x22
              :: marshalHashes (S i) hs2 ++ Byte.x5d :: r2) as Heq'.
    { case_decide; simpl in Heq; injection Heq as Heq;
        rewrite <- !app_assoc in Heq; simpl in Heq; exact Heq. }
    apply split_at_first in Heq' as [Hh Hrest]; try apply EncodeToString_no_quote.
    apply EncodeToString_inj in Hh as ->.
    destruct (IH _ _ _ _ Hrest) as [-> ->]. done.
Qed.

Lemma marshalSets_inj p :
  forall q i r1 r2,
    marshalSets i p ++ Byte.x5d :: r1 = marshalSets i q ++ Byte.x5d :: r2 ->
    p = q /\ r1 = r2.
Proof.
  induction p as [|[s1] p IH]; intros [|[s2] q] i r1 r2 Heq; simpl in Heq.
  - by injection Heq.
  - by case_decide.
  - by case_decide.
  - assert (marshalHashes 0 s1 ++ Byte.x5d :: (marshalSets (S i) p ++ Byte.x5d :: r1) =
            marshalHashes 0 s2 ++ Byte.x5d :: (marshalSets (S i) q ++ Byte.x5d :: r2))
      as Heq'.
    { case_decide; simpl in Heq; injection Heq as Heq;
        rewrite <- !app_assoc in Heq; simpl in Heq; exact Heq. }
    apply marshalHashes_inj in Heq' as [-> Hrest].
    destruct (IH _ _ _ _ Hrest) as [-> ->]. done.
Qed.

Lemma MerklePath_MarshalJSON_inj p q :
  MerklePath_MarshalJSON p = MerklePath_MarshalJSON q -> p = q.
Proof.
  unfold MerklePath_MarshalJSON. intros [= Heq].
  by apply marshalSets_inj in Heq as [-> _].
Qed.

(** ** Delete of a stored key succeeds *)

Lemma soundNode_nextHash n h : soundNode n = true -> nextHash n = Some h -> h <> [].
Proof.
  destruct n as [|e|b]; simpl; [done| |]; intros Hs [= <-].
  - by apply soundExtension_true in Hs as [Hh _].
  - by apply soundBranch_true in Hs as [Hh _].
Qed.

Lemma deleteKeyInBranch_collapse hs key b b' :
  deleteKeyInBranch hs key b = Ok true b' -> Branch.Count b' = 1.
Proof.
  destruct b as [h cs]. simpl deleteKeyInBranch. intros Hdel.
  apply try_Ok in Hdel as (c & Hc & Hdel). apply try_Ok in Hdel as (i & Hi & Hdel).
  rewrite atChild_lookup in Hdel.
  destruct (cs !! i) as [[e|]|] eqn:He; [|done|done].
  destruct (deleteKeyInExtension hs key e) as [[|] e1|err e1|] eqn:Hrec; [| |done|done].
  - apply try_Ok in Hdel as (b2 & Hb2 & Hdel). case_decide as Hcount.
    + by injection Hdel as <-.
    + destruct (Branch.UpdateHash hs b2); simpl in Hdel; discriminate.
  - destruct (Branch.UpdateHash hs _); simpl in Hdel; discriminate.
Qed.

Section DeleteSucceeds.

Variable hs : crypto_Hash.
Hypothesis hs_total : totalDigest hs.

Lemma totalDigest_proper : properDigest hs.
Proof. intros s h Hh. destruct (hs_total s) as (h' & Hh' & Hne). congruence. Qed.

Lemma Extension_UpdateHash_total e :
  soundNode (Extension.Next e) = true ->
  exists r, Extension.UpdateHash hs e = Ok tt (Extension.setHash r e).
Proof.
  intros Hn. unfold Extension.UpdateHash.
  rewrite Extension_Serialize_stream by (intros h; by apply soundNode_nextHash).
  destruct (hs_total (gob.stream (extensionPreimage (Extension.Key e)
                                    (nextHash (Extension.Next e))
                                    (Value <$> Extension.ValueObject e))))
    as (r & -> & _).
  by exists r.
Qed.

Lemma Branch_UpdateHash_total b :
  (forall i e, Branch.ListChildren b !! i = Some (Some e) -> soundExtension e = true) ->
  exists r, Branch.UpdateHash hs b = Ok tt (Branch.setHash r b).
Proof.
  intros Hcs. unfold Branch.UpdateHash.
  rewrite Branch_Serialize_stream.
  - destruct (hs_total (gob.stream (branchPreimage
                                      (map (fmap Extension.hash) (Branch.ListChildren b)))))
      as (r & -> & _).
    by exists r.
  - intros i e He. apply Hcs in He. by apply soundExtension_true in He as [Hh _].
Qed.

Lemma returning_Extension_UpdateHash_total {B} (sd : B) e :
  soundNode (Extension.Next e) = true ->
  exists e', returning sd (Extension.UpdateHash hs e) = Ok sd e'.
Proof. intros Hn. destruct (Extension_UpdateHash_total e Hn) as [r ->]. by eexists. Qed.

Lemma returning_Branch_UpdateHash_total {B} (sd : B) b :
  (forall i e, Branch.ListChildren b !! i = Some (Some e) -> soundExtension e = true) ->
  exists b', returning sd (Branch.UpdateHash hs b) = Ok sd b'.
Proof. intros Hn. destruct (Branch_UpdateHash_total b Hn) as [r ->]. by eexists. Qed.

Lemma SetKey_nonempty key e :
  key <> [] ->
  Extension.SetKey key e =
    Val (mkExtension (Extension.hash e) key (Extension.Next e) (Extension.ValueObject e)).
Proof.
  intros Hk. unfold Extension.SetKey. rewrite decide_False; [done|].
  intros Hl. by apply nil_length_inv in Hl.
Qed.

Lemma delete_on_path_succeeds :
  (forall e key trail, extensionPath e key trail -> key <> [] ->
     soundExtension e = true ->
     exists sd e', deleteKeyInExtension hs key e = Ok sd e') /\
  (forall b key trail, branchPath b key trail -> soundBranch b = true ->
     exists sd b', deleteKeyInBranch hs key b = Ok sd b').
Proof.
  apply extensionPath_branchPath_mutind.
  - intros e key v -> Hv Hkey Hsound.
    apply soundExtension_true in Hsound as [Hh Hn].
    destruct e as [h k n v']. simpl in *. subst v'.
    rewrite decide_True by done. simpl.
    destruct n as [|next|next]; [by eexists _, _| |].
    + rewrite SetKey_nonempty by (by destruct k). simpl.
      destruct (returning_Extension_UpdateHash_total false
                  (mkExtension h (k ++ Extension.Key next) (Extension.Next next)
                     (Extension.ValueObject next))) as [e' He'].
      { simpl. simpl in Hn. by apply soundExtension_true in Hn as [_ Hn]. }
      by exists false, e'.
    + destruct (returning_Extension_UpdateHash_total false
                  (mkExtension h k (BranchNode next) (Some v))) as [e' He']; [done|].
      by exists false, e'.
  - intros e n tail trail Hk Ht Hn Hpath IH Hkey Hsound.
    pose proof (extensionPath_head _ _ _ Hpath Ht) as Hhead.
    apply soundExtension_true in Hsound as [Hh Hnext].
    destruct e as [h k nx v]. simpl in *. subst nx. simpl in Hnext.
    rewrite decide_False by (by apply app_tail_neq).
    rewrite commonPrefix_extends by done.
    rewrite decide_False by (intros Heq; by apply (app_tail_neq k tail)).
    rewrite bool_decide_eq_true_2 by done. simpl.
    rewrite drop_app_length.
    destruct tail as [|c tail']; [done|].
    rewrite (index_head _ c) by done. simpl.
    rewrite (index_head _ c) by done. simpl.
    rewrite bool_decide_eq_true_2 by done. simpl.
    pose proof (deleteKeyInExtension_sound hs totalDigest_proper n (c :: tail') Hnext)
      as Hafter.
    destruct (IH Ht Hnext) as (sd & next' & Hrec). rewrite Hrec in Hafter |- *.
    simpl in Hafter. destruct sd.
    * simpl. destruct v as [v|]; simpl; [|by eexists _, _].
      destruct (returning_Extension_UpdateHash_total false
                  (mkExtension h k NilNode (Some v))) as [e' He']; [done|].
      by exists false, e'.
    * destruct (returning_Extension_UpdateHash_total false
                  (mkExtension h k (ExtensionNode next') v)) as [e' He']; [done|].
      by exists false, e'.
  - intros e b tail trail Hk Hn Hpath IH Hkey Hsound.
    apply soundExtension_true in Hsound as [Hh Hnext].
    destruct e as [h k nx v]. simpl in *. subst nx. simpl in Hnext.
    pose proof (branchPath_nonempty _ _ _ Hpath) as Ht.
    rewrite decide_False by (by apply app_tail_neq).
    rewrite commonPrefix_extends by done.
    rewrite decide_False by (intros Heq; by apply (app_tail_neq k tail)).
    rewrite bool_decide_eq_true_2 by done. simpl.
    rewrite drop_app_length.
    pose proof (deleteKeyInBranch_sound hs totalDigest_proper b tail Hnext) as Hafter.
    destruct (IH Hnext) as (sd & next' & Hrec). rewrite Hrec in Hafter |- *.
    simpl in Hafter. destruct sd.
    * pose proof (deleteKeyInBranch_collapse _ _ _ _ Hrec) as Hcount.
      destruct (Branch.First next') as [nn|] eqn:Hfirst.
      -- pose proof (First_sound _ _ Hafter Hfirst) as Hnn.
         simpl. destruct v as [v|]; simpl.
         ++ destruct (returning_Extension_UpdateHash_total false
                        (mkExtension h k (ExtensionNode nn) (Some v))) as [e' He'];
              [done|].
            by exists false, e'.
         ++ rewrite SetKey_nonempty by (by destruct k). simpl.
            destruct (returning_Extension_UpdateHash_total false
                        (mkExtension h (k ++ Extension.Key nn) (Extension.Next nn)
                           (Extension.ValueObject nn))) as [e' He'].
            { simpl. by apply soundExtension_true in Hnn as [_ Hnn]. }
            by exists false, e'.
      -- apply firstFrom_None in Hfirst. unfold Branch.Count in Hcount. lia.
    * destruct (returning_Extension_UpdateHash_total false
                  (mkExtension h k (BranchNode next') v)) as [e' He']; [done|].
      by exists false, e'.
  - intros b c i e key trail Hc Hi He Hpath IH Hsound.
    pose proof Hsound as Hb.
    apply soundBranch_true in Hb as (Hh & Hlen & Hcs).
    assert (key <> []) as Hkey by (intros ->; done).
    pose proof (deleteKeyInExtension_sound hs totalDigest_proper e key (Hcs i e He))
      as Hafter.
    destruct (IH Hkey (Hcs i e He)) as (sd & e1 & Hrec).
    rewrite Hrec in Hafter. simpl in Hafter.
    pose proof (setChild_sound i e1 b Hsound Hafter) as Hset.
    destruct b as [h cs]. simpl in He. simpl deleteKeyInBranch.
    rewrite (index_head _ c) by done. simpl. rewrite Hi. simpl.
    rewrite atChild_lookup, He, Hrec. destruct sd.
    * rewrite (Branch_Delete_held c i e1); [|done|by apply (setChild_lookup i (Some e))].
      simpl. case_decide; [by eexists _, _|].
      match goal with |- context [Branch.UpdateHash hs ?X] =>
        destruct (returning_Branch_UpdateHash_total false X) as [b' Hb'] end.
      { pose proof (Delete_sound c (setChild i e1 (mkBranch h cs)) _ Hset
                      (Branch_Delete_held c i e1 _ Hi
                         (setChild_lookup i (Some e) e1 (mkBranch h cs) He))) as Hd.
        by apply soundBranch_true in Hd as (_ & _ & Hd). }
      by exists false, b'.
    * destruct (returning_Branch_UpdateHash_total false (setChild i e1 (mkBranch h cs)))
        as [b' Hb'].
      { by apply soundBranch_true in Hset as (_ & _ & Hset). }
      by exists false, b'.
Qed.

End DeleteSucceeds.

Lemma Delete_stored_succeeds key mt :
  totalDigest (hs mt) -> soundBranch (root mt) = true -> stored mt key ->
  exists mt', Delete key mt = Ok tt mt'.
Proof.
  intros Hd Hsound [trail Hpath].
  pose proof (branchPath_nonempty _ _ _ Hpath) as Hne.
  unfold Delete. rewrite decide_False by (intros Hlen; destruct key; done).
  pose proof (deleteKeyInBranch_sound (hs mt) (totalDigest_proper _ Hd) (root mt)
                (hex.EncodeToString key) Hsound) as Hafter.
  destruct (proj2 (delete_on_path_succeeds (hs mt) Hd) _ _ _ Hpath Hsound)
    as (sd & b & Hrec).
  rewrite Hrec in Hafter |- *. simpl in Hafter.
  destruct (Branch_UpdateHash_total (hs mt) Hd b) as [r ->].
  { by apply soundBranch_true in Hafter as (_ & _ & Hafter). }
  simpl. by eexists.
Qed.

(** ** Every child sits in the slot of its first character *)

Lemma placedFrom_lookup keyed i0 (cs : list (option nodeExtension)) :
  placedFrom keyed i0 cs = true <->
  forall j e, cs !! j = Some (Some e) -> placedAt (i0 + j) e = true /\ keyed e = true.
Proof.
  revert i0. induction cs as [|[x|] cs IH]; intros i0; simpl.
  - split; [|done]. intros _ j e He. by destruct j.
  - rewrite !andb_true_iff, IH. split.
    + intros [[Hp Hk] Hcs] [|j] e He; simpl in He.
      * injection He as <-. by rewrite Nat.add_0_r.
      * replace (i0 + S j) with (S i0 + j) by lia. by apply Hcs.
    + intros H. split.
      * specialize (H 0 x eq_refl). by rewrite Nat.add_0_r in H.
      * intros j e He. replace (S i0 + j) with (i0 + S j) by lia. by apply (H (S j)).
  - rewrite IH. split.
    + intros Hcs [|j] e He; simpl in He; [done|].
      replace (i0 + S j) with (S i0 + j) by lia. by apply Hcs.
    + intros H j e He. replace (S i0 + j) with (i0 + S j) by lia. by apply (H (S j)).
Qed.

Lemma keyedBranch_true b :
  keyedBranch b = true <->
  forall i e, Branch.ListChildren b !! i = Some (Some e) ->
              placedAt i e = true /\ keyedExtension e = true.
Proof. unfold keyedBranch. by rewrite placedFrom_lookup. Qed.

Lemma keyedExtension_true e :
  keyedExtension e = true <->
  Extension.Key e <> [] /\ keyedNode (Extension.Next e) = true.
Proof.
  destruct e as [h k [|n|[h' cs]] v]; simpl;
    rewrite andb_true_iff, negb_true_iff, bool_decide_eq_false; done.
Qed.

Lemma placedAt_true i e :
  placedAt i e = true <->
  exists c, Extension.Key e !! 0 = Some c /\ toChildIndex c = Val i.
Proof.
  unfold placedAt. destruct (Extension.Key e) as [|c k]; simpl.
  - split; [done|]. by intros (c & Hc & _).
  - destruct (toChildIndex c) as [j| |] eqn:Hj.
    + rewrite bool_decide_eq_true. split.
      * intros ->. by exists c.
      * intros (c' & [= <-] & Hi). congruence.
    + split; [done|]. intros (c' & [= <-] & Hi). congruence.
    + split; [done|]. intros (c' & [= <-] & Hi). congruence.
Qed.

Lemma placedAt_head i e e' :
  Extension.Key e' !! 0 = Extension.Key e !! 0 -> placedAt i e = true -> placedAt i e' = true.
Proof.
  intros Hk. rewrite !placedAt_true. intros (c & Hc & Hi). exists c. by rewrite Hk.
Qed.

Lemma keyedBranch_setHash r b : keyedBranch (Branch.setHash r b) = keyedBranch b.
Proof. by destruct b. Qed.

Lemma keyedBranch_insert i c b :
  keyedBranch b = true ->
  (forall e, c = Some e -> placedAt i e = true /\ keyedExtension e = true) ->
  keyedBranch (Branch.setChildren (<[i := c]> (Branch.ListChildren b)) b) = true.
Proof.
  rewrite !keyedBranch_true. intros Hb Hc j e. destruct b as [h cs]. simpl.
  destruct (decide (i = j)) as [->|Hij].
  - intros He. apply Hc.
    destruct (decide (j < length cs)) as [Hlt|Hge].
    + rewrite list_lookup_insert_eq in He by done. by injection He.
    + rewrite lookup_ge_None_2 in He; [done|]. rewrite length_insert. lia.
  - rewrite list_lookup_insert_ne by done. apply Hb.
Qed.

Lemma keyedBranch_empty h : keyedBranch (mkBranch h (replicate ChildIndexCount None)) = true.
Proof. reflexivity. Qed.

Lemma take_head {A} (l : list A) n : 1 <= n -> take n l !! 0 = l !! 0.
Proof. intros Hn. apply lookup_take_lt. lia. Qed.

Lemma app_head {A} (k l : list A) : k <> [] -> (k ++ l) !! 0 = k !! 0.
Proof. by destruct k. Qed.

Lemma drop_nonempty {A} (l : list A) n : n < length l -> drop n l <> [].
Proof.
  intros Hn Hnil. apply (f_equal length) in Hnil. rewrite length_drop in Hnil.
  simpl in Hnil. lia.
Qed.

Section Keyed.

Variable hs : crypto_Hash.

Lemma NewNodeExtension_keyed key n v e :
  NewNodeExtension key n v hs = Val e -> key <> [] -> keyedNode n = true ->
  keyedExtension e = true.
Proof.
  intros He Hk Hn. destruct (NewNodeExtension_fields _ _ _ _ _ He) as (Hke & Hne & _).
  apply keyedExtension_true. by rewrite Hke, Hne.
Qed.

Lemma NewNodeBranchWithChildren_keyed a b n :
  NewNodeBranchWithChildren a b hs = Val n ->
  keyedExtension a = true -> keyedExtension b = true -> keyedBranch n = true.
Proof.
  intros Hn Ha Hb.
  destruct (NewNodeBranchWithChildren_Val _ _ _ _ Hn)
    as (ca & cb & ia & ib & u & Hca & Hcb & _ & Hia & Hib & Hu).
  apply Branch_UpdateHash_Ok in Hu as (s & r & _ & _ & ->).
  rewrite keyedBranch_setHash.
  apply (keyedBranch_insert ib (Some b)
           (mkBranch [] (<[ia := Some a]> (replicate ChildIndexCount None)))).
  - apply (keyedBranch_insert ia (Some a) (mkBranch [] (replicate ChildIndexCount None)));
      [apply keyedBranch_empty|].
    intros e [= <-]. split; [|done]. apply placedAt_true. by exists ca.
  - intros e [= <-]. split; [|done]. apply placedAt_true. by exists cb.
Qed.

Lemma Extension_UpdateHash_keyed e u e' :
  Extension.UpdateHash hs e = Ok u e' ->
  Extension.Key e' = Extension.Key e /\ keyedExtension e' = keyedExtension e.
Proof.
  intros Hu. apply Extension_UpdateHash_Ok in Hu as (s & r & _ & _ & ->). by destruct e.
Qed.

Lemma Branch_UpdateHash_keyed b u b' :
  Branch.UpdateHash hs b = Ok u b' -> keyedBranch b' = keyedBranch b.
Proof.
  intros Hu. apply Branch_UpdateHash_Ok in Hu as (s & r & _ & _ & ->).
  apply keyedBranch_setHash.
Qed.

Lemma insertToExtension_keyed_from key vo e u e' :
  match Extension.Next e with
  | NilNode => True
  | ExtensionNode n =>
      forall key u n', keyedExtension n = true ->
        insertToExtension hs key vo n = Ok u n' -> keptHead n n'
  | BranchNode b =>
      forall key u b', keyedBranch b = true ->
        insertToBranch hs key vo b = Ok u b' -> keyedBranch b' = true
  end ->
  keyedExtension e = true ->
  insertToExtension hs key vo e = Ok u e' -> keptHead e e'.
Proof.
  intros IH He. apply keyedExtension_true in He as [Hknil Hnext].
  assert (forall X,
            Extension.Key X <> [] -> keyedNode (Extension.Next X) = true ->
            Extension.Key X !! 0 = Extension.Key e !! 0 ->
            Extension.UpdateHash hs X = Ok u e' -> keptHead e e') as Hfresh.
  { intros X HX Hn Hhead Hu. apply Extension_UpdateHash_keyed in Hu as [Hk Hkeyed].
    split; [|by rewrite Hk]. rewrite Hkeyed. by apply keyedExtension_true. }
  destruct e as [h k n v]. simpl in IH, Hnext, Hknil, Hfresh. simpl insertToExtension.
  destruct (decide (key = k)) as [->|Hne].
  { destruct v as [v|]; [done|]. simpl. by apply Hfresh. }
  destruct (commonPrefix k key) as [prefix| |] eqn:Hprefix; [|done|done].
  destruct (decide (prefix = k)) as [->|Hpk].
  - destruct (commonPrefix_whole _ _ Hprefix) as [_ Hkey].
    set (keyTail := drop (length k) key) in *.
    assert (keyTail <> []) as Htail.
    { intros Hnil. rewrite Hnil, app_nil_r in Hkey. done. }
    destruct n as [|next|next].
    + intros Hins. apply try_Ok in Hins as (t & Ht & Hu).
      apply Hfresh in Hu; try done. simpl. by eapply NewNodeExtension_keyed.
    + intros Hins.
      apply try_Ok in Hins as (c & Hc & Hins). apply try_Ok in Hins as (cn & Hcn & Hins).
      destruct (decide (c = cn)) as [->|Hccn].
      * destruct (insertToExtension hs keyTail vo next) as [u' next'|err next'|] eqn:Hrec;
          [|done|done].
        apply Hfresh in Hins; try done. simpl. by destruct (IH _ _ _ Hnext Hrec).
      * apply try_Ok in Hins as (t & Ht & Hins). apply try_Ok in Hins as (nb & Hnb & Hu).
        apply Hfresh in Hu; try done. simpl.
        eapply NewNodeBranchWithChildren_keyed; [exact Hnb|done|].
        by eapply NewNodeExtension_keyed.
    + intros Hins.
      destruct (insertToBranch hs keyTail vo next) as [u' next'|err next'|] eqn:Hrec;
        [|done|done].
      apply Hfresh in Hins; try done. simpl. by eapply IH.
  - destruct (commonPrefix_Val _ _ _ Hprefix)
      as (m & Hm1 & Hmk & Hmkey & Hpk' & Hpkey & Hmax).
    assert (length prefix = m) as Hlen by (rewrite Hpk', length_take; lia).
    assert (m <> length k) as Hmk'.
    { intros ->. apply Hpk. by rewrite Hpk', take_ge. }
    assert (prefix !! 0 = k !! 0) as Hhead by (rewrite Hpk'; by apply take_head).
    destruct (decide (prefix = key)) as [->|Hpkey'].
    + intros Hins. apply try_Ok in Hins as (t & Ht & Hins).
      apply try_Ok in Hins as (node' & Hnode' & Hu).
      apply SetKey_Val in Hnode' as [Hpnil ->].
      apply Hfresh in Hu; try done. simpl.
      eapply NewNodeExtension_keyed; [exact Ht| |done].
      rewrite Hlen. apply drop_nonempty. lia.
    + assert (m <> length key) as Hmkey'.
      { intros ->. apply Hpkey'. by rewrite Hpkey, take_ge. }
      intros Hins. apply try_Ok in Hins as (t1 & Ht1 & Hins).
      apply try_Ok in Hins as (t2 & Ht2 & Hins).
      apply try_Ok in Hins as (nb & Hnb & Hins).
      apply try_Ok in Hins as (node' & Hnode' & Hu).
      apply SetKey_Val in Hnode' as [Hpnil ->].
      apply Hfresh in Hu; try done. simpl.
      eapply NewNodeBranchWithChildren_keyed; [exact Hnb| |].
      * eapply NewNodeExtension_keyed; [exact Ht1| |done].
        rewrite Hlen. apply drop_nonempty. lia.
      * eapply NewNodeExtension_keyed; [exact Ht2| |done].
        rewrite Hlen. apply drop_nonempty. lia.
Qed.

Lemma insertToBranch_keyed_from key vo b u b' :
  (forall i e, Branch.ListChildren b !! i = Some (Some e) ->
     forall key u e', keyedExtension e = true ->
       insertToExtension hs key vo e = Ok u e' -> keptHead e e') ->
  keyedBranch b = true ->
  insertToBranch hs key vo b = Ok u b' -> keyedBranch b' = true.
Proof.
  intros IH Hb. pose proof (proj1 (keyedBranch_true b) Hb) as Hcs.
  destruct b as [h cs]. simpl in IH, Hcs. simpl insertToBranch.
  intros Hins.
  apply try_Ok in Hins as (c & Hc & Hins). apply try_Ok in Hins as (i & Hi & Hins).
  apply index_Val in Hc.
  rewrite atChild_lookup in Hins.
  destruct (cs !! i) as [[e|]|] eqn:He; [| |done].
  - destruct (insertToExtension hs key vo e) as [u' e1|err e1|] eqn:Hrec; [|done|done].
    rewrite (Branch_UpdateHash_keyed _ _ _ Hins).
    destruct (Hcs i e He) as [Hplaced Hkeyed].
    destruct (IH i e He _ _ _ Hkeyed Hrec) as [Hkeyed1 Hhead].
    apply (keyedBranch_insert i (Some e1) (mkBranch h cs)); [done|].
    intros e2 [= <-]. split; [|done]. by eapply placedAt_head.
  - apply try_Ok in Hins as (n & Hn & Hins). apply try_Ok in Hins as (b2 & Hb2 & Hu).
    rewrite (Branch_UpdateHash_keyed _ _ _ Hu).
    destruct (NewNodeExtension_fields _ _ _ _ _ Hn) as (Hkn & _ & _).
    apply Branch_Append_Val in Hb2 as (c' & i' & Hc' & Hi' & _ & ->).
    apply (keyedBranch_insert i' (Some n) (mkBranch h cs)); [done|].
    intros e2 [= <-]. split; [apply placedAt_true; by exists c'|].
    eapply NewNodeExtension_keyed; [exact Hn| |done]. intros ->. done.
Qed.

Lemma insert_keyed :
  (forall e key vo u e', keyedExtension e = true ->
     insertToExtension hs key vo e = Ok u e' -> keptHead e e') /\
  (forall b key vo u b', keyedBranch b = true ->
     insertToBranch hs key vo b = Ok u b' -> keyedBranch b' = true).
Proof.
  apply (node_mutual_induction
           (fun e => forall key vo u e', keyedExtension e = true ->
              insertToExtension hs key vo e = Ok u e' -> keptHead e e')
           (fun b => forall key vo u b', keyedBranch b = true ->
              insertToBranch hs key vo b = Ok u b' -> keyedBranch b' = true)).
  - intros e IH key vo u e'. apply insertToExtension_keyed_from.
    destruct (Extension.Next e); [done| |]; intros; by eapply IH.
  - intros b IH key vo u b'. apply insertToBranch_keyed_from.
    intros i e He key' u' e'. by eapply IH.
Qed.

Lemma First_keyed b e :
  keyedBranch b = true -> Branch.First b = Some e -> keyedExtension e = true.
Proof.
  intros Hb He. apply firstFrom_lookup in He as [i He].
  by destruct (proj1 (keyedBranch_true b) Hb i e He).
Qed.

Lemma deleteKeyInExtension_keyed_from key e sd e' :
  match Extension.Next e with
  | NilNode => True
  | ExtensionNode n =>
      forall key n', keyedExtension n = true ->
        deleteKeyInExtension hs key n = Ok false n' -> keptHead n n'
  | BranchNode b =>
      forall key sd b', keyedBranch b = true ->
        deleteKeyInBranch hs key b = Ok sd b' -> keyedBranch b' = true
  end ->
  keyedExtension e = true ->
  deleteKeyInExtension hs key e = Ok sd e' -> sd = false -> keptHead e e'.
Proof.
  intros IH He. apply keyedExtension_true in He as [Hknil Hnext].
  assert (forall X sd',
            Extension.Key X <> [] -> keyedNode (Extension.Next X) = true ->
            Extension.Key X !! 0 = Extension.Key e !! 0 ->
            returning sd' (Extension.UpdateHash hs X) = Ok sd e' -> keptHead e e')
    as Hfresh.
  { intros X sd' HX Hn Hhead Hr. apply returning_Ok in Hr as [u Hu].
    apply Extension_UpdateHash_keyed in Hu as [Hk Hkeyed].
    split; [|by rewrite Hk]. rewrite Hkeyed. by apply keyedExtension_true. }
  destruct e as [h k n v]. simpl in IH, Hnext, Hknil, Hfresh. simpl deleteKeyInExtension.
  destruct (decide (key = k)) as [->|Hne].
  { destruct v as [v|]; [|done]. simpl.
    destruct n as [|next|next].
    - by intros [= <- <-].
    - intros Hdel _. apply try_Ok in Hdel as (node' & Hnode' & Hr).
      apply SetKey_Val in Hnode' as [Hnil ->].
      apply Hfresh in Hr; try done; simpl.
      + simpl in Hnext. by apply keyedExtension_true in Hnext as [_ Hnext].
      + by apply app_head.
    - intros Hr _. by apply Hfresh in Hr. }
  destruct (commonPrefix k key) as [prefix| |] eqn:Hprefix; [|done|done].
  destruct (decide (prefix = key)); [done|].
  destruct (bool_decide (prefix = k)) eqn:Hk; [|done]. simpl.
  set (keyTail := drop (length prefix) key) in *.
  destruct n as [|next|next]; [done| |].
  - intros Hdel Hsd.
    apply try_Ok in Hdel as (c & _ & Hdel). apply try_Ok in Hdel as (cn & _ & Hdel).
    destruct (negb (bool_decide (c = cn))); [done|].
    destruct (deleteKeyInExtension hs keyTail next) as [[|] next'|err next'|] eqn:Hrec;
      [| |done|done].
    + simpl in Hdel. destruct v; simpl in Hdel.
      * by apply Hfresh in Hdel.
      * injection Hdel as <- <-. done.
    + apply Hfresh in Hdel; try done. simpl. by destruct (IH _ _ Hnext Hrec).
  - intros Hdel Hsd.
    destruct (deleteKeyInBranch hs keyTail next) as [[|] next'|err next'|] eqn:Hrec;
      [| |done|done].
    + pose proof (IH _ _ _ Hnext Hrec) as Hnext'.
      simpl in Hdel. destruct v; simpl in Hdel.
      * apply Hfresh in Hdel; try done. simpl.
        destruct (Branch.First next') as [nn|] eqn:Hfirst; [|done]. simpl.
        by eapply First_keyed.
      * destruct (Branch.First next') as [nn|] eqn:Hfirst; [|done].
        apply try_Ok in Hdel as (node' & Hnode' & Hr).
        apply SetKey_Val in Hnode' as [Hnil ->].
        apply Hfresh in Hr; try done; simpl.
        -- pose proof (First_keyed _ _ Hnext' Hfirst) as Hnn.
           by apply keyedExtension_true in Hnn as [_ Hnn].
        -- by apply app_head.
    + apply Hfresh in Hdel; try done. simpl. by eapply IH.
Qed.

Lemma deleteKeyInBranch_keyed_from key b sd b' :
  (forall i e, Branch.ListChildren b !! i = Some (Some e) ->
     forall key e', keyedExtension e = true ->
       deleteKeyInExtension hs key e = Ok false e' -> keptHead e e') ->
  keyedBranch b = true ->
  deleteKeyInBranch hs key b = Ok sd b' -> keyedBranch b' = true.
Proof.
  intros IH Hb. pose proof (proj1 (keyedBranch_true b) Hb) as Hcs.
  destruct b as [h cs]. simpl in IH, Hcs. simpl deleteKeyInBranch.
  intros Hdel.
  apply try_Ok in Hdel as (c & Hc & Hdel). apply try_Ok in Hdel as (i & Hi & Hdel).
  rewrite atChild_lookup in Hdel.
  destruct (cs !! i) as [[e|]|] eqn:He; [|done|done].
  destruct (deleteKeyInExtension hs key e) as [[|] e1|err e1|] eqn:Hrec; [| |done|done].
  - apply try_Ok in Hdel as (b2 & Hb2 & Hdel).
    assert (keyedBranch b2 = true) as Hb2k.
    { rewrite (Branch_Delete_held c i e1) in Hb2;
        [|done|by apply (setChild_lookup i (Some e))].
      injection Hb2 as <-. cbn [setChild Branch.setChildren Branch.ListChildren Branch.hash].
      rewrite list_insert_insert_eq.
      by apply (keyedBranch_insert i None (mkBranch h cs)). }
    case_decide.
    + by injection Hdel as <- <-.
    + apply returning_Ok in Hdel as [u Hu]. by rewrite (Branch_UpdateHash_keyed _ _ _ Hu).
  - apply returning_Ok in Hdel as [u Hu]. rewrite (Branch_UpdateHash_keyed _ _ _ Hu).
    destruct (Hcs i e He) as [Hplaced Hkeyed].
    destruct (IH i e He _ _ Hkeyed Hrec) as [Hkeyed1 Hhead].
    apply (keyedBranch_insert i (Some e1) (mkBranch h cs)); [done|].
    intros e2 [= <-]. split; [|done]. by eapply placedAt_head.
Qed.

Lemma delete_keyed :
  (forall e key e', keyedExtension e = true ->
     deleteKeyInExtension hs key e = Ok false e' -> keptHead e e') /\
  (forall b key sd b', keyedBranch b = true ->
     deleteKeyInBranch hs key b = Ok sd b' -> keyedBranch b' = true).
Proof.
  apply (node_mutual_induction
           (fun e => forall key e', keyedExtension e = true ->
              deleteKeyInExtension hs key e = Ok false e' -> keptHead e e')
           (fun b => forall key sd b', keyedBranch b = true ->
              deleteKeyInBranch hs key b = Ok sd b' -> keyedBranch b' = true)).
  - intros e IH key e' He Hdel.
    eapply deleteKeyInExtension_keyed_from; [|exact He|exact Hdel|done].
    destruct (Extension.Next e); [done| |]; intros; by eapply IH.
  - intros b IH key sd b'. apply deleteKeyInBranch_keyed_from.
    intros i e He key' e'. by eapply IH.
Qed.

End Keyed.

Lemma built_keyed digest mt : built digest mt -> keyedBranch (root mt) = true.
Proof.
  induction 1 as [mt Hnew|mt key value u mt' _ IH Hins|mt key u mt' _ IH Hdel].
  - unfold NewMerklePatriciaTrie in Hnew.
    destruct (Branch.UpdateHash digest NewNodeBranch) as [u b| |] eqn:Hu; [|done|done].
    injection Hnew as <-. simpl. by rewrite (Branch_UpdateHash_keyed _ _ _ _ Hu).
  - unfold Insert in Hins. case_decide; [done|].
    destruct (insertToBranch _ _ _ _) as [u' b|err b|] eqn:Hrec; [|done|done].
    destruct (Branch.UpdateHash (hs mt) b) as [u'' b'| |] eqn:Hu; [|done|done].
    simpl in Hins. injection Hins as _ <-. simpl.
    rewrite (Branch_UpdateHash_keyed _ _ _ _ Hu).
    by eapply (proj2 (insert_keyed (hs mt))).
  - unfold Delete in Hdel. case_decide; [done|].
    destruct (deleteKeyInBranch _ _ _) as [sd b|err b|] eqn:Hrec; [|done|done].
    destruct (Branch.UpdateHash (hs mt) b) as [u'' b'| |] eqn:Hu; [|done|done].
    simpl in Hdel. injection Hdel as _ <-. simpl.
    rewrite (Branch_UpdateHash_keyed _ _ _ _ Hu).
    by eapply (proj2 (delete_keyed (hs mt))).
Qed.

(** ** The worked cases of the further properties *)

Lemma sha256Hash_unfailing : unfailingDigest sha256Hash.
Proof. intros s e. discriminate. Qed.

Lemma sha256Hash_total : totalDigest sha256Hash.
Proof. intros s. eexists. split; [reflexivity|]. by eapply sha256Hash_proper. Qed.

Lemma Insert_Err_by_root key value mt e b :
  rootOf (Insert key value mt) = Err e b -> Insert key value mt = Err e (mkTrie (hs mt) b).
Proof.
  unfold Insert. case_decide.
  { simpl. intros [= <- <-]. by rewrite trie_eta. }
  destruct (insertToBranch _ _ _ _); [|simpl; congruence|done].
  destruct (Branch.UpdateHash _ _); simpl; congruence.
Qed.

Lemma Delete_Err_by_root key mt e b :
  rootOf (Delete key mt) = Err e b -> Delete key mt = Err e (mkTrie (hs mt) b).
Proof.
  unfold Delete. case_decide.
  { simpl. intros [= <- <-]. by rewrite trie_eta. }
  destruct (deleteKeyInBranch _ _ _); [|simpl; congruence|done].
  destruct (Branch.UpdateHash _ _); simpl; congruence.
Qed.

Lemma FindMerklePath_by_path key mt path b :
  rootOf (FindMerklePath key mt) = Ok path b -> FindMerklePath key mt = Ok path mt.
Proof.
  pose proof (FindMerklePath_reads mt key) as Hsame.
  destruct (FindMerklePath key mt); simpl in *; [|done|done]. intros [= <- _]. by subst.
Qed.

Lemma FindMerklePath_by_error key mt e b :
  rootOf (FindMerklePath key mt) = Err e b -> FindMerklePath key mt = Err e mt.
Proof.
  pose proof (FindMerklePath_reads mt key) as Hsame.
  destruct (FindMerklePath key mt); simpl in *; [done| |done]. intros [= <- _]. by subst.
Qed.

Lemma emptyTrie_new : NewMerklePatriciaTrie sha256Hash = Val emptyTrie.
Proof. apply NewMerklePatriciaTrie_by_root. vm_compute. reflexivity. Qed.

Lemma emptyTrie_insert_key : Insert tests_key value5 emptyTrie = Ok tt keyTrie.
Proof. apply (Insert_by_root tests_key value5 emptyTrie tt keyRoot). vm_compute. reflexivity. Qed.

Lemma keyTrie_insert_other :
  Insert tests_key (str "other") keyTrie = Err (ErrKeyExists (str "6b6579")) keyTrie.
Proof.
  apply (Insert_Err_by_root tests_key (str "other") keyTrie _ keyRoot).
  vm_compute. reflexivity.
Qed.

Lemma keyTrie_insert_k : Insert key_k value5 keyTrie = Ok tt keyAndKTrie.
Proof. apply (Insert_by_root key_k value5 keyTrie tt keyAndKRoot). vm_compute. reflexivity. Qed.

Lemma keyAndKTrie_delete_k : Delete key_k keyAndKTrie = Ok tt keyTrie.
Proof. apply (Delete_by_root key_k keyAndKTrie tt keyRoot). vm_compute. reflexivity. Qed.

Lemma keyTrie_delete_key : Delete tests_key keyTrie = Ok tt emptyTrie.
Proof. apply (Delete_by_root tests_key keyTrie tt emptyRoot). vm_compute. reflexivity. Qed.

Lemma keyTrie_delete_k :
  Delete key_k keyTrie = Err (ErrWrap "failed to delete key" ErrValueObjectNotFound) keyTrie.
Proof. apply (Delete_Err_by_root key_k keyTrie _ keyRoot). vm_compute. reflexivity. Qed.

Lemma keyTrie_find_key : FindMerklePath tests_key keyTrie = Ok keyPath keyTrie.
Proof. apply (FindMerklePath_by_path tests_key keyTrie keyPath keyRoot). vm_compute. reflexivity. Qed.

Lemma keyTrie_find_k : FindMerklePath key_k keyTrie = Err ErrValueObjectNotFound keyTrie.
Proof. apply (FindMerklePath_by_error key_k keyTrie _ keyRoot). vm_compute. reflexivity. Qed.

Lemma keyTrie_stored : stored keyTrie tests_key.
Proof. destruct keyTrie_path as [e He]. eexists. exact He. Qed.

Lemma keyAndKTrie_reachable : reachable sha256Hash keyAndKTrie.
Proof.
  eapply reach_insert; [exact keyTrie_reachable|]. by rewrite keyTrie_insert_k.
Qed.

Lemma keyTrie_again_reachable : reachable sha256Hash keyTrie.
Proof.
  eapply reach_delete; [exact keyAndKTrie_reachable|]. by rewrite keyAndKTrie_delete_k.
Qed.

Lemma branch_1b_new : NewNodeBranchWithChildren leaf_1 leaf_b sha256Hash = Val branch_1b.
Proof. vm_compute. reflexivity. Qed.

Lemma path_keyed :
  (forall e key trail, extensionPath e key trail -> keyedExtension e = true ->
     Forall keyedVisit trail) /\
  (forall b key trail, branchPath b key trail -> keyedBranch b = true ->
     Forall keyedVisit trail).
Proof.
  apply extensionPath_branchPath_mutind.
  - intros e key v _ _ He. by apply Forall_singleton.
  - intros e n tail trail _ _ Hn _ IH He. apply Forall_app. split.
    + apply IH. apply keyedExtension_true in He as [_ He]. by rewrite Hn in He.
    + by apply Forall_singleton.
  - intros e b tail trail _ Hn _ IH He. apply Forall_app. split.
    + apply IH. apply keyedExtension_true in He as [_ He]. by rewrite Hn in He.
    + by apply Forall_singleton.
  - intros b c i e key trail _ _ He _ IH Hb. apply Forall_app. split.
    + apply IH. by destruct (proj1 (keyedBranch_true b) Hb i e He).
    + by apply Forall_singleton.
Qed.

Lemma keyedBranch_low_slots b i e :
  keyedBranch b = true -> Branch.ListChildren b !! i = Some (Some e) ->
  i < 10 /\ exists c, Extension.Key e !! 0 = Some c /\ toChildIndex c = Val i.
Proof.
  intros Hb He. destruct (proj1 (keyedBranch_true b) Hb i e He) as [Hp _].
  apply placedAt_true in Hp as (c & Hc & Hi). split; [|by exists c].
  by destruct (toChildIndex_Val _ _ Hi).
Qed.

Lemma Insert_on_stored key value mt :
  stored mt key -> exists tail, Insert key value mt = Err (ErrKeyExists tail) mt.
Proof.
  intros [trail Hpath].
  destruct (proj2 (insert_on_path (hs mt)) _ _ _ Hpath (NewValueObject value))
    as [tail Hdup].
  exists tail. unfold Insert.
  pose proof (branchPath_nonempty _ _ _ Hpath) as Hne.
  rewrite decide_False by (intros Hlen; destruct key; done).
  rewrite Hdup. by rewrite trie_eta.
Qed.

Lemma reachable_consistent digest mt :
  unfailingDigest digest -> reachable digest mt ->
  consistentBranch digest (root mt) /\ hs mt = digest.
Proof. intros Hd Hr. apply built_consistent. by apply reachable_built. Qed.


(** ** Delete keeps the other keys *)

Lemma leafValue_app_inv trail v vo :
  trail <> [] -> leafValue (trail ++ [v]) = Some vo -> leafValue trail = Some vo.
Proof. by destruct trail. Qed.

Lemma holdsE_inv e key vo :
  holdsE e key vo ->
  (key = Extension.Key e /\ Extension.ValueObject e = Some vo) \/
  (exists n tail, Extension.Key e <> [] /\ tail <> [] /\
                  Extension.Next e = ExtensionNode n /\
                  key = Extension.Key e ++ tail /\ holdsE n tail vo) \/
  (exists b tail, Extension.Key e <> [] /\ Extension.Next e = BranchNode b /\
                  key = Extension.Key e ++ tail /\ holdsB b tail vo).
Proof.
  intros (trail & Hpath & Hleaf).
  inversion Hpath as [e0 key0 v Hk Hv|e0 n tail trail0 Hk Ht Hn Hp|e0 b tail trail0 Hk Hn Hp];
    subst.
  - left. simpl in Hleaf. done.
  - right. left. exists n, tail. repeat split; try done. exists trail0. split; [done|].
    apply leafValue_app_inv in Hleaf; [done|]. by eapply extensionPath_trail.
  - right. right. exists b, tail. repeat split; try done. exists trail0. split; [done|].
    apply leafValue_app_inv in Hleaf; [done|].
    apply branchPath_trail in Hp. intros ->. simpl in Hp. lia.
Qed.

Lemma holdsB_inv b key vo :
  holdsB b key vo ->
  exists c i e, key !! 0 = Some c /\ toChildIndex c = Val i /\
                Branch.ListChildren b !! i = Some (Some e) /\ holdsE e key vo.
Proof.
  intros (trail & Hpath & Hleaf).
  inversion Hpath as [b0 c i e key0 trail0 Hc Hi He Hp]; subst.
  exists c, i, e. repeat split; try done. exists trail0. split; [done|].
  apply leafValue_app_inv in Hleaf; [done|]. by eapply extensionPath_trail.
Qed.

Lemma holdsE_fields e e' key vo :
  Extension.Key e' = Extension.Key e -> Extension.Next e' = Extension.Next e ->
  Extension.ValueObject e' = Extension.ValueObject e ->
  holdsE e key vo -> holdsE e' key vo.
Proof.
  intros Hk Hn Hv H. apply holdsE_inv in H as [[-> Hvo]|[H|H]].
  - rewrite <- Hk. apply holdsE_here. by rewrite Hv.
  - destruct H as (n & tail & Hknil & Ht & Hnext & -> & Hn').
    rewrite <- Hk. apply (holdsE_next e' n); try done; congruence.
  - destruct H as (b & tail & Hknil & Hnext & -> & Hb).
    rewrite <- Hk. apply (holdsE_branch e' b); try done; congruence.
Qed.

(** The node that absorbs [n]: its key is [k] followed by the key of [n],
    its next and value are those of [n]. *)
Lemma holdsE_absorb e n k tail vo :
  k <> [] ->
  Extension.Key e = k ++ Extension.Key n -> Extension.Next e = Extension.Next n ->
  Extension.ValueObject e = Extension.ValueObject n ->
  holdsE n tail vo -> holdsE e (k ++ tail) vo.
Proof.
  intros Hknil Hk Hn Hv H.
  assert (Extension.Key e <> []) as Henil by (rewrite Hk; by destruct k).
  apply holdsE_inv in H as [[-> Hvo]|[H|H]].
  - rewrite <- Hk. apply holdsE_here. by rewrite Hv.
  - destruct H as (n' & tail' & _ & Ht & Hnext & -> & Hn').
    rewrite app_assoc, <- Hk. apply (holdsE_next e n'); try done; congruence.
  - destruct H as (b & tail' & _ & Hnext & -> & Hb).
    rewrite app_assoc, <- Hk. apply (holdsE_branch e b); try done; congruence.
Qed.

Lemma countFrom_zero (cs : list (option nodeExtension)) i e :
  Branch.countFrom cs 0 = 0 -> cs !! i <> Some (Some e).
Proof.
  revert i. induction cs as [|[x|] cs IH]; intros i Hc; simpl in *.
  - by destruct i.
  - rewrite countFrom_acc in Hc. lia.
  - destruct i as [|i]; [done|]. by apply IH.
Qed.

Lemma sole_child b nn i e :
  Branch.Count b = 1 -> Branch.First b = Some nn ->
  Branch.ListChildren b !! i = Some (Some e) -> e = nn.
Proof.
  destruct b as [h cs]. unfold Branch.Count, Branch.First. simpl.
  revert i. induction cs as [|[x|] cs IH]; intros i Hc Hf He; simpl in *.
  - by destruct i.
  - injection Hf as <-. rewrite countFrom_acc in Hc.
    destruct i as [|i]; simpl in He; [by injection He|].
    exfalso. apply (countFrom_zero cs i e); [lia|done].
  - destruct i as [|i]; simpl in He; [done|]. by eapply IH.
Qed.

Section DeleteKeeps.

Variable hs : crypto_Hash.

Lemma holdsE_UpdateHash X (sd sd' : bool) e' key vo :
  returning sd' (Extension.UpdateHash hs X) = Ok sd e' ->
  holdsE X key vo -> sd = sd' /\ holdsE e' key vo.
Proof.
  intros Hr H. destruct (Extension.UpdateHash hs X) as [u e0| |] eqn:Hu; [|done|done].
  simpl in Hr. injection Hr as <- <-. split; [done|].
  apply Extension_UpdateHash_Ok in Hu as (s & r & _ & _ & ->).
  eapply holdsE_fields; [| | |exact H]; by destruct X.
Qed.

Lemma holdsB_UpdateHash X (sd sd' : bool) b' key vo :
  returning sd' (Branch.UpdateHash hs X) = Ok sd b' ->
  holdsB X key vo -> holdsB b' key vo.
Proof.
  intros Hr H. destruct (Branch.UpdateHash hs X) as [u b0| |] eqn:Hu; [|done|done].
  simpl in Hr. injection Hr as _ <-.
  apply Branch_UpdateHash_Ok in Hu as (s & r & _ & _ & ->). by apply holdsB_setHash.
Qed.

Lemma deleteKeyInExtension_keeps_from key e sd e' other vo :
  match Extension.Next e with
  | NilNode => True
  | ExtensionNode n =>
      forall key sd n' other vo,
        deleteKeyInExtension hs key n = Ok sd n' -> holdsE n other vo -> other <> key ->
        sd = false /\ holdsE n' other vo
  | BranchNode b =>
      forall key sd b' other vo,
        deleteKeyInBranch hs key b = Ok sd b' -> holdsB b other vo -> other <> key ->
        holdsB b' other vo
  end ->
  deleteKeyInExtension hs key e = Ok sd e' -> holdsE e other vo -> other <> key ->
  sd = false /\ holdsE e' other vo.
Proof.
  intros IH Hdel Hother Hne. destruct e as [h k n v]. simpl in IH.
  simpl deleteKeyInExtension in Hdel.
  apply holdsE_inv in Hother. simpl in Hother.
  destruct (decide (key = k)) as [->|Hkey].
  { destruct v as [v|]; [|done]. simpl in Hdel.
    destruct Hother as [[-> _]|Hother]; [done|].
    destruct n as [|next|next].
    - destruct Hother as [(n' & t & _ & _ & Hn & _)|(b & t & _ & Hn & _)]; done.
    - destruct Hother as [(n' & t & Hknil & Ht & [= <-] & -> & Hn')|(b & t & _ & Hn & _)];
        [|done].
      apply try_Ok in Hdel as (node' & Hnode' & Hr).
      apply SetKey_Val in Hnode' as [_ ->]. simpl in Hr.
      eapply holdsE_UpdateHash; [exact Hr|].
      by apply (holdsE_absorb _ next k).
    - eapply holdsE_UpdateHash; [exact Hdel|].
      destruct Hother as [(n' & t & _ & _ & Hn & _)|(b & t & Hknil & [= <-] & -> & Hb)];
        [done|].
      by apply (holdsE_branch (mkExtension h k (BranchNode next) (Some v)) next). }
  destruct (commonPrefix k key) as [prefix| |] eqn:Hprefix; [|done|done].
  destruct (decide (prefix = key)); [done|].
  destruct (bool_decide (prefix = k)) eqn:Hk; [|done]. simpl in Hdel.
  apply bool_decide_eq_true in Hk. subst prefix.
  destruct (commonPrefix_whole _ _ Hprefix) as [Hknil Hkeyeq].
  set (keyTail := drop (length k) key) in *.
  destruct n as [|next|next]; [done| |].
  - apply try_Ok in Hdel as (c & _ & Hdel). apply try_Ok in Hdel as (cn & _ & Hdel).
    destruct (negb (bool_decide (c = cn))); [done|].
    destruct (deleteKeyInExtension hs keyTail next) as [sd' next'|err next'|] eqn:Hrec;
      [|done|done].
    destruct Hother as [[-> Hv]|[(n' & t & _ & Ht & [= <-] & -> & Hn')|(b & t & _ & Hn & _)]];
      [| |done].
    + subst v. destruct sd'; simpl in Hdel.
      * eapply holdsE_UpdateHash; [exact Hdel|].
        by apply (holdsE_here (mkExtension h k NilNode (Some vo))).
      * eapply holdsE_UpdateHash; [exact Hdel|].
        by apply (holdsE_here (mkExtension h k (ExtensionNode next') (Some vo))).
    + assert (t <> keyTail) as Htne.
      { intros Heq. apply Hne. rewrite Heq. exact (eq_sym Hkeyeq). }
      destruct (IH _ _ _ _ _ Hrec Hn' Htne) as [-> Hkept].
      eapply holdsE_UpdateHash; [exact Hdel|].
      by apply (holdsE_next (mkExtension h k (ExtensionNode next') v) next').
  - destruct (deleteKeyInBranch hs keyTail next) as [sd' next'|err next'|] eqn:Hrec;
      [|done|done].
    destruct Hother as [[-> Hv]|[(n' & t & _ & _ & Hn & _)|(b & t & _ & [= <-] & -> & Hb)]];
      [|done|].
    + subst v. destruct sd'; simpl in Hdel.
      * eapply holdsE_UpdateHash; [exact Hdel|].
        by apply (holdsE_here (mkExtension h k (asNode (Branch.First next')) (Some vo))).
      * eapply holdsE_UpdateHash; [exact Hdel|].
        by apply (holdsE_here (mkExtension h k (BranchNode next') (Some vo))).
    + assert (t <> keyTail) as Htne.
      { intros Heq. apply Hne. rewrite Heq. exact (eq_sym Hkeyeq). }
      pose proof (IH _ _ _ _ _ Hrec Hb Htne) as Hkept.
      destruct sd'.
      * pose proof (deleteKeyInBranch_collapse _ _ _ _ Hrec) as Hcount.
        apply holdsB_inv in Hkept as (c2 & i2 & e2 & Hc2 & Hi2 & He2 & Hheld).
        assert (t <> []) as Htnil by (intros ->; done).
        simpl in Hdel. destruct v as [v|]; simpl in Hdel.
        -- destruct (Branch.First next') as [nn|] eqn:Hfirst.
           ++ pose proof (sole_child _ _ _ _ Hcount Hfirst He2) as ->.
              eapply holdsE_UpdateHash; [exact Hdel|].
              by apply (holdsE_next (mkExtension h k (ExtensionNode nn) (Some v)) nn).
           ++ apply firstFrom_None in Hfirst. unfold Branch.Count in Hcount. lia.
        -- destruct (Branch.First next') as [nn|] eqn:Hfirst; [|done].
           pose proof (sole_child _ _ _ _ Hcount Hfirst He2) as ->.
           apply try_Ok in Hdel as (node' & Hnode' & Hr).
           apply SetKey_Val in Hnode' as [_ ->]. simpl in Hr.
           eapply holdsE_UpdateHash; [exact Hr|].
           by apply (holdsE_absorb _ nn k).
      * eapply holdsE_UpdateHash; [exact Hdel|].
        by apply (holdsE_branch (mkExtension h k (BranchNode next') v) next').
Qed.

Lemma deleteKeyInBranch_keeps_from key b sd b' other vo :
  (forall i e, Branch.ListChildren b !! i = Some (Some e) ->
     forall key sd e' other vo,
       deleteKeyInExtension hs key e = Ok sd e' -> holdsE e other vo -> other <> key ->
       sd = false /\ holdsE e' other vo) ->
  deleteKeyInBranch hs key b = Ok sd b' -> holdsB b other vo -> other <> key ->
  holdsB b' other vo.
Proof.
  intros IH Hdel Hother Hne. destruct b as [h cs]. simpl in IH.
  simpl deleteKeyInBranch in Hdel.
  apply holdsB_inv in Hother as (c2 & i2 & e2 & Hc2 & Hi2 & He2 & Hheld). simpl in He2.
  apply try_Ok in Hdel as (c & Hc & Hdel). apply try_Ok in Hdel as (i & Hi & Hdel).
  rewrite atChild_lookup in Hdel.
  destruct (cs !! i) as [[e|]|] eqn:He; [|done|done].
  destruct (deleteKeyInExtension hs key e) as [sd' e1|err e1|] eqn:Hrec; [|done|done].
  destruct (decide (i2 = i)) as [->|Hi2i].
  - rewrite He in He2. injection He2 as <-.
    destruct (IH i e He _ _ _ _ _ Hrec Hheld Hne) as [-> Hkept].
    eapply holdsB_UpdateHash; [exact Hdel|].
    apply (holdsB_child _ c2 i e1); try done.
    by apply (setChild_lookup i (Some e)).
  - assert (forall X, Branch.ListChildren X !! i2 = Some (Some e2) -> holdsB X other vo)
      as Hstill.
    { intros X HX. by apply (holdsB_child _ c2 i2 e2). }
    destruct sd'.
    + apply try_Ok in Hdel as (b2 & Hb2 & Hdel).
      rewrite (Branch_Delete_held c i e1) in Hb2;
        [|done|by apply (setChild_lookup i (Some e))].
      injection Hb2 as <-.
      assert (holdsB (Branch.setChildren
                        (<[i := None]> (Branch.ListChildren (setChild i e1 (mkBranch h cs))))
                        (setChild i e1 (mkBranch h cs))) other vo) as Hb2.
      { apply Hstill. simpl. by rewrite !list_lookup_insert_ne. }
      case_decide.
      * by injection Hdel as _ <-.
      * by eapply holdsB_UpdateHash; [exact Hdel|].
    + eapply holdsB_UpdateHash; [exact Hdel|].
      apply Hstill. simpl. by rewrite list_lookup_insert_ne.
Qed.

Lemma delete_keeps :
  (forall e key sd e' other vo,
     deleteKeyInExtension hs key e = Ok sd e' -> holdsE e other vo -> other <> key ->
     sd = false /\ holdsE e' other vo) /\
  (forall b key sd b' other vo,
     deleteKeyInBranch hs key b = Ok sd b' -> holdsB b other vo -> other <> key ->
     holdsB b' other vo).
Proof.
  apply (node_mutual_induction
           (fun e => forall key sd e' other vo,
              deleteKeyInExtension hs key e = Ok sd e' -> holdsE e other vo ->
              other <> key -> sd = false /\ holdsE e' other vo)
           (fun b => forall key sd b' other vo,
              deleteKeyInBranch hs key b = Ok sd b' -> holdsB b other vo ->
              other <> key -> holdsB b' other vo)).
  - intros e IH key sd e' other vo. apply deleteKeyInExtension_keeps_from.
    destruct (Extension.Next e); [done| |]; intros; by eapply IH.
  - intros b IH key sd b' other vo. apply deleteKeyInBranch_keeps_from.
    intros i e He key' sd' e' other' vo'. by eapply IH.
Qed.

End DeleteKeeps.

Lemma Delete_keeps key mt u mt' other value :
  Delete key mt = Ok u mt' -> storedWith mt other value -> other <> key ->
  storedWith mt' other value.
Proof.
  unfold Delete. case_decide; [done|].
  destruct (deleteKeyInBranch _ _ _) as [sd b|err b|] eqn:Hdel; [|done|done].
  destruct (Branch.UpdateHash (hs mt) b) as [u'' b'| |] eqn:Hu; [|done|done].
  simpl. intros [= _ <-] Hother Hne.
  apply Branch_UpdateHash_Ok in Hu as (s & r & _ & _ & ->).
  unfold storedWith. simpl. apply holdsB_setHash.
  eapply (proj2 (delete_keeps (hs mt))); [exact Hdel|exact Hother|].
  intros Heq. by apply EncodeToString_inj in Heq.
Qed.

(** ** Delete of a key whose Extension is followed by a Branch *)

Lemma leafOf_app trail v leaf :
  trail <> [] -> leafOf (trail ++ [v]) = Some leaf -> leafOf trail = Some leaf.
Proof. by destruct trail. Qed.

Lemma Extension_UpdateHash_same hs e :
  consistentExtension hs e -> Extension.UpdateHash hs e = Ok tt e.
Proof.
  intros Hc. apply consistentExtension_eq in Hc as [(s & Hs & Hd) _].
  unfold Extension.UpdateHash. rewrite Hs, Hd. by destruct e.
Qed.

Lemma Branch_UpdateHash_same hs b :
  consistentBranch hs b -> Branch.UpdateHash hs b = Ok tt b.
Proof.
  intros Hc. apply consistentBranch_eq in Hc as [(s & Hs & Hd) _].
  unfold Branch.UpdateHash. rewrite Hs, Hd. by destruct b.
Qed.

Lemma delete_before_branch hs :
  (forall e key trail, extensionPath e key trail ->
     forall leaf, leafOf trail = Some leaf -> beforeBranch leaf = true ->
     consistentExtension hs e -> deleteKeyInExtension hs key e = Ok false e) /\
  (forall b key trail, branchPath b key trail ->
     forall leaf, leafOf trail = Some leaf -> beforeBranch leaf = true ->
     consistentBranch hs b -> deleteKeyInBranch hs key b = Ok false b).
Proof.
  apply extensionPath_branchPath_mutind.
  - intros e key v -> Hv leaf [= <-] Hleaf Hc.
    pose proof (Extension_UpdateHash_same hs e Hc) as Hu.
    destruct e as [h k n v']. unfold beforeBranch in Hleaf. simpl in *. subst v'.
    rewrite decide_True by done. simpl.
    destruct n as [|next|next]; [done|done|]. by rewrite Hu.
  - intros e n tail trail Hk Ht Hn Hpath IH leaf Hleaf Hbefore Hc.
    pose proof (extensionPath_head _ _ _ Hpath Ht) as Hhead.
    pose proof (Extension_UpdateHash_same hs e Hc) as Hu.
    apply leafOf_app in Hleaf; [|by eapply extensionPath_trail].
    apply consistentExtension_next in Hc.
    destruct e as [h k nx v]. simpl in *. subst nx. simpl in Hc.
    rewrite decide_False by (by apply app_tail_neq).
    rewrite commonPrefix_extends by done.
    rewrite decide_False by (intros Heq; by apply (app_tail_neq k tail)).
    rewrite bool_decide_eq_true_2 by done. simpl.
    rewrite drop_app_length.
    destruct tail as [|c tail']; [done|].
    rewrite (index_head _ c) by done. simpl.
    rewrite (index_head _ c) by done. simpl.
    rewrite bool_decide_eq_true_2 by done. simpl.
    rewrite (IH leaf Hleaf Hbefore Hc).
    cbv [Extension.SetNext Extension.hash Extension.Key Extension.ValueObject].
    by rewrite Hu.
  - intros e b tail trail Hk Hn Hpath IH leaf Hleaf Hbefore Hc.
    pose proof (branchPath_nonempty _ _ _ Hpath) as Ht.
    pose proof (Extension_UpdateHash_same hs e Hc) as Hu.
    apply leafOf_app in Hleaf;
      [|apply branchPath_trail in Hpath; intros ->; simpl in Hpath; lia].
    apply consistentExtension_next in Hc.
    destruct e as [h k nx v]. simpl in *. subst nx. simpl in Hc.
    rewrite decide_False by (by apply app_tail_neq).
    rewrite commonPrefix_extends by done.
    rewrite decide_False by (intros Heq; by apply (app_tail_neq k tail)).
    rewrite bool_decide_eq_true_2 by done. simpl.
    rewrite drop_app_length.
    rewrite (IH leaf Hleaf Hbefore Hc).
    cbv [Extension.SetNext Extension.hash Extension.Key Extension.ValueObject].
    by rewrite Hu.
  - intros b c i e key trail Hc Hi He Hpath IH leaf Hleaf Hbefore Hcons.
    pose proof (Branch_UpdateHash_same hs b Hcons) as Hu.
    apply leafOf_app in Hleaf; [|by eapply extensionPath_trail].
    pose proof (consistentBranch_children hs b Hcons i e He) as Hce.
    destruct b as [h cs]. simpl in *.
    rewrite (index_head _ c) by done. simpl. rewrite Hi. simpl.
    rewrite atChild_lookup, He, (IH leaf Hleaf Hbefore Hce).
    cbv [setChild Branch.setChildren Branch.ListChildren Branch.hash].
    rewrite list_insert_id by done. by rewrite Hu.
Qed.

Lemma Delete_before_branch key mt trail leaf :
  consistentBranch (hs mt) (root mt) ->
  branchPath (root mt) (hex.EncodeToString key) trail ->
  leafOf trail = Some leaf -> beforeBranch leaf = true ->
  Delete key mt = Ok tt mt.
Proof.
  intros Hc Hpath Hleaf Hbefore.
  pose proof (branchPath_nonempty _ _ _ Hpath) as Hne.
  unfold Delete. rewrite decide_False by (intros Hlen; destruct key; done).
  rewrite (proj2 (delete_before_branch (hs mt)) _ _ _ Hpath leaf Hleaf Hbefore Hc).
  rewrite (Branch_UpdateHash_same _ _ Hc). simpl. by rewrite trie_eta.
Qed.

(** ** Delete of a key whose Extension is not followed by a Branch *)

Lemma extensionPath_inv e key trail :
  extensionPath e key trail ->
  (key = Extension.Key e /\ exists v, Extension.ValueObject e = Some v) \/
  (exists n tail trail', Extension.Key e <> [] /\ tail <> [] /\
                         Extension.Next e = ExtensionNode n /\
                         key = Extension.Key e ++ tail /\ extensionPath n tail trail') \/
  (exists b tail trail', Extension.Key e <> [] /\ Extension.Next e = BranchNode b /\
                         key = Extension.Key e ++ tail /\ branchPath b tail trail').
Proof.
  intros H. destruct H as [e key v Hk Hv|e n tail trail Hk Ht Hn Hp|e b tail trail Hk Hn Hp].
  - left. split; [done|]. by exists v.
  - right. left. by exists n, tail, trail.
  - right. right. by exists b, tail, trail.
Qed.

Lemma branchPath_inv b key trail :
  branchPath b key trail ->
  exists c i e trail', key !! 0 = Some c /\ toChildIndex c = Val i /\
                       Branch.ListChildren b !! i = Some (Some e) /\
                       extensionPath e key trail'.
Proof. intros H. destruct H as [b c i e key trail Hc Hi He Hp]. by exists c, i, e, trail. Qed.

Lemma extensionPath_unabsorb e n k key trail :
  k <> [] -> Extension.Key n <> [] ->
  Extension.Key e = k ++ Extension.Key n -> Extension.Next e = Extension.Next n ->
  Extension.ValueObject e = Extension.ValueObject n ->
  extensionPath e (k ++ key) trail -> exists trail', extensionPath n key trail'.
Proof.
  intros Hknil Hnnil Hk Hn Hv Hpath.
  apply extensionPath_inv in Hpath
    as [[Hkey [v Hvo]]|[(n' & tail & t' & _ & Ht & Hn' & Hkey & Hp)
                       |(b & tail & t' & _ & Hn' & Hkey & Hp)]].
  - rewrite Hk in Hkey. apply app_inv_head in Hkey. subst key.
    eexists. eapply path_here; [done|]. by rewrite <- Hv.
  - rewrite Hk, <- app_assoc in Hkey. apply app_inv_head in Hkey. subst key.
    eexists. apply (path_next_extension n n'); try done. by rewrite <- Hn.
  - rewrite Hk, <- app_assoc in Hkey. apply app_inv_head in Hkey. subst key.
    eexists. apply (path_next_branch n b); try done. by rewrite <- Hn.
Qed.

Lemma extensionPath_next_inv e key tail trail :
  Extension.Key e = key -> tail <> [] ->
  extensionPath e (key ++ tail) trail ->
  (exists n trail', Extension.Next e = ExtensionNode n /\ extensionPath n tail trail') \/
  (exists b trail', Extension.Next e = BranchNode b /\ branchPath b tail trail').
Proof.
  intros Hk Ht Hpath.
  apply extensionPath_inv in Hpath
    as [[Hkey _]|[(n' & tail0 & t' & _ & _ & Hn' & Hkey & Hp)
                 |(b & tail0 & t' & _ & Hn' & Hkey & Hp)]].
  - exfalso. rewrite Hk in Hkey. by apply (app_tail_neq key tail).
  - rewrite Hk in Hkey. apply app_inv_head in Hkey. subst tail0. left. by exists n', t'.
  - rewrite Hk in Hkey. apply app_inv_head in Hkey. subst tail0. right. by exists b, t'.
Qed.

Section DeleteRemoves.

Variable hs : crypto_Hash.

Lemma returning_Extension_UpdateHash_fields (sd sd' : bool) X e' :
  returning sd' (Extension.UpdateHash hs X) = Ok sd e' ->
  Extension.Key e' = Extension.Key X /\ Extension.Next e' = Extension.Next X /\
  Extension.ValueObject e' = Extension.ValueObject X.
Proof.
  intros Hr. apply returning_Ok in Hr as [u Hu].
  apply Extension_UpdateHash_Ok in Hu as (s & r & _ & _ & ->). by destruct X.
Qed.

Lemma sole_child_not_on_path b b' key tail nn trail :
  deleteKeyInBranch hs key b = Ok true b' -> keyedBranch b' = true ->
  (forall trail', ~ branchPath b' tail trail') ->
  Branch.First b' = Some nn -> tail <> [] -> ~ extensionPath nn tail trail.
Proof.
  intros Hdel Hkeyed Hgone Hfirst Ht Hpath.
  apply firstFrom_lookup in Hfirst as [i Hi].
  destruct (keyedBranch_low_slots _ _ _ Hkeyed Hi) as [_ (c & Hc & Hci)].
  pose proof (extensionPath_head _ _ _ Hpath Ht) as Hhead.
  apply (Hgone (trail ++ [VisitBranch b'])).
  apply (path_child b' c i nn); try done. by rewrite Hhead.
Qed.

Lemma delete_removes :
  (forall e key trail, extensionPath e key trail ->
     forall leaf, leafOf trail = Some leaf -> beforeBranch leaf = false ->
     keyedExtension e = true ->
     forall e', deleteKeyInExtension hs key e = Ok false e' ->
     forall trail', ~ extensionPath e' key trail') /\
  (forall b key trail, branchPath b key trail ->
     forall leaf, leafOf trail = Some leaf -> beforeBranch leaf = false ->
     keyedBranch b = true ->
     forall sd b', deleteKeyInBranch hs key b = Ok sd b' ->
     forall trail', ~ branchPath b' key trail').
Proof.
  apply extensionPath_branchPath_mutind.
  - intros e key v -> Hv leaf [= <-] Hleaf Hkeyed e' Hdel trail' Hpath'.
    apply keyedExtension_true in Hkeyed as [Hknil Hnext].
    destruct e as [h k n v']. unfold beforeBranch in Hleaf. simpl in *. subst v'.
    rewrite decide_True in Hdel by done. simpl in Hdel.
    destruct n as [|next|next]; [done| |done].
    apply try_Ok in Hdel as (node' & Hnode' & Hr).
    apply SetKey_Val in Hnode' as [_ ->]. simpl in Hr.
    apply returning_Extension_UpdateHash_fields in Hr as (Hk' & Hn' & Hv'). simpl in *.
    apply keyedExtension_true in Hnext as [Hnextnil _].
    assert (length (Extension.Key next) <> 0) as Hlen
      by (intros Hl; by apply nil_length_inv in Hl).
    apply extensionPath_inv in Hpath'
      as [[Hkey _]|[(n' & tail & t' & _ & Ht & _ & Hkey & _)
                   |(b & tail & t' & _ & _ & Hkey & _)]];
      rewrite Hk' in Hkey; apply (f_equal length) in Hkey;
      rewrite ?length_app in Hkey; lia.
  - intros e n tail trail Hk Ht Hn Hpath IH leaf Hleaf Hbefore Hkeyed e' Hdel trail' Hpath'.
    pose proof (extensionPath_head _ _ _ Hpath Ht) as Hhead.
    apply leafOf_app in Hleaf; [|by eapply extensionPath_trail].
    apply keyedExtension_true in Hkeyed as [_ Hnext].
    destruct e as [h k nx v]. simpl in *. subst nx. simpl in Hnext.
    rewrite decide_False in Hdel by (by apply app_tail_neq).
    rewrite commonPrefix_extends in Hdel by done.
    rewrite decide_False in Hdel by (intros Heq; by apply (app_tail_neq k tail)).
    rewrite bool_decide_eq_true_2 in Hdel by done. simpl in Hdel.
    rewrite drop_app_length in Hdel.
    destruct tail as [|c tail']; [done|].
    rewrite (index_head _ c) in Hdel by done. simpl in Hdel.
    rewrite (index_head _ c) in Hdel by done. simpl in Hdel.
    rewrite bool_decide_eq_true_2 in Hdel by done. simpl in Hdel.
    destruct (deleteKeyInExtension hs (c :: tail') n) as [[|] next'|err next'|] eqn:Hrec;
      [| |done|done].
    + simpl in Hdel. destruct v as [v|]; simpl in Hdel; [|done].
      apply returning_Extension_UpdateHash_fields in Hdel as (Hk' & Hn' & Hv').
      simpl in *.
      apply (extensionPath_next_inv e' k (c :: tail')) in Hpath'; [|done|done].
      destruct Hpath' as [(n2 & t2 & Hn2 & _)|(b2 & t2 & Hn2 & _)]; congruence.
    + apply returning_Extension_UpdateHash_fields in Hdel as (Hk' & Hn' & Hv').
      simpl in *.
      apply (extensionPath_next_inv e' k (c :: tail')) in Hpath'; [|done|done].
      destruct Hpath' as [(n2 & t2 & Hn2 & Hp2)|(b2 & t2 & Hn2 & _)]; [|congruence].
      rewrite Hn' in Hn2. injection Hn2 as <-.
      by apply (IH leaf Hleaf Hbefore Hnext next' eq_refl t2).
  - intros e b tail trail Hk Hn Hpath IH leaf Hleaf Hbefore Hkeyed e' Hdel trail' Hpath'.
    pose proof (branchPath_nonempty _ _ _ Hpath) as Ht.
    apply leafOf_app in Hleaf;
      [|apply branchPath_trail in Hpath; intros ->; simpl in Hpath; lia].
    apply keyedExtension_true in Hkeyed as [_ Hnext].
    destruct e as [h k nx v]. simpl in *. subst nx. simpl in Hnext.
    rewrite decide_False in Hdel by (by apply app_tail_neq).
    rewrite commonPrefix_extends in Hdel by done.
    rewrite decide_False in Hdel by (intros Heq; by apply (app_tail_neq k tail)).
    rewrite bool_decide_eq_true_2 in Hdel by done. simpl in Hdel.
    rewrite drop_app_length in Hdel.
    destruct (deleteKeyInBranch hs tail b) as [[|] next'|err next'|] eqn:Hrec;
      [| |done|done].
    + pose proof (IH leaf Hleaf Hbefore Hnext _ _ eq_refl) as Hgone.
      pose proof (proj2 (delete_keyed hs) _ _ _ _ Hnext Hrec) as Hkeyed'.
      simpl in Hdel. destruct v as [v|]; simpl in Hdel.
      * apply returning_Extension_UpdateHash_fields in Hdel as (Hk' & Hn' & Hv').
        simpl in *.
        apply (extensionPath_next_inv e' k tail) in Hpath'; [|done|done].
        destruct (Branch.First next') as [nn|] eqn:Hfirst; simpl in Hn'.
        -- destruct Hpath' as [(n2 & t2 & Hn2 & Hp2)|(b2 & t2 & Hn2 & _)]; [|congruence].
           rewrite Hn' in Hn2. injection Hn2 as <-.
           by eapply sole_child_not_on_path.
        -- destruct Hpath' as [(n2 & t2 & Hn2 & _)|(b2 & t2 & Hn2 & _)]; congruence.
      * destruct (Branch.First next') as [nn|] eqn:Hfirst; [|done].
        apply try_Ok in Hdel as (node' & Hnode' & Hr).
        apply SetKey_Val in Hnode' as [_ ->]. simpl in Hr.
        apply returning_Extension_UpdateHash_fields in Hr as (Hk' & Hn' & Hv').
        simpl in *.
        pose proof (First_keyed _ _ Hkeyed' Hfirst) as Hnn.
        apply keyedExtension_true in Hnn as [Hnnnil _].
        destruct (extensionPath_unabsorb e' nn k tail trail') as [t2 Hp2]; try done.
        by eapply sole_child_not_on_path.
    + pose proof (IH leaf Hleaf Hbefore Hnext _ _ eq_refl) as Hgone.
      apply returning_Extension_UpdateHash_fields in Hdel as (Hk' & Hn' & Hv').
      simpl in *.
      apply (extensionPath_next_inv e' k tail) in Hpath'; [|done|done].
      destruct Hpath' as [(n2 & t2 & Hn2 & _)|(b2 & t2 & Hn2 & Hp2)]; [congruence|].
      rewrite Hn' in Hn2. injection Hn2 as <-. by apply (Hgone t2).
  - intros b c i e key trail Hc Hi He Hpath IH leaf Hleaf Hbefore Hkeyed sd b' Hdel
      trail' Hpath'.
    apply leafOf_app in Hleaf; [|by eapply extensionPath_trail].
    destruct (proj1 (keyedBranch_true b) Hkeyed i e He) as [_ Hekeyed].
    destruct b as [h cs]. simpl in *.
    rewrite (index_head _ c) in Hdel by done. simpl in Hdel.
    rewrite Hi in Hdel. simpl in Hdel.
    rewrite atChild_lookup, He in Hdel.
    apply branchPath_inv in Hpath' as (c' & i' & e2 & trail0 & Hc' & Hi' & He' & Hp').
    rewrite Hc in Hc'. injection Hc' as <-. rewrite Hi in Hi'. injection Hi' as <-.
    destruct (deleteKeyInExtension hs key e) as [[|] e1|err e1|] eqn:Hrec;
      [| |done|done].
    + apply try_Ok in Hdel as (b2 & Hb2 & Hdel).
      rewrite (Branch_Delete_held c i e1) in Hb2;
        [|done|by apply (setChild_lookup i (Some e))].
      injection Hb2 as <-.
      assert (Branch.ListChildren b' !! i = Some None) as Hnone.
      { case_decide.
        - injection Hdel as _ <-. simpl. apply list_lookup_insert_eq.
          rewrite length_insert. by eapply lookup_lt_Some.
        - apply returning_Ok in Hdel as [u Hu].
          apply Branch_UpdateHash_Ok in Hu as (s & r & _ & _ & ->).
          simpl. apply list_lookup_insert_eq.
          rewrite length_insert. by eapply lookup_lt_Some. }
      congruence.
    + apply returning_Ok in Hdel as [u Hu].
      apply Branch_UpdateHash_Ok in Hu as (s & r & _ & _ & ->).
      simpl in He'. rewrite list_lookup_insert_eq in He' by (by eapply lookup_lt_Some).
      injection He' as <-.
      by apply (IH leaf Hleaf Hbefore Hekeyed e1 eq_refl trail0).
Qed.

End DeleteRemoves.

Lemma Delete_removes key mt u mt' trail leaf :
  keyedBranch (root mt) = true ->
  branchPath (root mt) (hex.EncodeToString key) trail ->
  leafOf trail = Some leaf -> beforeBranch leaf = false ->
  Delete key mt = Ok u mt' -> ~ stored mt' key.
Proof.
  intros Hkeyed Hpath Hleaf Hbefore. unfold Delete. case_decide; [done|].
  destruct (deleteKeyInBranch _ _ _) as [sd b|err b|] eqn:Hdel; [|done|done].
  destruct (Branch.UpdateHash (hs mt) b) as [u'' b'| |] eqn:Hu; [|done|done].
  simpl. intros [= _ <-] [trail' Hpath']. simpl in Hpath'.
  apply Branch_UpdateHash_Ok in Hu as (s & r & _ & _ & ->).
  apply branchPath_inv in Hpath' as (c & i & e & trail0 & Hc & Hi & He & Hp).
  rewrite ListChildren_setHash in He.
  apply (proj2 (delete_removes (hs mt)) _ _ _ Hpath leaf Hleaf Hbefore Hkeyed _ _ Hdel
           (trail0 ++ [VisitBranch b])).
  by apply (path_child b c i e).
Qed.

(** ** Insert keeps the other keys, slot collisions apart *)

Lemma slotCompatible_drop key other m :
  slotCompatible key other -> slotCompatible (drop m key) (drop m other).
Proof.
  intros H j c1 c2 i H1 H2. rewrite lookup_drop in H1, H2. by eapply H.
Qed.

Lemma holdsE_drop h k n v m other vo :
  1 <= m -> m < length k ->
  holdsE (mkExtension h k n v) other vo ->
  take m other = take m k /\
  forall h', holdsE (mkExtension h' (drop m k) n v) (drop m other) vo.
Proof.
  intros Hm1 Hm H. apply holdsE_inv in H. simpl in H.
  assert (drop m k <> []) as Hnil by (by apply drop_nonempty).
  destruct H as [[-> Hv]|[(n' & t & Hk & Ht & -> & -> & Hn)|(b & t & Hk & -> & -> & Hb)]].
  - split; [done|]. intros h'. by apply (holdsE_here (mkExtension h' (drop m k) n v)).
  - split; [by rewrite take_app_le by lia|]. intros h'.
    rewrite drop_app_le by lia.
    by apply (holdsE_next (mkExtension h' (drop m k) (ExtensionNode n') v) n').
  - split; [by rewrite take_app_le by lia|]. intros h'.
    rewrite drop_app_le by lia.
    by apply (holdsE_branch (mkExtension h' (drop m k) (BranchNode b) v) b).
Qed.

Lemma holdsE_head e key vo : holdsE e key vo -> key <> [] -> key !! 0 = Extension.Key e !! 0.
Proof. intros (trail & Hpath & _). by eapply extensionPath_head. Qed.

Lemma holdsE_nonempty_from_next h k n v other vo :
  k <> [] -> holdsE (mkExtension h k n v) other vo -> other <> [].
Proof.
  intros Hk H. apply holdsE_inv in H. simpl in H.
  destruct H as [[-> _]|[(n' & t & _ & _ & _ & -> & _)|(b & t & _ & _ & -> & _)]];
    by destruct k.
Qed.

Section InsertKeeps.

Variable hs : crypto_Hash.

Lemma holdsE_insert_UpdateHash X (u : unit) e' key vo :
  Extension.UpdateHash hs X = Ok u e' -> holdsE X key vo -> holdsE e' key vo.
Proof.
  intros Hu H. apply Extension_UpdateHash_Ok in Hu as (s & r & _ & _ & ->).
  eapply holdsE_fields; [| | |exact H]; by destruct X.
Qed.

(** The first child of a new Branch is where a lookup finds it, when the
    two first characters have different slots. *)
Lemma NewNodeBranchWithChildren_keeps a b n other vo c :
  NewNodeBranchWithChildren a b hs = Val n ->
  holdsE a other vo -> other <> [] ->
  Extension.Key b !! 0 = Some c ->
  (forall c' i, other !! 0 = Some c' -> toChildIndex c' = Val i ->
                toChildIndex c = Val i -> c' = c) ->
  holdsB n other vo.
Proof.
  intros Hn Ha Hother Hc Hslots.
  destruct (NewNodeBranchWithChildren_children _ _ _ _ Hn)
    as (ca & cb & ia & ib & Hca & Hcb & Hne & Hia & Hib & Hcs).
  rewrite Hcb in Hc. injection Hc as <-.
  pose proof (holdsE_head _ _ _ Ha Hother) as Hhead. rewrite Hca in Hhead.
  assert (ia <> ib) as Hiab.
  { intros ->. apply Hne. by eapply Hslots. }
  apply (holdsB_child _ ca ia a); try done.
  rewrite Hcs, list_lookup_insert_ne by done.
  apply list_lookup_insert_eq. rewrite length_replicate.
  destruct (toChildIndex_Val _ _ Hia). unfold ChildIndexCount. lia.
Qed.

Lemma insertToExtension_keeps_from key new e u e' other vo :
  match Extension.Next e with
  | NilNode => True
  | ExtensionNode n =>
      forall key u n' other vo,
        insertToExtension hs key new n = Ok u n' -> holdsE n other vo -> other <> key ->
        slotCompatible key other -> holdsE n' other vo
  | BranchNode b =>
      forall key u b' other vo,
        insertToBranch hs key new b = Ok u b' -> holdsB b other vo -> other <> key ->
        slotCompatible key other -> holdsB b' other vo
  end ->
  insertToExtension hs key new e = Ok u e' -> holdsE e other vo -> other <> key ->
  slotCompatible key other -> holdsE e' other vo.
Proof.
  intros IH Hins Hother Hne Hcompat. destruct e as [h k n v]. simpl in IH.
  simpl insertToExtension in Hins.
  destruct (decide (key = k)) as [->|Hkey].
  { destruct v as [v|]; [done|]. simpl in Hins.
    eapply holdsE_insert_UpdateHash; [exact Hins|].
    apply holdsE_inv in Hother. simpl in Hother.
    destruct Hother as [[-> _]|[(n' & t & Hk & Ht & -> & -> & Hn)|(b & t & Hk & -> & -> & Hb)]];
      [done| |].
    - by apply (holdsE_next (mkExtension h k (ExtensionNode n') (Some new)) n').
    - by apply (holdsE_branch (mkExtension h k (BranchNode b) (Some new)) b). }
  destruct (commonPrefix k key) as [prefix| |] eqn:Hprefix; [|done|done].
  destruct (decide (prefix = k)) as [->|Hpk].
  - destruct (commonPrefix_whole _ _ Hprefix) as [Hknil Hkeyeq].
    set (keyTail := drop (length k) key) in *.
    assert (forall t, other = k ++ t -> t <> keyTail /\ slotCompatible keyTail t)
      as Htails.
    { intros t ->. split.
      - intros Heq. apply Hne. rewrite Heq. exact (eq_sym Hkeyeq).
      - pose proof (slotCompatible_drop _ _ (length k) Hcompat) as Hd.
        by rewrite drop_app_length in Hd. }
    apply holdsE_inv in Hother. simpl in Hother.
    destruct n as [|next|next].
    + apply try_Ok in Hins as (t & Ht & Hu).
      eapply holdsE_insert_UpdateHash; [exact Hu|]. simpl.
      destruct Hother as [[-> Hv]|[(n' & t' & _ & _ & Hn & _)|(b & t' & _ & Hn & _)]];
        [|done|done].
      by apply (holdsE_here (mkExtension h k (ExtensionNode t) v)).
    + apply try_Ok in Hins as (c & Hc & Hins). apply try_Ok in Hins as (cn & Hcn & Hins).
      apply index_Val in Hc, Hcn.
      destruct (decide (c = cn)) as [->|Hccn].
      * destruct (insertToExtension hs keyTail new next) as [u' next'|err next'|] eqn:Hrec;
          [|done|done].
        eapply holdsE_insert_UpdateHash; [exact Hins|]. simpl.
        destruct Hother as [[-> Hv]|[(n' & t' & _ & Ht' & [= <-] & Heq & Hn)
                                    |(b & t' & _ & Hn & _)]]; [| |done].
        -- by apply (holdsE_here (mkExtension h k (ExtensionNode next') v)).
        -- destruct (Htails _ Heq) as [Htne Htc]. subst other.
           apply (holdsE_next (mkExtension h k (ExtensionNode next') v) next'); try done.
           by eapply IH.
      * apply try_Ok in Hins as (t & Ht & Hins). apply try_Ok in Hins as (nb & Hnb & Hu).
        destruct (NewNodeExtension_fields _ _ _ _ _ Ht) as (Hkt & _ & _).
        eapply holdsE_insert_UpdateHash; [exact Hu|]. simpl.
        destruct Hother as [[-> Hv]|[(n' & t' & _ & Ht' & [= <-] & Heq & Hn)
                                    |(b & t' & _ & Hn & _)]]; [| |done].
        -- by apply (holdsE_here (mkExtension h k (BranchNode nb) v)).
        -- destruct (Htails _ Heq) as [Htne Htc]. subst other.
           apply (holdsE_branch (mkExtension h k (BranchNode nb) v) nb); try done.
           eapply NewNodeBranchWithChildren_keeps; [exact Hnb|exact Hn|done| |].
           ++ rewrite Hkt. exact Hc.
           ++ intros c' i Hc' Hi' Hi. symmetry. by eapply (Htc 0 c c' i).
    + destruct (insertToBranch hs keyTail new next) as [u' next'|err next'|] eqn:Hrec;
        [|done|done].
      eapply holdsE_insert_UpdateHash; [exact Hins|]. simpl.
      destruct Hother as [[-> Hv]|[(n' & t' & _ & _ & Hn & _)
                                  |(b & t' & _ & [= <-] & Heq & Hb)]]; [|done|].
      * by apply (holdsE_here (mkExtension h k (BranchNode next') v)).
      * destruct (Htails _ Heq) as [Htne Htc]. subst other.
        apply (holdsE_branch (mkExtension h k (BranchNode next') v) next'); try done.
        by eapply IH.
  - destruct (commonPrefix_Val _ _ _ Hprefix)
      as (m & Hm1 & Hmk & Hmkey & Hpk' & Hpkey & Hmax).
    assert (length prefix = m) as Hlen by (rewrite Hpk', length_take; lia).
    assert (m <> length k) as Hmk'.
    { intros ->. apply Hpk. by rewrite Hpk', take_ge. }
    destruct (holdsE_drop h k n v m other vo) as [Htake Hdrop]; [lia|lia|done|].
    assert (other = prefix ++ drop m other) as Hothereq.
    { rewrite Hpk', <- Htake. by rewrite take_drop. }
    assert (prefix <> []) as Hpnil.
    { intros Hnil. rewrite Hnil in Hlen. simpl in Hlen. lia. }
    assert (drop m other <> []) as Hdnil.
    { apply (holdsE_nonempty_from_next [] (drop m k) n v _ vo); [|done].
      apply drop_nonempty. lia. }
    destruct (decide (prefix = key)) as [->|Hpkey'].
    + apply try_Ok in Hins as (t & Ht & Hins).
      apply try_Ok in Hins as (node' & Hnode' & Hu).
      apply SetKey_Val in Hnode' as [_ ->]. simpl in Hu.
      eapply holdsE_insert_UpdateHash; [exact Hu|].
      apply NewNodeExtension_Val in Ht as [ut Ht].
      rewrite Hlen in Ht.
      rewrite Hothereq.
      apply (holdsE_next (mkExtension h key (ExtensionNode t) (Some new)) t); try done.
      eapply holdsE_insert_UpdateHash; [exact Ht|]. apply Hdrop.
    + assert (m <> length key) as Hmkey'.
      { intros ->. apply Hpkey'. by rewrite Hpkey, take_ge. }
      apply try_Ok in Hins as (t1 & Ht1 & Hins).
      apply try_Ok in Hins as (t2 & Ht2 & Hins).
      apply try_Ok in Hins as (nb & Hnb & Hins).
      apply try_Ok in Hins as (node' & Hnode' & Hu).
      apply SetKey_Val in Hnode' as [_ ->]. simpl in Hu.
      destruct (NewNodeExtension_fields _ _ _ _ _ Ht2) as (Hk2 & _ & _).
      eapply holdsE_insert_UpdateHash; [exact Hu|].
      apply NewNodeExtension_Val in Ht1 as [ut Ht1].
      rewrite Hlen in Ht1, Hk2.
      rewrite Hothereq.
      apply (holdsE_branch (mkExtension h prefix (BranchNode nb) None) nb); try done.
      destruct (key !! m) as [cb|] eqn:Hcb; [|apply lookup_ge_None in Hcb; lia].
      eapply (NewNodeBranchWithChildren_keeps t1 t2 nb _ vo cb); [exact Hnb| |done| |].
      * eapply holdsE_insert_UpdateHash; [exact Ht1|]. apply Hdrop.
      * by rewrite Hk2, lookup_drop_0.
      * intros c' i Hc' Hi' Hi. rewrite lookup_drop_0 in Hc'.
        symmetry. by eapply (Hcompat m cb c' i).
Qed.

Lemma insertToBranch_keeps_from key new b u b' other vo :
  (forall i e, Branch.ListChildren b !! i = Some (Some e) ->
     forall key u e' other vo,
       insertToExtension hs key new e = Ok u e' -> holdsE e other vo -> other <> key ->
       slotCompatible key other -> holdsE e' other vo) ->
  insertToBranch hs key new b = Ok u b' -> holdsB b other vo -> other <> key ->
  slotCompatible key other -> holdsB b' other vo.
Proof.
  intros IH Hins Hother Hne Hcompat. destruct b as [h cs]. simpl in IH.
  simpl insertToBranch in Hins.
  apply holdsB_inv in Hother as (c2 & i2 & e2 & Hc2 & Hi2 & He2 & Hheld). simpl in He2.
  apply try_Ok in Hins as (c & Hc & Hins). apply try_Ok in Hins as (i & Hi & Hins).
  rewrite atChild_lookup in Hins.
  destruct (cs !! i) as [[e|]|] eqn:He; [| |done].
  - destruct (insertToExtension hs key new e) as [u' e1|err e1|] eqn:Hrec; [|done|done].
    apply Branch_UpdateHash_Ok in Hins as (s & r & _ & _ & ->). apply holdsB_setHash.
    destruct (decide (i2 = i)) as [->|Hi2i].
    + rewrite He in He2. injection He2 as <-.
      apply (holdsB_child _ c2 i e1); try done.
      * by apply (setChild_lookup i (Some e)).
      * by eapply IH.
    + apply (holdsB_child _ c2 i2 e2); try done.
      simpl. by rewrite list_lookup_insert_ne.
  - apply try_Ok in Hins as (n & Hn & Hins). apply try_Ok in Hins as (b2 & Hb2 & Hu).
    apply Branch_UpdateHash_Ok in Hu as (s & r & _ & _ & ->). apply holdsB_setHash.
    apply Branch_Append_Val in Hb2 as (c' & i' & Hc' & Hi' & He' & ->). simpl in He'.
    apply (holdsB_child _ c2 i2 e2); try done.
    simpl. rewrite list_lookup_insert_ne; [done|]. intros ->. congruence.
Qed.

Lemma insert_keeps :
  (forall e key new u e' other vo,
     insertToExtension hs key new e = Ok u e' -> holdsE e other vo -> other <> key ->
     slotCompatible key other -> holdsE e' other vo) /\
  (forall b key new u b' other vo,
     insertToBranch hs key new b = Ok u b' -> holdsB b other vo -> other <> key ->
     slotCompatible key other -> holdsB b' other vo).
Proof.
  apply (node_mutual_induction
           (fun e => forall key new u e' other vo,
              insertToExtension hs key new e = Ok u e' -> holdsE e other vo ->
              other <> key -> slotCompatible key other -> holdsE e' other vo)
           (fun b => forall key new u b' other vo,
              insertToBranch hs key new b = Ok u b' -> holdsB b other vo ->
              other <> key -> slotCompatible key other -> holdsB b' other vo)).
  - intros e IH key new u e' other vo. apply insertToExtension_keeps_from.
    destruct (Extension.Next e); [done| |]; intros; by eapply IH.
  - intros b IH key new u b' other vo. apply insertToBranch_keeps_from.
    intros i e He key' u' e' other' vo'. by eapply IH.
Qed.

End InsertKeeps.

Lemma Insert_keeps key value mt u mt' other value' :
  Insert key value mt = Ok u mt' -> storedWith mt other value' -> other <> key ->
  slotCompatible (hex.EncodeToString key) (hex.EncodeToString other) ->
  storedWith mt' other value'.
Proof.
  unfold Insert. case_decide; [done|].
  destruct (insertToBranch _ _ _ _) as [u' b|err b|] eqn:Hins; [|done|done].
  destruct (Branch.UpdateHash (hs mt) b) as [u'' b'| |] eqn:Hu; [|done|done].
  simpl. intros [= _ <-] Hother Hne Hcompat.
  apply Branch_UpdateHash_Ok in Hu as (s & r & _ & _ & ->).
  unfold storedWith. simpl. apply holdsB_setHash.
  eapply (proj2 (insert_keeps (hs mt))); [exact Hins|exact Hother| |exact Hcompat].
  intros Heq. by apply EncodeToString_inj in Heq.
Qed.

(** ** Characters that share a slot *)

Lemma toChildIndex_Val_cases c i :
  toChildIndex c = Val i ->
  c = hex.digit (N.of_nat i) \/ (i < 6 /\ c = hex.digit (N.of_nat (i + 10))).
Proof.
  destruct c; vm_compute; intros H; try discriminate; injection H as <-;
    first [by left|right; split; [lia|reflexivity]].
Qed.

Lemma keyTrie_stores_key : storedWith keyTrie tests_key value5.
Proof. exact (proj1 (Insert_Ok_storedWith _ _ _ _ _ emptyTrie_insert_key)). Qed.

Lemma k_key_slotCompatible :
  slotCompatible (hex.EncodeToString key_k) (hex.EncodeToString tests_key).
Proof.
  intros j c1 c2 i H1 H2 _ _.
  destruct j as [|[|j]]; vm_compute in H1, H2; congruence.
Qed.

(** ** A new trie *)

Lemma NewMerklePatriciaTrie_root digest mt :
  NewMerklePatriciaTrie digest = Val mt ->
  hs mt = digest /\
  Branch.ListChildren (root mt) = replicate ChildIndexCount None /\
  digest (gob.stream (branchPreimage (replicate ChildIndexCount None)))
    = Val (Branch.hash (root mt)).
Proof.
  unfold NewMerklePatriciaTrie.
  destruct (Branch.UpdateHash digest NewNodeBranch) as [u b| |] eqn:Hu; [|done|done].
  intros [= <-]. split; [done|].
  apply Branch_UpdateHash_Ok in Hu as (s & r & Hs & Hr & ->).
  split; [done|].
  rewrite Branch_Serialize_stream in Hs.
  - injection Hs as <-. exact Hr.
  - intros i c Hc. cbn [NewNodeBranch Branch.ListChildren] in Hc.
    apply lookup_replicate in Hc as [Hc _]. done.
Qed.

Lemma empty_root_stores_nothing b key trail :
  Branch.ListChildren b = replicate ChildIndexCount None -> ~ branchPath b key trail.
Proof.
  intros Hcs Hpath. apply branchPath_inv in Hpath as (c & i & e & t & _ & _ & He & _).
  rewrite Hcs in He. apply lookup_replicate in He as [He _]. done.
Qed.

Lemma insertToBranch_vacant digest b key c i vo :
  totalDigest digest -> soundBranch b = true ->
  key !! 0 = Some c -> toChildIndex c = Val i ->
  Branch.ListChildren b !! i = Some None ->
  exists b', insertToBranch digest key vo b = Ok tt b' /\ soundBranch b' = true.
Proof.
  intros Hd Hsound Hc Hi Hnone.
  pose proof (totalDigest_proper digest Hd) as Hproper.
  destruct (Extension_UpdateHash_total digest Hd (mkExtension [] key NilNode (Some vo)))
    as [r Hr]; [done|].
  assert (NewNodeExtension key NilNode (Some vo) digest
          = Val (Extension.setHash r (mkExtension [] key NilNode (Some vo)))) as Hn
    by (unfold NewNodeExtension; by rewrite Hr).
  pose proof (NewNodeExtension_sound digest Hproper _ _ _ _ Hn eq_refl) as Hnsound.
  set (n := Extension.setHash r (mkExtension [] key NilNode (Some vo))) in *.
  pose proof (Branch_Append_vacant n c i b Hc Hi Hnone) as Happ.
  pose proof (Append_sound n b _ Hnsound Hsound Happ) as Hb2.
  destruct (Branch_UpdateHash_total digest Hd
              (Branch.setChildren (<[i := Some n]> (Branch.ListChildren b)) b)) as [r2 Hr2].
  { by apply soundBranch_true in Hb2 as (_ & _ & Hb2). }
  pose proof (Branch_UpdateHash_sound digest Hproper _ Hb2) as Hb3.
  rewrite Hr2 in Hb3. cbv [ensures] in Hb3.
  eexists. split; [|exact Hb3].
  destruct b as [h cs]. simpl in Hnone. simpl insertToBranch.
  rewrite (index_head _ c) by done. simpl. rewrite Hi. simpl.
  rewrite atChild_lookup, Hnone, Hn. simpl. rewrite Happ. simpl. exact Hr2.
Qed.

Lemma Insert_into_new digest mt key value :
  totalDigest digest -> NewMerklePatriciaTrie digest = Val mt -> key <> [] ->
  exists mt', Insert key value mt = Ok tt mt'.
Proof.
  intros Hd Hnew Hkey.
  pose proof (totalDigest_proper digest Hd) as Hproper.
  destruct (NewMerklePatriciaTrie_root _ _ Hnew) as (Hhs & Hcs & _).
  destruct (NewMerklePatriciaTrie_sound _ _ Hproper Hnew) as [Hsound _].
  destruct key as [|v key]; [done|].
  destruct (isHexDigit_toChildIndex _ (hex_digit_high v)) as (i & Hi & Hlt).
  destruct (insertToBranch_vacant digest (root mt) (hex.EncodeToString (v :: key))
              (hex.digit (Byte.to_N v / 16)) i (NewValueObject value))
    as (b' & Hins & Hb'); try done.
  { rewrite Hcs. apply lookup_replicate_2. unfold ChildIndexCount. lia. }
  unfold Insert. rewrite decide_False by done. rewrite Hhs, Hins.
  destruct (Branch_UpdateHash_total digest Hd b') as [r ->].
  { by apply soundBranch_true in Hb' as (_ & _ & Hb'). }
  simpl. by eexists.
Qed.

(** ** The gob framing is unambiguous *)

Lemma byte_of_to_N n : Byte.to_N (gob.byte_of n) = (n mod 256)%N.
Proof.
  unfold gob.byte_of. destruct (Byte.of_N (n mod 256)) as [b|] eqn:Hb.
  - by apply Byte.to_of_N.
  - apply Byte.of_N_None_iff in Hb.
    pose proof (N.mod_upper_bound n 256 ltac:(lia)). lia.
Qed.

Lemma to_N_inj b1 b2 : Byte.to_N b1 = Byte.to_N b2 -> b1 = b2.
Proof.
  intros H. apply (f_equal Byte.of_N) in H. rewrite !Byte.of_to_N in H. by injection H.
Qed.

Lemma bigEndianValue_snoc ds b :
  bigEndianValue (ds ++ [b]) = (bigEndianValue ds * 256 + Byte.to_N b)%N.
Proof. unfold bigEndianValue. by rewrite fold_left_app. Qed.

Lemma big_endian_digits fuel n acc :
  (n < 256 ^ N.of_nat fuel)%N ->
  exists ds, gob.big_endian fuel n acc = ds ++ acc /\ bigEndianValue ds = n /\
             length ds <= fuel /\ (n <> 0%N -> ds <> []).
Proof.
  revert n acc. induction fuel as [|fuel IH]; intros n acc Hn.
  - assert (n = 0%N) as -> by (simpl in Hn; lia).
    exists []. repeat split; [simpl; lia|done].
  - simpl. destruct (n =? 0)%N eqn:Hz.
    + apply N.eqb_eq in Hz. subst n. exists []. repeat split; [simpl; lia|done].
    + apply N.eqb_neq in Hz.
      destruct (IH (n / 256)%N (gob.byte_of n :: acc)) as (ds & Heq & Hval & Hlen & _).
      { apply N.Div0.div_lt_upper_bound.
        rewrite Nat2N.inj_succ, N.pow_succ_r' in Hn. lia. }
      exists (ds ++ [gob.byte_of n]). repeat split.
      * by rewrite Heq, <- app_assoc.
      * rewrite bigEndianValue_snoc, Hval, byte_of_to_N.
        pose proof (N.div_mod' n 256). lia.
      * rewrite length_app. simpl. lia.
      * intros _. by destruct ds.
Qed.

Lemma encodeUint_shape n :
  (n < 2 ^ 64)%N ->
  ((n < 128)%N /\ gob.encodeUint n = [gob.byte_of n]) \/
  ((128 <= n)%N /\
   exists ds, gob.encodeUint n = gob.byte_of (256 - N.of_nat (length ds)) :: ds /\
              bigEndianValue ds = n /\ 1 <= length ds <= 8).
Proof.
  intros Hn. unfold gob.encodeUint. destruct (n <? 128)%N eqn:Hlt.
  - apply N.ltb_lt in Hlt. by left.
  - apply N.ltb_ge in Hlt. right. split; [done|].
    destruct (big_endian_digits 8 n []) as (ds & Heq & Hval & Hlen & Hne).
    { change (256 ^ N.of_nat 8)%N with (2 ^ 64)%N. done. }
    rewrite app_nil_r in Heq. rewrite Heq. exists ds. repeat split; try done.
    destruct ds; [|simpl; lia]. exfalso. apply Hne; [lia|done].
Qed.

Lemma encodeUint_prefix_free n n' r r' :
  (n < 2 ^ 64)%N -> (n' < 2 ^ 64)%N ->
  gob.encodeUint n ++ r = gob.encodeUint n' ++ r' -> n = n' /\ r = r'.
Proof.
  intros Hn Hn' Heq.
  destruct (encodeUint_shape n Hn) as [[Hs Es]|[Hl (ds & El & Hv & Hlen)]];
    destruct (encodeUint_shape n' Hn') as [[Hs' Es']|[Hl' (ds' & El' & Hv' & Hlen')]].
  - rewrite Es, Es' in Heq. simpl in Heq. injection Heq as Hb Hr.
    apply (f_equal Byte.to_N) in Hb. rewrite !byte_of_to_N in Hb.
    rewrite !N.mod_small in Hb by lia. done.
  - exfalso. rewrite Es, El' in Heq. simpl in Heq. injection Heq as Hb _.
    apply (f_equal Byte.to_N) in Hb. rewrite !byte_of_to_N in Hb.
    rewrite !N.mod_small in Hb by lia. lia.
  - exfalso. rewrite El, Es' in Heq. simpl in Heq. injection Heq as Hb _.
    apply (f_equal Byte.to_N) in Hb. rewrite !byte_of_to_N in Hb.
    rewrite !N.mod_small in Hb by lia. lia.
  - rewrite El, El' in Heq. simpl in Heq. injection Heq as Hb Hrest.
    apply (f_equal Byte.to_N) in Hb. rewrite !byte_of_to_N in Hb.
    rewrite !N.mod_small in Hb by lia.
    assert (length ds = length ds') as Hlens by lia.
    apply app_inj_1 in Hrest as [-> ->]; [|done]. split; [congruence|done].
Qed.

Lemma message_prefix_free v v' r r' :
  smallValue v -> smallValue v' ->
  gob.message v ++ r = gob.message v' ++ r' -> v = v' /\ r = r'.
Proof.
  unfold smallValue, smallBlob. intros Hv Hv' Heq.
  apply N.ltb_lt in Hv, Hv'.
  assert (forall n, (n < 128)%N -> length (gob.encodeUint n) = 1) as Hone.
  { intros n Hn. unfold gob.encodeUint.
    by rewrite (proj2 (N.ltb_lt n 128) Hn). }
  assert (forall n, (n < 2 ^ 64)%N -> length (gob.encodeUint n) <= 9) as Hnine.
  { intros n Hn. destruct (encodeUint_shape n Hn) as [[_ ->]|[_ (ds & -> & _ & Hl)]];
      simpl; lia. }
  assert (forall w,
            (N.of_nat (length (gob.payload w)) + 11 < 2 ^ 64)%N ->
            (N.of_nat (length (gob.encodeInt (gob.typeId w) ++ [Byte.x00]
                               ++ gob.encodeUint (N.of_nat (length (gob.payload w)))
                               ++ gob.payload w)) < 2 ^ 64)%N) as Hbody.
  { intros w Hw. rewrite !length_app. simpl.
    unfold gob.encodeInt. rewrite Hone by (destruct w; simpl; lia).
    pose proof (Hnine (N.of_nat (length (gob.payload w))) ltac:(lia)). lia. }
  unfold gob.message in Heq. cbv zeta in Heq. rewrite <- !app_assoc in Heq.
  apply encodeUint_prefix_free in Heq as [_ Heq]; [|by apply Hbody|by apply Hbody].
  unfold gob.encodeInt in Heq.
  apply encodeUint_prefix_free in Heq as [Htid Heq];
    [|destruct v; simpl; lia|destruct v'; simpl; lia].
  simpl in Heq. injection Heq as Heq.
  apply encodeUint_prefix_free in Heq as [Hlen Heq]; [|lia|lia].
  apply Nat2N.inj in Hlen.
  apply app_inj_1 in Heq as [Hp ->]; [|done]. split; [|done].
  destruct v, v'; simpl in *; try lia; by subst.
Qed.

Lemma stream_concat vs : gob.stream vs = concat (map gob.message vs).
Proof.
  unfold gob.stream.
  assert (forall w, foldl (fun w v => gob.Encode v w) w vs = w ++ concat (map gob.message vs))
    as H; [|by rewrite H].
  induction vs as [|v vs IH]; intros w; simpl; [by rewrite app_nil_r|].
  rewrite IH. unfold gob.Encode. by rewrite <- app_assoc.
Qed.

Lemma message_nonempty v : gob.message v <> [].
Proof.
  unfold gob.message, gob.encodeUint. cbv zeta. by destruct (_ <? 128)%N.
Qed.

Lemma stream_inj vs vs' :
  Forall smallValue vs -> Forall smallValue vs' ->
  gob.stream vs = gob.stream vs' -> vs = vs'.
Proof.
  rewrite !stream_concat. revert vs'.
  induction vs as [|v vs IH]; intros [|v' vs'] Hs Hs' Heq; simpl in Heq.
  - done.
  - exfalso. symmetry in Heq. apply app_eq_nil in Heq as [Heq _].
    by apply message_nonempty in Heq.
  - exfalso. apply app_eq_nil in Heq as [Heq _]. by apply message_nonempty in Heq.
  - inversion Hs as [|? ? Hv Hs0]. inversion Hs' as [|? ? Hv' Hs0']. subst.
    apply message_prefix_free in Heq as [-> Heq]; [|done|done].
    f_equal. by apply IH.
Qed.

(** ** The pre-images determine what they were written from *)

Lemma extensionPreimage_inj k nh v k' nh' v' :
  extensionPreimage k nh v = extensionPreimage k' nh' v' -> k = k' /\ nh = nh' /\ v = v'.
Proof.
  unfold extensionPreimage.
  destruct nh as [h|], nh' as [h'|], v as [x|], v' as [x'|]; simpl; intros H;
    try discriminate; injection H; intros; subst; done.
Qed.

Lemma branchPreimage_inj slots slots' :
  branchPreimage slots = branchPreimage slots' -> slots = slots'.
Proof.
  unfold branchPreimage. intros [= H]. revert slots' H.
  induction slots as [|[h|] slots IH]; intros [|[h'|] slots'] H; simpl in H;
    try discriminate; try done.
  - injection H as -> H. f_equal. by apply IH.
  - injection H as H. f_equal. by apply IH.
Qed.

Lemma extensionPreimage_small k nh v :
  smallBlob k = true ->
  (forall h, nh = Some h -> smallBlob h = true) ->
  (forall x, v = Some x -> smallBlob x = true) ->
  Forall smallValue (extensionPreimage k nh v).
Proof.
  intros Hk Hnh Hv. unfold extensionPreimage.
  repeat first [apply Forall_app; split | apply List.Forall_cons | apply List.Forall_nil];
    try reflexivity; try exact Hk.
  - destruct nh as [h|]; repeat (apply List.Forall_cons || apply List.Forall_nil);
      try reflexivity. by apply Hnh.
  - destruct v as [x|]; repeat (apply List.Forall_cons || apply List.Forall_nil);
      try reflexivity. by apply Hv.
Qed.

Lemma branchPreimage_small (slots : list (option HashBlob)) :
  (forall i h, slots !! i = Some (Some h) -> smallBlob h = true) ->
  Forall smallValue (branchPreimage slots).
Proof.
  intros H. unfold branchPreimage. apply List.Forall_cons; [reflexivity|].
  induction slots as [|[h|] slots IH]; simpl.
  - apply List.Forall_nil.
  - apply List.Forall_cons; [reflexivity|]. apply List.Forall_cons; [by apply (H 0)|].
    apply IH. intros i h' Hi. by apply (H (S i)).
  - apply List.Forall_cons; [reflexivity|]. apply IH. intros i h' Hi. by apply (H (S i)).
Qed.

Lemma Extension_Serialize_Val e s :
  Extension.Serialize e = Val s ->
  s = gob.stream (extensionPreimage (Extension.Key e) (nextHash (Extension.Next e))
                    (Value <$> Extension.ValueObject e)).
Proof.
  intros Hs.
  assert (forall h, nextHash (Extension.Next e) = Some h -> h <> []) as Hh.
  { intros h Hn ->. destruct e as [h0 k n v]. unfold Extension.Serialize in Hs.
    destruct n as [|[h1 k1 n1 v1]|[h1 cs1]]; simpl in *; [done| |];
      injection Hn as ->; simpl in Hs; done. }
  rewrite Extension_Serialize_stream in Hs by done. by injection Hs.
Qed.

Lemma encodeChildren_Val cs w s :
  Branch.encodeChildren cs w = Val s ->
  forall i c, cs !! i = Some (Some c) -> Extension.hash c <> [].
Proof.
  revert w. induction cs as [|[c|] cs IH]; intros w Hs i e He; simpl in Hs.
  - by destruct i.
  - destruct (Extension.Hash c) as [hc| |] eqn:Hc; [|done|done]. simpl in Hs.
    destruct i as [|i]; simpl in He.
    + injection He as <-. by apply nodeBase_Hash_Val in Hc as [_ Hc].
    + by eapply IH.
  - destruct i as [|i]; simpl in He; [done|]. by eapply IH.
Qed.

Lemma Branch_Serialize_Val b s :
  Branch.Serialize b = Val s ->
  s = gob.stream (branchPreimage (map (fmap Extension.hash) (Branch.ListChildren b))).
Proof.
  intros Hs. pose proof (encodeChildren_Val _ _ _ Hs) as Hh.
  rewrite Branch_Serialize_stream in Hs by done. by injection Hs.
Qed.

(** ** Small blobs everywhere *)

Lemma boundedSlots_lookup bounded (cs : list (option nodeExtension)) :
  boundedSlots bounded cs = true <->
  forall i e, cs !! i = Some (Some e) -> bounded e = true.
Proof.
  unfold boundedSlots. induction cs as [|[x|] cs IH]; simpl.
  - split; [|done]. intros _ i e He. by destruct i.
  - rewrite andb_true_iff, IH. split.
    + intros [Hx Hcs] [|i] e He; simpl in He; [by injection He as <-|by eapply Hcs].
    + intros H. split; [by apply (H 0)|]. intros i e He. by apply (H (S i)).
  - rewrite IH. split.
    + intros Hcs [|i] e He; simpl in He; [done|by eapply Hcs].
    + intros H i e He. by apply (H (S i)).
Qed.

Lemma boundedBranch_true b :
  boundedBranch b = true <->
  smallBlob (Branch.hash b) = true /\
  forall i e, Branch.ListChildren b !! i = Some (Some e) -> boundedExtension e = true.
Proof. destruct b as [h cs]. simpl. by rewrite andb_true_iff, boundedSlots_lookup. Qed.

Lemma boundedExtension_true e :
  boundedExtension e = true <->
  smallBlob (Extension.hash e) = true /\ smallBlob (Extension.Key e) = true /\
  (forall vo, Extension.ValueObject e = Some vo -> smallBlob (Value vo) = true) /\
  boundedNode (Extension.Next e) = true.
Proof.
  destruct e as [h k n v]. simpl.
  assert (match v with Some vo => smallBlob (Value vo) | None => true end = true <->
          forall vo, v = Some vo -> smallBlob (Value vo) = true) as Hv.
  { destruct v as [vo|]; split; try done.
    - by intros H vo' [= <-].
    - intros H. by apply H. }
  destruct n as [|n|[h' cs]]; simpl; rewrite !andb_true_iff, Hv; tauto.
Qed.

Lemma boundedNode_nextHash n h :
  boundedNode n = true -> nextHash n = Some h -> smallBlob h = true.
Proof.
  destruct n as [|e|b]; simpl; [done| |]; intros Hb [= <-].
  - by apply boundedExtension_true in Hb as (Hh & _).
  - by apply boundedBranch_true in Hb as (Hh & _).
Qed.

(** ** The hash of a node binds the node *)

Section Binding.

Variable hs : crypto_Hash.
Hypothesis hs_collision_free : collisionFree hs.

Lemma extension_tokens e :
  consistentExtension hs e -> boundedExtension e = true ->
  hs (gob.stream (extensionPreimage (Extension.Key e) (nextHash (Extension.Next e))
                    (Value <$> Extension.ValueObject e))) = Val (Extension.hash e) /\
  Forall smallValue (extensionPreimage (Extension.Key e) (nextHash (Extension.Next e))
                       (Value <$> Extension.ValueObject e)).
Proof.
  intros Hc Hb. apply consistentExtension_eq in Hc as [(s & Hs & Hd) _].
  apply Extension_Serialize_Val in Hs. subst s. split; [done|].
  apply boundedExtension_true in Hb as (_ & Hk & Hv & Hn).
  apply extensionPreimage_small; [done| |].
  - intros h. by apply boundedNode_nextHash.
  - intros x Hx. destruct (Extension.ValueObject e) as [vo|]; [|done].
    injection Hx as <-. by apply Hv.
Qed.

Lemma branch_tokens b :
  consistentBranch hs b -> boundedBranch b = true ->
  hs (gob.stream (branchPreimage (map (fmap Extension.hash) (Branch.ListChildren b))))
    = Val (Branch.hash b) /\
  Forall smallValue (branchPreimage (map (fmap Extension.hash) (Branch.ListChildren b))).
Proof.
  intros Hc Hb. apply consistentBranch_eq in Hc as [(s & Hs & Hd) _].
  apply Branch_Serialize_Val in Hs. subst s. split; [done|].
  apply boundedBranch_true in Hb as (_ & Hcs).
  apply branchPreimage_small. intros i h Hi.
  rewrite lookup_map in Hi.
  destruct (Branch.ListChildren b !! i) as [[e|]|] eqn:He; simpl in Hi; [|done|done].
  injection Hi as <-. pose proof (Hcs i e He) as Hbe.
  by apply boundedExtension_true in Hbe as (Hh & _).
Qed.

Lemma extension_branch_hashes_differ e b :
  consistentExtension hs e -> boundedExtension e = true ->
  consistentBranch hs b -> boundedBranch b = true ->
  Extension.hash e <> Branch.hash b.
Proof.
  intros Hce Hbe Hcb Hbb Heq.
  destruct (extension_tokens e Hce Hbe) as [He Hse].
  destruct (branch_tokens b Hcb Hbb) as [Hb Hsb].
  rewrite Heq in He.
  pose proof (hs_collision_free _ _ _ He Hb) as Hstream.
  apply stream_inj in Hstream; [|done|done].
  unfold extensionPreimage, branchPreimage in Hstream. simpl in Hstream. discriminate.
Qed.

Lemma binding_slots (cs1 : list (option nodeExtension)) :
  (forall i e1, cs1 !! i = Some (Some e1) ->
     forall e2, consistentExtension hs e1 -> consistentExtension hs e2 ->
                boundedExtension e1 = true -> boundedExtension e2 = true ->
                Extension.hash e1 = Extension.hash e2 -> e1 = e2) ->
  forall cs2,
    (forall i e, cs1 !! i = Some (Some e) ->
       consistentExtension hs e /\ boundedExtension e = true) ->
    (forall i e, cs2 !! i = Some (Some e) ->
       consistentExtension hs e /\ boundedExtension e = true) ->
    map (fmap Extension.hash) cs1 = map (fmap Extension.hash) cs2 -> cs1 = cs2.
Proof.
  induction cs1 as [|c1 cs1 IHcs]; intros IH cs2 H1 H2 Hmap.
  - by destruct cs2.
  - destruct cs2 as [|c2 cs2]; [done|]. simpl in Hmap. injection Hmap as Hc Hmap.
    f_equal.
    + destruct c1 as [e1|], c2 as [e2|]; try done. simpl in Hc. injection Hc as Hc.
      f_equal. destruct (H1 0 e1 eq_refl) as [Hc1 Hb1].
      destruct (H2 0 e2 eq_refl) as [Hc2 Hb2]. by apply (IH 0 e1).
    + apply IHcs; [|intros i e He; by apply (H1 (S i))|
                   intros i e He; by apply (H2 (S i))|done].
      intros i e1 He. by apply (IH (S i)).
Qed.

Lemma hash_binds_node :
  (forall e1 e2, consistentExtension hs e1 -> consistentExtension hs e2 ->
     boundedExtension e1 = true -> boundedExtension e2 = true ->
     Extension.hash e1 = Extension.hash e2 -> e1 = e2) /\
  (forall b1 b2, consistentBranch hs b1 -> consistentBranch hs b2 ->
     boundedBranch b1 = true -> boundedBranch b2 = true ->
     Branch.hash b1 = Branch.hash b2 -> b1 = b2).
Proof.
  apply (node_mutual_induction
           (fun e1 => forall e2, consistentExtension hs e1 -> consistentExtension hs e2 ->
              boundedExtension e1 = true -> boundedExtension e2 = true ->
              Extension.hash e1 = Extension.hash e2 -> e1 = e2)
           (fun b1 => forall b2, consistentBranch hs b1 -> consistentBranch hs b2 ->
              boundedBranch b1 = true -> boundedBranch b2 = true ->
              Branch.hash b1 = Branch.hash b2 -> b1 = b2)).
  - intros e1 IH e2 Hc1 Hc2 Hb1 Hb2 Hh.
    destruct (extension_tokens e1 Hc1 Hb1) as [Hd1 Hs1].
    destruct (extension_tokens e2 Hc2 Hb2) as [Hd2 Hs2].
    rewrite Hh in Hd1.
    pose proof (hs_collision_free _ _ _ Hd1 Hd2) as Hstream.
    apply stream_inj in Hstream; [|done|done].
    apply extensionPreimage_inj in Hstream as (Hk & Hn & Hv).
    apply consistentExtension_next in Hc1, Hc2.
    apply boundedExtension_true in Hb1 as (_ & _ & _ & Hbn1).
    apply boundedExtension_true in Hb2 as (_ & _ & _ & Hbn2).
    assert (Extension.Next e1 = Extension.Next e2) as Hnext.
    { destruct (Extension.Next e1) as [|n1|b1], (Extension.Next e2) as [|n2|b2];
        simpl in Hn; try done; injection Hn as Hn.
      - f_equal. by apply IH.
      - exfalso. by apply (extension_branch_hashes_differ n1 b2).
      - exfalso. symmetry in Hn. by apply (extension_branch_hashes_differ n2 b1).
      - f_equal. by apply IH. }
    apply extension_eq; try done.
    destruct (Extension.ValueObject e1) as [[x1]|], (Extension.ValueObject e2) as [[x2]|];
      simpl in Hv; try done. by injection Hv as ->.
  - intros [h1 cs1] IH [h2 cs2] Hc1 Hc2 Hb1 Hb2 Hh. simpl in Hh. subst h2.
    destruct (branch_tokens _ Hc1 Hb1) as [Hd1 Hs1].
    destruct (branch_tokens _ Hc2 Hb2) as [Hd2 Hs2].
    simpl in Hd1, Hd2.
    pose proof (hs_collision_free _ _ _ Hd1 Hd2) as Hstream.
    apply stream_inj in Hstream; [|done|done].
    apply branchPreimage_inj in Hstream.
    apply consistentBranch_children in Hc1, Hc2.
    apply boundedBranch_true in Hb1 as (_ & Hbc1).
    apply boundedBranch_true in Hb2 as (_ & Hbc2).
    f_equal. apply (binding_slots cs1 IH cs2); [| |done].
    + intros i e He. split; [by apply (Hc1 i)|by apply (Hbc1 i)].
    + intros i e He. split; [by apply (Hc2 i)|by apply (Hbc2 i)].
Qed.

End Binding.

(** ** The rendering of the nodes as text *)

Lemma marshalValue_short value bf log :
  marshalValue value bf log
  = (fst (marshalValue (shortValue value) bf log),
     log ++ replicate (oversizedValue value) tooLargeValue) /\
  snd (marshalValue (shortValue value) bf log) = log.
Proof.
  destruct value as [[v]|]; simpl; [|by rewrite app_nil_r].
  assert (~ 100 < length (take 100 v)) as Hshort by (rewrite length_take; lia).
  rewrite (decide_False (P := 100 < length (take 100 v))) by done.
  case_decide as Hlong; simpl; [done|].
  rewrite app_nil_r. by rewrite (take_ge v 100) by lia.
Qed.

Lemma marshalChildren_short marshal oversized short cs :
  (forall i e, cs !! i = Some (Some e) ->
     exists j, forall log,
       marshal e log = (Val j, log ++ replicate (oversized e) tooLargeValue) /\
       marshal (short e) log = (Val j, log)) ->
  forall index bf, exists bf', forall log,
    marshalChildren marshal cs index bf log
    = (Val bf', log ++ replicate (oversizedSlots oversized cs) tooLargeValue) /\
    marshalChildren marshal (map (option_map short) cs) index bf log = (Val bf', log).
Proof.
  induction cs as [|c cs IH]; intros Hcs index bf.
  - exists bf. intros log. simpl. by rewrite app_nil_r.
  - assert (forall i e, cs !! i = Some (Some e) ->
              exists j, forall log,
                marshal e log = (Val j, log ++ replicate (oversized e) tooLargeValue) /\
                marshal (short e) log = (Val j, log)) as Hrest
      by (intros i e He; exact (Hcs (S i) e He)).
    destruct c as [e|].
    + destruct (Hcs 0 e eq_refl) as [j Hj].
      destruct (IH Hrest (S index)
                  ((if decide (0 < index) then bf ++ str "," else bf) ++ j)) as [bf' Hbf'].
      exists bf'. intros log. cbn [marshalChildren map option_map oversizedSlots foldr].
      destruct (Hj log) as [-> ->].
      destruct (Hbf' (log ++ replicate (oversized e) tooLargeValue)) as [-> _].
      destruct (Hbf' log) as [_ ->].
      split; [|done]. f_equal.
      by rewrite <- app_assoc, <- replicate_add.
    + destruct (IH Hrest (S index)
                  ((if decide (0 < index) then bf ++ str "," else bf) ++ str "null"))
        as [bf' Hbf'].
      exists bf'. intros log. cbn [marshalChildren map option_map oversizedSlots foldr].
      exact (Hbf' log).
Qed.

Lemma MarshalJSON_short :
  (forall e, exists j, forall log,
     Extension_MarshalJSON e log
     = (Val j, log ++ replicate (oversizedExtension e) tooLargeValue) /\
     Extension_MarshalJSON (shortExtension e) log = (Val j, log)) /\
  (forall b, exists j, forall log,
     Branch_MarshalJSON b log
     = (Val j, log ++ replicate (oversizedBranch b) tooLargeValue) /\
     Branch_MarshalJSON (shortBranch b) log = (Val j, log)).
Proof.
  apply node_mutual_induction.
  - intros [h k n v] IH. cbn [Extension.Next] in IH.
    assert (forall bf, exists j, forall log extra,
              (let '(bf', log') := marshalValue v bf (log ++ extra) in
               (Val ((bf' ++ marshalHash h) ++ str "}"), log'))
              = (Val j, log ++ extra ++ replicate (oversizedValue v) tooLargeValue) /\
              (let '(bf', log') := marshalValue (shortValue v) bf log in
               (Val ((bf' ++ marshalHash h) ++ str "}"), log'))
              = (@Val (list byte) j, log)) as Hfinish.
    { intros bf.
      exists ((fst (marshalValue (shortValue v) bf []) ++ marshalHash h) ++ str "}").
      intros log extra.
      destruct (marshalValue_short v bf (log ++ extra)) as [-> _].
      pose proof (marshalValue_short v bf log) as [_ Hlog].
      assert (forall l1 l2, fst (marshalValue (shortValue v) bf l1)
                            = fst (marshalValue (shortValue v) bf l2)) as Hfst.
      { intros l1 l2. destruct v as [[v]|]; [|done].
        cbn [marshalValue shortValue Value].
        destruct (decide (100 < length (take 100 v))) as [Hlong|_]; [|reflexivity].
        rewrite length_take in Hlong. lia. }
      split.
      - rewrite (Hfst (log ++ extra) []). cbn beta iota. by rewrite (app_assoc log extra).
      - destruct (marshalValue (shortValue v) bf log) as [bf' log'] eqn:Hm.
        simpl in Hlog. subst log'.
        rewrite (Hfst [] log), Hm. done. }
    destruct n as [|e'|b'].
    + destruct (Hfinish
                  ((((str "{" ++ quoted (str "type") ++ str ":" ++ quoted (str "Extension")
                      ++ str ",") ++ quoted (str "key") ++ str ":" ++ quoted k ++ str ",")
                    ++ quoted (str "next") ++ str ":null,") ++ quoted (str "value") ++ str ":"))
        as [j Hj].
      exists j. intros log.
      destruct (Hj log []) as [H1 H2]. rewrite app_nil_r in H1. simpl in H1.
      split; [exact H1|exact H2].
    + destruct IH as [j' Hj'].
      destruct (Hfinish
                  ((((str "{" ++ quoted (str "type") ++ str ":" ++ quoted (str "Extension")
                      ++ str ",") ++ quoted (str "key") ++ str ":" ++ quoted k ++ str ",")
                    ++ quoted (str "next") ++ str ":" ++ j' ++ str ",")
                   ++ quoted (str "value") ++ str ":"))
        as [j Hj].
      exists j. intros log.
      cbn [Extension_MarshalJSON shortExtension oversizedExtension].
      fold shortExtension.
      destruct (Hj' log) as [-> ->].
      destruct (Hj log (replicate (oversizedExtension e') tooLargeValue)) as [H1 H2].
      split; [|exact H2].
      rewrite replicate_add. exact H1.
    + destruct IH as [j' Hj'].
      destruct (Hfinish
                  ((((str "{" ++ quoted (str "type") ++ str ":" ++ quoted (str "Extension")
                      ++ str ",") ++ quoted (str "key") ++ str ":" ++ quoted k ++ str ",")
                    ++ quoted (str "next") ++ str ":" ++ j' ++ str ",")
                   ++ quoted (str "value") ++ str ":"))
        as [j Hj].
      exists j. intros log.
      destruct b' as [h' cs].
      cbn [Extension_MarshalJSON shortExtension oversizedExtension].
      fold shortExtension.
      unfold Branch_MarshalJSON, shortBranch, oversizedBranch in Hj'.
      cbn [Branch.hash Branch.ListChildren] in Hj'.
      destruct (Hj' log) as [-> ->].
      destruct (Hj log (replicate (oversizedSlots oversizedExtension cs) tooLargeValue))
        as [H1 H2].
      split; [|exact H2].
      rewrite replicate_add. exact H1.
  - intros [h cs] IH. cbn [Branch.ListChildren] in IH.
    destruct (marshalChildren_short Extension_MarshalJSON oversizedExtension shortExtension
                cs IH 0
                ((str "{" ++ quoted (str "type") ++ str ":" ++ quoted (str "Branch") ++ str ",")
                 ++ quoted (str "children") ++ str ":[")) as [bf' Hbf'].
    exists (((bf' ++ str "],") ++ marshalHash h) ++ str "}"). intros log.
    unfold Branch_MarshalJSON, shortBranch, oversizedBranch, marshalBranch.
    cbn [Branch.hash Branch.ListChildren].
    by destruct (Hbf' log) as [-> ->].
Qed.

(** * Further properties of the code *)

(** X1: [commonPrefix] returns the longest common prefix of its two
    strings, which is not empty; it returns the length error exactly when
    one string is empty and the no-common-prefix error exactly when both
    are non-empty and start with different characters; it never panics. *)
Theorem commonPrefix_is_longest_common_prefix (a b : gostring) :
  match commonPrefix a b with
  | Val p =>
      p <> [] /\ p `prefix_of` a /\ p `prefix_of` b /\
      forall q, q `prefix_of` a -> q `prefix_of` b -> q `prefix_of` p
  | Fail e =>
      (e = ErrStringLength /\ (a = [] \/ b = [])) \/
      (e = ErrNoCommonPrefix /\ a <> [] /\ b <> [] /\ a !! 0 <> b !! 0)
  | Abort _ => False
  end.
Proof.
  destruct (commonPrefix a b) as [p|e|msg] eqn:Hp.
  - destruct (commonPrefix_Val _ _ _ Hp) as (n & Hn1 & Hna & Hnb & Hpa & Hpb & Hmax).
    split; [|split; [|split]].
    + intros ->. apply (f_equal length) in Hpa. rewrite length_take in Hpa.
      simpl in Hpa. lia.
    + rewrite Hpa. apply prefix_take.
    + rewrite Hpb. apply prefix_take.
    + intros q Hqa Hqb.
      pose proof (take_prefix_of _ _ Hqa) as Ea.
      pose proof (take_prefix_of _ _ Hqb) as Eb.
      pose proof (prefix_length _ _ Hqa) as La.
      pose proof (prefix_length _ _ Hqb) as Lb.
      assert (length q <= n) as Hle.
      { destruct (decide (length q <= n)) as [|Hgt]; [done|]. exfalso.
        destruct Hmax as [->|[->|Hne]]; [lia|lia|]. apply Hne.
        rewrite <- (lookup_take_lt a (length q) n) by lia.
        rewrite <- (lookup_take_lt b (length q) n) by lia.
        by rewrite <- Ea, <- Eb. }
      assert (q = take (length q) (take n a)) as Hq.
      { rewrite take_take, Nat.min_l by done. exact Ea. }
      rewrite Hpa. exists (drop (length q) (take n a)).
      transitivity (take (length q) (take n a) ++ drop (length q) (take n a));
        [by rewrite take_drop|by rewrite <- Hq].
  - unfold commonPrefix in Hp.
    destruct (bool_decide (length a = 0)) eqn:Ha.
    { apply bool_decide_eq_true in Ha. simpl in Hp. injection Hp as <-.
      left. split; [done|]. left. by apply nil_length_inv. }
    destruct (bool_decide (length b = 0)) eqn:Hb.
    { apply bool_decide_eq_true in Hb. simpl in Hp. injection Hp as <-.
      left. split; [done|]. right. by apply nil_length_inv. }
    simpl in Hp. apply bool_decide_eq_false in Ha, Hb.
    destruct (decide (a !! 0 = b !! 0)) as [|Hne]; [done|]. injection Hp as <-.
    right. repeat split; try done; by intros ->.
  - unfold commonPrefix in Hp. repeat case_match; done.
Qed.

(** X2: the hex form [Insert], [Delete] and [FindMerklePath] give a key has
    two characters for each byte, all of them lowercase hex digits, and
    distinct keys have distinct hex forms.  [toChildIndex] accepts exactly
    the lowercase hex digits and never answers a slot above 9: it panics on
    every other character. *)
Theorem hex_key_characters_have_slots (key key' : list byte) (c : byte) :
  length (hex.EncodeToString key) = 2 * length key /\
  Forall (fun d => exists i, toChildIndex d = Val i /\ i < 10) (hex.EncodeToString key) /\
  (hex.EncodeToString key = hex.EncodeToString key' -> key = key') /\
  match toChildIndex c with
  | Val i => isHexDigit c = true /\ i < 10
  | Fail _ => False
  | Abort _ => isHexDigit c = false
  end.
Proof.
  split; [|split; [|split]].
  - induction key as [|v key IH]; simpl; [done|]. rewrite IH. lia.
  - eapply List.Forall_impl; [|apply EncodeToString_digits].
    intros d Hd. by apply isHexDigit_toChildIndex.
  - apply EncodeToString_inj.
  - destruct (toChildIndex c) as [i|e|msg] eqn:Hc.
    + by apply toChildIndex_Val.
    + by apply toChildIndex_not_Fail in Hc.
    + destruct (isHexDigit c) eqn:Hd; [|done].
      apply isHexDigit_toChildIndex in Hd as (i & Hi & _). congruence.
Qed.

(** X3: after an [Insert] that returned nil the key is stored with the
    value given: a lookup path leads from the root to an Extension that
    holds it.  The digest of the trie is the one it had, and another
    [Insert] of the key is rejected and leaves the trie as it is. *)
Theorem insert_then_stored (mt mt' : MerklePatriciaTrie) (key value : list byte) (u : unit)
    (Hins : Insert key value mt = Ok u mt') :
  storedWith mt' key value /\ stored mt' key /\ hs mt' = hs mt /\
  forall value', exists tail, Insert key value' mt' = Err (ErrKeyExists tail) mt'.
Proof.
  destruct (Insert_Ok_storedWith _ _ _ _ _ Hins) as [Hwith Hhs].
  assert (stored mt' key) as Hstored.
  { destruct Hwith as (trail & Hpath & _). by exists trail. }
  repeat split; try done. intros value'. by apply Insert_on_stored.
Qed.

Lemma insert_then_stored_witness :
  Insert tests_key value5 emptyTrie = Ok tt keyTrie /\
  storedWith keyTrie tests_key value5 /\ stored keyTrie tests_key.
Proof.
  split; [exact emptyTrie_insert_key|].
  pose proof (insert_then_stored emptyTrie keyTrie tests_key value5 tt emptyTrie_insert_key)
    as (Hwith & Hstored & _).
  split; [exact Hwith|exact Hstored].
Defined.

(** X4: with a digest that never returns an error, an [Insert] that
    returns an error has written nothing: the trie is the one before the
    call, and the error is the length error of an empty key or the
    key-exists error of a key that is stored. *)
Theorem failed_insert_changes_nothing (mt mt' : MerklePatriciaTrie)
    (key value : list byte) (err : error)
    (Hdigest : unfailingDigest (hs mt))
    (Hins : Insert key value mt = Err err mt') :
  mt' = mt /\
  ((key = [] /\ err = ErrKeyLength) \/
   (stored mt key /\ exists tail, err = ErrKeyExists tail)).
Proof. by apply (Insert_Err_unchanged key value). Qed.

Lemma failed_insert_changes_nothing_witness :
  unfailingDigest (hs keyTrie) /\
  Insert tests_key (str "other") keyTrie = Err (ErrKeyExists (str "6b6579")) keyTrie /\
  stored keyTrie tests_key.
Proof.
  split; [exact sha256Hash_unfailing|]. split; [exact keyTrie_insert_other|].
  destruct (failed_insert_changes_nothing keyTrie keyTrie tests_key (str "other") _
              sha256Hash_unfailing keyTrie_insert_other) as [_ [[Hnil _]|[Hstored _]]].
  - discriminate Hnil.
  - exact Hstored.
Defined.

(** X5: a [Delete] that returns nil was given a key that was stored, and
    it keeps the digest of the trie. *)
Theorem delete_succeeds_only_on_stored_key (mt mt' : MerklePatriciaTrie)
    (key : list byte) (u : unit)
    (Hdel : Delete key mt = Ok u mt') :
  stored mt key /\ key <> [] /\ hs mt' = hs mt.
Proof.
  split; [by eapply Delete_success_stored|].
  unfold Delete in Hdel. case_decide as Hk; [done|].
  split; [by intros ->|].
  destruct (deleteKeyInBranch _ _ _) as [sd b|e b|]; [|done|done].
  destruct (Branch.UpdateHash _ _); simpl in Hdel; [|done|done]. by injection Hdel as _ <-.
Qed.

Lemma delete_succeeds_only_on_stored_key_witness :
  Delete tests_key keyTrie = Ok tt emptyTrie /\ stored keyTrie tests_key.
Proof.
  split; [exact keyTrie_delete_key|].
  exact (proj1 (delete_succeeds_only_on_stored_key keyTrie emptyTrie tests_key tt
                  keyTrie_delete_key)).
Defined.

(** X6: in a trie reached from a new one by Insert and Delete, with a
    digest that answers every input with a non-empty blob, [Delete] of a
    stored key returns nil: it neither returns an error nor panics. *)
Theorem delete_of_stored_key_succeeds (hs : crypto_Hash) (mt : MerklePatriciaTrie)
    (key : list byte)
    (Hdigest : totalDigest hs)
    (Hreach : reachable hs mt)
    (Hstored : stored mt key) :
  exists mt', Delete key mt = Ok tt mt'.
Proof.
  destruct (reachable_sound hs mt (totalDigest_proper hs Hdigest) Hreach) as [Hsound Hhs].
  apply Delete_stored_succeeds; [by rewrite Hhs|done|done].
Qed.

Lemma delete_of_stored_key_succeeds_witness :
  totalDigest sha256Hash /\ reachable sha256Hash keyTrie /\ stored keyTrie tests_key /\
  exists mt', Delete tests_key keyTrie = Ok tt mt'.
Proof.
  split; [exact sha256Hash_total|]. split; [exact keyTrie_reachable|].
  split; [exact keyTrie_stored|].
  exact (delete_of_stored_key_succeeds sha256Hash keyTrie tests_key sha256Hash_total
           keyTrie_reachable keyTrie_stored).
Defined.

(** X7: with a digest that never returns an error, a [Delete] that
    returns an error has written nothing: the trie is the one before the
    call, and the error is the length error of an empty key or, wrapped as
    "failed to delete key", a not-found error for a key that is not
    stored. *)
Theorem failed_delete_changes_nothing (mt mt' : MerklePatriciaTrie)
    (key : list byte) (err : error)
    (Hdigest : unfailingDigest (hs mt))
    (Hdel : Delete key mt = Err err mt') :
  mt' = mt /\
  ((key = [] /\ err = ErrKeyLength) \/
   (~ stored mt key /\
    exists cause, err = ErrWrap "failed to delete key" cause /\ deleteMiss cause)).
Proof. by apply Delete_Err_unchanged. Qed.

Lemma failed_delete_changes_nothing_witness :
  unfailingDigest (hs keyTrie) /\
  Delete key_k keyTrie =
    Err (ErrWrap "failed to delete key" ErrValueObjectNotFound) keyTrie /\
  ~ stored keyTrie key_k.
Proof.
  split; [exact sha256Hash_unfailing|]. split; [exact keyTrie_delete_k|].
  destruct (failed_delete_changes_nothing keyTrie keyTrie key_k _
              sha256Hash_unfailing keyTrie_delete_k) as [_ [[Hnil _]|[Hmiss _]]].
  - discriminate Hnil.
  - exact Hmiss.
Defined.

(** X8: a [FindMerklePath] that returns a path was given a stored key, and
    the path is the list of sets of the nodes of its lookup path, leaf
    first, followed by the set of the root hash alone; it has at least 3
    sets. *)
Theorem merkle_path_follows_lookup_path (mt mt' : MerklePatriciaTrie)
    (key : list byte) (path : MerklePath)
    (Hfind : FindMerklePath key mt = Ok path mt') :
  stored mt key /\
  (exists trail,
     branchPath (root mt) (hex.EncodeToString key) trail /\
     path = map merkleSetOf trail ++ [mkMerkleSet [Branch.hash (root mt)]]) /\
  3 <= length path.
Proof.
  destruct (FindMerklePath_Ok_path _ _ _ _ Hfind) as (trail & Hpath & Heq & Hlen).
  split; [by exists trail|]. split; [by exists trail|done].
Qed.

Lemma merkle_path_follows_lookup_path_witness :
  FindMerklePath tests_key keyTrie = Ok keyPath keyTrie /\
  stored keyTrie tests_key /\ 3 <= length keyPath.
Proof.
  split; [exact keyTrie_find_key|].
  pose proof (merkle_path_follows_lookup_path keyTrie keyTrie tests_key keyPath
                keyTrie_find_key) as (Hstored & _ & Hlen).
  split; [exact Hstored|exact Hlen].
Defined.

(** X9: a [FindMerklePath] that returns an error was given an empty key,
    with the length error, or a key that is not stored, with one of the
    two not-found errors. *)
Theorem failed_lookup_means_key_not_stored (mt mt' : MerklePatriciaTrie)
    (key : list byte) (err : error)
    (Hfind : FindMerklePath key mt = Err err mt') :
  (key = [] /\ err = ErrKeyLength) \/ (~ stored mt key /\ lookupMiss err).
Proof. by eapply FindMerklePath_Err_miss. Qed.

Lemma failed_lookup_means_key_not_stored_witness :
  FindMerklePath key_k keyTrie = Err ErrValueObjectNotFound keyTrie /\
  ~ stored keyTrie key_k.
Proof.
  split; [exact keyTrie_find_k|].
  destruct (failed_lookup_means_key_not_stored keyTrie keyTrie key_k _ keyTrie_find_k)
    as [[Hnil _]|[Hmiss _]].
  - discriminate Hnil.
  - exact Hmiss.
Defined.

(** X10: in a trie reached from a new one by Insert and Delete, with a
    digest that never answers the empty blob, every node has a non-empty
    cached hash and every Branch has its 16 slots, whatever the calls
    returned; the trie keeps the digest it was made with, and [Hash()] of
    the root does not panic. *)
Theorem reachable_nodes_carry_hashes (digest : crypto_Hash) (mt : MerklePatriciaTrie)
    (Hdigest : properDigest digest)
    (Hreach : reachable digest mt) :
  soundBranch (root mt) = true /\
  hs mt = digest /\
  rootHash mt = Val (Branch.hash (root mt)) /\
  length (Branch.ListChildren (root mt)) = ChildIndexCount /\
  forall key trail, branchPath (root mt) key trail -> Forall soundVisit trail.
Proof.
  destruct (reachable_sound digest mt Hdigest Hreach) as [Hsound Hhs].
  pose proof (proj1 (soundBranch_true _) Hsound) as (Hh & Hlen & _).
  repeat split; try done.
  - by apply nodeBase_Hash_nonempty.
  - intros key trail Hpath. by eapply (proj2 path_sound).
Qed.

Lemma reachable_nodes_carry_hashes_witness :
  properDigest sha256Hash /\ reachable sha256Hash keyAndKTrie /\
  soundBranch (root keyAndKTrie) = true.
Proof.
  split; [exact sha256Hash_proper|]. split; [exact keyAndKTrie_reachable|].
  exact (proj1 (reachable_nodes_carry_hashes sha256Hash keyAndKTrie sha256Hash_proper
                  keyAndKTrie_reachable)).
Defined.

(** X11: in a trie reached from a new one by Insert and Delete, with a
    digest that never returns an error, the cached hash of every node is
    the digest of the serialization of that node: no hash is stale.  An
    error return leaves the trie as it was, so the trie is also the result
    of calls that all returned nil. *)
Theorem cached_hashes_are_digests (hs : crypto_Hash) (mt : MerklePatriciaTrie)
    (Hdigest : unfailingDigest hs)
    (Hreach : reachable hs mt) :
  consistentBranch hs (root mt) /\ built hs mt.
Proof.
  split; [by apply reachable_consistent|by apply reachable_built].
Qed.

Lemma cached_hashes_are_digests_witness :
  unfailingDigest sha256Hash /\ reachable sha256Hash keyAndKTrie /\
  consistentBranch sha256Hash (root keyAndKTrie).
Proof.
  split; [exact sha256Hash_unfailing|]. split; [exact keyAndKTrie_reachable|].
  exact (proj1 (cached_hashes_are_digests sha256Hash keyAndKTrie sha256Hash_unfailing
                  keyAndKTrie_reachable)).
Defined.

(** X12: the hashes are a function of the content.  Two tries reached
    with the same digest that never returns an error, whose nodes have the
    same keys, values, next and children links, have the same cached hash
    at every node, and so the same root hash. *)
Theorem equal_content_gives_equal_hashes (hs : crypto_Hash)
    (mt1 mt2 : MerklePatriciaTrie)
    (Hdigest : unfailingDigest hs)
    (Hreach1 : reachable hs mt1)
    (Hreach2 : reachable hs mt2)
    (Hcontent : contentOfBranch (root mt1) = contentOfBranch (root mt2)) :
  root mt1 = root mt2 /\ rootHash mt1 = rootHash mt2.
Proof.
  destruct (reachable_consistent hs mt1 Hdigest Hreach1) as [H1 _].
  destruct (reachable_consistent hs mt2 Hdigest Hreach2) as [H2 _].
  assert (root mt1 = root mt2) as Heq
    by (by apply (proj2 (content_determines_hashes hs))).
  split; [done|]. unfold rootHash. by rewrite Heq.
Qed.

Lemma equal_content_gives_equal_hashes_witness :
  unfailingDigest sha256Hash /\ reachable sha256Hash emptyTrie /\
  reachable sha256Hash (mkTrie sha256Hash (finalRoot (Delete tests_key keyTrie))) /\
  contentOfBranch (root emptyTrie) =
    contentOfBranch (root (mkTrie sha256Hash (finalRoot (Delete tests_key keyTrie)))) /\
  root emptyTrie = root (mkTrie sha256Hash (finalRoot (Delete tests_key keyTrie))).
Proof.
  assert (reachable sha256Hash emptyTrie) as H1 by (apply reach_new; exact emptyTrie_new).
  assert (reachable sha256Hash (mkTrie sha256Hash (finalRoot (Delete tests_key keyTrie))))
    as H2.
  { eapply reach_delete; [exact keyTrie_reachable|].
    rewrite keyTrie_delete_key. reflexivity. }
  assert (contentOfBranch (root emptyTrie) =
          contentOfBranch (root (mkTrie sha256Hash (finalRoot (Delete tests_key keyTrie)))))
    as Hc by (vm_compute; reflexivity).
  split; [exact sha256Hash_unfailing|]. split; [exact H1|]. split; [exact H2|].
  split; [exact Hc|].
  exact (proj1 (equal_content_gives_equal_hashes sha256Hash emptyTrie _
                  sha256Hash_unfailing H1 H2 Hc)).
Defined.

(** X13: the root hash can be recomputed from a Merkle path.  In a trie
    reached with a digest that never returns an error, a path
    [FindMerklePath] returns ends with the set of the 16 slot hashes of
    the root and the set of the root hash, and the root hash is the digest
    of the Branch pre-image built from these 16 entries, nil read as an
    empty slot. *)
Theorem root_hash_is_digest_of_root_set (hs : crypto_Hash) (mt mt' : MerklePatriciaTrie)
    (key : list byte) (path : MerklePath)
    (Hdigest : unfailingDigest hs)
    (Hreach : reachable hs mt)
    (Hfind : FindMerklePath key mt = Ok path mt') :
  exists below slots h,
    path = below ++ [mkMerkleSet slots; mkMerkleSet [h]] /\
    hs (gob.stream (branchPreimage (map slotOfHash slots))) = Val h /\
    rootHash mt = Val h.
Proof.
  destruct (reachable_consistent hs mt Hdigest Hreach) as [Hc _].
  by eapply merkle_path_root_set.
Qed.

Lemma root_hash_is_digest_of_root_set_witness :
  unfailingDigest sha256Hash /\ reachable sha256Hash keyTrie /\
  FindMerklePath tests_key keyTrie = Ok keyPath keyTrie /\
  exists below slots h,
    keyPath = below ++ [mkMerkleSet slots; mkMerkleSet [h]] /\
    sha256Hash (gob.stream (branchPreimage (map slotOfHash slots))) = Val h /\
    rootHash keyTrie = Val h.
Proof.
  split; [exact sha256Hash_unfailing|]. split; [exact keyTrie_reachable|].
  split; [exact keyTrie_find_key|].
  exact (root_hash_is_digest_of_root_set sha256Hash keyTrie keyTrie tests_key keyPath
           sha256Hash_unfailing keyTrie_reachable keyTrie_find_key).
Defined.

(** X14: in a trie reached from a new one by Insert and Delete, with a
    digest that never returns an error, every Extension has a non-empty
    key and every child of a Branch sits in the slot [toChildIndex] gives
    for the first character of its key.  As [toChildIndex] answers 0 to 9
    only, the slots 10 to 15 of every Branch on a lookup path are empty. *)
Theorem children_sit_in_the_slot_of_their_first_character
    (hs : crypto_Hash) (mt : MerklePatriciaTrie)
    (Hdigest : unfailingDigest hs)
    (Hreach : reachable hs mt) :
  keyedBranch (root mt) = true /\
  forall key trail, branchPath (root mt) key trail ->
    (forall e, In (VisitExtension e) trail -> Extension.Key e <> []) /\
    (forall b i e, In (VisitBranch b) trail ->
       Branch.ListChildren b !! i = Some (Some e) ->
       i < 10 /\ exists c, Extension.Key e !! 0 = Some c /\ toChildIndex c = Val i).
Proof.
  pose proof (built_keyed hs mt (reachable_built hs mt Hdigest Hreach)) as Hkeyed.
  split; [done|]. intros key trail Hpath.
  pose proof (proj2 path_keyed _ _ _ Hpath Hkeyed) as Hall.
  rewrite List.Forall_forall in Hall. split.
  - intros e He. apply Hall in He. simpl in He.
    by apply keyedExtension_true in He as [He _].
  - intros b i e Hb He. apply Hall in Hb. simpl in Hb.
    by eapply keyedBranch_low_slots.
Qed.

Lemma children_sit_in_the_slot_of_their_first_character_witness :
  unfailingDigest sha256Hash /\ reachable sha256Hash keyAndKTrie /\
  keyedBranch (root keyAndKTrie) = true.
Proof.
  split; [exact sha256Hash_unfailing|]. split; [exact keyAndKTrie_reachable|].
  exact (proj1 (children_sit_in_the_slot_of_their_first_character sha256Hash keyAndKTrie
                  sha256Hash_unfailing keyAndKTrie_reachable)).
Defined.

(** X15: [Append] stores the node in the slot of the first character of
    its key when that slot is empty: [ChildAt] then returns the node,
    [Count] is one more, the cached hash is left as it was, and [Delete] of
    that character gives the Branch back.  On an occupied slot it returns
    the child-exists error. *)
Theorem append_fills_the_empty_slot (n : nodeExtension) (b : nodeBranch) :
  match Branch.Append n b with
  | Val b' =>
      exists c,
        Extension.Key n !! 0 = Some c /\
        Branch.HasChildAt c b = Val false /\
        Branch.HasChildAt c b' = Val true /\
        Branch.ChildAt c b' = Val (Some n) /\
        Branch.Count b' = S (Branch.Count b) /\
        Branch.hash b' = Branch.hash b /\
        Branch.Delete c b' = Val b
  | Fail err =>
      exists c,
        Extension.Key n !! 0 = Some c /\ err = ErrChildExists c /\
        Branch.HasChildAt c b = Val true
  | Abort _ =>
      Extension.Key n = [] \/
      exists c, Extension.Key n !! 0 = Some c /\
                (isHexDigit c = false \/
                 exists i, toChildIndex c = Val i /\
                           length (Branch.ListChildren b) <= i)
  end.
Proof.
  destruct (Branch.Append n b) as [b'|err|msg] eqn:Happ.
  - apply Branch_Append_Val in Happ as (c & i & Hc & Hi & He & ->).
    pose proof (lookup_lt_Some _ _ _ He) as Hlt.
    exists c. destruct b as [h cs]. simpl in *.
    split; [done|]. split; [by rewrite (HasChildAt_lookup c i _ None)|].
    assert (<[i := Some n]> cs !! i = Some (Some n)) as Hn
      by (by apply list_lookup_insert_eq).
    split; [by rewrite (HasChildAt_lookup c i _ (Some n))|].
    split; [rewrite (ChildAt_lookup c i) by done; by apply index_head_at|].
    split; [by apply countFrom_insert_vacant|]. split; [done|].
    rewrite (Branch_Delete_held c i n) by done. simpl.
    by rewrite list_insert_insert_eq, list_insert_id.
  - unfold Branch.Append in Happ.
    destruct (index (Extension.Key n) 0) as [c| |] eqn:Hc;
      [|by apply index_not_Fail in Hc|done]. simpl in Happ.
    destruct (toChildIndex c) as [i| |] eqn:Hi;
      [|by apply toChildIndex_not_Fail in Hi|done]. simpl in Happ.
    destruct (index (Branch.ListChildren b) i) as [[x|]| |] eqn:He;
      [|by apply store_not_Fail in Happ|by apply index_not_Fail in He|done].
    simpl in Happ. injection Happ as <-. apply index_Val in Hc, He.
    exists c. split; [done|]. split; [done|].
    by rewrite (HasChildAt_lookup c i _ (Some x)).
  - unfold Branch.Append in Happ.
    destruct (Extension.Key n) as [|c k] eqn:Hk; [by left|]. right.
    exists c. split; [done|]. simpl in Happ.
    destruct (toChildIndex c) as [i| |] eqn:Hi;
      [|by apply toChildIndex_not_Fail in Hi|].
    + right. exists i. split; [done|]. simpl in Happ.
      unfold index in Happ.
      destruct (Branch.ListChildren b !! i) as [[x|]|] eqn:He; simpl in Happ.
      * done.
      * rewrite store_Val in Happ by (by eapply lookup_lt_Some). done.
      * by apply lookup_ge_None in He.
    + left. destruct (isHexDigit c) eqn:Hd; [|done].
      apply isHexDigit_toChildIndex in Hd as (i & Hi' & _). congruence.
Qed.

(** X16: [Delete] empties the slot of the character when it holds a
    child: [HasChildAt] is then false, [Count] is one less and the cached
    hash is left as it was.  On an empty slot it returns the child-missing
    error. *)
Theorem delete_empties_the_occupied_slot (c : byte) (b : nodeBranch) :
  match Branch.Delete c b with
  | Val b' =>
      Branch.HasChildAt c b = Val true /\
      Branch.HasChildAt c b' = Val false /\
      S (Branch.Count b') = Branch.Count b /\
      Branch.hash b' = Branch.hash b /\
      length (Branch.ListChildren b') = length (Branch.ListChildren b)
  | Fail err => err = ErrChildMissing c /\ Branch.HasChildAt c b = Val false
  | Abort _ =>
      isHexDigit c = false \/
      exists i, toChildIndex c = Val i /\ length (Branch.ListChildren b) <= i
  end.
Proof.
  unfold Branch.Delete.
  destruct (toChildIndex c) as [i| |] eqn:Hi; simpl;
    [|by apply toChildIndex_not_Fail in Hi|].
  - unfold index. destruct (Branch.ListChildren b !! i) as [[x|]|] eqn:He; simpl.
    + pose proof (lookup_lt_Some _ _ _ He) as Hlt.
      rewrite store_Val by done. destruct b as [h cs]. simpl in *.
      split; [by rewrite (HasChildAt_lookup c i _ (Some x))|].
      split; [rewrite (HasChildAt_lookup c i _ None); [done|done|];
              by apply list_lookup_insert_eq|].
      split; [by eapply countFrom_delete_held|]. split; [done|].
      by rewrite length_insert.
    + split; [done|]. by rewrite (HasChildAt_lookup c i _ None).
    + right. exists i. split; [done|]. by apply lookup_ge_None in He.
  - left. destruct (isHexDigit c) eqn:Hd; [|done].
    apply isHexDigit_toChildIndex in Hd as (i & Hi' & _). congruence.
Qed.

(** X17: [Count] is the number of occupied slots, never more than the
    slots there are; [First] returns the child of the lowest occupied
    slot, and nil exactly when [Count] is 0. *)
Theorem first_is_the_lowest_child (b : nodeBranch) (e : nodeExtension) :
  Branch.Count b <= length (Branch.ListChildren b) /\
  Branch.Count b = length (filter (fun c => is_Some c) (Branch.ListChildren b)) /\
  (Branch.First b = None <-> Branch.Count b = 0) /\
  (Branch.First b = Some e <->
   exists i, Branch.ListChildren b !! i = Some (Some e) /\
             forall j, j < i -> Branch.ListChildren b !! j = Some None).
Proof.
  destruct b as [h cs]. unfold Branch.Count, Branch.First. simpl.
  split; [apply (countFrom_bound cs 0)|]. split; [|split].
  - apply (countFrom_filter cs 0).
  - apply firstFrom_None.
  - apply firstFrom_lowest.
Qed.

(** X18: a [NewNodeBranchWithChildren] that succeeds was given two nodes
    whose keys start with different characters; the new Branch has 16
    slots and holds the second node in the slot of its first character.
    It holds both nodes, with [Count] 2, exactly when [toChildIndex] sends
    the two characters to different slots; when it sends them to the same
    slot the second node has replaced the first and [Count] is 1. *)
Theorem new_branch_keeps_both_children_on_distinct_slots
    (a b : nodeExtension) (hs : crypto_Hash) (n : nodeBranch)
    (Hnew : NewNodeBranchWithChildren a b hs = Val n) :
  exists ca cb ia ib,
    Extension.Key a !! 0 = Some ca /\ Extension.Key b !! 0 = Some cb /\ ca <> cb /\
    toChildIndex ca = Val ia /\ toChildIndex cb = Val ib /\
    length (Branch.ListChildren n) = ChildIndexCount /\
    Branch.ChildAt cb n = Val (Some b) /\
    (ia <> ib -> Branch.ChildAt ca n = Val (Some a) /\ Branch.Count n = 2) /\
    (ia = ib -> Branch.ChildAt ca n = Val (Some b) /\ Branch.Count n = 1).
Proof.
  destruct (NewNodeBranchWithChildren_children _ _ _ _ Hnew)
    as (ca & cb & ia & ib & Hca & Hcb & Hne & Hia & Hib & Hcs).
  destruct (toChildIndex_Val _ _ Hia) as [_ Hia10].
  destruct (toChildIndex_Val _ _ Hib) as [_ Hib10].
  exists ca, cb, ia, ib. repeat split; try done.
  - by rewrite Hcs, !length_insert, length_replicate.
  - rewrite (ChildAt_lookup cb ib) by done. rewrite Hcs. apply index_head_at.
    apply list_lookup_insert_eq. rewrite length_insert, length_replicate.
    unfold ChildIndexCount. lia.
  - rewrite (ChildAt_lookup ca ia) by done. rewrite Hcs. apply index_head_at.
    rewrite list_lookup_insert_ne by done.
    apply list_lookup_insert_eq. rewrite length_replicate. unfold ChildIndexCount. lia.
  - unfold Branch.Count. rewrite Hcs.
    rewrite countFrom_insert_vacant.
    + rewrite countFrom_insert_vacant; [by rewrite countFrom_replicate|].
      apply lookup_replicate_2. unfold ChildIndexCount. lia.
    + rewrite list_lookup_insert_ne by done.
      apply lookup_replicate_2. unfold ChildIndexCount. lia.
  - subst ib. rewrite (ChildAt_lookup ca ia) by done. rewrite Hcs. apply index_head_at.
    apply list_lookup_insert_eq. rewrite length_insert, length_replicate.
    unfold ChildIndexCount. lia.
  - subst ib. unfold Branch.Count. rewrite Hcs.
    rewrite (countFrom_insert_held _ _ _ a).
    + rewrite countFrom_insert_vacant; [by rewrite countFrom_replicate|].
      apply lookup_replicate_2. unfold ChildIndexCount. lia.
    + apply list_lookup_insert_eq. rewrite length_replicate. unfold ChildIndexCount. lia.
Qed.

Lemma new_branch_keeps_both_children_on_distinct_slots_witness :
  NewNodeBranchWithChildren leaf_1 leaf_b sha256Hash = Val branch_1b /\
  toChildIndex "1" = Val 1 /\ toChildIndex "b" = Val 1 /\
  Branch.Count branch_1b = 1 /\
  exists ca cb ia ib,
    Extension.Key leaf_1 !! 0 = Some ca /\ Extension.Key leaf_b !! 0 = Some cb /\
    ca <> cb /\
    toChildIndex ca = Val ia /\ toChildIndex cb = Val ib /\
    length (Branch.ListChildren branch_1b) = ChildIndexCount /\
    Branch.ChildAt cb branch_1b = Val (Some leaf_b) /\
    (ia <> ib -> Branch.ChildAt ca branch_1b = Val (Some leaf_1) /\
                 Branch.Count branch_1b = 2) /\
    (ia = ib -> Branch.ChildAt ca branch_1b = Val (Some leaf_b) /\
                Branch.Count branch_1b = 1).
Proof.
  split; [exact branch_1b_new|]. split; [reflexivity|]. split; [reflexivity|].
  split; [reflexivity|].
  exact (new_branch_keeps_both_children_on_distinct_slots leaf_1 leaf_b sha256Hash
           branch_1b branch_1b_new).
Defined.

(** X19: the text [MerklePath.MarshalJSON] writes determines the path: two
    paths with the same text have the same sets of the same hashes in the
    same order.  The call never returns an error. *)
Theorem merkle_path_text_determines_the_path (p q : MerklePath)
    (Htext : MerklePath_MarshalJSON p = MerklePath_MarshalJSON q) :
  p = q /\ exists text, MerklePath_MarshalJSON p = Val text.
Proof.
  split; [by apply MerklePath_MarshalJSON_inj|]. by eexists.
Qed.

Lemma merkle_path_text_determines_the_path_witness :
  MerklePath_MarshalJSON keyPath = MerklePath_MarshalJSON keyPath /\
  length keyPath = 3 /\
  exists text, MerklePath_MarshalJSON keyPath = Val text.
Proof.
  split; [reflexivity|]. split; [reflexivity|].
  exact (proj2 (merkle_path_text_determines_the_path keyPath keyPath eq_refl)).
Defined.

(** ** The worked cases of Delete *)

Lemma keyAndKTrie_delete_key : Delete tests_key keyAndKTrie = Ok tt kLeftTrie.
Proof. apply (Delete_by_root tests_key keyAndKTrie tt kLeftRoot). vm_compute. reflexivity. Qed.

Lemma keyAndKTrie_stores_k : storedWith keyAndKTrie key_k value5.
Proof. exact (proj1 (Insert_Ok_storedWith _ _ _ _ _ keyTrie_insert_k)). Qed.

Lemma keyTrie_leaf :
  exists e, branchPath (root keyTrie) (hex.EncodeToString tests_key)
              ([VisitExtension e] ++ [VisitBranch keyRoot]) /\
            beforeBranch e = false.
Proof.
  eexists. split.
  - eapply path_child; [reflexivity|reflexivity|reflexivity|].
    eapply path_here; reflexivity.
  - reflexivity.
Qed.

Lemma kBranchTrie_reachable : reachable sha256Hash kBranchTrie.
Proof.
  assert (reachable sha256Hash emptyTrie) as H0 by (apply reach_new; exact emptyTrie_new).
  assert (reachable sha256Hash kTrie) as H1.
  { eapply reach_insert; [exact H0|].
    rewrite (Insert_by_root key_k value5 emptyTrie tt kRoot) by (vm_compute; reflexivity).
    reflexivity. }
  assert (reachable sha256Hash kK1Trie) as H2.
  { eapply reach_insert; [exact H1|].
    rewrite (Insert_by_root key_k1 value5 kTrie tt kK1Root) by (vm_compute; reflexivity).
    reflexivity. }
  eapply reach_insert; [exact H2|].
  rewrite (Insert_by_root key_kA value5 kK1Trie tt kBranchRoot) by (vm_compute; reflexivity).
  reflexivity.
Qed.

Lemma kBranchTrie_leaf :
  exists e, branchPath (root kBranchTrie) (hex.EncodeToString key_k)
              ([VisitExtension e] ++ [VisitBranch kBranchRoot]) /\
            beforeBranch e = true.
Proof.
  eexists. split.
  - eapply path_child; [reflexivity|reflexivity|reflexivity|].
    eapply path_here; reflexivity.
  - reflexivity.
Qed.

(** X20: a [Delete] that returns nil keeps every other key: a key
    different from the deleted one that was stored with a value is stored
    with that value afterwards. *)
Theorem delete_keeps_the_other_keys (mt mt' : MerklePatriciaTrie)
    (key other value : list byte) (u : unit)
    (Hdel : Delete key mt = Ok u mt')
    (Hother : storedWith mt other value)
    (Hne : other <> key) :
  storedWith mt' other value /\ stored mt' other.
Proof.
  pose proof (Delete_keeps _ _ _ _ _ _ Hdel Hother Hne) as Hkept.
  split; [done|]. destruct Hkept as (trail & Hpath & _). by exists trail.
Qed.

Lemma delete_keeps_the_other_keys_witness :
  Delete tests_key keyAndKTrie = Ok tt kLeftTrie /\
  storedWith keyAndKTrie key_k value5 /\ key_k <> tests_key /\
  storedWith kLeftTrie key_k value5.
Proof.
  assert (key_k <> tests_key) as Hne by discriminate.
  split; [exact keyAndKTrie_delete_key|]. split; [exact keyAndKTrie_stores_k|].
  split; [exact Hne|].
  exact (proj1 (delete_keeps_the_other_keys keyAndKTrie kLeftTrie tests_key key_k value5 tt
                  keyAndKTrie_delete_key keyAndKTrie_stores_k Hne)).
Defined.

(** X21: in a trie reached from a new one by Insert and Delete, with a
    digest that never returns an error, a [Delete] that returns nil for a
    key whose Extension is not followed by a Branch removes the key: it is
    not stored afterwards, so neither a second [Delete] nor
    [FindMerklePath] succeeds on it. *)
Theorem delete_removes_the_key (hs : crypto_Hash) (mt mt' : MerklePatriciaTrie)
    (key : list byte) (trail : list visited) (leaf : nodeExtension) (u : unit)
    (Hdigest : unfailingDigest hs)
    (Hreach : reachable hs mt)
    (Hpath : branchPath (root mt) (hex.EncodeToString key) trail)
    (Hleaf : leafOf trail = Some leaf)
    (Hnext : beforeBranch leaf = false)
    (Hdel : Delete key mt = Ok u mt') :
  ~ stored mt' key /\
  (forall u2 mt2, Delete key mt' <> Ok u2 mt2) /\
  (forall path mt2, FindMerklePath key mt' <> Ok path mt2).
Proof.
  pose proof (built_keyed hs mt (reachable_built hs mt Hdigest Hreach)) as Hkeyed.
  pose proof (Delete_removes _ _ _ _ _ _ Hkeyed Hpath Hleaf Hnext Hdel) as Hgone.
  split; [done|]. split.
  - intros u2 mt2 Hagain. by apply Delete_success_stored in Hagain.
  - intros path mt2 Hfind.
    destruct (FindMerklePath_Ok_path _ _ _ _ Hfind) as (trail' & Hpath' & _).
    apply Hgone. by exists trail'.
Qed.

Lemma delete_removes_the_key_witness :
  unfailingDigest sha256Hash /\ reachable sha256Hash keyTrie /\
  Delete tests_key keyTrie = Ok tt emptyTrie /\
  ~ stored emptyTrie tests_key.
Proof.
  split; [exact sha256Hash_unfailing|]. split; [exact keyTrie_reachable|].
  split; [exact keyTrie_delete_key|].
  destruct keyTrie_leaf as (e & Hpath & Hnext).
  exact (proj1 (delete_removes_the_key sha256Hash keyTrie emptyTrie tests_key _ e tt
                  sha256Hash_unfailing keyTrie_reachable Hpath eq_refl Hnext
                  keyTrie_delete_key)).
Defined.

(** X22: in a trie reached from a new one by Insert and Delete, with a
    digest that never returns an error, [Delete] of a stored key whose
    Extension is followed by a Branch returns nil and leaves the trie
    exactly as it was, hashes included: the key and its value stay
    stored. *)
Theorem delete_before_branch_changes_nothing (hs : crypto_Hash) (mt : MerklePatriciaTrie)
    (key : list byte) (trail : list visited) (leaf : nodeExtension)
    (Hdigest : unfailingDigest hs)
    (Hreach : reachable hs mt)
    (Hpath : branchPath (root mt) (hex.EncodeToString key) trail)
    (Hleaf : leafOf trail = Some leaf)
    (Hnext : beforeBranch leaf = true) :
  Delete key mt = Ok tt mt /\ stored mt key.
Proof.
  destruct (reachable_consistent hs mt Hdigest Hreach) as [Hc Hhs].
  split; [|by exists trail].
  eapply Delete_before_branch; [by rewrite Hhs|exact Hpath|exact Hleaf|exact Hnext].
Qed.

Lemma delete_before_branch_changes_nothing_witness :
  unfailingDigest sha256Hash /\ reachable sha256Hash kBranchTrie /\
  Delete key_k kBranchTrie = Ok tt kBranchTrie.
Proof.
  split; [exact sha256Hash_unfailing|]. split; [exact kBranchTrie_reachable|].
  destruct kBranchTrie_leaf as (e & Hpath & Hnext).
  exact (proj1 (delete_before_branch_changes_nothing sha256Hash kBranchTrie key_k _ e
                  sha256Hash_unfailing kBranchTrie_reachable Hpath eq_refl Hnext)).
Defined.

Lemma lookups_at_vacant_slot hs b key c i :
  key !! 0 = Some c -> toChildIndex c = Val i ->
  Branch.ListChildren b !! i = Some None ->
  deleteKeyInBranch hs key b = Err (ErrNotFoundUnderBranch c) b /\
  merklePathInBranch key b = Err (ErrNotFoundUnderBranch c) b.
Proof.
  intros Hc Hi Hnone. destruct b as [h cs]. simpl in Hnone. split.
  - simpl deleteKeyInBranch. rewrite (index_head _ c) by done. simpl. rewrite Hi. simpl.
    by rewrite atChild_lookup, Hnone.
  - simpl merklePathInBranch. rewrite (index_head _ c) by done. simpl. rewrite Hi. simpl.
    by rewrite atChild_lookup, Hnone.
Qed.

(** X23: an [Insert] that returns nil keeps every other key, unless the
    two hex keys carry at some position different characters of the same
    slot: a key other than the inserted one that was stored with a value,
    and is slot-compatible with the inserted key, is stored with that value
    afterwards, next to the inserted key with its value. *)
Theorem insert_keeps_the_other_keys_without_slot_collision
    (mt mt' : MerklePatriciaTrie) (key value other value' : list byte) (u : unit)
    (Hins : Insert key value mt = Ok u mt')
    (Hother : storedWith mt other value')
    (Hne : other <> key)
    (Hslots : slotCompatible (hex.EncodeToString key) (hex.EncodeToString other)) :
  storedWith mt' other value' /\ storedWith mt' key value.
Proof.
  split; [by eapply Insert_keeps|]. by eapply Insert_Ok_storedWith.
Qed.

Lemma insert_keeps_the_other_keys_without_slot_collision_witness :
  Insert key_k value5 keyTrie = Ok tt keyAndKTrie /\
  storedWith keyTrie tests_key value5 /\ tests_key <> key_k /\
  slotCompatible (hex.EncodeToString key_k) (hex.EncodeToString tests_key) /\
  storedWith keyAndKTrie tests_key value5 /\ storedWith keyAndKTrie key_k value5.
Proof.
  assert (tests_key <> key_k) as Hne by discriminate.
  split; [exact keyTrie_insert_k|]. split; [exact keyTrie_stores_key|].
  split; [exact Hne|]. split; [exact k_key_slotCompatible|].
  exact (insert_keeps_the_other_keys_without_slot_collision keyTrie keyAndKTrie key_k value5
           tests_key value5 tt keyTrie_insert_k keyTrie_stores_key Hne k_key_slotCompatible).
Defined.

(** X24: two different characters share a slot of [toChildIndex] only as a
    letter digit 'a' to 'f' and the decimal digit '0' to '5' of the same
    slot; on the decimal digits alone and on the letters alone
    [toChildIndex] is one-to-one. *)
Theorem slot_collisions_pair_a_letter_with_a_digit (c1 c2 : byte) (i : nat)
    (H1 : toChildIndex c1 = Val i)
    (H2 : toChildIndex c2 = Val i)
    (Hne : c1 <> c2) :
  i < 6 /\
  ((c1 = hex.digit (N.of_nat i) /\ c2 = hex.digit (N.of_nat (i + 10))) \/
   (c1 = hex.digit (N.of_nat (i + 10)) /\ c2 = hex.digit (N.of_nat i))).
Proof.
  apply toChildIndex_Val_cases in H1 as [E1|[Hi E1]];
    apply toChildIndex_Val_cases in H2 as [E2|[Hi' E2]].
  - congruence.
  - split; [done|]. by left.
  - split; [done|]. by right.
  - congruence.
Qed.

Lemma slot_collisions_pair_a_letter_with_a_digit_witness :
  toChildIndex "1" = Val 1 /\ toChildIndex "b" = Val 1 /\
  "1"%byte <> "b"%byte /\ 1 < 6.
Proof.
  assert ("1"%byte <> "b"%byte) as Hne by discriminate.
  split; [reflexivity|]. split; [reflexivity|]. split; [exact Hne|].
  exact (proj1 (slot_collisions_pair_a_letter_with_a_digit "1" "b" 1 eq_refl eq_refl Hne)).
Defined.

(** X25: a trie [NewMerklePatriciaTrie] returns carries the digest given,
    stores no key, and its root hash is the digest of the pre-image of a
    Branch with 16 empty slots.  [Delete] and [FindMerklePath] of a
    non-empty key return the not-found-under-branch error and leave it as
    it is; with a digest that answers every input with a non-empty blob,
    [Insert] of a non-empty key returns nil. *)
Theorem new_trie_is_empty (digest : crypto_Hash) (mt : MerklePatriciaTrie)
    (Hnew : NewMerklePatriciaTrie digest = Val mt) :
  hs mt = digest /\
  (forall key, ~ stored mt key) /\
  digest (gob.stream (branchPreimage (replicate 16 None))) = Val (Branch.hash (root mt)) /\
  (forall key, key <> [] ->
     exists c,
       Delete key mt = Err (ErrWrap "failed to delete key" (ErrNotFoundUnderBranch c)) mt /\
       FindMerklePath key mt = Err (ErrNotFoundUnderBranch c) mt) /\
  (totalDigest digest ->
   forall key value, key <> [] -> exists mt', Insert key value mt = Ok tt mt').
Proof.
  destruct (NewMerklePatriciaTrie_root _ _ Hnew) as (Hhs & Hcs & Hhash).
  split; [done|]. split; [|split; [done|split]].
  - intros key [trail Hpath]. by eapply empty_root_stores_nothing.
  - intros key Hkey. destruct key as [|v key]; [done|].
    destruct (isHexDigit_toChildIndex _ (hex_digit_high v)) as (i & Hi & Hlt).
    exists (hex.digit (Byte.to_N v / 16)).
    destruct (lookups_at_vacant_slot (hs mt) (root mt) (hex.EncodeToString (v :: key))
                (hex.digit (Byte.to_N v / 16)) i) as [Hdel Hfind]; try done.
    { rewrite Hcs. apply lookup_replicate_2. unfold ChildIndexCount. lia. }
    unfold Delete, FindMerklePath. rewrite !decide_False by done.
    rewrite Hdel, Hfind. by rewrite trie_eta.
  - intros Hd key value Hkey. by eapply Insert_into_new.
Qed.

Lemma new_trie_is_empty_witness :
  NewMerklePatriciaTrie sha256Hash = Val emptyTrie /\
  (forall key, ~ stored emptyTrie key) /\
  sha256Hash (gob.stream (branchPreimage (replicate 16 None)))
    = Val (Branch.hash (root emptyTrie)).
Proof.
  split; [exact emptyTrie_new|].
  pose proof (new_trie_is_empty sha256Hash emptyTrie emptyTrie_new) as (_ & Hnone & Hhash & _).
  split; [exact Hnone|exact Hhash].
Defined.

(** ** The worked case of a digest without collisions *)

Lemma prefixDigest_collision_free : collisionFree prefixDigest.
Proof. intros s1 s2 h [= <-] [= H]. done. Qed.

Lemma prefixDigest_unfailing : unfailingDigest prefixDigest.
Proof. intros s e. discriminate. Qed.

Lemma prefixEmptyTrie_new : NewMerklePatriciaTrie prefixDigest = Val prefixEmptyTrie.
Proof. apply (NewMerklePatriciaTrie_by_root prefixDigest prefixEmptyRoot). vm_compute. reflexivity. Qed.

Lemma prefixEmptyTrie_insert_key : Insert tests_key value5 prefixEmptyTrie = Ok tt prefixKeyTrie.
Proof. apply (Insert_by_root tests_key value5 prefixEmptyTrie tt prefixKeyRoot). vm_compute. reflexivity. Qed.

Lemma prefixKeyTrie_insert_k : Insert key_k value5 prefixKeyTrie = Ok tt prefixKeyAndKTrie.
Proof. apply (Insert_by_root key_k value5 prefixKeyTrie tt prefixKeyAndKRoot). vm_compute. reflexivity. Qed.

Lemma prefixKeyAndKTrie_delete_k : Delete key_k prefixKeyAndKTrie = Ok tt prefixKeyTrie.
Proof. apply (Delete_by_root key_k prefixKeyAndKTrie tt prefixKeyRoot). vm_compute. reflexivity. Qed.

Lemma prefixKeyTrie_reachable : reachable prefixDigest prefixKeyTrie.
Proof.
  apply (reach_insert _ prefixEmptyTrie tests_key value5).
  - apply reach_new. exact prefixEmptyTrie_new.
  - by rewrite prefixEmptyTrie_insert_key.
Qed.

Lemma prefixKeyTrie_again_reachable : reachable prefixDigest prefixKeyTrie.
Proof.
  apply (reach_delete _ prefixKeyAndKTrie key_k).
  - apply (reach_insert _ prefixKeyTrie key_k value5); [exact prefixKeyTrie_reachable|].
    by rewrite prefixKeyTrie_insert_k.
  - by rewrite prefixKeyAndKTrie_delete_k.
Qed.

(** X26: the root hash binds the content.  For a digest without
    collisions that never returns an error, two reached tries whose keys,
    values and hashes are small blobs and whose root hashes are equal are
    the same trie, node for node, and so store the same keys with the same
    values. *)
Theorem root_hash_binds_the_content (hs : crypto_Hash) (mt1 mt2 : MerklePatriciaTrie)
    (Hfree : collisionFree hs)
    (Hdigest : unfailingDigest hs)
    (Hreach1 : reachable hs mt1)
    (Hreach2 : reachable hs mt2)
    (Hsmall1 : boundedBranch (root mt1) = true)
    (Hsmall2 : boundedBranch (root mt2) = true)
    (Hhash : rootHash mt1 = rootHash mt2) :
  mt1 = mt2 /\
  forall key value, storedWith mt1 key value <-> storedWith mt2 key value.
Proof.
  destruct (reachable_consistent hs mt1 Hdigest Hreach1) as [H1 Hhs1].
  destruct (reachable_consistent hs mt2 Hdigest Hreach2) as [H2 Hhs2].
  assert (Branch.hash (root mt1) = Branch.hash (root mt2)) as Hh.
  { unfold rootHash, Branch.Hash, nodeBase_Hash in Hhash.
    destruct (decide (length (Branch.hash (root mt1)) = 0)) as [E1|E1];
      destruct (decide (length (Branch.hash (root mt2)) = 0)) as [E2|E2];
      try discriminate.
    - apply nil_length_inv in E1, E2. congruence.
    - by injection Hhash. }
  assert (root mt1 = root mt2) as Hroot
    by (by apply (proj2 (hash_binds_node hs Hfree))).
  assert (mt1 = mt2) as ->.
  { destruct mt1, mt2. simpl in *. congruence. }
  done.
Qed.

Lemma root_hash_binds_the_content_witness :
  collisionFree prefixDigest /\ unfailingDigest prefixDigest /\
  reachable prefixDigest prefixKeyTrie /\
  boundedBranch (root prefixKeyTrie) = true /\
  forall key value,
    storedWith prefixKeyTrie key value <-> storedWith prefixKeyTrie key value.
Proof.
  assert (boundedBranch (root prefixKeyTrie) = true) as Hsmall by (vm_compute; reflexivity).
  split; [exact prefixDigest_collision_free|]. split; [exact prefixDigest_unfailing|].
  split; [exact prefixKeyTrie_reachable|]. split; [exact Hsmall|].
  exact (proj2 (root_hash_binds_the_content prefixDigest prefixKeyTrie prefixKeyTrie
                  prefixDigest_collision_free prefixDigest_unfailing
                  prefixKeyTrie_reachable prefixKeyTrie_again_reachable
                  Hsmall Hsmall eq_refl)).
Defined.

(** X27: the rendering of a node as text never returns an error and never
    panics, whatever the tree; it hands the logger one warning for every
    value of more than 100 bytes under the node and leaves the earlier
    lines of the log alone. *)
Theorem rendering_never_fails_and_warns_once_per_long_value
    (b : nodeBranch) (e : nodeExtension) (log : warnings) :
  (exists j, Branch_MarshalJSON b log
             = (Val j, log ++ replicate (oversizedBranch b) tooLargeValue)) /\
  (exists j, Extension_MarshalJSON e log
             = (Val j, log ++ replicate (oversizedExtension e) tooLargeValue)).
Proof.
  destruct MarshalJSON_short as [He Hb].
  destruct (Hb b) as [jb Hjb]. destruct (He e) as [je Hje].
  split; [exists jb; apply Hjb|exists je; apply Hje].
Qed.

(** X28: the rendering shows the first 100 bytes of a value only.  A node
    and the same node with every value cut to 100 bytes give the same
    text, whatever the logs, and the cut node gives no warning. *)
Theorem rendering_shows_only_the_first_100_bytes_of_a_value
    (b : nodeBranch) (e : nodeExtension) (log log' : warnings) :
  fst (Branch_MarshalJSON b log) = fst (Branch_MarshalJSON (shortBranch b) log') /\
  fst (Extension_MarshalJSON e log) = fst (Extension_MarshalJSON (shortExtension e) log') /\
  snd (Branch_MarshalJSON (shortBranch b) log') = log' /\
  snd (Extension_MarshalJSON (shortExtension e) log') = log'.
Proof.
  destruct MarshalJSON_short as [He Hb].
  destruct (Hb b) as [jb Hjb]. destruct (He e) as [je Hje].
  destruct (Hjb log) as [-> _]. destruct (Hjb log') as [_ ->].
  destruct (Hje log) as [-> _]. destruct (Hje log') as [_ ->].
  done.
Qed.
